(** * libtorrent core: a shallow embedding of the transfer list, the resource
    manager, the tracker list and transports, and the socket stream.

    Each C++ member function is embedded as a Rocq function on an explicit
    state; a C++ exception is a [Throw] outcome that carries the state the
    object is left in at the point of the throw. *)

From Stdlib Require Import String ZArith List Bool Lia Sorted.
From Stdlib Require Import Permutation.
Import ListNotations.
Open Scope Z_scope.
Set Warnings "-register-all".

(** ** Exceptions (torrent/exceptions.h) and the outcome of a call *)

Inductive exn : Type :=
| internal_error (msg : string)
| input_error (msg : string)
| close_connection
| blocked_connection
| connection_error (err : Z)
| out_of_range
| undefined_behaviour (what : string).

Inductive outcome (A : Type) : Type :=
| Return (a : A)
| Throw (e : exn).
Arguments Return {A} a.
Arguments Throw {A} e.

(** A computation on a state [St]: the outcome and the state it leaves. *)
Definition M (St A : Type) : Type := St -> outcome A * St.

Definition ret {St A} (a : A) : M St A := fun s => (Return a, s).
Definition throw {St A} (e : exn) : M St A := fun s => (Throw e, s).
Definition bind {St A B} (m : M St A) (k : A -> M St B) : M St B :=
  fun s => match m s with
           | (Return a, s') => k a s'
           | (Throw e, s') => (Throw e, s')
           end.
Definition get {St} : M St St := fun s => (Return s, s).
Definition put {St} (s : St) : M St unit := fun _ => (Return tt, s).
Definition modify {St} (f : St -> St) : M St unit := fun s => (Return tt, f s).

Declare Scope cxx_scope.
Delimit Scope cxx_scope with cxx.
Notation "x <- m ;; k" := (bind m (fun x => k))
  (at level 100, m at next level, right associativity) : cxx_scope.
Notation "m ;;; k" := (bind m (fun _ => k))
  (at level 100, right associativity) : cxx_scope.

(** Fixed-width unsigned conversions, as C++ performs them implicitly. *)
Definition to_uint16 (v : Z) : Z := v mod 2 ^ 16.
Definition to_uint32 (v : Z) : Z := v mod 2 ^ 32.
Definition to_uint64 (v : Z) : Z := v mod 2 ^ 64.

(** ** Algorithms and containers of the C++ standard library *)

(** A std::vector is a list; an iterator into it is a position, [end()]
    being the length. *)
Module Std.

(** std::find_if on a whole vector: the position of the first element that
    satisfies [p], the length of the list when none does. *)
Fixpoint find_if {A} (p : A -> bool) (l : list A) : nat :=
  match l with
  | [] => O
  | x :: rest => if p x then O else S (find_if p rest)
  end.

(** std::find_if(itr, end(), p) *)
Definition find_if_from {A} (p : A -> bool) (l : list A) (itr : nat) : nat :=
  (itr + find_if p (skipn itr l))%nat.

(** vector::insert(pos, x) and vector::erase(pos) *)
Definition vector_insert {A} (pos : nat) (x : A) (l : list A) : list A :=
  firstn pos l ++ x :: skipn pos l.

Definition vector_erase {A} (pos : nat) (l : list A) : list A :=
  firstn pos l ++ skipn (S pos) l.

End Std.

(** ** SocketStream (src/net/socket_stream.cc) *)

Module SocketStream.

(** The descriptor with whatever the kernel holds for it. One call of the
    primitive [read_stream]/[write_stream] with a buffer length yields the
    [int] it returns, the value of [errno] afterwards, and the next state. *)
Class Stream (Fd : Type) : Type := {
  read_stream : Z -> Fd -> Z * Z * Fd;
  write_stream : Z -> Fd -> Z * Z * Fd
}.

(** The classification of rak::error_number (rak/error_number.h), taken as
    given: three predicates on the errno value. *)
Class ErrorNumber : Type := {
  is_blocked_momentary : Z -> bool;
  is_closed : Z -> bool;
  is_blocked_prolonged : Z -> bool
}.

Definition read_stream_throws {Fd} `{Stream Fd} `{ErrorNumber} (length : Z) : M Fd Z :=
  fun fd =>
    let '(r, errno, fd') := read_stream length fd in
    if r =? 0 then (Throw close_connection, fd')
    else if r <? 0 then
      if is_blocked_momentary errno then (Return 0, fd')
      else if is_closed errno then (Throw close_connection, fd')
      else if is_blocked_prolonged errno then (Throw blocked_connection, fd')
      else (Throw (connection_error errno), fd')
    else (Return r, fd').

Definition write_stream_throws {Fd} `{Stream Fd} `{ErrorNumber} (length : Z) : M Fd Z :=
  fun fd =>
    let '(r, errno, fd') := write_stream length fd in
    if r =? 0 then (Throw close_connection, fd')
    else if r <? 0 then
      if is_blocked_momentary errno then (Return 0, fd')
      else if is_closed errno then (Throw close_connection, fd')
      else if is_blocked_prolonged errno then (Throw blocked_connection, fd')
      else (Throw (connection_error errno), fd')
    else (Return r, fd').

(** The outcome of the if-chain of both wrappers, by the value returned and
    errno, with no assumption on the classes. *)
Definition chain `{ErrorNumber} (r errno : Z) : outcome Z :=
  if r =? 0 then Throw close_connection
  else if 0 <? r then Return r
  else if is_blocked_momentary errno then Return 0
  else if is_closed errno then Throw close_connection
  else if is_blocked_prolonged errno then Throw blocked_connection
  else Throw (connection_error errno).

(** What is said of one wrapper around one primitive [io]: the result for
    each class of outcome, on the state left by exactly one call of the
    primitive. *)
Definition classifies {Fd} `{ErrorNumber}
    (io : Z -> Fd -> Z * Z * Fd) (wrapper : Z -> M Fd Z) : Prop :=
  forall length fd r errno fd',
    io length fd = (r, errno, fd') ->
    (0 < r -> wrapper length fd = (Return r, fd')) /\
    (r = 0 -> wrapper length fd = (Throw close_connection, fd')) /\
    (r < 0 -> is_blocked_momentary errno = true ->
     wrapper length fd = (Return 0, fd')) /\
    (r < 0 -> is_closed errno = true ->
     wrapper length fd = (Throw close_connection, fd')) /\
    (r < 0 -> is_blocked_prolonged errno = true ->
     wrapper length fd = (Throw blocked_connection, fd')) /\
    (r < 0 -> is_blocked_momentary errno = false -> is_closed errno = false ->
     is_blocked_prolonged errno = false ->
     wrapper length fd = (Throw (connection_error errno), fd')).

(** The three classes do not overlap: an errno belongs to one at most. *)
Definition classes_disjoint `{ErrorNumber} : Prop :=
  forall e,
    (is_blocked_momentary e = true ->
     is_closed e = false /\ is_blocked_prolonged e = false) /\
    (is_closed e = true -> is_blocked_prolonged e = false).

(** A fake stream for tests: the scripted results [(r, errno)] of the calls
    still to come and the number of calls made so far. *)
Record FakeFd : Type := { script : list (Z * Z); calls : nat }.

Definition fake_io (_ : Z) (fd : FakeFd) : Z * Z * FakeFd :=
  match script fd with
  | [] => (0, 0, {| script := []; calls := S (calls fd) |})
  | (r, e) :: rest => (r, e, {| script := rest; calls := S (calls fd) |})
  end.

Definition FakeStream : Stream FakeFd :=
  {| read_stream := fake_io; write_stream := fake_io |}.

(** Linux errno values of the scenario in the specification. *)
Definition EAGAIN : Z := 11.
Definition ECONNRESET : Z := 104.
Definition ENOBUFS : Z := 105.
Definition EINVAL : Z := 22.

Definition ScenarioErrors : ErrorNumber :=
  {| is_blocked_momentary := fun e => e =? EAGAIN;
     is_closed := fun e => e =? ECONNRESET;
     is_blocked_prolonged := fun e => e =? ENOBUFS |}.

End SocketStream.

(** ** Big-endian byte strings (net/protocol_buffer.h) *)

(** Modelled from the spec: ProtocolBuffer (net/protocol_buffer.h is not among
    the sources). A byte is a [Z] in [0, 256); the buffer is the list of bytes
    between its begin and its end; [write_16], [write_32] and [write_64] append
    the value in network byte order (most significant byte first),
    [write_32_n] appends a value that is already in network byte order,
    [write_range] appends a byte range, [reset] empties the buffer and
    [size_end] is the number of bytes written. *)
Module ProtocolBuffer.

Definition buffer : Type := list Z.

Fixpoint be (n : nat) (v : Z) : list Z :=
  match n with
  | O => []
  | S k => (Z.shiftr v (8 * Z.of_nat k)) mod 256 :: be k v
  end.

Fixpoint be_value (bytes : list Z) (acc : Z) : Z :=
  match bytes with
  | [] => acc
  | b :: rest => be_value rest (acc * 256 + b)
  end.

Definition reset (_ : buffer) : buffer := [].
Definition write_16 (v : Z) (b : buffer) : buffer := b ++ be 2 (to_uint16 v).
Definition write_32 (v : Z) (b : buffer) : buffer := b ++ be 4 (to_uint32 v).
Definition write_32_n (v : Z) (b : buffer) : buffer := b ++ be 4 (to_uint32 v).
Definition write_64 (v : Z) (b : buffer) : buffer := b ++ be 8 (to_uint64 v).
Definition write_range (r : list Z) (b : buffer) : buffer := b ++ r.
Definition size_end (b : buffer) : Z := Z.of_nat (length b).

(** The bytes at offsets [off, off + len). *)
Definition slice (off len : nat) (b : buffer) : list Z := firstn len (skipn off b).

End ProtocolBuffer.

(** ** TrackerUdp (src/tracker/tracker_udp.cc) *)

Module TrackerUdp.
Import ProtocolBuffer.

(** HashString: 20 bytes, the size being part of the type. *)
Record HashString : Type := {
  hs_data : list Z;
  hs_size : length hs_data = 20%nat
}.

(** What [prepare_announce_input] reads from DownloadInfo. *)
Record DownloadInfo : Type := {
  hash : HashString;
  local_id : HashString;
  uploaded_adjusted : Z;
  completed_adjusted : Z;
  slot_left : Z
}.

(** utils::socket_address of the connection manager's local address;
    [address_n] is the IPv4 address as the 32-bit value in network byte
    order. *)
Inductive socket_address : Type :=
| af_unspec
| af_inet (address_n : Z)
| af_inet6.

(** The parent TrackerList and the global manager, as far as they are read. *)
Record Environment : Type := {
  info : DownloadInfo;
  key : Z;
  numwant : Z;
  local_address : socket_address;
  listen_port : Z
}.

Record t : Type := {
  m_connectionId : Z;
  m_action : Z;
  m_transactionId : Z;
  m_sendState : Z;
  m_writeBuffer : buffer
}.

Definition magic_connection_id : Z := 0x41727101980.

Definition set_writeBuffer (f : buffer -> buffer) (u : t) : t :=
  {| m_connectionId := m_connectionId u; m_action := m_action u;
     m_transactionId := m_transactionId u; m_sendState := m_sendState u;
     m_writeBuffer := f (m_writeBuffer u) |}.

Definition set_action (a : Z) (u : t) : t :=
  {| m_connectionId := m_connectionId u; m_action := a;
     m_transactionId := m_transactionId u; m_sendState := m_sendState u;
     m_writeBuffer := m_writeBuffer u |}.

Definition set_transactionId (x : Z) (u : t) : t :=
  {| m_connectionId := m_connectionId u; m_action := m_action u;
     m_transactionId := x; m_sendState := m_sendState u;
     m_writeBuffer := m_writeBuffer u |}.

Definition set_connectionId (x : Z) (u : t) : t :=
  {| m_connectionId := x; m_action := m_action u;
     m_transactionId := m_transactionId u; m_sendState := m_sendState u;
     m_writeBuffer := m_writeBuffer u |}.

(** [random] is the value [random_uint32()] returns in this call. *)
Definition prepare_connect_input (random : Z) : M t unit :=
  (modify (set_writeBuffer reset) ;;;
   modify (set_connectionId magic_connection_id) ;;;
   modify (set_writeBuffer (write_64 magic_connection_id)) ;;;
   modify (set_action 0) ;;;
   modify (set_writeBuffer (write_32 0)) ;;;
   modify (set_transactionId (to_uint32 random)) ;;;
   modify (set_writeBuffer (write_32 (to_uint32 random))))%cxx.

Definition prepare_announce_input (env : Environment) (random : Z) : M t unit :=
  (modify (set_writeBuffer reset) ;;;
   u <- get ;;
   modify (set_writeBuffer (write_64 (m_connectionId u))) ;;;
   modify (set_action 1) ;;;
   modify (set_writeBuffer (write_32 1)) ;;;
   modify (set_transactionId (to_uint32 random)) ;;;
   modify (set_writeBuffer (write_32 (to_uint32 random))) ;;;
   modify (set_writeBuffer (write_range (hs_data (hash (info env))))) ;;;
   modify (set_writeBuffer (write_range (hs_data (local_id (info env))))) ;;;
   let uploaded_adjusted := to_uint64 (uploaded_adjusted (info env)) in
   let completed_adjusted := to_uint64 (completed_adjusted (info env)) in
   let download_left := to_uint64 (slot_left (info env)) in
   modify (set_writeBuffer (write_64 completed_adjusted)) ;;;
   modify (set_writeBuffer (write_64 download_left)) ;;;
   modify (set_writeBuffer (write_64 uploaded_adjusted)) ;;;
   modify (set_writeBuffer (write_32 (m_sendState u))) ;;;
   let local_addr :=
     match local_address env with
     | af_inet address_n => address_n
     | _ => 0
     end in
   modify (set_writeBuffer (write_32_n local_addr)) ;;;
   modify (set_writeBuffer (write_32 (key env))) ;;;
   modify (set_writeBuffer (write_32 (numwant env))) ;;;
   modify (set_writeBuffer (write_16 (listen_port env))) ;;;
   u' <- get ;;
   if negb (size_end (m_writeBuffer u') =? 98)
   then throw (internal_error
                 "TrackerUdp::prepare_announce_input() ended up with the wrong size")
   else ret tt)%cxx.

End TrackerUdp.

(** ** TrackerHttp (src/tracker/tracker_http.cc) *)

Module TrackerHttp.

(** torrent::Object, the bencoded value; a map is kept as its list of
    key/value pairs in key order. *)
Inductive Object : Type :=
| o_none
| o_value (v : Z)
| o_string (s : string)
| o_list (l : list Object)
| o_map (m : list (string * Object)).

Fixpoint assoc (k : string) (m : list (string * Object)) : option Object :=
  match m with
  | [] => None
  | (k', v) :: rest => if String.eqb k k' then Some v else assoc k rest
  end.

Definition get_key (k : string) (o : Object) : option Object :=
  match o with
  | o_map m => assoc k m
  | _ => None
  end.

Definition has_key (k : string) (o : Object) : bool :=
  match get_key k o with Some _ => true | None => false end.

Definition has_key_value (k : string) (o : Object) : bool :=
  match get_key k o with Some (o_value _) => true | _ => false end.

Definition has_key_string (k : string) (o : Object) : bool :=
  match get_key k o with Some (o_string _) => true | _ => false end.

Definition get_key_value (k : string) (o : Object) : Z :=
  match get_key k o with Some (o_value v) => v | _ => 0 end.

Definition get_key_string (k : string) (o : Object) : string :=
  match get_key k o with Some (o_string s) => s | _ => EmptyString end.

(** The calls made on an AddressList (net/address_list.h), with their
    argument; decoding the records is outside this file. *)
Inductive address_source : Type :=
| parse_address_compact (s : string)
| parse_address_normal (l : list Object)
| parse_address_compact_ipv6 (s : string).

Definition AddressList : Type := list address_source.

(** What torrent/tracker.h and net/address_list.h fix, taken as given: the
    two default intervals, and whether [parse_address_normal] throws a
    bencode_error (with its message) on a list. *)
Class Defaults : Type := {
  default_normal_interval : Z;
  default_min_interval : Z;
  bencode_error_of : list Object -> option string
}.

(** Calls made on the parent TrackerList. *)
Inductive parent_call : Type :=
| receive_success_call (l : AddressList)
| receive_failed_call (msg : string)
| receive_scrape_failed_call (msg : string).

Definition EVENT_SCRAPE : Z := 4.

Record t : Type := {
  m_normal_interval : Z;
  m_min_interval : Z;
  m_tracker_id : string;
  m_scrape_complete : Z;
  m_scrape_incomplete : Z;
  m_scrape_downloaded : Z;
  m_scrape_time_last : Z;
  m_latest_event : Z;
  m_data : bool;
  parent_calls : list parent_call
}.

(** Modelled from the spec: Tracker::set_normal_interval and
    Tracker::set_min_interval (torrent/tracker.h is not among the sources)
    store the value in [normal_interval], respectively [min_interval]. *)
Definition set_normal_interval (v : Z) : M t unit :=
  modify (fun h =>
    {| m_normal_interval := v; m_min_interval := m_min_interval h;
       m_tracker_id := m_tracker_id h; m_scrape_complete := m_scrape_complete h;
       m_scrape_incomplete := m_scrape_incomplete h;
       m_scrape_downloaded := m_scrape_downloaded h;
       m_scrape_time_last := m_scrape_time_last h;
       m_latest_event := m_latest_event h; m_data := m_data h;
       parent_calls := parent_calls h |}).

Definition set_min_interval (v : Z) : M t unit :=
  modify (fun h =>
    {| m_normal_interval := m_normal_interval h; m_min_interval := v;
       m_tracker_id := m_tracker_id h; m_scrape_complete := m_scrape_complete h;
       m_scrape_incomplete := m_scrape_incomplete h;
       m_scrape_downloaded := m_scrape_downloaded h;
       m_scrape_time_last := m_scrape_time_last h;
       m_latest_event := m_latest_event h; m_data := m_data h;
       parent_calls := parent_calls h |}).

Definition set_tracker_id (s : string) : M t unit :=
  modify (fun h =>
    {| m_normal_interval := m_normal_interval h; m_min_interval := m_min_interval h;
       m_tracker_id := s; m_scrape_complete := m_scrape_complete h;
       m_scrape_incomplete := m_scrape_incomplete h;
       m_scrape_downloaded := m_scrape_downloaded h;
       m_scrape_time_last := m_scrape_time_last h;
       m_latest_event := m_latest_event h; m_data := m_data h;
       parent_calls := parent_calls h |}).

Definition set_scrape (complete incomplete time_last : Z) : M t unit :=
  modify (fun h =>
    {| m_normal_interval := m_normal_interval h; m_min_interval := m_min_interval h;
       m_tracker_id := m_tracker_id h; m_scrape_complete := complete;
       m_scrape_incomplete := incomplete;
       m_scrape_downloaded := m_scrape_downloaded h;
       m_scrape_time_last := time_last;
       m_latest_event := m_latest_event h; m_data := m_data h;
       parent_calls := parent_calls h |}).

Definition set_scrape_downloaded (v : Z) : M t unit :=
  modify (fun h =>
    {| m_normal_interval := m_normal_interval h; m_min_interval := m_min_interval h;
       m_tracker_id := m_tracker_id h; m_scrape_complete := m_scrape_complete h;
       m_scrape_incomplete := m_scrape_incomplete h;
       m_scrape_downloaded := v;
       m_scrape_time_last := m_scrape_time_last h;
       m_latest_event := m_latest_event h; m_data := m_data h;
       parent_calls := parent_calls h |}).

Definition close_directly : M t unit :=
  modify (fun h =>
    {| m_normal_interval := m_normal_interval h; m_min_interval := m_min_interval h;
       m_tracker_id := m_tracker_id h; m_scrape_complete := m_scrape_complete h;
       m_scrape_incomplete := m_scrape_incomplete h;
       m_scrape_downloaded := m_scrape_downloaded h;
       m_scrape_time_last := m_scrape_time_last h;
       m_latest_event := m_latest_event h; m_data := false;
       parent_calls := parent_calls h |}).

Definition call_parent (c : parent_call) : M t unit :=
  modify (fun h =>
    {| m_normal_interval := m_normal_interval h; m_min_interval := m_min_interval h;
       m_tracker_id := m_tracker_id h; m_scrape_complete := m_scrape_complete h;
       m_scrape_incomplete := m_scrape_incomplete h;
       m_scrape_downloaded := m_scrape_downloaded h;
       m_scrape_time_last := m_scrape_time_last h;
       m_latest_event := m_latest_event h; m_data := m_data h;
       parent_calls := parent_calls h ++ [c] |}).

Definition receive_failed (msg : string) : M t unit :=
  (close_directly ;;;
   h <- get ;;
   if m_latest_event h =? EVENT_SCRAPE
   then call_parent (receive_scrape_failed_call msg)
   else call_parent (receive_failed_call msg))%cxx.

Definition when {St} (c : bool) (m : M St unit) : M St unit :=
  if c then m else ret tt.

Definition process_failure (cachedTime : Z) (object : Object) : M t unit :=
  (when (has_key_value "interval" object)
     (set_normal_interval (get_key_value "interval" object)) ;;;
   when (has_key_value "min interval" object)
     (set_min_interval (get_key_value "min interval" object)) ;;;
   when (has_key_string "tracker id" object)
     (set_tracker_id (get_key_string "tracker id" object)) ;;;
   when (has_key_value "complete" object && has_key_value "incomplete" object)
     (set_scrape (Z.max (get_key_value "complete" object) 0)
                 (Z.max (get_key_value "incomplete" object) 0) cachedTime) ;;;
   when (has_key_value "downloaded" object)
     (set_scrape_downloaded (Z.max (get_key_value "downloaded" object) 0)))%cxx.

Definition process_success `{Defaults} (cachedTime : Z) (object : Object) : M t unit :=
  ((if has_key_value "interval" object
    then set_normal_interval (get_key_value "interval" object)
    else set_normal_interval default_normal_interval) ;;;
   (if has_key_value "min interval" object
    then set_min_interval (get_key_value "min interval" object)
    else set_normal_interval default_min_interval) ;;;
   when (has_key_string "tracker id" object)
     (set_tracker_id (get_key_string "tracker id" object)) ;;;
   when (has_key_value "complete" object && has_key_value "incomplete" object)
     (set_scrape (Z.max (get_key_value "complete" object) 0)
                 (Z.max (get_key_value "incomplete" object) 0) cachedTime) ;;;
   when (has_key_value "downloaded" object)
     (set_scrape_downloaded (Z.max (get_key_value "downloaded" object) 0)) ;;;
   if negb (has_key "peers" object) && negb (has_key "peers6" object)
   then receive_failed "No peers returned"
   else
     let peers :=
       match get_key "peers" object with
       | Some (o_string s) => inr [parse_address_compact s]
       | Some (o_list l) =>
           match bencode_error_of l with
           | Some what => inl what
           | None => inr [parse_address_normal l]
           end
       | _ => inr []
       end in
     match peers with
     | inl what => receive_failed what
     | inr l =>
         let l :=
           if has_key_string "peers6" object
           then l ++ [parse_address_compact_ipv6 (get_key_string "peers6" object)]
           else l in
         close_directly ;;;
         call_parent (receive_success_call l)
     end)%cxx.

(** The property asked of [process_success]: both intervals after the call
    are the response's value, or the default when the key is absent. *)
Definition intervals_follow_response `{Defaults} (object : Object) (h' : t) : Prop :=
  m_normal_interval h' =
    (if has_key_value "interval" object
     then get_key_value "interval" object else default_normal_interval) /\
  m_min_interval h' =
    (if has_key_value "min interval" object
     then get_key_value "min interval" object else default_min_interval).

(** A response with [interval] 1800 and an empty compact peer string. *)
Definition response_without_min_interval : Object :=
  o_map [("interval"%string, o_value 1800); ("peers"%string, o_string "")].

(** A tracker whose previous request failed: the failure signal of the
    constructor has set both intervals to 0. *)
Definition tracker_after_failure : t :=
  {| m_normal_interval := 0; m_min_interval := 0; m_tracker_id := "";
     m_scrape_complete := 0; m_scrape_incomplete := 0; m_scrape_downloaded := 0;
     m_scrape_time_last := 0; m_latest_event := 1; m_data := true;
     parent_calls := [] |}.

End TrackerHttp.

(** ** TrackerList (src/torrent/tracker_list.cc) *)

Module TrackerList.
Import Std.

(** A tracker as [find_next_to_request] sees it: what its member functions
    [can_request_state], [failed_counter], [failed_time_next] and
    [success_time_next] (torrent/tracker.h) return. *)
Record Tracker : Type := {
  url : string;
  group : Z;
  can_request_state : bool;
  failed_counter : Z;
  failed_time_next : Z;
  success_time_next : Z
}.

(** The while loop: [preferred] with the tracker it points to, [itr] the
    position of the head of [rest]. *)
Fixpoint request_loop (preferred : nat * Tracker) (itr : nat) (rest : list Tracker) : nat :=
  match rest with
  | [] => fst preferred
  | t :: rest' =>
      if negb (can_request_state t) then request_loop preferred (S itr) rest'
      else if negb (failed_counter t =? 0) then
        request_loop
          (if failed_time_next t <? failed_time_next (snd preferred)
           then (itr, t) else preferred)
          (S itr) rest'
      else
        if success_time_next t <? failed_time_next (snd preferred)
        then itr else fst preferred
  end.

Definition find_next_to_request (l : list Tracker) (itr : nat) : nat :=
  let itr := find_if_from can_request_state l itr in
  match nth_error l itr with
  | None => itr
  | Some p =>
      if failed_counter p =? 0 then itr
      else request_loop (itr, p) (S itr) (skipn (S itr) l)
  end.

(** The tracker at position [i] can be requested and is failing. *)
Definition failing_at (l : list Tracker) (i : nat) : Prop :=
  exists t, nth_error l i = Some t /\
            can_request_state t = true /\ failed_counter t <> 0.

(** The tracker at position [i] can be requested and is not failing. *)
Definition healthy_at (l : list Tracker) (i : nat) : Prop :=
  exists t, nth_error l i = Some t /\
            can_request_state t = true /\ failed_counter t = 0.

Definition requestable_at (l : list Tracker) (i : nat) : Prop :=
  exists t, nth_error l i = Some t /\ can_request_state t = true.

Definition failed_time_next_at (l : list Tracker) (i : nat) : Z :=
  match nth_error l i with Some t => failed_time_next t | None => 0 end.

Definition success_time_next_at (l : list Tracker) (i : nat) : Z :=
  match nth_error l i with Some t => success_time_next t | None => 0 end.

(** The first position at or after [itr] whose tracker can be requested,
    and the first position after [p] whose tracker can be requested and is
    not failing; both are the length of the list when there is none. *)
Definition first_requestable (l : list Tracker) (itr : nat) : nat :=
  find_if_from can_request_state l itr.

Definition healthy (t : Tracker) : bool :=
  can_request_state t && (failed_counter t =? 0).

Definition first_healthy_after (l : list Tracker) (p : nat) : nat :=
  find_if_from healthy l (S p).

(** [r] has the smallest [failed_time_next] of the failing trackers from
    [p] on. *)
Definition smallest_failing_from (l : list Tracker) (p r : nat) : Prop :=
  forall j, (p <= j)%nat -> failing_at l j ->
            failed_time_next_at l r <= failed_time_next_at l j.

(** The choice as it is worded: a healthy first candidate is returned;
    otherwise the result is a failing tracker with the smallest
    [failed_time_next] of those that follow, or a healthy tracker whose
    [success_time_next] is less than that smallest [failed_time_next]. *)
Definition chooses_as_worded (l : list Tracker) (itr : nat) : Prop :=
  let p := first_requestable l itr in
  let r := find_next_to_request l itr in
  (healthy_at l p -> r = p) /\
  (failing_at l p ->
   (failing_at l r /\ smallest_failing_from l p r) \/
   (healthy_at l r /\
    exists m, failing_at l m /\ smallest_failing_from l p m /\
              success_time_next_at l r < failed_time_next_at l m)).

(** [m] is the first of the failing trackers with the smallest
    [failed_time_next] among the positions [p, h). *)
Definition smallest_failing_in (l : list Tracker) (p h m : nat) : Prop :=
  (p <= m < h)%nat /\ failing_at l m /\
  (forall j, (p <= j < h)%nat -> failing_at l j ->
             failed_time_next_at l m <= failed_time_next_at l j) /\
  (forall j, (p <= j < m)%nat -> failing_at l j ->
             failed_time_next_at l m < failed_time_next_at l j).

(** Three trackers that can all be requested: one failing with
    [failed_time_next] 10, one healthy with [success_time_next] 20, one
    failing with [failed_time_next] 1. *)
Definition late_failing_tracker : list Tracker :=
  [ {| url := "http://a/announce"; group := 0; can_request_state := true;
       failed_counter := 1; failed_time_next := 10; success_time_next := 0 |};
    {| url := "http://b/announce"; group := 0; can_request_state := true;
       failed_counter := 0; failed_time_next := 0; success_time_next := 20 |};
    {| url := "http://c/announce"; group := 0; can_request_state := true;
       failed_counter := 3; failed_time_next := 1; success_time_next := 0 |} ].

(** *** The groups of the list *)

(** The trackers are kept in the order of their groups. *)
Definition in_group_order (l : list Tracker) : Prop :=
  StronglySorted (fun a b => group a <= group b) l.

Definition begin_group (grp : Z) (l : list Tracker) : nat :=
  find_if (fun t => grp <=? group t) l.

(** [*pos = x] on a vector. *)
Definition assign {A} (pos : nat) (x : A) (l : list A) : list A :=
  match nth_error l pos with
  | Some _ => firstn pos l ++ x :: skipn (S pos) l
  | None => l
  end.

(** std::swap of [*first] and [*itr] is the two assignments. *)
Definition promote (itr : nat) : M (list Tracker) nat :=
  (l <- get ;;
   match nth_error l itr with
   | None => throw (undefined_behaviour "promote: iterator not dereferenceable")
   | Some t =>
       let first := begin_group (group t) l in
       match nth_error l first with
       | None => throw (internal_error
           "torrent::TrackerList::promote(...) Could not find beginning of group.")
       | Some f => put (assign itr f (assign first t l)) ;;; ret first
       end
   end)%cxx.

(** The loop of [cycle_group]: [held] is the tracker at [prev], the one
    that was first in the group, [rest] are the trackers from [itr] on.
    Each std::iter_swap moves [held] one position on. *)
Fixpoint cycle_loop (grp : Z) (held : Tracker) (rest : list Tracker) : list Tracker :=
  match rest with
  | t :: rest' =>
      if group t =? grp then t :: cycle_loop grp held rest' else held :: rest
  | [] => [held]
  end.

Definition cycle_group (grp : Z) (l : list Tracker) : list Tracker :=
  let itr := begin_group grp l in
  match nth_error l itr with
  | None => l
  | Some t =>
      if negb (group t =? grp) then l
      else firstn itr l ++ cycle_loop grp t (skipn (S itr) l)
  end.

(** The number of trackers of a group, and a sequence with its first
    element moved to the end. *)
Definition group_size (grp : Z) (l : list Tracker) : nat :=
  length (filter (fun t => group t =? grp) l).

Definition rotate_left {A} (l : list A) : list A :=
  match l with
  | [] => []
  | x :: rest => rest ++ [x]
  end.

(** Five trackers in three groups. *)
Definition tiers : list Tracker :=
  [ {| url := "http://a/announce"; group := 0; can_request_state := true;
       failed_counter := 0; failed_time_next := 0; success_time_next := 0 |};
    {| url := "http://b/announce"; group := 1; can_request_state := true;
       failed_counter := 0; failed_time_next := 0; success_time_next := 0 |};
    {| url := "udp://c:6969"; group := 1; can_request_state := true;
       failed_counter := 2; failed_time_next := 5; success_time_next := 0 |};
    {| url := "http://d/announce"; group := 1; can_request_state := false;
       failed_counter := 0; failed_time_next := 0; success_time_next := 0 |};
    {| url := "http://e/announce"; group := 3; can_request_state := true;
       failed_counter := 0; failed_time_next := 0; success_time_next := 0 |} ].

End TrackerList.

(** ** ResourceManager (src/torrent/download/resource_manager.cc) *)

Module ResourceManager.
Import Std.

(** resource_manager_entry; a download is known by the address of its
    DownloadMain. *)
Record resource_manager_entry : Type := {
  download : Z;
  group : Z;
  priority : Z
}.

(** A pointer into the entry vector: [None] is nullptr, [Some i] the
    address of slot [i] of the vector's storage ([i] equal to the size is the
    address one past the last entry). *)
Definition entry_ptr : Type := option Z.

Record choke_group : Type := {
  name : string;
  first : entry_ptr;
  last : entry_ptr
}.

(** The two queues of a choke group, as arguments of
    choke_queue::move_connections. *)
Inductive queue_ref : Type :=
| up_queue (g : Z)
| down_queue (g : Z).

Record t : Type := {
  entries : list resource_manager_entry;     (* base_type *)
  groups : list choke_group;                 (* choke_base_type *)
  choke_group_of : list (Z * Z);             (* DownloadMain::set_choke_group *)
  moved : list (option queue_ref * option queue_ref * Z)
}.

Definition empty : t :=
  {| entries := []; groups := []; choke_group_of := []; moved := [] |}.

Definition set_entries (f : list resource_manager_entry -> list resource_manager_entry) : M t unit :=
  modify (fun rm => {| entries := f (entries rm); groups := groups rm;
                       choke_group_of := choke_group_of rm; moved := moved rm |}).

Definition set_groups (f : list choke_group -> list choke_group) : M t unit :=
  modify (fun rm => {| entries := entries rm; groups := f (groups rm);
                       choke_group_of := choke_group_of rm; moved := moved rm |}).

Definition set_choke_group (d g : Z) : M t unit :=
  modify (fun rm => {| entries := entries rm; groups := groups rm;
                       choke_group_of := (d, g) :: choke_group_of rm;
                       moved := moved rm |}).

(** DownloadMain::choke_group() of the download [d]. *)
Definition download_choke_group (d : Z) (rm : t) : option Z :=
  option_map snd (List.find (fun p => fst p =? d) (choke_group_of rm)).

(** choke_queue::move_connections(src, dest, download, ...): the queues are
    outside this file, the call is recorded. *)
Definition move_connections (src dest : option queue_ref) (d : Z) : M t unit :=
  modify (fun rm => {| entries := entries rm; groups := groups rm;
                       choke_group_of := choke_group_of rm;
                       moved := moved rm ++ [(src, dest, d)] |}).

(** A choke_group as its constructor leaves it. *)
Definition new_choke_group : choke_group :=
  {| name := EmptyString; first := None; last := None |}.

Definition set_name (nm : string) (g : choke_group) : choke_group :=
  {| name := nm; first := first g; last := last g |}.
Definition set_first (p : entry_ptr) (g : choke_group) : choke_group :=
  {| name := name g; first := p; last := last g |}.
Definition set_last (p : entry_ptr) (g : choke_group) : choke_group :=
  {| name := name g; first := first g; last := p |}.

(** Pointer arithmetic; on nullptr it is undefined in C++ and leaves
    nullptr here. *)
Definition ptr_add (p : entry_ptr) (k : Z) : entry_ptr :=
  match p with Some i => Some (i + k) | None => None end.

Definition inc_iterators (g : choke_group) : choke_group :=
  {| name := name g; first := ptr_add (first g) 1; last := ptr_add (last g) 1 |}.
Definition dec_iterators (g : choke_group) : choke_group :=
  {| name := name g; first := ptr_add (first g) (-1); last := ptr_add (last g) (-1) |}.

(** std::for_each(begin + lo, begin + hi, f) on a vector, done in place:
    [pos] is the position of the head of the list. *)
Fixpoint for_each_range {A} (f : A -> A) (lo hi pos : nat) (l : list A) : list A :=
  match l with
  | [] => []
  | x :: rest =>
      (if (lo <=? pos)%nat && (pos <? hi)%nat then f x else x)
        :: for_each_range f lo hi (S pos) rest
  end.

Definition update_at {A} (f : A -> A) (i : nat) (l : list A) : list A :=
  for_each_range f i (S i) O l.

Definition find (d : Z) (rm : t) : nat :=
  find_if (fun e => d =? download e) (entries rm).

Definition find_group_end (grp : Z) (es : list resource_manager_entry) : nat :=
  find_if (fun v => grp <? group v) es.

(** The loop of [update_group_iterators]: [entry_itr] walks the entries,
    [group_itr] is the position of the head of the groups left. The function
    is called after an insertion, when the vector has storage: [&*entry_itr]
    is never null. *)
Fixpoint update_group_iterators_loop (es : list resource_manager_entry)
    (entry_itr group_itr : nat) (gs : list choke_group) : list choke_group :=
  match gs with
  | [] => []
  | g :: rest =>
      let entry_itr' :=
        find_if_from (fun v => Z.of_nat group_itr <? group v) es entry_itr in
      {| name := name g;
         first := Some (Z.of_nat entry_itr);
         last := Some (Z.of_nat entry_itr') |}
        :: update_group_iterators_loop es entry_itr' (S group_itr) rest
  end.

Definition update_group_iterators : M t unit :=
  (rm <- get ;;
   set_groups (update_group_iterators_loop (entries rm) O O))%cxx.

Definition ptr_eqb (p q : entry_ptr) : bool :=
  match p, q with
  | None, None => true
  | Some i, Some j => i =? j
  | _, _ => false
  end.

Fixpoint validate_loop (es : list resource_manager_entry)
    (entry_itr group_itr : nat) (gs : list choke_group) : option exn :=
  match gs with
  | [] => None
  | g :: rest =>
      if negb (ptr_eqb (first g) (Some (Z.of_nat entry_itr)))
      then Some (internal_error "ResourceManager::receive_tick() invalid first iterator.")
      else
        let entry_itr' :=
          find_if_from (fun v => Z.of_nat group_itr <? group v) es entry_itr in
        if negb (ptr_eqb (last g) (Some (Z.of_nat entry_itr')))
        then Some (internal_error "ResourceManager::receive_tick() invalid last iterator.")
        else validate_loop es entry_itr' (S group_itr) rest
  end.

Definition validate_group_iterators : M t unit :=
  fun rm =>
    match entries rm with
    | [] =>
        if forallb (fun g => ptr_eqb (first g) None && ptr_eqb (last g) None) (groups rm)
        then (Return tt, rm)
        else (Throw (internal_error
                       "ResourceManager::receive_tick() invalid non-null iterator."), rm)
    | _ :: _ =>
        match validate_loop (entries rm) O O (groups rm) with
        | Some e => (Throw e, rm)
        | None => (Return tt, rm)
        end
    end.

(** [group_at]: the position of the group, checked. *)
Definition group_at (grp : Z) : M t Z :=
  fun rm =>
    if Z.of_nat (length (groups rm)) <=? grp
    then (Throw (input_error "Choke group not found."), rm)
    else (Return grp, rm).

(** choke_base_type::at, which throws std::out_of_range. *)
Definition choke_base_at (grp : Z) : M t Z :=
  fun rm =>
    if Z.of_nat (length (groups rm)) <=? grp
    then (Throw out_of_range, rm)
    else (Return grp, rm).

Definition insert (entry : resource_manager_entry) : M t nat :=
  (rm <- get ;;
   let itr := find_group_end (group entry) (entries rm) in
   set_entries (vector_insert itr entry) ;;;
   g <- choke_base_at (group entry) ;;
   set_choke_group (download entry) g ;;;
   update_group_iterators ;;;            (* will_realloc is true *)
   g <- group_at (group entry) ;;
   move_connections None (Some (up_queue g)) (download entry) ;;;
   g <- group_at (group entry) ;;
   move_connections None (Some (down_queue g)) (download entry) ;;;
   ret itr)%cxx.

Definition erase (d : Z) : M t unit :=
  (rm <- get ;;
   let itr := find d rm in
   match nth_error (entries rm) itr with
   | None => throw (internal_error "ResourceManager::erase() itr == end().")
   | Some e =>
       g <- group_at (group e) ;;
       move_connections (Some (up_queue g)) None d ;;;
       g <- group_at (group e) ;;
       move_connections (Some (down_queue g)) None d ;;;
       let group_itr := Z.to_nat (group e) in
       let size := length (groups rm) in
       (if (length (entries rm) =? 1)%nat
        then set_groups (for_each_range
                           (fun cg => set_last None (set_first None cg))
                           group_itr size O)
        else
          set_groups (update_at (fun cg => set_last (ptr_add (last cg) (-1)) cg)
                                group_itr) ;;;
          set_groups (for_each_range dec_iterators (S group_itr) size O)) ;;;
       set_entries (vector_erase itr)
   end)%cxx.

Definition push_group (nm : string) : M t unit :=
  (rm <- get ;;
   if (String.eqb nm EmptyString || existsb (fun g => String.eqb nm (name g)) (groups rm))%bool
   then throw (input_error "Duplicate name for choke group.")
   else
     set_groups (fun gs => gs ++ [new_choke_group]) ;;;
     let back := length (groups rm) in
     set_groups (update_at (set_name nm) back) ;;;
     if negb (length (entries rm) =? 0)%nat
     then
       let end_ptr := Some (Z.of_nat (length (entries rm))) in
       set_groups (update_at (set_first end_ptr) back) ;;;
       set_groups (update_at (set_last end_ptr) back)
     else ret tt)%cxx.

Definition set_entry_priority (pri : Z) (e : resource_manager_entry) : resource_manager_entry :=
  {| download := download e; group := group e; priority := pri |}.

Definition set_entry_group (grp : Z) (e : resource_manager_entry) : resource_manager_entry :=
  {| download := download e; group := grp; priority := priority e |}.

(** The parameter is a uint16_t: whatever the caller passes arrives
    converted to 16 bits. *)
Definition set_priority (itr : nat) (pri : Z) : M t unit :=
  let pri := to_uint16 pri in
  (rm <- get ;;
   match nth_error (entries rm) itr with
   | None => throw (undefined_behaviour "set_priority: iterator not dereferenceable")
   | Some _ => set_entries (update_at (set_entry_priority pri) itr)
   end)%cxx.

Definition set_group (itr : nat) (grp : Z) : M t unit :=
  let grp := to_uint16 grp in
  (rm <- get ;;
   match nth_error (entries rm) itr with
   | None => throw (undefined_behaviour "set_group: iterator not dereferenceable")
   | Some e =>
       if group e =? grp then ret tt
       else if Z.of_nat (length (groups rm)) <=? grp
       then throw (input_error "Choke group not found.")
       else
         let old := download_choke_group (download e) rm in
         move_connections (option_map up_queue old) (Some (up_queue grp)) (download e) ;;;
         move_connections (option_map down_queue old) (Some (down_queue grp)) (download e) ;;;
         let group_src := Z.to_nat (group e) in
         let group_dest := Z.to_nat grp in
         let entry := set_entry_group grp e in
         set_choke_group (download entry) (group entry) ;;;
         set_entries (vector_erase itr) ;;;
         rm' <- get ;;
         set_entries (vector_insert (find_group_end (group entry) (entries rm')) entry) ;;;
         if (group_dest <? group_src)%nat
         then
           set_groups (update_at (fun g => set_last (ptr_add (last g) 1) g) group_dest) ;;;
           set_groups (for_each_range inc_iterators (S group_dest) group_src O) ;;;
           set_groups (update_at (fun g => set_first (ptr_add (first g) 1) g) group_src)
         else
           set_groups (update_at (fun g => set_last (ptr_add (last g) (-1)) g) group_src) ;;;
           set_groups (for_each_range dec_iterators (S group_src) group_dest O) ;;;
           set_groups (update_at (fun g => set_first (ptr_add (first g) (-1)) g) group_dest)
   end)%cxx.

(** torrent::download_set_priority (src/torrent/torrent.cc), the caller of
    [set_priority]. *)
Definition download_set_priority (d : Z) (pri : Z) : M t unit :=
  let pri := to_uint32 pri in
  (rm <- get ;;
   let itr := find d rm in
   if (itr =? length (entries rm))%nat
   then throw (internal_error
     "torrent::download_set_priority(...) could not find the download in the resource manager.")
   else if 1024 <? pri
   then throw (internal_error
     "torrent::download_set_priority(...) received an invalid priority.")
   else set_priority itr pri)%cxx.

(** The operations that change the entries and the groups. *)
Inductive operation : Type :=
| op_push_group (nm : string)
| op_insert (entry : resource_manager_entry)
| op_erase (d : Z)
| op_set_group (itr : nat) (grp : Z).

Definition run (op : operation) : M t unit :=
  match op with
  | op_push_group nm => push_group nm
  | op_insert entry => (_ <- insert entry ;; ret tt)%cxx
  | op_erase d => erase d
  | op_set_group itr grp => set_group itr grp
  end.

(** A state is reachable when a sequence of operations, each returning
    normally, leads to it from the manager as constructed. *)
Inductive reachable : t -> Prop :=
| reachable_empty : reachable empty
| reachable_step rm op rm' :
    reachable rm -> run op rm = (Return tt, rm') -> reachable rm'.

(** The invariant on the groups: the entries of group [g] are exactly those
    at the positions [lo, hi), [first] and [last] are the addresses of the
    slots [lo] and [hi], and both are null exactly when there is no entry at
    all. *)
Definition delimits (rm : t) (g : nat) (cg : choke_group) : Prop :=
  match entries rm with
  | [] => first cg = None /\ last cg = None
  | _ :: _ =>
      exists lo hi : nat,
        first cg = Some (Z.of_nat lo) /\ last cg = Some (Z.of_nat hi) /\
        (lo <= hi <= length (entries rm))%nat /\
        forall i e, nth_error (entries rm) i = Some e ->
                    (group e = Z.of_nat g <-> (lo <= i < hi)%nat)
  end.

Definition group_invariant (rm : t) : Prop :=
  forall g cg, nth_error (groups rm) g = Some cg -> delimits rm g cg.

Fixpoint run_all (ops : list operation) : M t unit :=
  match ops with
  | [] => ret tt
  | op :: rest => (run op ;;; run_all rest)%cxx
  end.

(** Two groups, one download put in the second group and removed again. *)
Definition insert_then_erase_in_second_group : list operation :=
  [ op_push_group "first"; op_push_group "second";
    op_insert {| download := 1; group := 1; priority := 0 |};
    op_erase 1 ].

(** [set_priority] as it is worded: a priority outside [0, 65536) raises
    input_error. *)
Definition set_priority_checks_range : Prop :=
  forall rm itr p,
    p < 0 \/ 65536 <= p ->
    exists msg, fst (set_priority itr p rm) = Throw (input_error msg).

(** A manager with one group and one download in it. *)
Definition one_download : t :=
  {| entries := [ {| download := 1; group := 0; priority := 0 |} ];
     groups := [ {| name := "default"; first := Some 0; last := Some 1 |} ];
     choke_group_of := [(1, 0)];
     moved := [] |}.

(** *** The layout the operations keep *)

(** The number of entries in the groups up to [g]. *)
Definition count_upto (g : Z) (es : list resource_manager_entry) : nat :=
  length (filter (fun e => group e <=? g) es).

Definition sorted_by_group (es : list resource_manager_entry) : Prop :=
  StronglySorted (fun a b => group a <= group b) es.

(** The entries are in the order of their groups, every entry is in a group
    that exists, and, while there is an entry, the pointers of the group at
    position [g] are the addresses of the slots after the entries of the
    groups below [g] and after the entries of the groups up to [g]. *)
Definition consistent (rm : t) : Prop :=
  sorted_by_group (entries rm) /\
  (forall e, In e (entries rm) -> 0 <= group e < Z.of_nat (length (groups rm))) /\
  (entries rm <> [] ->
   forall g cg,
     nth_error (groups rm) g = Some cg ->
     first cg = Some (Z.of_nat (count_upto (Z.of_nat g - 1) (entries rm))) /\
     last cg = Some (Z.of_nat (count_upto (Z.of_nat g) (entries rm)))).

(** The group of an entry is a uint16_t. *)
Definition uint16_groups (op : operation) : Prop :=
  match op with
  | op_insert entry => 0 <= group entry < 2 ^ 16
  | _ => True
  end.

(** *** Lookups *)

Definition group_index_of (nm : string) : M t Z :=
  fun rm =>
    let itr := find_if (fun g => String.eqb nm (name g)) (groups rm) in
    if (itr =? length (groups rm))%nat
    then (Throw (input_error "Choke group not found."), rm)
    else (Return (Z.of_nat itr), rm).

(** torrent::download_priority (src/torrent/torrent.cc) *)
Definition download_priority (d : Z) : M t Z :=
  (rm <- get ;;
   let itr := find d rm in
   match nth_error (entries rm) itr with
   | None => throw (internal_error
       "torrent::download_priority(...) could not find the download in the resource manager.")
   | Some e => ret (priority e)
   end)%cxx.

(** Three groups and four downloads, moved about. *)
Definition busy_day : list operation :=
  [ op_push_group "default"; op_push_group "seeding"; op_push_group "slow";
    op_insert {| download := 1; group := 1; priority := 2 |};
    op_insert {| download := 2; group := 0; priority := 2 |};
    op_insert {| download := 3; group := 2; priority := 1 |};
    op_insert {| download := 4; group := 1; priority := 3 |};
    op_set_group 1 2;
    op_erase 2;
    op_set_group 2 0;
    op_push_group "fast";
    op_set_group 0 3 ].

(** *** The counters of unchoked slots *)

(** The four counters, each an unsigned int. *)
Record slots : Type := {
  m_currentlyUploadUnchoked : Z;
  m_currentlyDownloadUnchoked : Z;
  m_maxUploadUnchoked : Z;
  m_maxDownloadUnchoked : Z
}.

Definition INT_MAX : Z := 2 ^ 31 - 1.
Definition INT_MIN : Z := - 2 ^ 31.

(** [(int)v] for an unsigned int [v]. *)
Definition to_int (v : Z) : Z := (v + 2 ^ 31) mod 2 ^ 32 - 2 ^ 31.

(** An int result: overflow is undefined in C++. *)
Definition int_result {St} (v : Z) : M St Z :=
  if (INT_MIN <=? v) && (v <=? INT_MAX) then ret v
  else throw (undefined_behaviour "signed integer overflow").

Definition set_max_upload_unchoked (m : Z) : M slots unit :=
  let m := to_uint32 m in
  if 2 ^ 16 <? m
  then throw (input_error "Max unchoked must be between 0 and 2^16.")
  else modify (fun s =>
    {| m_currentlyUploadUnchoked := m_currentlyUploadUnchoked s;
       m_currentlyDownloadUnchoked := m_currentlyDownloadUnchoked s;
       m_maxUploadUnchoked := m;
       m_maxDownloadUnchoked := m_maxDownloadUnchoked s |}).

Definition set_max_download_unchoked (m : Z) : M slots unit :=
  let m := to_uint32 m in
  if 2 ^ 16 <? m
  then throw (input_error "Max unchoked must be between 0 and 2^16.")
  else modify (fun s =>
    {| m_currentlyUploadUnchoked := m_currentlyUploadUnchoked s;
       m_currentlyDownloadUnchoked := m_currentlyDownloadUnchoked s;
       m_maxUploadUnchoked := m_maxUploadUnchoked s;
       m_maxDownloadUnchoked := m |}).

Definition receive_upload_unchoke (num : Z) : M slots unit :=
  (s <- get ;;
   sum <- int_result (to_int (m_currentlyUploadUnchoked s) + num) ;;
   if sum <? 0
   then throw (internal_error
     "ResourceManager::receive_upload_unchoke(...) received an invalid value.")
   else put
     {| m_currentlyUploadUnchoked := to_uint32 (m_currentlyUploadUnchoked s + num);
        m_currentlyDownloadUnchoked := m_currentlyDownloadUnchoked s;
        m_maxUploadUnchoked := m_maxUploadUnchoked s;
        m_maxDownloadUnchoked := m_maxDownloadUnchoked s |})%cxx.

Definition receive_download_unchoke (num : Z) : M slots unit :=
  (s <- get ;;
   sum <- int_result (to_int (m_currentlyDownloadUnchoked s) + num) ;;
   if sum <? 0
   then throw (internal_error
     "ResourceManager::receive_download_unchoke(...) received an invalid value.")
   else put
     {| m_currentlyUploadUnchoked := m_currentlyUploadUnchoked s;
        m_currentlyDownloadUnchoked := to_uint32 (m_currentlyDownloadUnchoked s + num);
        m_maxUploadUnchoked := m_maxUploadUnchoked s;
        m_maxDownloadUnchoked := m_maxDownloadUnchoked s |})%cxx.

Definition retrieve_upload_can_unchoke : M slots Z :=
  (s <- get ;;
   if m_maxUploadUnchoked s =? 0 then ret INT_MAX
   else int_result (to_int (m_maxUploadUnchoked s)
                    - to_int (m_currentlyUploadUnchoked s)))%cxx.

Definition retrieve_download_can_unchoke : M slots Z :=
  (s <- get ;;
   if m_maxDownloadUnchoked s =? 0 then ret INT_MAX
   else int_result (to_int (m_maxDownloadUnchoked s)
                    - to_int (m_currentlyDownloadUnchoked s)))%cxx.

(** The counts are within the limits that are set; a limit of 0 is no
    limit. *)
Definition within_limits (s : slots) : Prop :=
  0 <= m_maxUploadUnchoked s <= 2 ^ 16 /\
  0 <= m_maxDownloadUnchoked s <= 2 ^ 16 /\
  0 <= m_currentlyUploadUnchoked s < 2 ^ 31 /\
  0 <= m_currentlyDownloadUnchoked s < 2 ^ 31 /\
  (m_maxUploadUnchoked s <> 0 ->
   m_currentlyUploadUnchoked s <= m_maxUploadUnchoked s) /\
  (m_maxDownloadUnchoked s <> 0 ->
   m_currentlyDownloadUnchoked s <= m_maxDownloadUnchoked s).

(** Limits of 4 and 2 slots, 3 uploads unchoked. *)
Definition three_of_four : slots :=
  {| m_currentlyUploadUnchoked := 3; m_currentlyDownloadUnchoked := 0;
     m_maxUploadUnchoked := 4; m_maxDownloadUnchoked := 2 |}.

End ResourceManager.

(** ** TransferList (src/torrent/data/transfer_list.cc) *)

Module TransferList.
Import Std.

(** The classes the TransferList works on (torrent/data/piece.h,
    block_transfer.h, block_failed.h, block.h, block_list.h and data/chunk.h)
    are not among the sources: each is modelled from the data model of the
    specification. A byte is a [Z]; a peer is known by the address of its
    PeerInfo; an iterator into a vector is a position in it. *)

(** Modelled from the spec: Piece, the triple (piece_index,
    byte_offset_within_piece, length). *)
Record Piece : Type := {
  p_index : Z;
  p_offset : nat;
  p_length : nat
}.

(** [failed_index] is a uint32_t, [~uint32_t()] standing for no entry. *)
Definition invalid_index : Z := 2 ^ 32 - 1.

(** Modelled from the spec: BlockTransfer, one peer's attempt at one block,
    with the peer's identity and [failed_index], the FailedList entry its
    bytes matched or none. *)
Record BlockTransfer : Type := {
  peer_info : Z;
  failed_index : Z
}.

(** Modelled from the spec: BlockFailed, the FailedList of a block: the
    entries [(buffer, refcount)] in order of insertion, and the position of
    the current one. *)
Record BlockFailed : Type := {
  bf_entries : list (list Z * Z);
  bf_current : Z
}.

(** Modelled from the spec: Block, with its piece descriptor, its transfers,
    its leader transfer, its optional FailedList and the flag that says it is
    finished. *)
Record Block : Type := {
  piece : Piece;
  transfers : list BlockTransfer;
  leader : option nat;              (* a position in [transfers], or null *)
  failed_list : option BlockFailed; (* null until the first failure *)
  is_finished : bool
}.

(** Modelled from the spec: BlockList, the blocks of one piece with
    [index], [failed] and [attempt]. *)
Record BlockList : Type := {
  index : Z;
  blocks : list Block;
  failed : Z;
  attempt : Z
}.

(** Modelled from the spec: Chunk, the bytes of the piece, capable of buffer
    comparison and copy. *)
Definition Chunk : Type := list Z.

(** The slots of the TransferList, and BlockList::do_all_failed, as they are
    called. *)
Inductive event : Type :=
| on_queued (i : Z)
| on_completed (i : Z)
| on_canceled (i : Z)
| on_corrupt (peer : Z)
| do_all_failed_call (i : Z).

(** The TransferList with what its member functions reach: the chunk the
    verdict is about, the calls made so far, and the clock: [clock k] is
    the value of the [k]-th reading of utils::timer::current() in
    microseconds, [ticks] the number of readings taken. *)
Record t : Type := {
  lists : list BlockList;            (* base_type *)
  m_completedList : list (Z * Z);
  m_succeededCount : Z;
  m_failedCount : Z;
  chunk : Chunk;
  calls : list event;
  clock : nat -> Z;
  ticks : nat
}.

Definition set_lists (f : list BlockList -> list BlockList) : M t unit :=
  modify (fun s =>
    {| lists := f (lists s); m_completedList := m_completedList s;
       m_succeededCount := m_succeededCount s; m_failedCount := m_failedCount s;
       chunk := chunk s; calls := calls s; clock := clock s; ticks := ticks s |}).

Definition set_completedList (f : list (Z * Z) -> list (Z * Z)) : M t unit :=
  modify (fun s =>
    {| lists := lists s; m_completedList := f (m_completedList s);
       m_succeededCount := m_succeededCount s; m_failedCount := m_failedCount s;
       chunk := chunk s; calls := calls s; clock := clock s; ticks := ticks s |}).

Definition inc_succeededCount : M t unit :=
  modify (fun s =>
    {| lists := lists s; m_completedList := m_completedList s;
       m_succeededCount := to_uint32 (m_succeededCount s + 1);
       m_failedCount := m_failedCount s;
       chunk := chunk s; calls := calls s; clock := clock s; ticks := ticks s |}).

Definition inc_failedCount : M t unit :=
  modify (fun s =>
    {| lists := lists s; m_completedList := m_completedList s;
       m_succeededCount := m_succeededCount s;
       m_failedCount := to_uint32 (m_failedCount s + 1);
       chunk := chunk s; calls := calls s; clock := clock s; ticks := ticks s |}).

Definition set_chunk (c : Chunk) : M t unit :=
  modify (fun s =>
    {| lists := lists s; m_completedList := m_completedList s;
       m_succeededCount := m_succeededCount s; m_failedCount := m_failedCount s;
       chunk := c; calls := calls s; clock := clock s; ticks := ticks s |}).

Definition emit (e : event) : M t unit :=
  modify (fun s =>
    {| lists := lists s; m_completedList := m_completedList s;
       m_succeededCount := m_succeededCount s; m_failedCount := m_failedCount s;
       chunk := chunk s; calls := calls s ++ [e]; clock := clock s;
       ticks := ticks s |}).

(** utils::timer::current(): one reading of the clock. *)
Definition timer_current : M t Z :=
  fun s =>
    (Return (clock s (ticks s)),
     {| lists := lists s; m_completedList := m_completedList s;
        m_succeededCount := m_succeededCount s; m_failedCount := m_failedCount s;
        chunk := chunk s; calls := calls s; clock := clock s;
        ticks := S (ticks s) |}).

Definition from_minutes (m : Z) : Z := m * 60 * 1000000.

(** *** Chunk and BlockFailed *)

Fixpoint bytes_eqb (a b : list Z) : bool :=
  match a, b with
  | [], [] => true
  | x :: a', y :: b' => (x =? y) && bytes_eqb a' b'
  | _, _ => false
  end.

Definition chunk_slice (c : Chunk) (offset length : nat) : list Z :=
  firstn length (skipn offset c).

(** Modelled from the spec: Chunk::compare_buffer, Chunk::to_buffer and
    Chunk::from_buffer compare, copy out and copy in the [length] bytes at
    [offset]. *)
Definition compare_buffer (c : Chunk) (buf : list Z) (offset length : nat) : bool :=
  bytes_eqb (chunk_slice c offset length) (firstn length buf).

Definition to_buffer (c : Chunk) (offset length : nat) : list Z :=
  chunk_slice c offset length.

Definition from_buffer (c : Chunk) (buf : list Z) (offset length : nat) : Chunk :=
  firstn offset c ++ firstn length buf ++ skipn (offset + length) c.

(** transfer_list_compare_data(chunk, piece) *)
Definition transfer_list_compare_data (c : Chunk) (p : Piece) (failed : list Z * Z) : bool :=
  compare_buffer c (fst failed) (p_offset p) (p_length p).

(** Modelled from the spec: BlockFailed::max_element is std::max_element on
    the refcounts, the first of the largest elements; [largest] is kept with
    its refcount, [pos] is the position of the head of [l]. *)
Fixpoint max_element_loop (largest : nat * Z) (pos : nat) (l : list (list Z * Z)) : nat :=
  match l with
  | [] => fst largest
  | x :: rest =>
      max_element_loop (if snd largest <? snd x then (pos, snd x) else largest)
                       (S pos) rest
  end.

Definition max_element (l : list (list Z * Z)) : nat :=
  match l with
  | [] => O
  | x :: rest => max_element_loop (O, snd x) 1%nat rest
  end.

(** Modelled from the spec: BlockFailed::reverse_max_element returns the
    last entry with the maximum refcount; the result is the position
    [reverse_max_element().base() - 1] points to, [None] being [rend()]. *)
Definition reverse_max_element (l : list (list Z * Z)) : option nat :=
  match l with
  | [] => None
  | _ :: _ => Some (length l - 1 - max_element (rev l))%nat
  end.

(** Modelled from the spec: BlockFailed::set_current records the entry as
    the current one. *)
Definition set_current (pos : nat) (bf : BlockFailed) : BlockFailed :=
  {| bf_entries := bf_entries bf; bf_current := Z.of_nat pos |}.

Definition new_BlockFailed : BlockFailed :=
  {| bf_entries := []; bf_current := invalid_index |}.

(** *** Blocks *)

Definition set_failed_list (bf : BlockFailed) (b : Block) : Block :=
  {| piece := piece b; transfers := transfers b; leader := leader b;
     failed_list := Some bf; is_finished := is_finished b |}.

Definition set_transfers (ts : list BlockTransfer) (b : Block) : Block :=
  {| piece := piece b; transfers := ts; leader := leader b;
     failed_list := failed_list b; is_finished := is_finished b |}.

Definition clear_finished (b : Block) : Block :=
  {| piece := piece b; transfers := transfers b; leader := leader b;
     failed_list := failed_list b; is_finished := false |}.

Fixpoint update_nth {A} (f : A -> A) (i : nat) (l : list A) : list A :=
  match l, i with
  | [], _ => []
  | x :: rest, O => f x :: rest
  | x :: rest, S i' => x :: update_nth f i' rest
  end.

Definition set_failed_index (v : Z) (bt : BlockTransfer) : BlockTransfer :=
  {| peer_info := peer_info bt; failed_index := to_uint32 v |}.

Definition set_blocks (bs : list Block) (bl : BlockList) : BlockList :=
  {| index := index bl; blocks := bs; failed := failed bl; attempt := attempt bl |}.
Definition inc_failed (bl : BlockList) : BlockList :=
  {| index := index bl; blocks := blocks bl;
     failed := to_uint32 (failed bl + 1); attempt := attempt bl |}.
Definition set_attempt (a : Z) (bl : BlockList) : BlockList :=
  {| index := index bl; blocks := blocks bl; failed := failed bl; attempt := a |}.

(** A range-for over the blocks of a list that changes them in place:
    [acc] are the locals the body updates. When the body throws, the blocks
    before the current one keep their changes. *)
Fixpoint for_each {St A Acc} (body : A -> Acc -> M St (A * Acc))
    (l : list A) (acc : Acc) : St -> outcome Acc * list A * St :=
  fun s =>
    match l with
    | [] => (Return acc, [], s)
    | x :: rest =>
        match body x acc s with
        | (Return (x', acc'), s') =>
            let '(r, rest', s'') := for_each body rest acc' s' in
            (r, x' :: rest', s'')
        | (Throw e, s') => (Throw e, x :: rest, s')
        end
    end.

(** The loop run on the blocks of the BlockList at position [pos]. *)
Definition for_each_block {Acc} (pos : nat) (body : Block -> Acc -> M t (Block * Acc))
    (acc : Acc) : M t Acc :=
  fun s =>
    match nth_error (lists s) pos with
    | None => (Throw (undefined_behaviour "BlockList iterator not dereferenceable"), s)
    | Some bl =>
        let '(r, bs, s') := for_each body (blocks bl) acc s in
        let '(_, s'') := set_lists (update_nth (set_blocks bs) pos) s' in
        (r, s'')
    end.

(** std::set<PeerInfo*>: kept in increasing order, without repetition. *)
Fixpoint set_insert (x : Z) (s : list Z) : list Z :=
  match s with
  | [] => [x]
  | y :: rest =>
      if x <? y then x :: s
      else if x =? y then s
      else y :: set_insert x rest
  end.

(** *** Member functions *)

Definition find (idx : Z) (s : t) : nat :=
  find_if (fun b => idx =? index b) (lists s).

Definition erase (itr : nat) : M t unit :=
  (s <- get ;;
   if (itr =? length (lists s))%nat
   then throw (internal_error "TransferList::erase(...) itr == m_chunks.end().")
   else set_lists (vector_erase itr))%cxx.

(** [*itr] for an iterator into the TransferList. *)
Definition deref (itr : nat) : M t BlockList :=
  fun s =>
    match nth_error (lists s) itr with
    | Some bl => (Return bl, s)
    | None => (Throw (undefined_behaviour "BlockList iterator not dereferenceable"), s)
    end.

(** std::count_if(begin, end, &Block::is_finished) *)
Definition count_finished (bl : BlockList) : nat :=
  length (filter is_finished (blocks bl)).

Definition refcount_at (l : list (list Z * Z)) (pos : nat) : Z :=
  snd (nth pos l ([], 0)).

(** The body of the loop of [update_failed]; the local is [promoted]. *)
Definition update_failed_block (b : Block) (promoted : Z) : M t (Block * Z) :=
  fun s =>
    let bf := match failed_list b with
              | None => new_BlockFailed
              | Some bf => bf
              end in
    let failedItr :=
      find_if (transfer_list_compare_data (chunk s) (piece b)) (bf_entries bf) in
    let '(entries', failedItr', promoted') :=
      if (failedItr =? length (bf_entries bf))%nat
      then
        let buffer := to_buffer (chunk s) (p_offset (piece b)) (p_length (piece b)) in
        (bf_entries bf ++ [(buffer, 1)], length (bf_entries bf), promoted)
      else
        let maxItr := max_element (bf_entries bf) in
        let promoted' :=
          if (refcount_at (bf_entries bf) maxItr =? refcount_at (bf_entries bf) failedItr)
             && negb (match reverse_max_element (bf_entries bf) with
                      | Some r => (maxItr =? r)%nat
                      | None => false
                      end)
          then to_uint32 (promoted + 1)
          else promoted in
        (update_nth (fun e => (fst e, snd e + 1)) failedItr (bf_entries bf),
         failedItr, promoted') in
    let bf' := set_current failedItr'
                 {| bf_entries := entries'; bf_current := bf_current bf |} in
    match leader b with
    | None => (Throw (undefined_behaviour "Block::leader() is null"), s)
    | Some ld =>
        if (ld <? length (transfers b))%nat
        then (Return
                (set_transfers
                   (update_nth (set_failed_index (Z.of_nat failedItr')) ld (transfers b))
                   (set_failed_list bf' b),
                 promoted'), s)
        else (Throw (undefined_behaviour "Block::leader() is dangling"), s)
    end.

Definition update_failed (blockList : nat) : M t Z :=
  (set_lists (update_nth inc_failed blockList) ;;;
   for_each_block blockList update_failed_block 0)%cxx.

(** The body of the first loop of [mark_failed_peers]; the local is
    [badPeers]. *)
Definition bad_transfer (current : Z) (transfer : BlockTransfer) : bool :=
  negb (failed_index transfer =? current)
  && negb (failed_index transfer =? invalid_index).

Definition mark_failed_block (b : Block) (badPeers : list Z) : M t (Block * list Z) :=
  fun s =>
    match failed_list b with
    | None => (Throw (undefined_behaviour "Block::failed_list() is null"), s)
    | Some bf =>
        let bf' :=
          set_current
            (find_if (transfer_list_compare_data (chunk s) (piece b)) (bf_entries bf))
            bf in
        let badPeers' :=
          fold_left
            (fun acc transfer =>
               if bad_transfer (bf_current bf') transfer
               then set_insert (peer_info transfer) acc
               else acc)
            (transfers b) badPeers in
        (Return (set_failed_list bf' b, badPeers'), s)
    end.

Fixpoint emit_each (f : Z -> event) (l : list Z) : M t unit :=
  match l with
  | [] => ret tt
  | x :: rest => (emit (f x) ;;; emit_each f rest)%cxx
  end.

Definition mark_failed_peers (blockList : nat) : M t unit :=
  (badPeers <- for_each_block blockList mark_failed_block [] ;;
   emit_each on_corrupt badPeers)%cxx.

(** The body of the loop of [retry_most_popular]. *)
Definition retry_block (b : Block) (_ : unit) : M t (Block * unit) :=
  match failed_list b with
  | None => throw (undefined_behaviour "Block::failed_list() is null")
  | Some bf =>
      match reverse_max_element (bf_entries bf) with
      | None =>
          throw (internal_error
                   "TransferList::retry_most_popular(...) No failed list entry found.")
      | Some failedItr =>
          if Z.of_nat failedItr =? bf_current bf then ret (b, tt)
          else
            (s <- get ;;
             set_chunk (from_buffer (chunk s)
                          (fst (nth failedItr (bf_entries bf) ([], 0)))
                          (p_offset (piece b)) (p_length (piece b))) ;;;
             ret (set_failed_list (set_current failedItr bf) b, tt))%cxx
      end
  end.

Definition retry_most_popular (blockList : nat) : M t unit :=
  (for_each_block blockList retry_block tt ;;;
   bl <- deref blockList ;;
   emit (on_completed (index bl)))%cxx.

(** Modelled from the spec: BlockList::do_all_failed marks every block for
    redownload and returns the piece to the downloader. *)
Definition do_all_failed (blockList : nat) : M t unit :=
  (bl <- deref blockList ;;
   set_lists (update_nth (set_blocks (map clear_finished (blocks bl))) blockList) ;;;
   emit (do_all_failed_call (index bl)))%cxx.

Definition hash_failed (idx : Z) : M t unit :=
  (s <- get ;;
   let blockListItr := find idx s in
   if (blockListItr =? length (lists s))%nat
   then throw (internal_error "TransferList::hash_failed(...) Could not find index.")
   else
     bl <- deref blockListItr ;;
     if negb (count_finished bl =? length (blocks bl))%nat
     then throw (internal_error
                   "TransferList::hash_failed(...) Finished blocks does not match size.")
     else
       inc_failedCount ;;;
       bl <- deref blockListItr ;;
       if attempt bl =? 0
       then
         promoted <- update_failed blockListItr ;;
         bl <- deref blockListItr ;;
         if (0 <? promoted) || (promoted <? Z.of_nat (length (blocks bl)))
         then
           set_lists (update_nth (set_attempt 1) blockListItr) ;;;
           retry_most_popular blockListItr
         else do_all_failed blockListItr
       else do_all_failed blockListItr)%cxx.

(** The std::find_if that prunes the completed list: the clock is read for
    every entry looked at. *)
Fixpoint find_recent (l : list (Z * Z)) : M t nat :=
  match l with
  | [] => ret O
  | v :: rest =>
      (now <- timer_current ;;
       if now - from_minutes 30 <=? fst v then ret O
       else (n <- find_recent rest ;; ret (S n)))%cxx
  end.

Definition hash_succeeded (idx : Z) : M t unit :=
  (s <- get ;;
   let blockListItr := find idx s in
   bl <- deref blockListItr ;;
   if negb (count_finished bl =? length (blocks bl))%nat
   then throw (internal_error
                 "TransferList::hash_succeeded(...) Finished blocks does not match size.")
   else
     (if negb (failed bl =? 0) then mark_failed_peers blockListItr else ret tt) ;;;
     now <- timer_current ;;
     set_completedList (fun l => l ++ [(now, idx)]) ;;;
     s <- get ;;
     now <- timer_current ;;
     (match m_completedList s with
      | front :: _ =>
          if fst front + from_minutes 60 <? now
          then
            itr <- find_recent (m_completedList s) ;;
            set_completedList (skipn itr)
          else ret tt
      | [] => throw (undefined_behaviour "front() of an empty vector")
      end) ;;;
     inc_succeededCount ;;;
     erase blockListItr)%cxx.

(** *** Well-formed block lists *)

(** Every block has a leader among its transfers. *)
Definition has_leader (b : Block) : Prop :=
  exists ld, leader b = Some ld /\ (ld < length (transfers b))%nat.

(** Every block has a FailedList. *)
Definition has_failed_list (b : Block) : Prop := failed_list b <> None.

(** The position std::find_if with transfer_list_compare_data returns in
    the FailedList of the block. *)
Definition found_entry (c : Chunk) (b : Block) : Z :=
  match failed_list b with
  | Some bf =>
      Z.of_nat (find_if (transfer_list_compare_data c (piece b)) (bf_entries bf))
  | None => 0
  end.

(** The peer [p] has, in some block of [bl], a transfer whose
    [failed_index] is set and is not the position found. *)
Definition differs_from_found (c : Chunk) (bl : BlockList) (p : Z) : Prop :=
  exists b transfer,
    In b (blocks bl) /\ In transfer (transfers b) /\
    peer_info transfer = p /\
    failed_index transfer <> invalid_index /\
    failed_index transfer <> found_entry c b.

(** The buffer of a FailedList entry holds the bytes the chunk has at the
    piece of a block. *)
Definition holds_chunk_bytes (c : Chunk) (p : Piece) (e : list Z * Z) : Prop :=
  firstn (p_length p) (fst e) = chunk_slice c (p_offset p) (p_length p).

(** The FailedList entry that equals the chunk's bytes, said without the
    comparison the code runs: [k] is the position of the first entry of the
    block's FailedList whose buffer holds the bytes of the chunk, or the
    size of the list when no entry holds them. *)
Definition entry_of_chunk_bytes (c : Chunk) (b : Block) (k : nat) : Prop :=
  exists bf,
    failed_list b = Some bf /\
    (forall j e, (j < k)%nat -> nth_error (bf_entries bf) j = Some e ->
                 ~ holds_chunk_bytes c (piece b) e) /\
    (k = length (bf_entries bf) \/
     exists e, nth_error (bf_entries bf) k = Some e /\ holds_chunk_bytes c (piece b) e).

(** The peer [p] has, in some block of [bl], a transfer whose
    [failed_index] is set and is not the position of the entry that equals
    the chunk's bytes. *)
Definition sent_other_data (c : Chunk) (bl : BlockList) (p : Z) : Prop :=
  exists b transfer k,
    In b (blocks bl) /\ In transfer (transfers b) /\
    peer_info transfer = p /\
    failed_index transfer <> invalid_index /\
    entry_of_chunk_bytes c b k /\
    failed_index transfer <> Z.of_nat k.

(** Every block has a FailedList with an entry in it. *)
Definition has_failed_entry (b : Block) : Prop :=
  exists bf, failed_list b = Some bf /\ bf_entries bf <> [].

(** The state with another chunk, and with another number of clock
    readings. *)
Definition with_chunk (c : Chunk) (s : t) : t := snd (set_chunk c s).

Definition with_ticks (k : nat) (s : t) : t :=
  {| lists := lists s; m_completedList := m_completedList s;
     m_succeededCount := m_succeededCount s; m_failedCount := m_failedCount s;
     chunk := chunk s; calls := calls s; clock := clock s; ticks := k |}.

(** The state with more calls recorded. *)
Definition with_calls (l : list event) (s : t) : t :=
  {| lists := lists s; m_completedList := m_completedList s;
     m_succeededCount := m_succeededCount s; m_failedCount := m_failedCount s;
     chunk := chunk s; calls := calls s ++ l; clock := clock s; ticks := ticks s |}.

(** The clock does not get 30 minutes ahead of the reading that stamps
    the completion while the call runs: the call reads the clock at most
    twice and once more for every entry of the completed list. *)
Definition clock_steady (s : t) : Prop :=
  forall k,
    (ticks s < k <= ticks s + 2 + length (m_completedList s))%nat ->
    clock s k - from_minutes 30 <= clock s (ticks s).

(** *** Example states *)

Definition AA : Z := 0xAA.
Definition BB : Z := 0xBB.
Definition CC : Z := 0xCC.

(** Two peers, by the address of their PeerInfo. *)
Definition peer_A : Z := 0x1000.
Definition peer_C : Z := 0x3000.

(** A piece of two one-byte blocks, both finished, each with the two peers'
    transfers and peer A's as leader, before any hash verdict. *)
Definition first_verdict_piece : BlockList :=
  {| index := 7;
     blocks :=
       [ {| piece := {| p_index := 7; p_offset := 0; p_length := 1 |};
            transfers := [ {| peer_info := peer_A; failed_index := invalid_index |};
                           {| peer_info := peer_C; failed_index := invalid_index |} ];
            leader := Some O; failed_list := None; is_finished := true |};
         {| piece := {| p_index := 7; p_offset := 1; p_length := 1 |};
            transfers := [ {| peer_info := peer_A; failed_index := invalid_index |};
                           {| peer_info := peer_C; failed_index := invalid_index |} ];
            leader := Some O; failed_list := None; is_finished := true |} ];
     failed := 0; attempt := 0 |}.

Definition first_verdict : t :=
  {| lists := [first_verdict_piece]; m_completedList := [];
     m_succeededCount := 0; m_failedCount := 0;
     chunk := [AA; BB]; calls := [];
     clock := fun k => 1700000000000000 + Z.of_nat k; ticks := O |}.

(** The same piece after failed verdicts: both peers sent [AA] for the
    first block, peer A sent [BB] and peer C sent [CC] for the second. *)
Definition reconciled_piece : BlockList :=
  {| index := 7;
     blocks :=
       [ {| piece := {| p_index := 7; p_offset := 0; p_length := 1 |};
            transfers := [ {| peer_info := peer_A; failed_index := 0 |};
                           {| peer_info := peer_C; failed_index := 0 |} ];
            leader := Some O;
            failed_list := Some {| bf_entries := [([AA], 2)]; bf_current := 0 |};
            is_finished := true |};
         {| piece := {| p_index := 7; p_offset := 1; p_length := 1 |};
            transfers := [ {| peer_info := peer_A; failed_index := 0 |};
                           {| peer_info := peer_C; failed_index := 1 |} ];
            leader := Some O;
            failed_list := Some {| bf_entries := [([BB], 1); ([CC], 1)];
                                   bf_current := 0 |};
            is_finished := true |} ];
     failed := 1; attempt := 1 |}.

Definition reconciled : t :=
  {| lists := [reconciled_piece]; m_completedList := [(1690000000000000, 3)];
     m_succeededCount := 4; m_failedCount := 1;
     chunk := [AA; BB]; calls := [on_completed 7];
     clock := fun k => 1700000000000000 + Z.of_nat k; ticks := O |}.

(** The first example state on a clock that is set forward by 90 minutes
    after its first reading. *)
Definition late_clock : t :=
  {| lists := [first_verdict_piece]; m_completedList := [];
     m_succeededCount := 0; m_failedCount := 0;
     chunk := [AA; BB]; calls := [];
     clock := fun k => match k with
                       | O => 1700000000000000
                       | S _ => 1700000000000000 + from_minutes 90
                       end;
     ticks := O |}.

(** *** Queueing a piece, and what a failed verdict records *)

(** Modelled from the spec: BlockList::BlockList(piece, blockSize) cuts the
    piece into blocks of [blockSize] bytes, the last one shorter when the
    length is no multiple of it; [failed] and [attempt] start at zero. *)
Fixpoint make_blocks (idx : Z) (offset remaining blockSize count : nat) : list Block :=
  match count with
  | O => []
  | S k =>
      {| piece := {| p_index := idx; p_offset := offset;
                     p_length := Nat.min blockSize remaining |};
         transfers := []; leader := None; failed_list := None;
         is_finished := false |}
      :: make_blocks idx (offset + blockSize) (remaining - blockSize) blockSize k
  end.

Definition new_BlockList (p : Piece) (blockSize : nat) : BlockList :=
  {| index := p_index p;
     blocks := make_blocks (p_index p) (p_offset p) (p_length p) blockSize
                 ((p_length p + blockSize - 1) / blockSize);
     failed := 0; attempt := 0 |}.

Definition insert (p : Piece) (blockSize : nat) : M t nat :=
  (s <- get ;;
   if negb (find (p_index p) s =? length (lists s))%nat
   then throw (internal_error
                 "Delegator::new_chunk(...) received an index that is already delegated.")
   else
     emit (on_queued (p_index p)) ;;;
     set_lists (vector_insert (length (lists s)) (new_BlockList p blockSize)) ;;;
     ret (length (lists s)))%cxx.

(** The sum of the reference counts of a FailedList, and of the FailedList
    of a block. *)
Definition refcounts (l : list (list Z * Z)) : Z :=
  fold_right (fun e acc => snd e + acc) 0 l.

Definition total_refcount (b : Block) : Z :=
  match failed_list b with
  | Some bf => refcounts (bf_entries bf)
  | None => 0
  end.

(** What a failed verdict on the chunk [c] records in a block, in the
    terms of the code: the current FailedList entry is the one found. *)
Definition records_found (c : Chunk) (b b' : Block) : Prop :=
  exists bf' ld transfer,
    failed_list b' = Some bf' /\
    bf_current bf' = found_entry c b' /\
    (0 <= bf_current bf' < Z.of_nat (length (bf_entries bf'))) /\
    leader b' = Some ld /\
    nth_error (transfers b') ld = Some transfer /\
    failed_index transfer = to_uint32 (bf_current bf') /\
    total_refcount b' = total_refcount b + 1 /\
    piece b' = piece b /\
    map peer_info (transfers b') = map peer_info (transfers b).

(** What a failed verdict on the chunk [c] records in a block: its current
    FailedList entry exists and is the first entry whose buffer holds the
    bytes of [c] for the block, the leader transfer points to it, and the
    reference counts have grown by one in total. *)
Definition records_chunk (c : Chunk) (b b' : Block) : Prop :=
  exists bf' k ld transfer,
    failed_list b' = Some bf' /\
    bf_current bf' = Z.of_nat k /\
    (k < length (bf_entries bf'))%nat /\
    entry_of_chunk_bytes c b' k /\
    leader b' = Some ld /\
    nth_error (transfers b') ld = Some transfer /\
    failed_index transfer = to_uint32 (Z.of_nat k) /\
    total_refcount b' = total_refcount b + 1 /\
    piece b' = piece b /\
    map peer_info (transfers b') = map peer_info (transfers b).

(** What the calls leave alone. *)
Definition same_pieces (s s' : t) : Prop :=
  map index (lists s') = map index (lists s) /\
  m_completedList s' = m_completedList s /\
  m_succeededCount s' = m_succeededCount s.

Definition keeps {A} (m : M t A) : Prop := forall s, same_pieces s (snd (m s)).

(** The calls that leave the vector of BlockLists itself as it is. *)
Definition untouched (s s' : t) : Prop :=
  lists s' = lists s /\
  m_completedList s' = m_completedList s /\
  m_succeededCount s' = m_succeededCount s.

(** The first example state with the piece 9, of two bytes, queued in
    blocks of one byte. *)
Definition queued_piece : t :=
  snd (insert {| p_index := 9; p_offset := 0; p_length := 2 |} 1 first_verdict).

End TransferList.

(** ** TrackerUdp: replies and timeouts (src/tracker/tracker_udp.cc) *)

Module TrackerUdpEvents.
Import ProtocolBuffer TrackerUdp.

(** Modelled from the spec: ReadBuffer, the ProtocolBuffer datagrams are
    received in: the bytes up to [end()] and the position of the next read;
    [read_32] and [read_64] read a value most significant byte first and
    advance the position. *)
Record ReadBuffer : Type := {
  rb_bytes : list Z;
  rb_position : nat
}.

Definition read (n : nat) (rb : ReadBuffer) : Z * ReadBuffer :=
  (be_value (slice (rb_position rb) n (rb_bytes rb)) 0,
   {| rb_bytes := rb_bytes rb; rb_position := (rb_position rb + n)%nat |}).

Definition remaining (rb : ReadBuffer) : nat := (length (rb_bytes rb) - rb_position rb)%nat.

(** The calls on the parent TrackerList; an address of the list handed to
    [receive_success] is the 6 bytes of its compact form. *)
Inductive parent_call : Type :=
| receive_success_call (l : list (list Z))
| receive_failed_call (msg : string).

(** What the member functions read of the download, the manager and the
    clock: [deadline] is the time the timeout task is queued for,
    [random] the value [random_uint32()] returns. *)
Record World : Type := {
  environment : Environment;
  udp_tries : Z;
  deadline : Z;
  default_min_interval : Z;
  now_seconds : Z;
  random : Z
}.

(** The tracker: the fields of [TrackerUdp.t], the socket, the read
    buffer, the timeout task, where the poll has the socket, the fields of
    the Tracker base class the replies set, the datagrams written and the
    calls made on the parent. The buffers exist exactly while the socket is
    open. *)
Record conn : Type := {
  udp : TrackerUdp.t;
  fd_valid : bool;
  m_readBuffer : ReadBuffer;
  m_tries : Z;
  m_taskTimeout : option Z;        (* queued, with its time *)
  in_read : bool;
  in_write : bool;
  in_error : bool;
  m_normal_interval : Z;
  m_min_interval : Z;
  m_scrape_incomplete : Z;
  m_scrape_complete : Z;
  m_scrape_time_last : Z;
  written : list (list Z);
  parent_calls : list parent_call
}.

Definition set_udp (f : TrackerUdp.t -> TrackerUdp.t) (c : conn) : conn :=
  {| udp := f (udp c); fd_valid := fd_valid c; m_readBuffer := m_readBuffer c;
     m_tries := m_tries c; m_taskTimeout := m_taskTimeout c;
     in_read := in_read c; in_write := in_write c; in_error := in_error c;
     m_normal_interval := m_normal_interval c; m_min_interval := m_min_interval c;
     m_scrape_incomplete := m_scrape_incomplete c;
     m_scrape_complete := m_scrape_complete c;
     m_scrape_time_last := m_scrape_time_last c;
     written := written c; parent_calls := parent_calls c |}.

Definition set_readBuffer (rb : ReadBuffer) (c : conn) : conn :=
  {| udp := udp c; fd_valid := fd_valid c; m_readBuffer := rb;
     m_tries := m_tries c; m_taskTimeout := m_taskTimeout c;
     in_read := in_read c; in_write := in_write c; in_error := in_error c;
     m_normal_interval := m_normal_interval c; m_min_interval := m_min_interval c;
     m_scrape_incomplete := m_scrape_incomplete c;
     m_scrape_complete := m_scrape_complete c;
     m_scrape_time_last := m_scrape_time_last c;
     written := written c; parent_calls := parent_calls c |}.

Definition set_tries (n : Z) (c : conn) : conn :=
  {| udp := udp c; fd_valid := fd_valid c; m_readBuffer := m_readBuffer c;
     m_tries := n; m_taskTimeout := m_taskTimeout c;
     in_read := in_read c; in_write := in_write c; in_error := in_error c;
     m_normal_interval := m_normal_interval c; m_min_interval := m_min_interval c;
     m_scrape_incomplete := m_scrape_incomplete c;
     m_scrape_complete := m_scrape_complete c;
     m_scrape_time_last := m_scrape_time_last c;
     written := written c; parent_calls := parent_calls c |}.

(** priority_queue_insert and priority_queue_erase of the timeout task. *)
Definition set_taskTimeout (q : option Z) (c : conn) : conn :=
  {| udp := udp c; fd_valid := fd_valid c; m_readBuffer := m_readBuffer c;
     m_tries := m_tries c; m_taskTimeout := q;
     in_read := in_read c; in_write := in_write c; in_error := in_error c;
     m_normal_interval := m_normal_interval c; m_min_interval := m_min_interval c;
     m_scrape_incomplete := m_scrape_incomplete c;
     m_scrape_complete := m_scrape_complete c;
     m_scrape_time_last := m_scrape_time_last c;
     written := written c; parent_calls := parent_calls c |}.

(** poll()->insert_write and poll()->remove_write *)
Definition set_in_write (b : bool) (c : conn) : conn :=
  {| udp := udp c; fd_valid := fd_valid c; m_readBuffer := m_readBuffer c;
     m_tries := m_tries c; m_taskTimeout := m_taskTimeout c;
     in_read := in_read c; in_write := b; in_error := in_error c;
     m_normal_interval := m_normal_interval c; m_min_interval := m_min_interval c;
     m_scrape_incomplete := m_scrape_incomplete c;
     m_scrape_complete := m_scrape_complete c;
     m_scrape_time_last := m_scrape_time_last c;
     written := written c; parent_calls := parent_calls c |}.

(** Modelled from the spec: Tracker::set_normal_interval and
    Tracker::set_min_interval store the value. *)
Definition set_normal_interval (v : Z) (c : conn) : conn :=
  {| udp := udp c; fd_valid := fd_valid c; m_readBuffer := m_readBuffer c;
     m_tries := m_tries c; m_taskTimeout := m_taskTimeout c;
     in_read := in_read c; in_write := in_write c; in_error := in_error c;
     m_normal_interval := v; m_min_interval := m_min_interval c;
     m_scrape_incomplete := m_scrape_incomplete c;
     m_scrape_complete := m_scrape_complete c;
     m_scrape_time_last := m_scrape_time_last c;
     written := written c; parent_calls := parent_calls c |}.

Definition set_min_interval (v : Z) (c : conn) : conn :=
  {| udp := udp c; fd_valid := fd_valid c; m_readBuffer := m_readBuffer c;
     m_tries := m_tries c; m_taskTimeout := m_taskTimeout c;
     in_read := in_read c; in_write := in_write c; in_error := in_error c;
     m_normal_interval := m_normal_interval c; m_min_interval := v;
     m_scrape_incomplete := m_scrape_incomplete c;
     m_scrape_complete := m_scrape_complete c;
     m_scrape_time_last := m_scrape_time_last c;
     written := written c; parent_calls := parent_calls c |}.

Definition set_scrape (incomplete complete time_last : Z) (c : conn) : conn :=
  {| udp := udp c; fd_valid := fd_valid c; m_readBuffer := m_readBuffer c;
     m_tries := m_tries c; m_taskTimeout := m_taskTimeout c;
     in_read := in_read c; in_write := in_write c; in_error := in_error c;
     m_normal_interval := m_normal_interval c; m_min_interval := m_min_interval c;
     m_scrape_incomplete := incomplete;
     m_scrape_complete := complete;
     m_scrape_time_last := time_last;
     written := written c; parent_calls := parent_calls c |}.

Definition write_datagram (d : list Z) (c : conn) : conn :=
  {| udp := udp c; fd_valid := fd_valid c; m_readBuffer := m_readBuffer c;
     m_tries := m_tries c; m_taskTimeout := m_taskTimeout c;
     in_read := in_read c; in_write := in_write c; in_error := in_error c;
     m_normal_interval := m_normal_interval c; m_min_interval := m_min_interval c;
     m_scrape_incomplete := m_scrape_incomplete c;
     m_scrape_complete := m_scrape_complete c;
     m_scrape_time_last := m_scrape_time_last c;
     written := written c ++ [d]; parent_calls := parent_calls c |}.

Definition call_parent (p : parent_call) (c : conn) : conn :=
  {| udp := udp c; fd_valid := fd_valid c; m_readBuffer := m_readBuffer c;
     m_tries := m_tries c; m_taskTimeout := m_taskTimeout c;
     in_read := in_read c; in_write := in_write c; in_error := in_error c;
     m_normal_interval := m_normal_interval c; m_min_interval := m_min_interval c;
     m_scrape_incomplete := m_scrape_incomplete c;
     m_scrape_complete := m_scrape_complete c;
     m_scrape_time_last := m_scrape_time_last c;
     written := written c; parent_calls := parent_calls c ++ [p] |}.

(** What [close_directly] does to an open socket: the buffers are deleted,
    the timeout task is erased, the poll forgets the socket and the socket
    is closed. *)
Definition closed (c : conn) : conn :=
  {| udp := set_writeBuffer reset (udp c); fd_valid := false;
     m_readBuffer := {| rb_bytes := []; rb_position := O |};
     m_tries := m_tries c; m_taskTimeout := None;
     in_read := false; in_write := false; in_error := false;
     m_normal_interval := m_normal_interval c; m_min_interval := m_min_interval c;
     m_scrape_incomplete := m_scrape_incomplete c;
     m_scrape_complete := m_scrape_complete c;
     m_scrape_time_last := m_scrape_time_last c;
     written := written c; parent_calls := parent_calls c |}.

Definition close_directly : M conn unit :=
  (c <- get ;;
   if negb (fd_valid c) then ret tt else put (closed c))%cxx.

Definition receive_failed (msg : string) : M conn unit :=
  (close_directly ;;; modify (call_parent (receive_failed_call msg)))%cxx.

(** A member function of [TrackerUdp.t] run on the tracker. *)
Definition on_udp {A} (m : M TrackerUdp.t A) : M conn A :=
  fun c => let '(r, u) := m (udp c) in (r, set_udp (fun _ => u) c).

(** The buffers are null when the socket is not open. *)
Definition buffers : M conn unit :=
  (c <- get ;;
   if fd_valid c then ret tt
   else throw (undefined_behaviour "the buffers are null"))%cxx.

Definition read_32 : M conn Z :=
  (c <- get ;;
   let '(v, rb) := read 4 (m_readBuffer c) in
   modify (set_readBuffer rb) ;;; ret v)%cxx.

Definition read_64 : M conn Z :=
  (c <- get ;;
   let '(v, rb) := read 8 (m_readBuffer c) in
   modify (set_readBuffer rb) ;;; ret v)%cxx.

(** [m_tries] is decremented as the integer it is; its width plays no part
    while it is positive. *)
Definition receive_timeout (w : World) : M conn unit :=
  (c <- get ;;
   match m_taskTimeout c with
   | Some _ => throw (internal_error
       "TrackerUdp::receive_timeout() called but m_taskTimeout is still scheduled.")
   | None =>
       modify (set_tries (m_tries c - 1)) ;;;
       if m_tries c - 1 =? 0
       then receive_failed "unable to connect to UDP tracker"
       else
         modify (set_taskTimeout (Some (deadline w))) ;;;
         modify (set_in_write true)
   end)%cxx.

Definition process_connect_output : M conn bool :=
  (c <- get ;;
   if Z.of_nat (length (rb_bytes (m_readBuffer c))) <? 16 then ret false
   else
     id <- read_32 ;;
     if negb (id =? m_transactionId (udp c)) then ret false
     else
       v <- read_64 ;;
       modify (set_udp (set_connectionId v)) ;;;
       ret true)%cxx.

(** The SocketAddressCompact records of [count] times 6 bytes. *)
Fixpoint compact_addresses (count : nat) (bytes : list Z) : list (list Z) :=
  match count with
  | O => []
  | S k => firstn 6 bytes :: compact_addresses k (skipn 6 bytes)
  end.

Definition process_announce_output (w : World) : M conn bool :=
  (c <- get ;;
   if Z.of_nat (length (rb_bytes (m_readBuffer c))) <? 20 then ret false
   else
     id <- read_32 ;;
     if negb (id =? m_transactionId (udp c)) then ret false
     else
       interval <- read_32 ;;
       modify (set_normal_interval interval) ;;;
       modify (set_min_interval (default_min_interval w)) ;;;
       incomplete <- read_32 ;;
       complete <- read_32 ;;
       modify (set_scrape incomplete complete (now_seconds w)) ;;;
       c' <- get ;;
       let rb := m_readBuffer c' in
       let l := compact_addresses ((remaining rb - remaining rb mod 6) / 6)
                  (skipn (rb_position rb) (rb_bytes rb)) in
       close_directly ;;;
       modify (call_parent (receive_success_call l)) ;;;
       ret true)%cxx.

(** std::string(position, end): the bytes as characters. *)
Definition string_of_bytes (bytes : list Z) : string :=
  string_of_list_ascii (map (fun b => Ascii.ascii_of_nat (Z.to_nat b)) bytes).

Definition process_error_output : M conn bool :=
  (c <- get ;;
   if Z.of_nat (length (rb_bytes (m_readBuffer c))) <? 8 then ret false
   else
     id <- read_32 ;;
     if negb (id =? m_transactionId (udp c)) then ret false
     else
       c' <- get ;;
       let rb := m_readBuffer c' in
       receive_failed ("received error message: "
                       ++ string_of_bytes (skipn (rb_position rb) (rb_bytes rb))) ;;;
       ret true)%cxx.

(** [received] is what read_datagram stored in the read buffer, [None]
    when it returned a negative value. *)
Definition event_read (w : World) (received : option (list Z)) : M conn unit :=
  (buffers ;;;
   match received with
   | None => ret tt
   | Some bytes =>
       modify (set_readBuffer {| rb_bytes := bytes; rb_position := O |}) ;;;
       if Z.of_nat (length bytes) <? 4 then ret tt
       else
         action <- read_32 ;;
         c <- get ;;
         if action =? 0
         then
           if negb (m_action (udp c) =? 0) then ret tt
           else
             ok <- process_connect_output ;;
             if negb ok then ret tt
             else
               on_udp (prepare_announce_input (environment w) (random w)) ;;;
               modify (set_taskTimeout None) ;;;
               modify (set_taskTimeout (Some (deadline w))) ;;;
               modify (set_tries (udp_tries w)) ;;;
               modify (set_in_write true)
         else if action =? 1
         then
           if negb (m_action (udp c) =? 1) then ret tt
           else (_ <- process_announce_output w ;; ret tt)
         else if action =? 3
         then (_ <- process_error_output ;; ret tt)
         else ret tt
   end)%cxx.

Definition event_write : M conn unit :=
  (buffers ;;;
   c <- get ;;
   if size_end (m_writeBuffer (udp c)) =? 0
   then throw (internal_error "TrackerUdp::write() called but the write buffer is empty.")
   else
     modify (write_datagram (m_writeBuffer (udp c))) ;;;
     modify (set_in_write false))%cxx.

(** Modelled from the spec: the timer scheduler wakes the timeout task:
    the task leaves the queue and its slot, [receive_timeout], is called. *)
Definition timeout_fires (w : World) : M conn unit :=
  (modify (set_taskTimeout None) ;;; receive_timeout w)%cxx.

Fixpoint timeouts (w : World) (n : nat) : M conn unit :=
  match n with
  | O => ret tt
  | S k => (timeout_fires w ;;; timeouts w k)%cxx
  end.

(** The tracker with [bytes] in its read buffer, [pos] of them read. *)
Definition at_position (bytes : list Z) (pos : nat) (c : conn) : conn :=
  set_readBuffer {| rb_bytes := bytes; rb_position := pos |} c.

(** The state [start_announce] leaves when the socket could be opened:
    the connect request is in the write buffer and the timeout is queued. *)
Definition connecting (w : World) (transaction : Z) : conn :=
  {| udp := snd (prepare_connect_input transaction
                   {| m_connectionId := 0; m_action := 0; m_transactionId := 0;
                      m_sendState := 2; m_writeBuffer := [] |});
     fd_valid := true;
     m_readBuffer := {| rb_bytes := []; rb_position := O |};
     m_tries := udp_tries w; m_taskTimeout := Some (deadline w);
     in_read := true; in_write := true; in_error := true;
     m_normal_interval := 1800; m_min_interval := 600;
     m_scrape_incomplete := 0; m_scrape_complete := 0; m_scrape_time_last := 0;
     written := []; parent_calls := [] |}.

Definition twenty (b : Z) : HashString :=
  {| hs_data := repeat b 20; hs_size := eq_refl |}.

Definition quiet_world : World :=
  {| environment :=
       {| info := {| hash := twenty 1; local_id := twenty 2;
                     uploaded_adjusted := 0; completed_adjusted := 0;
                     slot_left := 1000 |};
          key := 7; numwant := 50; local_address := af_unspec; listen_port := 6881 |};
     udp_tries := 2; deadline := 30; default_min_interval := 600;
     now_seconds := 1700000000; random := 0x01020304 |}.

End TrackerUdpEvents.

(** ** TrackerHttp: the reply of the tracker (src/tracker/tracker_http.cc) *)

Module TrackerHttpReply.
Import TrackerHttp.

Definition is_map (o : Object) : bool :=
  match o with o_map _ => true | _ => false end.

Definition has_key_map (k : string) (o : Object) : bool :=
  match get_key k o with Some (o_map _) => true | _ => false end.

(** The tracker, and the number of calls of [receive_scrape_success] made
    on the parent TrackerList. *)
Record t : Type := {
  http : TrackerHttp.t;
  scrape_success_calls : nat
}.

(** A member function of [TrackerHttp.t] run on the tracker. *)
Definition on_http {A} (m : M TrackerHttp.t A) : M t A :=
  fun s =>
    let '(r, h) := m (http s) in
    (r, {| http := h; scrape_success_calls := scrape_success_calls s |}).

Definition receive_scrape_success : M t unit :=
  modify (fun s => {| http := http s;
                      scrape_success_calls := S (scrape_success_calls s) |}).

Definition set_scrape_complete (v : Z) : M TrackerHttp.t unit :=
  (h <- get ;; set_scrape v (m_scrape_incomplete h) (m_scrape_time_last h))%cxx.

Definition set_scrape_incomplete (v : Z) : M TrackerHttp.t unit :=
  (h <- get ;; set_scrape (m_scrape_complete h) v (m_scrape_time_last h))%cxx.

(** [hash] is the info hash of the download as a string. *)
Definition process_scrape (hash : string) (object : Object) : M t unit :=
  if negb (has_key_map "files" object)
  then on_http (receive_failed "Tracker scrape does not have files entry.")
  else
    let files := match get_key "files" object with Some o => o | None => o_none end in
    if negb (has_key_map hash files)
    then on_http (receive_failed "Tracker scrape replay did not contain infohash.")
    else
      let stats := match get_key hash files with Some o => o | None => o_none end in
      (on_http (when (has_key_value "complete" stats)
                  (set_scrape_complete (Z.max (get_key_value "complete" stats) 0))) ;;;
       on_http (when (has_key_value "incomplete" stats)
                  (set_scrape_incomplete (Z.max (get_key_value "incomplete" stats) 0))) ;;;
       on_http (when (has_key_value "downloaded" stats)
                  (set_scrape_downloaded (Z.max (get_key_value "downloaded" stats) 0))) ;;;
       on_http close_directly ;;;
       receive_scrape_success)%cxx.

Definition double_quote : string := String (Ascii.ascii_of_nat 34) EmptyString.

(** [parsed] is the Object read from the reply, [None] when the stream
    failed; [dump] is the text the failure message quotes, the first 99
    characters of the sanitized reply. *)
Definition receive_done `{Defaults} (cachedTime : Z) (hash : string)
    (parsed : option Object) (dump : string) : M t unit :=
  (s <- get ;;
   if negb (m_data (http s))
   then throw (internal_error "TrackerHttp::receive_done() called on an invalid object")
   else
     match parsed with
     | None => on_http (receive_failed ("Could not parse bencoded data: " ++ dump))
     | Some b =>
         if negb (is_map b)
         then on_http (receive_failed "Root not a bencoded map")
         else if has_key "failure reason" b
         then
           when (negb (m_latest_event (http s) =? EVENT_SCRAPE))
             (on_http (process_failure cachedTime b)) ;;;
           on_http (receive_failed
                      ("Failure reason " ++ double_quote
                       ++ (if has_key_string "failure reason" b
                           then get_key_string "failure reason" b
                           else "failure reason not a string")
                       ++ double_quote))
         else if m_latest_event (http s) =? EVENT_SCRAPE
         then process_scrape hash b
         else on_http (process_success cachedTime b)
     end)%cxx.

(** A computation that returns without a call on the parent and leaves the
    request and the event as they are. *)
Definition quiet (m : M TrackerHttp.t unit) : Prop :=
  forall h,
    exists h',
      m h = (Return tt, h') /\
      parent_calls h' = parent_calls h /\
      m_data h' = m_data h /\
      m_latest_event h' = m_latest_event h.

(** A computation that returns with the request closed and one call made
    on the parent. *)
Definition reports (m : M TrackerHttp.t unit) : Prop :=
  forall h,
    exists h' call,
      m h = (Return tt, h') /\
      parent_calls h' = parent_calls h ++ [call] /\
      m_data h' = false /\
      m_latest_event h' = m_latest_event h.

(** The number of calls made on the parent TrackerList. *)
Definition notifications (s : t) : nat :=
  (length (parent_calls (http s)) + scrape_success_calls s)%nat.

(** A tracker with a request in flight, for the event STARTED and for a
    scrape. *)
Definition announcing : t :=
  {| http := tracker_after_failure; scrape_success_calls := O |}.

Definition scraping : t :=
  {| http :=
       {| m_normal_interval := 1800; m_min_interval := 600; m_tracker_id := "";
          m_scrape_complete := 0; m_scrape_incomplete := 0; m_scrape_downloaded := 0;
          m_scrape_time_last := 0; m_latest_event := EVENT_SCRAPE; m_data := true;
          parent_calls := [] |};
     scrape_success_calls := O |}.

(** Default intervals of 30 and 10 minutes, and peer lists that decode. *)
Definition usual_defaults : Defaults :=
  {| default_normal_interval := 1800; default_min_interval := 600;
     bencode_error_of := fun _ => None |}.

(** A failure response that also carries an interval and peers. *)
Definition failure_response : Object :=
  o_map [("failure reason"%string, o_string "unregistered torrent");
         ("interval"%string, o_value 900);
         ("peers"%string, o_string "")].

End TrackerHttpReply.

(** ** The library's entry points (src/torrent/torrent.cc) *)

Module Torrent.

Definition calculate_max_open_files (openMax : Z) : Z :=
  if 8096 <=? openMax then 256
  else if 1024 <=? openMax then 128
  else if 512 <=? openMax then 64
  else if 128 <=? openMax then 16
  else 4.

Definition calculate_reserved (openMax : Z) : Z :=
  if 8096 <=? openMax then 256
  else if 1024 <=? openMax then 128
  else if 512 <=? openMax then 64
  else if 128 <=? openMax then 32
  else 16.

(** What [initialize] sets in the manager it creates: the argument of
    ConnectionManager::set_max_size and of FileManager::set_max_open_files.
    The difference is computed on uint32_t operands. *)
Record Manager : Type := {
  max_size : Z;
  max_open_files : Z
}.

(** [open_max] is what [poll()->open_max()] returns; the global [manager]
    is the state, [None] being nullptr. *)
Definition initialize (open_max : Z) : M (option Manager) unit :=
  (manager <- get ;;
   match manager with
   | Some _ => throw (internal_error
       "torrent::initialize(...) called but the library has already been initialized")
   | None =>
       let maxFiles := calculate_max_open_files (to_uint32 open_max) in
       put (Some {| max_size := to_uint32 (to_uint32 open_max - maxFiles
                                           - calculate_reserved (to_uint32 open_max));
                    max_open_files := maxFiles |})
   end)%cxx.

Definition cleanup : M (option Manager) unit :=
  (manager <- get ;;
   match manager with
   | None => throw (internal_error
       "torrent::cleanup() called but the library is not initialized.")
   | Some _ => put None
   end)%cxx.

Definition is_initialized : M (option Manager) bool :=
  (manager <- get ;;
   ret (match manager with Some _ => true | None => false end))%cxx.

End Torrent.

(** ** ResourceManager: the tick (src/torrent/download/resource_manager.cc) *)

Module ResourceManagerTick.

(** choke_queue is not among the sources. What the tick uses of it is taken
    as given: [cycle quota], which returns the adjustment and leaves the
    queue changed, and [size_unchoked]. *)
Class ChokeQueue (Q : Type) : Type := {
  cycle : Z -> Q -> Z * Q;
  size_unchoked : Q -> Z
}.

Section Tick.
Context {Q : Type} `{ChokeQueue Q}.

(** A choke group, as far as the tick reaches into it. *)
Record group : Type := {
  up_queue : Q;
  down_queue : Q
}.

Definition queue_of (is_up : bool) (g : group) : Q :=
  if is_up then up_queue g else down_queue g.

Definition set_queue (is_up : bool) (q : Q) (g : group) : group :=
  if is_up then {| up_queue := q; down_queue := down_queue g |}
  else {| up_queue := up_queue g; down_queue := q |}.

Definition UINT_MAX : Z := 2 ^ 32 - 1.

(** The loop for no limit: every group in turn, with a quota of UINT_MAX. *)
Fixpoint cycle_all (is_up : bool) (change : Z) (gs : list group) : Z * list group :=
  match gs with
  | [] => (change, [])
  | g :: rest =>
      let '(d, q) := cycle UINT_MAX (queue_of is_up g) in
      let '(change', rest') := cycle_all is_up (change + d) rest in
      (change', set_queue is_up q g :: rest')
  end.

(** The loop over the sorted array of pointers: [order] are the positions
    of the groups in the order std::sort leaves the pointers in; the result
    is [weight] and [change] at the end. [quota] and [weight] are unsigned
    and wrap; [change] is an int, summed here without a bound. *)
Fixpoint balance_loop (is_up : bool) (order : list nat) (quota weight change : Z)
    (gs : list group) : outcome (Z * Z) * list group :=
  match order with
  | [] => (Return (weight, change), gs)
  | i :: rest =>
      match nth_error gs i with
      | None => (Throw (undefined_behaviour "choke group pointer out of the vector"), gs)
      | Some g =>
          let '(d, q) :=
            cycle (if negb (weight =? 0) then quota / weight else 0) (queue_of is_up g) in
          balance_loop is_up rest
            (to_uint32 (quota - size_unchoked q)) (to_uint32 (weight - 1)) (change + d)
            (ResourceManager.update_at (fun _ => set_queue is_up q g) i gs)
      end
  end.

Definition balance_unchoked (weight max_unchoked : Z) (is_up : bool) (order : list nat) :
    M (list group) Z :=
  let weight := to_uint32 weight in
  let max_unchoked := to_uint32 max_unchoked in
  fun gs =>
    if max_unchoked =? 0
    then let '(change, gs') := cycle_all is_up 0 gs in (Return change, gs')
    else
      match balance_loop is_up order max_unchoked weight 0 gs with
      | (Return (weight', change), gs') =>
          if negb (weight' =? 0)
          then (Throw (internal_error
                  "ResourceManager::balance_unchoked(...) weight did not reach zero."),
                gs')
          else (Return change, gs')
      | (Throw e, gs') => (Throw e, gs')
      end.

(** The ResourceManager at a tick: the entries and the pointers of the
    groups, the counters, and the queues of the groups. *)
Record t : Type := {
  manager : ResourceManager.t;
  counters : ResourceManager.slots;
  choke_groups : list group
}.

(** std::accumulate of the unchoked counts, on unsigned int. *)
Definition accumulate_unchoked (is_up : bool) (gs : list group) : Z :=
  fold_left (fun sum g => to_uint32 (sum + size_unchoked (queue_of is_up g))) gs 0.

Definition receive_tick (order_up order_down : list nat) : M t unit :=
  fun s =>
    match ResourceManager.validate_group_iterators (manager s) with
    | (Throw e, m) => (Throw e, {| manager := m; counters := counters s;
                                   choke_groups := choke_groups s |})
    | (Return _, m) =>
        let size := Z.of_nat (length (choke_groups s)) in
        let c := counters s in
        match balance_unchoked size (ResourceManager.m_maxUploadUnchoked c) true order_up
                (choke_groups s) with
        | (Throw e, gs) => (Throw e, {| manager := m; counters := c; choke_groups := gs |})
        | (Return change_up, gs) =>
            let up := to_uint32 (ResourceManager.m_currentlyUploadUnchoked c + change_up) in
            let c1 :=
              {| ResourceManager.m_currentlyUploadUnchoked := up;
                 ResourceManager.m_currentlyDownloadUnchoked :=
                   ResourceManager.m_currentlyDownloadUnchoked c;
                 ResourceManager.m_maxUploadUnchoked := ResourceManager.m_maxUploadUnchoked c;
                 ResourceManager.m_maxDownloadUnchoked :=
                   ResourceManager.m_maxDownloadUnchoked c |} in
            match balance_unchoked size (ResourceManager.m_maxDownloadUnchoked c) false
                    order_down gs with
            | (Throw e, gs') =>
                (Throw e, {| manager := m; counters := c1; choke_groups := gs' |})
            | (Return change_down, gs') =>
                let down :=
                  to_uint32 (ResourceManager.m_currentlyDownloadUnchoked c + change_down) in
                let c2 :=
                  {| ResourceManager.m_currentlyUploadUnchoked := up;
                     ResourceManager.m_currentlyDownloadUnchoked := down;
                     ResourceManager.m_maxUploadUnchoked :=
                       ResourceManager.m_maxUploadUnchoked c;
                     ResourceManager.m_maxDownloadUnchoked :=
                       ResourceManager.m_maxDownloadUnchoked c |} in
                let s' := {| manager := m; counters := c2; choke_groups := gs' |} in
                if negb (up =? accumulate_unchoked true gs')
                then (Throw (internal_error
                        "m_currentlyUploadUnchoked != choke_base_type::back()->up_queue()->size_unchoked()"),
                      s')
                else if negb (down =? accumulate_unchoked false gs')
                then (Throw (internal_error
                        "m_currentlyDownloadUnchoked != choke_base_type::back()->down_queue()->size_unchoked()"),
                      s')
                else (Return tt, s')
            end
        end
    end.

(** The number of peers the queues of the groups have unchoked. *)
Definition total_unchoked (is_up : bool) (gs : list group) : Z :=
  fold_right (fun g acc => size_unchoked (queue_of is_up g) + acc) 0 gs.

(** The number a group has unchoked, by its position, and the sum over
    positions. *)
Definition unchoked_at (is_up : bool) (gs : list group) (i : nat) : Z :=
  match nth_error gs i with
  | Some g => size_unchoked (queue_of is_up g)
  | None => 0
  end.

Definition sum_at (is_up : bool) (gs : list group) (order : list nat) : Z :=
  fold_right (fun i acc => unchoked_at is_up gs i + acc) 0 order.

(** What is asked of a queue: [cycle] with a quota that is not negative
    leaves at most the quota unchoked, and returns the change of the number
    unchoked. *)
Definition cycle_keeps_quota : Prop :=
  forall quota q,
    0 <= quota ->
    0 <= size_unchoked (snd (cycle quota q)) <= quota /\
    fst (cycle quota q) = size_unchoked (snd (cycle quota q)) - size_unchoked q.

(** The counters agree with the queues. *)
Definition reconciled (s : t) : Prop :=
  ResourceManager.m_currentlyUploadUnchoked (counters s)
    = total_unchoked true (choke_groups s) /\
  ResourceManager.m_currentlyDownloadUnchoked (counters s)
    = total_unchoked false (choke_groups s).

End Tick.

(** A queue with a number of interested peers, which unchokes as many of
    them as the quota allows. *)
Record interest : Type := {
  interested : Z;
  unchoked : Z
}.

Definition interest_cycle (quota : Z) (q : interest) : Z * interest :=
  let now := Z.max 0 (Z.min quota (interested q)) in
  (now - unchoked q, {| interested := interested q; unchoked := now |}).

#[global] Instance interest_queue : ChokeQueue interest :=
  {| cycle := interest_cycle; size_unchoked := unchoked |}.

(** Three groups wanting 2, 3 and 10 upload slots and 4, 0 and 1 download
    slots, none unchoked yet. *)
Definition three_groups : list (@group interest) :=
  [ {| up_queue := {| interested := 2; unchoked := 0 |};
       down_queue := {| interested := 4; unchoked := 0 |} |};
    {| up_queue := {| interested := 3; unchoked := 0 |};
       down_queue := {| interested := 0; unchoked := 0 |} |};
    {| up_queue := {| interested := 10; unchoked := 0 |};
       down_queue := {| interested := 1; unchoked := 0 |} |} ].

(** A manager with these three groups and a download in each, limited to 9
    upload and 4 download slots. *)
Definition evening : @t interest :=
  {| manager :=
       snd (ResourceManager.run_all
              [ ResourceManager.op_push_group "default";
                ResourceManager.op_push_group "seeding";
                ResourceManager.op_push_group "slow";
                ResourceManager.op_insert
                  {| ResourceManager.download := 1; ResourceManager.group := 1;
                     ResourceManager.priority := 2 |};
                ResourceManager.op_insert
                  {| ResourceManager.download := 2; ResourceManager.group := 0;
                     ResourceManager.priority := 2 |};
                ResourceManager.op_insert
                  {| ResourceManager.download := 3; ResourceManager.group := 2;
                     ResourceManager.priority := 1 |} ]
              ResourceManager.empty);
     counters :=
       {| ResourceManager.m_currentlyUploadUnchoked := 0;
          ResourceManager.m_currentlyDownloadUnchoked := 0;
          ResourceManager.m_maxUploadUnchoked := 9;
          ResourceManager.m_maxDownloadUnchoked := 4 |};
     choke_groups := three_groups |}.

End ResourceManagerTick.

(** * Properties *)

(** ** SocketStream *)

Module SocketStreamFacts.
Import SocketStream.

Section Wrappers.
Context {Fd : Type} `{Stream Fd} `{ErrorNumber}.

Lemma read_stream_throws_chain length fd r errno fd' :
  read_stream length fd = (r, errno, fd') ->
  read_stream_throws length fd = (chain r errno, fd').
Proof.
  intros Hio. unfold read_stream_throws, chain. rewrite Hio.
  destruct (Z.eqb_spec r 0); [reflexivity|].
  destruct (Z.ltb_spec r 0); destruct (Z.ltb_spec 0 r); try lia;
    repeat match goal with |- context [if ?b then _ else _] => destruct b end;
    reflexivity.
Qed.

Lemma write_stream_throws_chain length fd r errno fd' :
  write_stream length fd = (r, errno, fd') ->
  write_stream_throws length fd = (chain r errno, fd').
Proof.
  intros Hio. unfold write_stream_throws, chain. rewrite Hio.
  destruct (Z.eqb_spec r 0); [reflexivity|].
  destruct (Z.ltb_spec r 0); destruct (Z.ltb_spec 0 r); try lia;
    repeat match goal with |- context [if ?b then _ else _] => destruct b end;
    reflexivity.
Qed.

Lemma chain_classifies (io : Z -> Fd -> Z * Z * Fd) (wrapper : Z -> M Fd Z) :
  (forall length fd r errno fd',
      io length fd = (r, errno, fd') ->
      wrapper length fd = (chain r errno, fd')) ->
  classes_disjoint -> classifies io wrapper.
Proof.
  intros Hchain Hdis length fd r errno fd' Hio.
  rewrite (Hchain _ _ _ _ _ Hio). unfold chain.
  destruct (Hdis errno) as [Hm Hc].
  destruct (Z.eqb_spec r 0) as [Hz|Hz].
  { repeat split; intros; (lia || reflexivity). }
  destruct (Z.ltb_spec 0 r) as [Hpos|Hneg].
  { repeat split; intros; (lia || reflexivity). }
  split; [intros; lia|]. split; [intros; lia|].
  split; [intros _ Hmom; rewrite Hmom; reflexivity|].
  split.
  { intros _ Hcl. destruct (is_blocked_momentary errno) eqn:E.
    - destruct (Hm eq_refl); congruence.
    - rewrite Hcl. reflexivity. }
  split.
  { intros _ Hpr. destruct (is_blocked_momentary errno) eqn:E.
    - destruct (Hm eq_refl); congruence.
    - destruct (is_closed errno) eqn:E'.
      + specialize (Hc eq_refl). congruence.
      + rewrite Hpr. reflexivity. }
  intros _ Hmom Hcl Hpr. rewrite Hmom, Hcl, Hpr. reflexivity.
Qed.

End Wrappers.

Lemma scenario_classes_disjoint : @classes_disjoint ScenarioErrors.
Proof.
  intros e. unfold is_blocked_momentary, is_closed, is_blocked_prolonged,
    ScenarioErrors, EAGAIN, ECONNRESET, ENOBUFS.
  split.
  - intros Hm. apply Z.eqb_eq in Hm. subst e. split; reflexivity.
  - intros Hc. apply Z.eqb_eq in Hc. subst e. reflexivity.
Defined.

End SocketStreamFacts.

(** C6. For a classification of errno into three classes that do not
    overlap, [read_stream_throws] and [write_stream_throws] each make one call
    of the primitive and, on the state that call leaves: return [r] when it
    returned [r > 0]; raise close_connection when it returned 0; and when it
    returned a negative value return 0 for a momentary errno, raise
    close_connection for a closed one, blocked_connection for a prolonged one
    and connection_error(errno) for any other. *)
Theorem stream_throws_classify (Fd : Type)
    (S : SocketStream.Stream Fd) (E : SocketStream.ErrorNumber) :
  SocketStream.classes_disjoint ->
  SocketStream.classifies SocketStream.read_stream SocketStream.read_stream_throws /\
  SocketStream.classifies SocketStream.write_stream SocketStream.write_stream_throws.
Proof.
  intros Hdis. split.
  - apply SocketStreamFacts.chain_classifies; [|exact Hdis].
    intros. now apply SocketStreamFacts.read_stream_throws_chain.
  - apply SocketStreamFacts.chain_classifies; [|exact Hdis].
    intros. now apply SocketStreamFacts.write_stream_throws_chain.
Qed.

Lemma stream_throws_classify_witness :
  @SocketStream.classes_disjoint SocketStream.ScenarioErrors /\
  @SocketStream.classifies _ SocketStream.ScenarioErrors
     (@SocketStream.read_stream _ SocketStream.FakeStream)
     (@SocketStream.read_stream_throws _ SocketStream.FakeStream SocketStream.ScenarioErrors) /\
  @SocketStream.classifies _ SocketStream.ScenarioErrors
     (@SocketStream.write_stream _ SocketStream.FakeStream)
     (@SocketStream.write_stream_throws _ SocketStream.FakeStream SocketStream.ScenarioErrors).
Proof.
  split.
  - exact SocketStreamFacts.scenario_classes_disjoint.
  - apply (stream_throws_classify SocketStream.FakeFd SocketStream.FakeStream
             SocketStream.ScenarioErrors).
    exact SocketStreamFacts.scenario_classes_disjoint.
Defined.

(** The scenario of the specification on the fake stream: each call consumes
    one scripted result and no more. *)
Example socket_stream_scenario :
  let run r e :=
    @SocketStream.read_stream_throws _ SocketStream.FakeStream SocketStream.ScenarioErrors 16
      {| SocketStream.script := [(r, e); (7, 0)]; SocketStream.calls := 0 |} in
  let after := {| SocketStream.script := [(7, 0)]; SocketStream.calls := 1 |} in
  run 0 0 = (Throw close_connection, after) /\
  run (-1) SocketStream.EAGAIN = (Return 0, after) /\
  run (-1) SocketStream.ECONNRESET = (Throw close_connection, after) /\
  run (-1) SocketStream.ENOBUFS = (Throw blocked_connection, after) /\
  run (-1) SocketStream.EINVAL = (Throw (connection_error SocketStream.EINVAL), after) /\
  run 5 0 = (Return 5, after).
Proof. repeat split. Qed.

(** ** TrackerUdp *)

Module TrackerUdpFacts.
Import ProtocolBuffer TrackerUdp.

Lemma length_be n v : length (be n v) = n.
Proof. induction n; simpl; congruence. Qed.

Lemma be_value_acc n v acc :
  be_value (be n v) acc = acc * 2 ^ (8 * Z.of_nat n) + v mod 2 ^ (8 * Z.of_nat n).
Proof.
  revert acc. induction n as [|k IH]; intros acc.
  - simpl. rewrite Z.mod_1_r. lia.
  - cbn [be be_value]. rewrite IH.
    replace (8 * Z.of_nat (S k)) with (8 * Z.of_nat k + 8) by lia.
    rewrite Z.pow_add_r by lia.
    rewrite Z.shiftr_div_pow2 by lia.
    rewrite (Z.rem_mul_r v (2 ^ (8 * Z.of_nat k)) (2 ^ 8)) by lia.
    change (2 ^ 8) with 256. lia.
Qed.

(** [be n] is the big-endian (network order) representation on [n] bytes:
    read back most significant byte first it gives the value. *)
Lemma be_value_be n v :
  0 <= v < 2 ^ (8 * Z.of_nat n) -> be_value (be n v) 0 = v.
Proof. intros Hv. rewrite be_value_acc. rewrite Z.mod_small by lia. lia. Qed.

Lemma be_bytes n v b : In b (be n v) -> 0 <= b < 256.
Proof.
  induction n as [|k IH]; simpl; [tauto|].
  intros [<-|Hin]; [apply Z.mod_pos_bound; lia|auto].
Qed.

Lemma list_of_length_20 (l : list Z) :
  length l = 20%nat ->
  exists x0 x1 x2 x3 x4 x5 x6 x7 x8 x9 y0 y1 y2 y3 y4 y5 y6 y7 y8 y9,
    l = [x0; x1; x2; x3; x4; x5; x6; x7; x8; x9;
         y0; y1; y2; y3; y4; y5; y6; y7; y8; y9].
Proof.
  intros Hl.
  do 20 (destruct l as [|? l]; [discriminate Hl|]).
  destruct l; [|discriminate Hl].
  repeat eexists.
Qed.

End TrackerUdpFacts.

(** C5. For every DownloadInfo (and every tracker state, random transaction
    id and environment) [prepare_announce_input] returns normally, its size
    check of 98 bytes passing, and leaves a write buffer of exactly 98 bytes
    laid out most significant byte first: connection_id at 0, action = 1 at 8,
    transaction_id at 12, info_hash at 16, peer_id at 36, downloaded at 56,
    left at 64, uploaded at 72, event at 80, ip at 84, key at 88, numwant at 92
    and port at 96. *)
Theorem prepare_announce_input_layout
    (env : TrackerUdp.Environment) (random : Z) (u : TrackerUdp.t) :
  exists u',
    TrackerUdp.prepare_announce_input env random u = (Return tt, u') /\
    let buf := TrackerUdp.m_writeBuffer u' in
    let info := TrackerUdp.info env in
    ProtocolBuffer.size_end buf = 98 /\
    length buf = 98%nat /\
    ProtocolBuffer.slice 0 8 buf = ProtocolBuffer.be 8 (to_uint64 (TrackerUdp.m_connectionId u)) /\
    ProtocolBuffer.slice 8 4 buf = ProtocolBuffer.be 4 1 /\
    ProtocolBuffer.slice 12 4 buf = ProtocolBuffer.be 4 (TrackerUdp.m_transactionId u') /\
    TrackerUdp.m_transactionId u' = to_uint32 random /\
    ProtocolBuffer.slice 16 20 buf = TrackerUdp.hs_data (TrackerUdp.hash info) /\
    ProtocolBuffer.slice 36 20 buf = TrackerUdp.hs_data (TrackerUdp.local_id info) /\
    ProtocolBuffer.slice 56 8 buf =
      ProtocolBuffer.be 8 (to_uint64 (TrackerUdp.completed_adjusted info)) /\
    ProtocolBuffer.slice 64 8 buf = ProtocolBuffer.be 8 (to_uint64 (TrackerUdp.slot_left info)) /\
    ProtocolBuffer.slice 72 8 buf =
      ProtocolBuffer.be 8 (to_uint64 (TrackerUdp.uploaded_adjusted info)) /\
    ProtocolBuffer.slice 80 4 buf = ProtocolBuffer.be 4 (to_uint32 (TrackerUdp.m_sendState u)) /\
    ProtocolBuffer.slice 84 4 buf =
      ProtocolBuffer.be 4
        (to_uint32 match TrackerUdp.local_address env with
                   | TrackerUdp.af_inet address_n => address_n
                   | _ => 0
                   end) /\
    ProtocolBuffer.slice 88 4 buf = ProtocolBuffer.be 4 (to_uint32 (TrackerUdp.key env)) /\
    ProtocolBuffer.slice 92 4 buf = ProtocolBuffer.be 4 (to_uint32 (TrackerUdp.numwant env)) /\
    ProtocolBuffer.slice 96 2 buf = ProtocolBuffer.be 2 (to_uint16 (TrackerUdp.listen_port env)) /\
    TrackerUdp.m_action u' = 1.
Proof.
  destruct env as [[[hd hl] [ld ll] up comp left] key numwant addr port].
  destruct (TrackerUdpFacts.list_of_length_20 hd hl)
    as (a0&a1&a2&a3&a4&a5&a6&a7&a8&a9&b0&b1&b2&b3&b4&b5&b6&b7&b8&b9&->).
  destruct (TrackerUdpFacts.list_of_length_20 ld ll)
    as (c0&c1&c2&c3&c4&c5&c6&c7&c8&c9&d0&d1&d2&d3&d4&d5&d6&d7&d8&d9&->).
  eexists. split.
  - cbv [TrackerUdp.prepare_announce_input bind modify get ret throw
         TrackerUdp.set_writeBuffer TrackerUdp.set_action TrackerUdp.set_transactionId
         TrackerUdp.m_writeBuffer TrackerUdp.m_connectionId TrackerUdp.m_action
         TrackerUdp.m_transactionId TrackerUdp.m_sendState
         TrackerUdp.info TrackerUdp.hash TrackerUdp.local_id TrackerUdp.hs_data
         TrackerUdp.uploaded_adjusted TrackerUdp.completed_adjusted
         TrackerUdp.slot_left TrackerUdp.local_address TrackerUdp.key TrackerUdp.numwant
         TrackerUdp.listen_port
         ProtocolBuffer.reset ProtocolBuffer.write_16 ProtocolBuffer.write_32
         ProtocolBuffer.write_32_n ProtocolBuffer.write_64 ProtocolBuffer.write_range
         ProtocolBuffer.size_end ProtocolBuffer.be app length].
    reflexivity.
  - cbv [TrackerUdp.m_writeBuffer TrackerUdp.m_connectionId TrackerUdp.m_action
         TrackerUdp.m_transactionId TrackerUdp.m_sendState
         TrackerUdp.info TrackerUdp.hash TrackerUdp.local_id TrackerUdp.hs_data
         TrackerUdp.uploaded_adjusted TrackerUdp.completed_adjusted
         TrackerUdp.slot_left TrackerUdp.local_address TrackerUdp.key TrackerUdp.numwant
         TrackerUdp.listen_port
         ProtocolBuffer.size_end ProtocolBuffer.be ProtocolBuffer.slice
         firstn skipn app length].
    repeat split; try reflexivity.
    all: unfold to_uint32, to_uint64, to_uint16; rewrite ?Z.mod_mod by lia.
    all: reflexivity.
Qed.

(** Scenario 5 of the specification: the exact packet for info_hash 01..14,
    peer_id 21..34, downloaded 100, left 200, uploaded 50, event STARTED,
    key 0xdeadbeef, numwant 30 and port 6881. *)
Example udp_announce_packet :
  let info_hash := {| TrackerUdp.hs_data :=
      [0x01; 0x02; 0x03; 0x04; 0x05; 0x06; 0x07; 0x08; 0x09; 0x0a;
       0x0b; 0x0c; 0x0d; 0x0e; 0x0f; 0x10; 0x11; 0x12; 0x13; 0x14];
      TrackerUdp.hs_size := eq_refl |} in
  let peer_id := {| TrackerUdp.hs_data :=
      [0x21; 0x22; 0x23; 0x24; 0x25; 0x26; 0x27; 0x28; 0x29; 0x2a;
       0x2b; 0x2c; 0x2d; 0x2e; 0x2f; 0x30; 0x31; 0x32; 0x33; 0x34];
      TrackerUdp.hs_size := eq_refl |} in
  let env := {| TrackerUdp.info :=
                  {| TrackerUdp.hash := info_hash; TrackerUdp.local_id := peer_id;
                     TrackerUdp.uploaded_adjusted := 50;
                     TrackerUdp.completed_adjusted := 100;
                     TrackerUdp.slot_left := 200 |};
                TrackerUdp.key := 0xdeadbeef; TrackerUdp.numwant := 30;
                TrackerUdp.local_address := TrackerUdp.af_unspec;
                TrackerUdp.listen_port := 6881 |} in
  let u := {| TrackerUdp.m_connectionId := 0x0102030405060708;
              TrackerUdp.m_action := 0; TrackerUdp.m_transactionId := 0;
              TrackerUdp.m_sendState := 1; TrackerUdp.m_writeBuffer := [] |} in
  TrackerUdp.m_writeBuffer (snd (TrackerUdp.prepare_announce_input env 0x0a0b0c0d u)) =
    [0x01; 0x02; 0x03; 0x04; 0x05; 0x06; 0x07; 0x08;   0; 0; 0; 1;
     0x0a; 0x0b; 0x0c; 0x0d;
     0x01; 0x02; 0x03; 0x04; 0x05; 0x06; 0x07; 0x08; 0x09; 0x0a;
     0x0b; 0x0c; 0x0d; 0x0e; 0x0f; 0x10; 0x11; 0x12; 0x13; 0x14;
     0x21; 0x22; 0x23; 0x24; 0x25; 0x26; 0x27; 0x28; 0x29; 0x2a;
     0x2b; 0x2c; 0x2d; 0x2e; 0x2f; 0x30; 0x31; 0x32; 0x33; 0x34;
     0; 0; 0; 0; 0; 0; 0; 100;   0; 0; 0; 0; 0; 0; 0; 200;
     0; 0; 0; 0; 0; 0; 0; 50;    0; 0; 0; 1;   0; 0; 0; 0;
     0xde; 0xad; 0xbe; 0xef;   0; 0; 0; 30;   0x1a; 0xe1].
Proof. vm_compute. reflexivity. Qed.

(** ** TrackerHttp *)

Module TrackerHttpFacts.
Import TrackerHttp.

Lemma receive_failed_intervals msg h :
  m_normal_interval (snd (receive_failed msg h)) = m_normal_interval h /\
  m_min_interval (snd (receive_failed msg h)) = m_min_interval h.
Proof.
  unfold receive_failed, close_directly, get, modify, call_parent, bind. simpl.
  destruct (_ =? _); simpl; split; reflexivity.
Qed.

(** The part of [process_success] after the two interval statements leaves
    both intervals as they are: what the call ends with is what those two
    statements stored. *)
Lemma process_success_intervals `{Defaults} cachedTime object h :
  let h' := snd (process_success cachedTime object h) in
  m_normal_interval h' =
    (if has_key_value "min interval" object
     then if has_key_value "interval" object
          then get_key_value "interval" object else default_normal_interval
     else default_min_interval) /\
  m_min_interval h' =
    (if has_key_value "min interval" object
     then get_key_value "min interval" object else m_min_interval h).
Proof.
  unfold process_success, receive_failed, when, set_normal_interval,
    set_min_interval, set_tracker_id, set_scrape, set_scrape_downloaded,
    close_directly, call_parent, modify, get, ret, bind.
  repeat match goal with
         | |- context [if ?b then _ else _] => destruct b; simpl
         | |- context [match ?o with Some _ => _ | None => _ end] => destruct o; simpl
         | |- context [match ?o with o_none => _ | _ => _ end] => destruct o; simpl
         | |- context [match ?o with inl _ => _ | inr _ => _ end] => destruct o; simpl
         end; split; reflexivity.
Qed.

(** Where the key [min interval] is present the intervals do follow the
    response. *)
Lemma process_success_with_min_interval `{Defaults} cachedTime object h :
  has_key_value "min interval" object = true ->
  intervals_follow_response object (snd (process_success cachedTime object h)).
Proof.
  intros Hmin. unfold intervals_follow_response.
  destruct (process_success_intervals cachedTime object h) as [Hn Hm].
  cbv zeta in Hn, Hm. rewrite Hn, Hm, Hmin. split; reflexivity.
Qed.

End TrackerHttpFacts.

(** C7 (the code departs from it). On the response
    [{interval: 1800, peers: ""}], which has no [min interval] key,
    [process_success] reports success to the tracker list, leaves
    [normal_interval] at the default min interval instead of 1800 and leaves
    [min_interval] at its old value 0 instead of the default min interval:
    whatever the two defaults are, the intervals do not follow the
    response. *)
Theorem process_success_min_interval_absent (D : TrackerHttp.Defaults) (cachedTime : Z) :
  let h' := snd (TrackerHttp.process_success cachedTime
                   TrackerHttp.response_without_min_interval
                   TrackerHttp.tracker_after_failure) in
  TrackerHttp.parent_calls h' =
    [TrackerHttp.receive_success_call [TrackerHttp.parse_address_compact ""]] /\
  TrackerHttp.m_normal_interval h' = TrackerHttp.default_min_interval /\
  TrackerHttp.m_min_interval h' = 0 /\
  ~ TrackerHttp.intervals_follow_response TrackerHttp.response_without_min_interval h'.
Proof.
  cbv zeta. repeat split.
  intros [Hn Hm]. cbn in Hn, Hm. lia.
Qed.

(** ** Standard algorithms *)

Module StdFacts.
Import Std.

Lemma skipn_cons_nth {A} (l : list A) i x rest :
  skipn i l = x :: rest -> nth_error l i = Some x /\ skipn (S i) l = rest.
Proof.
  revert l. induction i as [|i IH]; intros [|y l] Hs; simpl in *; try discriminate.
  - inversion Hs. split; reflexivity.
  - apply IH in Hs. exact Hs.
Qed.

Lemma skipn_nil_length {A} (l : list A) i : skipn i l = [] -> (length l <= i)%nat.
Proof.
  revert l. induction i as [|i IH]; intros [|y l] Hs; simpl in *;
    try discriminate; try lia.
  apply IH in Hs. lia.
Qed.

(** std::find_if returns the first position that satisfies the predicate. *)
Lemma find_if_first {A} (p : A -> bool) (l : list A) :
  (find_if p l <= length l)%nat /\
  (forall j x, (j < find_if p l)%nat -> nth_error l j = Some x -> p x = false) /\
  (forall x, nth_error l (find_if p l) = Some x -> p x = true).
Proof.
  induction l as [|y l (Hlen & Hbefore & Hat)]; simpl.
  - repeat split; try lia. intros x Hx. discriminate.
  - destruct (p y) eqn:Hy; simpl.
    + repeat split; try lia. intros x Hx. inversion Hx. subst. exact Hy.
    + repeat split; try lia.
      * intros [|j] x Hj Hx; simpl in Hx.
        -- inversion Hx. subst. exact Hy.
        -- apply (Hbefore j); [lia|exact Hx].
      * exact Hat.
Qed.

Lemma nth_error_skipn {A} (l : list A) i j :
  nth_error (skipn i l) j = nth_error l (i + j).
Proof.
  revert l. induction i as [|i IH]; intros [|y l]; simpl; auto.
  destruct j; reflexivity.
Qed.

Lemma find_if_from_first {A} (p : A -> bool) (l : list A) itr :
  (forall j x, (itr <= j < find_if_from p l itr)%nat ->
               nth_error l j = Some x -> p x = false) /\
  (forall x, nth_error l (find_if_from p l itr) = Some x -> p x = true).
Proof.
  unfold find_if_from.
  destruct (find_if_first p (skipn itr l)) as (_ & Hbefore & Hat).
  split.
  - intros j x Hj Hx. apply (Hbefore (j - itr)%nat); [lia|].
    rewrite nth_error_skipn. replace (itr + (j - itr))%nat with j by lia. exact Hx.
  - intros x Hx. apply Hat. rewrite nth_error_skipn. exact Hx.
Qed.

Lemma find_if_none {A} (p : A -> bool) (l : list A) :
  (forall x, In x l -> p x = false) -> find_if p l = length l.
Proof.
  induction l as [|y l IH]; intros Hall; simpl; [reflexivity|].
  rewrite (Hall y (or_introl eq_refl)). f_equal. apply IH.
  intros x Hx. apply Hall. right. exact Hx.
Qed.

End StdFacts.

(** ** TrackerList *)

Module TrackerListFacts.
Import Std StdFacts TrackerList.

Lemma failed_time_next_at_eq l i t :
  nth_error l i = Some t -> failed_time_next_at l i = failed_time_next t.
Proof. unfold failed_time_next_at. now intros ->. Qed.

Lemma success_time_next_at_eq l i t :
  nth_error l i = Some t -> success_time_next_at l i = success_time_next t.
Proof. unfold success_time_next_at. now intros ->. Qed.

(** The loop, started with the first smallest failing tracker of [p, itr)
    as [preferred], ends with the choice between the first healthy tracker
    [h] from [itr] on and the first smallest failing tracker of [p, h). *)
Lemma request_loop_spec (l : list Tracker) (p : nat) :
  forall rest itr m tm,
    skipn itr l = rest ->
    nth_error l m = Some tm ->
    smallest_failing_in l p itr m ->
    let h := (itr + find_if healthy rest)%nat in
    exists m',
      smallest_failing_in l p h m' /\
      request_loop (m, tm) itr rest =
        if (h <? length l)%nat
           && (success_time_next_at l h <? failed_time_next_at l m')
        then h else m'.
Proof.
  induction rest as [|t rest IH]; intros itr m tm Hskip Hm Hsm; cbn zeta.
  - simpl. replace (itr + 0)%nat with itr by lia.
    exists m. split; [exact Hsm|].
    apply skipn_nil_length in Hskip.
    destruct (Nat.ltb_spec itr (length l)); [lia|]. reflexivity.
  - destruct (skipn_cons_nth _ _ _ _ Hskip) as [Ht Hrest].
    destruct Hsm as (Hrange & Hfail & Hle & Hlt).
    cbn [request_loop find_if fst snd].
    destruct (can_request_state t) eqn:Hreq; cbn [negb andb].
    + destruct (Z.eqb_spec (failed_counter t) 0) as [Hz|Hnz]; cbn [negb].
      * (* the first healthy tracker ends the scan *)
        assert (healthy t = true) as ->
            by (unfold healthy; rewrite Hreq, Hz; reflexivity).
        replace (itr + 0)%nat with itr by lia.
        exists m. split; [repeat split; (assumption || lia)|].
        assert (itr < length l)%nat as Hlen
            by (apply nth_error_Some; rewrite Ht; discriminate).
        destruct (Nat.ltb_spec itr (length l)); [|lia]. cbn [andb].
        rewrite (success_time_next_at_eq _ _ _ Ht), (failed_time_next_at_eq _ _ _ Hm).
        reflexivity.
      * (* a failing tracker: the running minimum *)
        assert (healthy t = false) as ->
            by (unfold healthy; rewrite Hreq; destruct (Z.eqb_spec (failed_counter t) 0);
                [contradiction|reflexivity]).
        replace (itr + S (find_if healthy rest))%nat
          with (S itr + find_if healthy rest)%nat by lia.
        assert (failing_at l itr) as Hfi by (exists t; auto).
        destruct (Z.ltb_spec (failed_time_next t) (failed_time_next tm)) as [Hless|Hge].
        -- apply (IH (S itr) itr t Hrest Ht).
           repeat split; try lia; try assumption.
           ++ intros j Hj Hfj. rewrite (failed_time_next_at_eq _ _ _ Ht).
              destruct (Nat.eq_dec j itr) as [->|Hne].
              ** rewrite (failed_time_next_at_eq _ _ _ Ht). lia.
              ** specialize (Hle j ltac:(lia) Hfj).
                 rewrite (failed_time_next_at_eq _ _ _ Hm) in Hle. lia.
           ++ intros j Hj Hfj. rewrite (failed_time_next_at_eq _ _ _ Ht).
              specialize (Hle j ltac:(lia) Hfj).
              rewrite (failed_time_next_at_eq _ _ _ Hm) in Hle. lia.
        -- apply (IH (S itr) m tm Hrest Hm).
           repeat split; try lia; try assumption.
           intros j Hj Hfj.
           destruct (Nat.eq_dec j itr) as [->|Hne].
           ++ rewrite (failed_time_next_at_eq _ _ _ Ht), (failed_time_next_at_eq _ _ _ Hm).
              lia.
           ++ apply Hle; [lia|exact Hfj].
    + (* a tracker that cannot be requested is skipped *)
      assert (healthy t = false) as -> by (unfold healthy; rewrite Hreq; reflexivity).
      replace (itr + S (find_if healthy rest))%nat
        with (S itr + find_if healthy rest)%nat by lia.
      apply (IH (S itr) m tm Hrest Hm).
      repeat split; try lia; try assumption.
      intros j Hj Hfj.
      destruct (Nat.eq_dec j itr) as [->|Hne].
      * destruct Hfj as (t' & Ht' & Hreq' & _). congruence.
      * apply Hle; [lia|exact Hfj].
Qed.

End TrackerListFacts.

(** C8 (amended). For an iterator [itr] into the list, let [p] be the first
    position at or after [itr] whose tracker can be requested.
    [find_next_to_request] returns the end when there is none, and [p] when
    that tracker is not failing. Otherwise the scan goes on only up to the
    first tracker [h] after [p] that can be requested and is not failing:
    with [m] the first of the failing requestable trackers of [p, h) with the
    smallest [failed_time_next], the result is [h] when [h] exists and its
    [success_time_next] is less than the [failed_time_next] of [m], and [m]
    otherwise. Trackers after [h] are not looked at. *)
Theorem find_next_to_request_scan (l : list TrackerList.Tracker) (itr : nat) :
  (itr <= length l)%nat ->
  let p := TrackerList.first_requestable l itr in
  let r := TrackerList.find_next_to_request l itr in
  let h := TrackerList.first_healthy_after l p in
  (forall j, (itr <= j < p)%nat -> ~ TrackerList.requestable_at l j) /\
  (nth_error l p = None -> r = p /\ p = length l) /\
  (TrackerList.healthy_at l p -> r = p) /\
  (TrackerList.failing_at l p ->
   exists m,
     TrackerList.smallest_failing_in l p h m /\
     r = if (h <? length l)%nat
            && (TrackerList.success_time_next_at l h <? TrackerList.failed_time_next_at l m)
         then h else m).
Proof.
  intros Hitr p r h.
  destruct (StdFacts.find_if_from_first TrackerList.can_request_state l itr)
    as [Hbefore Hat].
  fold (TrackerList.first_requestable l itr) in Hbefore, Hat. fold p in Hbefore, Hat.
  split; [|split; [|split]].
  - intros j Hj (t & Ht & Hreq). rewrite (Hbefore j t Hj Ht) in Hreq. discriminate.
  - intros Hnone. split.
    + unfold r, TrackerList.find_next_to_request.
      fold (TrackerList.first_requestable l itr). fold p. rewrite Hnone. reflexivity.
    + apply nth_error_None in Hnone.
      destruct (StdFacts.find_if_first TrackerList.can_request_state (skipn itr l))
        as (Hlen & _ & _).
      rewrite length_skipn in Hlen.
      unfold p, TrackerList.first_requestable, Std.find_if_from in *. lia.
  - intros (t & Ht & _ & Hz).
    unfold r, TrackerList.find_next_to_request.
    fold (TrackerList.first_requestable l itr). fold p. rewrite Ht, Hz. reflexivity.
  - intros (t & Ht & Hreq & Hnz).
    unfold r, TrackerList.find_next_to_request.
    fold (TrackerList.first_requestable l itr). fold p. rewrite Ht.
    destruct (Z.eqb_spec (TrackerList.failed_counter t) 0) as [|_]; [contradiction|].
    apply (TrackerListFacts.request_loop_spec l p (skipn (S p) l) (S p) p t eq_refl Ht).
    repeat split; try lia.
    + exists t. auto.
    + intros j Hj _. replace j with p by lia. lia.
Qed.

Lemma find_next_to_request_scan_witness :
  (0 <= length TrackerList.late_failing_tracker)%nat /\
  TrackerList.find_next_to_request TrackerList.late_failing_tracker 0 = 0%nat /\
  exists m,
    TrackerList.smallest_failing_in TrackerList.late_failing_tracker 0 1 m /\
    0%nat = if (1 <? 3)%nat
               && (TrackerList.success_time_next_at TrackerList.late_failing_tracker 1
                   <? TrackerList.failed_time_next_at TrackerList.late_failing_tracker m)
            then 1%nat else m.
Proof.
  split; [simpl; lia|]. split; [reflexivity|].
  refine (proj2 (proj2 (proj2
            (find_next_to_request_scan TrackerList.late_failing_tracker 0 _))) _).
  - simpl; lia.
  - eexists. split; [reflexivity|]. split; [reflexivity|]. discriminate.
Defined.

(** C8 (as worded, refuted). On three requestable trackers, failing with
    [failed_time_next] 10, healthy with [success_time_next] 20, failing with
    [failed_time_next] 1, the result is the first tracker, which is failing
    and does not have the smallest [failed_time_next] of the failing trackers
    that follow the first candidate. *)
Lemma find_next_to_request_stops_at_first_healthy :
  TrackerList.find_next_to_request TrackerList.late_failing_tracker 0 = 0%nat /\
  ~ TrackerList.chooses_as_worded TrackerList.late_failing_tracker 0.
Proof.
  split; [reflexivity|].
  intros [_ Hfailing].
  destruct Hfailing as [[_ Hsmall]|[(t & Ht & _ & Hz) _]].
  - eexists. split; [reflexivity|]. split; [reflexivity|]. discriminate.
  - specialize (Hsmall 2%nat). cbv in Hsmall.
    apply Hsmall; [repeat constructor| |reflexivity].
    eexists. split; [reflexivity|]. split; [reflexivity|]. discriminate.
  - cbv in Ht. inversion Ht. subst t. discriminate Hz.
Qed.

(** ** ResourceManager *)

Module ResourceManagerFacts.
Import Std ResourceManager.

Lemma reachable_run_all ops :
  forall rm rm', reachable rm -> run_all ops rm = (Return tt, rm') -> reachable rm'.
Proof.
  induction ops as [|op ops IH]; intros rm rm' Hr Hrun.
  - inversion Hrun. subst. exact Hr.
  - cbn [run_all] in Hrun. unfold bind in Hrun.
    destruct (run op rm) as [[[]|e] rm1] eqn:Hop; [|discriminate].
    eapply IH; [|exact Hrun]. eapply reachable_step; eassumption.
Qed.

Lemma nth_error_for_each_range {A} (f : A -> A) lo hi :
  forall l pos j,
    nth_error (for_each_range f lo hi pos l) j =
    option_map (fun x => if (lo <=? pos + j)%nat && (pos + j <? hi)%nat then f x else x)
               (nth_error l j).
Proof.
  induction l as [|x l IH]; intros pos [|j]; simpl; try reflexivity.
  - replace (pos + 0)%nat with pos by lia. reflexivity.
  - rewrite IH. replace (S pos + j)%nat with (pos + S j)%nat by lia. reflexivity.
Qed.

Lemma nth_error_update_at {A} (f : A -> A) i (l : list A) j :
  nth_error (update_at f i l) j =
  if (j =? i)%nat then option_map f (nth_error l j) else nth_error l j.
Proof.
  unfold update_at. rewrite nth_error_for_each_range. simpl.
  destruct (Nat.eqb_spec j i) as [->|Hne].
  - destruct (Nat.leb_spec i i); [|lia].
    destruct (Nat.ltb_spec i (S i)); [|lia]. reflexivity.
  - destruct (nth_error l j); [|reflexivity]. simpl.
    destruct (Nat.leb_spec i j); destruct (Nat.ltb_spec j (S i)); simpl;
      try reflexivity; lia.
Qed.

Lemma length_map_groups es :
  forall gs entry_itr group_itr,
    length (update_group_iterators_loop es entry_itr group_itr gs) = length gs.
Proof. induction gs as [|g gs IH]; intros; simpl; [reflexivity|]. now rewrite IH. Qed.

Lemma update_then_validate es :
  forall gs entry_itr group_itr,
    validate_loop es entry_itr group_itr
      (update_group_iterators_loop es entry_itr group_itr gs) = None.
Proof.
  induction gs as [|g gs IH]; intros entry_itr group_itr; simpl; [reflexivity|].
  rewrite !Z.eqb_refl. simpl. apply IH.
Qed.

(** [insert] with a group that exists rescans the groups: whatever the
    pointers were, the manager's validation passes afterwards. *)
Lemma insert_validates_groups rm entry :
  0 <= group entry < Z.of_nat (length (groups rm)) ->
  exists itr rm',
    insert entry rm = (Return itr, rm') /\
    entries rm' = vector_insert (find_group_end (group entry) (entries rm)) entry
                    (entries rm) /\
    validate_group_iterators rm' = (Return tt, rm').
Proof.
  intros Hgroup.
  unfold insert, bind, get, choke_base_at, group_at.
  cbn [set_entries set_choke_group update_group_iterators move_connections set_groups
       modify bind get groups entries].
  destruct (Z.leb_spec (Z.of_nat (length (groups rm))) (group entry)) as [|_]; [lia|].
  unfold update_group_iterators, bind, get.
  cbn [set_groups modify groups entries].
  rewrite length_map_groups.
  destruct (Z.leb_spec (Z.of_nat (length (groups rm))) (group entry)) as [|_]; [lia|].
  cbn [move_connections modify groups].
  rewrite length_map_groups.
  destruct (Z.leb_spec (Z.of_nat (length (groups rm))) (group entry)) as [|_]; [lia|].
  eexists _, _. split; [reflexivity|]. split; [reflexivity|].
  unfold validate_group_iterators. cbn [entries groups].
  unfold vector_insert.
  destruct (firstn _ (entries rm) ++ entry :: skipn _ (entries rm)) as [|e0 es] eqn:Hes;
    [destruct (firstn (find_group_end (group entry) (entries rm)) (entries rm));
       discriminate Hes|].
  rewrite update_then_validate. reflexivity.
Qed.

End ResourceManagerFacts.

(** C2 (the code departs from it). With two groups, inserting one download
    into the second group and erasing it again, every call returning
    normally, leads to a manager with no entry whose first group still has
    non-null [first] and [last]: the invariant on the groups is broken, and
    the manager's own [validate_group_iterators] raises internal_error on
    that state. *)
Theorem erase_last_entry_keeps_earlier_group_pointers :
  exists rm,
    ResourceManager.run_all ResourceManager.insert_then_erase_in_second_group
      ResourceManager.empty = (Return tt, rm) /\
    ResourceManager.reachable rm /\
    ResourceManager.entries rm = [] /\
    map (fun g => (ResourceManager.first g, ResourceManager.last g))
        (ResourceManager.groups rm) = [(Some 0, Some 0); (None, None)] /\
    ~ ResourceManager.group_invariant rm /\
    fst (ResourceManager.validate_group_iterators rm) =
      Throw (internal_error "ResourceManager::receive_tick() invalid non-null iterator.").
Proof.
  eexists. split; [vm_compute; reflexivity|].
  split.
  - apply (ResourceManagerFacts.reachable_run_all
             ResourceManager.insert_then_erase_in_second_group ResourceManager.empty _
             ResourceManager.reachable_empty).
    vm_compute. reflexivity.
  - split; [reflexivity|]. split; [reflexivity|]. split; [|reflexivity].
    intros Hinv. specialize (Hinv 0%nat _ eq_refl).
    destruct Hinv as [Hfirst _]. discriminate Hfirst.
Qed.

(** A run with two inserts, a [set_group] and an [erase] after which the
    manager's own validation passes. *)
Example insert_validates :
  let ops := [ ResourceManager.op_push_group "first";
               ResourceManager.op_push_group "second";
               ResourceManager.op_insert
                 {| ResourceManager.download := 1; ResourceManager.group := 1;
                    ResourceManager.priority := 0 |};
               ResourceManager.op_insert
                 {| ResourceManager.download := 2; ResourceManager.group := 0;
                    ResourceManager.priority := 0 |};
               ResourceManager.op_set_group 0 1;
               ResourceManager.op_erase 1 ] in
  let rm := snd (ResourceManager.run_all ops ResourceManager.empty) in
  fst (ResourceManager.run_all ops ResourceManager.empty) = Return tt /\
  map ResourceManager.download (ResourceManager.entries rm) = [2] /\
  map (fun g => (ResourceManager.first g, ResourceManager.last g))
      (ResourceManager.groups rm) = [(Some 0, Some 0); (Some 0, Some 1)] /\
  fst (ResourceManager.validate_group_iterators rm) = Return tt.
Proof. vm_compute. repeat split. Qed.

(** C9 (amended). [set_priority] takes the priority as a 16-bit unsigned
    value: on an iterator that points to an entry it raises nothing for any
    value passed and stores the value reduced modulo 65536, which is the
    value itself when it lies in [0, 65536); the other entries and the groups
    are left as they are. *)
Theorem set_priority_stores_uint16 (rm : ResourceManager.t) (itr : nat)
    (e : ResourceManager.resource_manager_entry) (p : Z) :
  nth_error (ResourceManager.entries rm) itr = Some e ->
  exists rm',
    ResourceManager.set_priority itr p rm = (Return tt, rm') /\
    nth_error (ResourceManager.entries rm') itr =
      Some (ResourceManager.set_entry_priority (p mod 65536) e) /\
    (0 <= p < 65536 ->
     nth_error (ResourceManager.entries rm') itr =
       Some (ResourceManager.set_entry_priority p e)) /\
    (forall j, j <> itr ->
       nth_error (ResourceManager.entries rm') j = nth_error (ResourceManager.entries rm) j) /\
    ResourceManager.groups rm' = ResourceManager.groups rm.
Proof.
  intros He. eexists. split.
  - unfold ResourceManager.set_priority, bind, get. rewrite He. reflexivity.
  - cbn [ResourceManager.entries ResourceManager.groups].
    split; [|split; [|split]].
    + rewrite ResourceManagerFacts.nth_error_update_at, Nat.eqb_refl, He. reflexivity.
    + intros Hp.
      rewrite ResourceManagerFacts.nth_error_update_at, Nat.eqb_refl, He.
      unfold to_uint16. change (2 ^ 16) with 65536. rewrite Z.mod_small by lia.
      reflexivity.
    + intros j Hj. rewrite ResourceManagerFacts.nth_error_update_at.
      destruct (Nat.eqb_spec j itr); [contradiction|reflexivity].
    + reflexivity.
Qed.

Lemma set_priority_stores_uint16_witness :
  nth_error (ResourceManager.entries ResourceManager.one_download) 0 =
    Some {| ResourceManager.download := 1; ResourceManager.group := 0;
            ResourceManager.priority := 0 |} /\
  exists rm',
    ResourceManager.set_priority 0 1024 ResourceManager.one_download = (Return tt, rm') /\
    nth_error (ResourceManager.entries rm') 0 =
      Some {| ResourceManager.download := 1; ResourceManager.group := 0;
              ResourceManager.priority := 1024 |}.
Proof.
  split; [reflexivity|].
  destruct (set_priority_stores_uint16 ResourceManager.one_download 0 _ 1024 eq_refl)
    as (rm' & Hrun & _ & Hin & _).
  exists rm'. split; [exact Hrun|]. apply Hin. lia.
Defined.

(** C9 (as worded, refuted). Passed 65536, [set_priority] returns normally
    with the priority 0 stored: no input_error is raised for a value outside
    [0, 65536). *)
Lemma set_priority_never_raises_input_error :
  ResourceManager.set_priority 0 65536 ResourceManager.one_download =
    (Return tt, ResourceManager.one_download) /\
  ~ ResourceManager.set_priority_checks_range.
Proof.
  split; [reflexivity|].
  intros Hclaim.
  destruct (Hclaim ResourceManager.one_download 0%nat 65536 ltac:(lia)) as [msg Hmsg].
  discriminate Hmsg.
Qed.

(** The range check on the priority is made by the caller,
    torrent::download_set_priority, with another bound and another error. *)
Example download_set_priority_check :
  fst (ResourceManager.download_set_priority 1 1025 ResourceManager.one_download) =
    Throw (internal_error
             "torrent::download_set_priority(...) received an invalid priority.") /\
  map ResourceManager.priority
    (ResourceManager.entries
       (snd (ResourceManager.download_set_priority 1 1024 ResourceManager.one_download)))
    = [1024].
Proof. split; reflexivity. Qed.

(** ** TransferList *)

Module TransferListFacts.
Import Std StdFacts TransferList.

Lemma nth_error_update_nth {A} (f : A -> A) :
  forall (l : list A) i j,
    nth_error (update_nth f i l) j =
    if (j =? i)%nat then option_map f (nth_error l j) else nth_error l j.
Proof.
  induction l as [|x l IH]; intros [|i] [|j]; simpl; try reflexivity.
  - destruct (j =? i)%nat; reflexivity.
  - apply IH.
Qed.

Lemma length_update_nth {A} (f : A -> A) :
  forall (l : list A) i, length (update_nth f i l) = length l.
Proof. induction l as [|x l IH]; intros [|i]; simpl; auto. Qed.

Lemma vector_erase_update_nth {A} (f : A -> A) :
  forall (l : list A) i, vector_erase i (update_nth f i l) = vector_erase i l.
Proof.
  unfold vector_erase.
  induction l as [|x l IH]; intros [|i]; simpl; try reflexivity.
  f_equal. apply IH.
Qed.

Lemma count_finished_all bl :
  Forall (fun b => is_finished b = true) (blocks bl) ->
  count_finished bl = length (blocks bl).
Proof.
  unfold count_finished. induction 1 as [|b l Hb _ IH]; simpl; [reflexivity|].
  rewrite Hb. simpl. congruence.
Qed.

(** The position [find] returns holds a list with the index looked for. *)
Lemma find_index idx s bl :
  nth_error (lists s) (find idx s) = Some bl -> index bl = idx.
Proof.
  intros Hbl. destruct (find_if_first (fun b => idx =? index b) (lists s)) as (_ & _ & Hat).
  specialize (Hat bl Hbl). apply Z.eqb_eq in Hat. congruence.
Qed.

Lemma find_absent idx s :
  (forall bl, In bl (lists s) -> index bl <> idx) -> find idx s = length (lists s).
Proof.
  intros Habs. apply find_if_none. intros bl Hin.
  apply Z.eqb_neq. intros Heq. exact (Habs bl Hin (eq_sym Heq)).
Qed.

(** A loop whose body succeeds on every element that satisfies [P], leaves
    it satisfying [Q] and moves the state along [frame], succeeds as a
    whole. *)
Lemma for_each_ok {St A Acc} (body : A -> Acc -> M St (A * Acc))
    (P Q : A -> Prop) (frame : St -> St -> Prop) :
  (forall s, frame s s) ->
  (forall s1 s2 s3, frame s1 s2 -> frame s2 s3 -> frame s1 s3) ->
  (forall x acc s, P x ->
     exists x' acc' s', body x acc s = (Return (x', acc'), s') /\ Q x' /\ frame s s') ->
  forall l acc s, Forall P l ->
    exists l' acc' s',
      for_each body l acc s = (Return acc', l', s') /\
      Forall Q l' /\ length l' = length l /\ frame s s'.
Proof.
  intros Hrefl Htrans Hbody. induction l as [|x l IH]; intros acc s HP.
  - exists [], acc, s. simpl. auto.
  - inversion HP as [|? ? Hx Hl]; subst.
    destruct (Hbody x acc s Hx) as (x' & acc1 & s1 & Hb & Hq & Hf1).
    destruct (IH acc1 s1 Hl) as (l' & acc2 & s2 & Hloop & Hql & Hlen & Hf2).
    exists (x' :: l'), acc2, s2. cbn [for_each]. rewrite Hb, Hloop.
    repeat split; simpl; eauto.
Qed.

Lemma update_failed_block_ok b promoted s :
  has_leader b ->
  exists b' promoted' s',
    update_failed_block b promoted s = (Return (b', promoted'), s') /\
    has_failed_entry b' /\ s = s'.
Proof.
  intros (ld & Hld & Hlt). unfold update_failed_block. rewrite Hld.
  destruct (Nat.ltb_spec ld (length (transfers b))) as [_|]; [|lia].
  set (bf := match failed_list b with Some bf => bf | None => new_BlockFailed end).
  set (failedItr := find_if _ (bf_entries bf)).
  destruct (Nat.eqb_spec failedItr (length (bf_entries bf))) as [Hend|Hin].
  - eexists _, _, s. split; [reflexivity|]. split; [|reflexivity].
    eexists. split; [reflexivity|]. cbn. destruct (bf_entries bf); discriminate.
  - eexists _, _, s. split; [reflexivity|]. split; [|reflexivity].
    eexists. split; [reflexivity|]. cbn.
    intros Hnil. apply (f_equal (@length _)) in Hnil.
    rewrite length_update_nth in Hnil.
    destruct (find_if_first (transfer_list_compare_data (chunk s) (piece b))
                (bf_entries bf)) as (Hle & _ & _).
    fold failedItr in Hle. simpl in Hnil. lia.
Qed.

Lemma with_chunk_refl s : s = with_chunk (chunk s) s.
Proof. destruct s. reflexivity. Qed.

Lemma retry_block_ok b u s :
  has_failed_entry b ->
  exists b' u' s',
    retry_block b u s = (Return (b', u'), s') /\
    has_failed_entry b' /\ (exists c, s' = with_chunk c s).
Proof.
  intros (bf & Hbf & Hne). unfold retry_block. rewrite Hbf.
  unfold reverse_max_element.
  destruct (bf_entries bf) as [|e es] eqn:Hes; [contradiction|].
  destruct (_ =? _).
  - eexists _, _, s. split; [reflexivity|].
    split; [exists bf; rewrite Hes; split; [exact Hbf|discriminate]|].
    exists (chunk s). apply with_chunk_refl.
  - eexists _, _, _. split; [reflexivity|].
    split; [eexists; split; [reflexivity|]; cbn; rewrite Hes; discriminate|].
    eexists. reflexivity.
Qed.

(** The loop on the blocks of the list at [pos], when the loop on the
    blocks succeeds. *)
Lemma for_each_block_ok {Acc} pos (body : Block -> Acc -> M t (Block * Acc))
    acc s bl r bs s' :
  nth_error (lists s) pos = Some bl ->
  for_each body (blocks bl) acc s = (r, bs, s') ->
  for_each_block pos body acc s =
    (r, snd (set_lists (update_nth (set_blocks bs) pos) s')).
Proof.
  intros Hbl Hloop. unfold for_each_block. rewrite Hbl, Hloop. reflexivity.
Qed.

Lemma nth_error_update_nth_same {A} (f : A -> A) (l : list A) i x :
  nth_error l i = Some x -> nth_error (update_nth f i l) i = Some (f x).
Proof. intros H. rewrite nth_error_update_nth, Nat.eqb_refl, H. reflexivity. Qed.

Lemma update_failed_spec pos s bl :
  nth_error (lists s) pos = Some bl ->
  Forall has_leader (blocks bl) ->
  exists promoted s' bs,
    update_failed pos s = (Return promoted, s') /\
    Forall has_failed_entry bs /\ length bs = length (blocks bl) /\
    nth_error (lists s') pos = Some (set_blocks bs (inc_failed bl)) /\
    calls s' = calls s /\ m_failedCount s' = m_failedCount s.
Proof.
  intros Hbl Hleaders.
  unfold update_failed, bind.
  set (s1 := snd (set_lists (update_nth inc_failed pos) s)).
  change (set_lists (update_nth inc_failed pos) s) with (Return tt, s1).
  assert (nth_error (lists s1) pos = Some (inc_failed bl)) as Hbl1
      by (apply nth_error_update_nth_same; exact Hbl).
  destruct (for_each_ok update_failed_block has_leader has_failed_entry eq
              (fun s => eq_refl) (fun s1 s2 s3 H12 H23 => eq_trans H12 H23)
              update_failed_block_ok (blocks (inc_failed bl)) 0 s1 Hleaders)
    as (bs & promoted & s2 & Hloop & Hbs & Hlen & <-).
  rewrite (for_each_block_ok pos _ _ _ _ _ _ _ Hbl1 Hloop).
  exists promoted. eexists. exists bs.
  split; [reflexivity|]. split; [exact Hbs|]. split; [exact Hlen|].
  split; [|split; reflexivity].
  cbn [snd set_lists modify lists].
  apply nth_error_update_nth_same. exact Hbl1.
Qed.

Lemma retry_most_popular_spec pos s bl :
  nth_error (lists s) pos = Some bl ->
  Forall has_failed_entry (blocks bl) ->
  exists s' bs,
    retry_most_popular pos s = (Return tt, s') /\
    Forall has_failed_entry bs /\
    nth_error (lists s') pos = Some (set_blocks bs bl) /\
    calls s' = calls s ++ [on_completed (index bl)] /\
    m_failedCount s' = m_failedCount s.
Proof.
  intros Hbl Hentries.
  destruct (for_each_ok retry_block has_failed_entry has_failed_entry
              (fun s s' => exists c, s' = with_chunk c s)
              (fun s => ex_intro _ (chunk s) (with_chunk_refl s))
              (fun s1 s2 s3 '(ex_intro _ c1 H12) '(ex_intro _ c2 H23) =>
                 ex_intro _ c2 (eq_trans H23 (f_equal (with_chunk c2) H12)))
              retry_block_ok (blocks bl) tt s Hentries)
    as (bs & [] & s1 & Hloop & Hbs & _ & (c & ->)).
  unfold retry_most_popular, bind.
  rewrite (for_each_block_ok pos _ _ _ _ _ _ _ Hbl Hloop).
  set (s2 := snd (set_lists (update_nth (set_blocks bs) pos) (with_chunk c s))).
  assert (nth_error (lists s2) pos = Some (set_blocks bs bl)) as Hbl2
      by (apply nth_error_update_nth_same; exact Hbl).
  unfold deref. rewrite Hbl2.
  eexists. exists bs. split; [reflexivity|]. split; [exact Hbs|].
  split; [exact Hbl2|]. split; reflexivity.
Qed.

Lemma has_failed_entry_list b : has_failed_entry b -> has_failed_list b.
Proof. intros (bf & Hbf & _). unfold has_failed_list. rewrite Hbf. discriminate. Qed.

(** The first failed verdict on a present, non-empty, finished BlockList:
    the condition on [promoted] holds, the retry path is taken, and every
    block is left with a FailedList. *)
Lemma hash_failed_first_attempt_spec s idx bl :
  nth_error (lists s) (find idx s) = Some bl ->
  blocks bl <> [] ->
  Forall (fun b => is_finished b = true) (blocks bl) ->
  Forall has_leader (blocks bl) ->
  attempt bl = 0 ->
  exists promoted s1 s' bl',
    update_failed (find idx s) (snd (inc_failedCount s)) = (Return promoted, s1) /\
    (0 <? promoted) || (promoted <? Z.of_nat (length (blocks bl))) = true /\
    hash_failed idx s = (Return tt, s') /\
    nth_error (lists s') (find idx s) = Some bl' /\
    index bl' = idx /\ attempt bl' = 1 /\
    failed bl' = to_uint32 (failed bl + 1) /\
    Forall has_failed_list (blocks bl') /\
    calls s' = calls s ++ [on_completed idx] /\
    m_failedCount s' = to_uint32 (m_failedCount s + 1).
Proof.
  intros Hbl Hne Hfin Hlead Hatt.
  pose proof (find_index idx s bl Hbl) as Hidx.
  set (pos := find idx s) in *.
  set (s0 := snd (inc_failedCount s)).
  assert (nth_error (lists s0) pos = Some bl) as Hbl0 by exact Hbl.
  destruct (update_failed_spec pos s0 bl Hbl0 Hlead)
    as (promoted & s1 & bs & Hupd & Hbs & Hlen & Hbl1 & Hcalls1 & Hfc1).
  set (bl1 := set_blocks bs (inc_failed bl)) in *.
  set (s2 := snd (set_lists (update_nth (set_attempt 1) pos) s1)).
  assert (nth_error (lists s2) pos = Some (set_attempt 1 bl1))
    as Hbl2 by (apply nth_error_update_nth_same; exact Hbl1).
  destruct (retry_most_popular_spec pos s2 _ Hbl2 Hbs)
    as (s' & bs' & Hretry & Hbs' & Hbl' & Hcalls' & Hfc').
  assert ((0 <? promoted) || (promoted <? Z.of_nat (length (blocks bl))) = true)
    as Hcond.
  { destruct (Z.ltb_spec 0 promoted) as [|Hle]; [reflexivity|]. simpl.
    apply Z.ltb_lt. destruct (blocks bl); [contradiction|]. simpl length. lia. }
  exists promoted, s1, s'. eexists.
  split; [exact Hupd|]. split; [exact Hcond|].
  split; [|split; [exact Hbl'|]].
  - unfold hash_failed, bind, get. fold pos.
    assert (pos < length (lists s))%nat as Hpos
        by (apply nth_error_Some; rewrite Hbl; discriminate).
    destruct (Nat.eqb_spec pos (length (lists s))) as [|_]; [lia|].
    unfold deref at 1. rewrite Hbl.
    rewrite (count_finished_all bl Hfin), Nat.eqb_refl. cbn [negb].
    change (inc_failedCount s) with (Return tt, s0).
    unfold deref at 1. rewrite Hbl0.
    rewrite Hatt. cbn [Z.eqb]. rewrite Hupd.
    unfold deref at 1. rewrite Hbl1.
    replace (length (blocks bl1)) with (length (blocks bl))
      by (symmetry; exact Hlen).
    rewrite Hcond.
    change (set_lists (update_nth (set_attempt 1) pos) s1) with (Return tt, s2).
    exact Hretry.
  - split; [exact Hidx|]. split; [reflexivity|]. split; [reflexivity|].
    split; [|split].
    + cbn [blocks set_blocks].
      rewrite Forall_forall in *. intros b Hb. apply has_failed_entry_list. auto.
    + rewrite Hcalls'. cbn [index set_attempt bl1 set_blocks inc_failed].
      rewrite Hidx. f_equal. exact Hcalls1.
    + rewrite Hfc'. exact Hfc1.
Qed.

(** *** The set of bad peers *)

Lemma set_insert_In x s p : In p (set_insert x s) <-> p = x \/ In p s.
Proof.
  induction s as [|y s IH]; simpl; [intuition|].
  destruct (Z.ltb_spec x y); [simpl; intuition|].
  destruct (Z.eqb_spec x y); simpl; [subst; intuition|].
  rewrite IH. intuition.
Qed.

Lemma set_insert_sorted x s :
  StronglySorted Z.lt s -> StronglySorted Z.lt (set_insert x s).
Proof.
  induction 1 as [|y s Hs IH Hy]; simpl; [repeat constructor|].
  destruct (Z.ltb_spec x y) as [Hlt|Hge].
  - constructor; [constructor; assumption|].
    constructor; [exact Hlt|].
    rewrite Forall_forall in *. intros z Hz. specialize (Hy z Hz). lia.
  - destruct (Z.eqb_spec x y) as [Heq|Hne]; [constructor; assumption|].
    constructor; [exact IH|].
    rewrite Forall_forall in *. intros z Hz.
    apply set_insert_In in Hz. destruct Hz as [->|Hz]; [lia|auto].
Qed.

Lemma sorted_NoDup s : StronglySorted Z.lt s -> NoDup s.
Proof.
  induction 1 as [|y s Hs IH Hy]; constructor; [|exact IH].
  intros Hin. rewrite Forall_forall in Hy. specialize (Hy y Hin). lia.
Qed.

Lemma bad_transfer_iff current transfer :
  bad_transfer current transfer = true <->
  failed_index transfer <> invalid_index /\ failed_index transfer <> current.
Proof.
  unfold bad_transfer. rewrite andb_true_iff, !negb_true_iff, !Z.eqb_neq. tauto.
Qed.

(** The inner loop of [mark_failed_peers] over the transfers of a block. *)
Lemma bad_peers_of_transfers current ts :
  forall acc,
    let acc' :=
      fold_left (fun acc transfer =>
                   if bad_transfer current transfer
                   then set_insert (peer_info transfer) acc else acc) ts acc in
    (StronglySorted Z.lt acc -> StronglySorted Z.lt acc') /\
    (forall p, In p acc' <->
               In p acc \/
               exists transfer, In transfer ts /\ peer_info transfer = p /\
                                bad_transfer current transfer = true).
Proof.
  induction ts as [|t ts IH]; intros acc; cbn zeta; simpl.
  - split; [auto|]. intros p. split; [auto|]. intros [H|(t & [] & _)]. exact H.
  - destruct (IH (if bad_transfer current t then set_insert (peer_info t) acc else acc))
      as [Hsorted Hin]. cbn zeta in Hsorted, Hin.
    split.
    + intros Hacc. apply Hsorted.
      destruct (bad_transfer current t); [apply set_insert_sorted|]; exact Hacc.
    + intros p. rewrite Hin. destruct (bad_transfer current t) eqn:Hbad.
      * rewrite set_insert_In. split.
        -- intros [[->|Hp]|(t' & Ht' & Hpeer & Hb)]; eauto 7.
        -- intros [Hp|(t' & [<-|Ht'] & Hpeer & Hb)]; eauto 7.
      * split.
        -- intros [Hp|(t' & Ht' & Hpeer & Hb)]; eauto 7.
        -- intros [Hp|(t' & [<-|Ht'] & Hpeer & Hb)]; eauto 7. congruence.
Qed.

(** The first loop of [mark_failed_peers] over the blocks. *)
Lemma mark_failed_blocks_spec bs :
  forall acc s,
    Forall has_failed_list bs ->
    exists bs' acc',
      for_each mark_failed_block bs acc s = (Return acc', bs', s) /\
      (StronglySorted Z.lt acc -> StronglySorted Z.lt acc') /\
      (forall p, In p acc' <->
                 In p acc \/
                 exists b transfer,
                   In b bs /\ In transfer (transfers b) /\ peer_info transfer = p /\
                   failed_index transfer <> invalid_index /\
                   failed_index transfer <> found_entry (chunk s) b).
Proof.
  induction bs as [|b bs IH]; intros acc s Hall.
  - exists [], acc. simpl. split; [reflexivity|]. split; [auto|].
    intros p. split; [auto|]. intros [H|(b & t & [] & _)]. exact H.
  - inversion Hall as [|? ? Hb Hbs]; subst.
    unfold has_failed_list in Hb.
    destruct (failed_list b) as [bf|] eqn:Hbf; [|contradiction].
    cbn [for_each]. unfold mark_failed_block at 1. rewrite Hbf.
    set (current := bf_current (set_current _ bf)).
    assert (current = found_entry (chunk s) b) as Hcur
        by (unfold current, found_entry; rewrite Hbf; reflexivity).
    destruct (bad_peers_of_transfers current (transfers b) acc) as [Hsorted1 Hin1].
    cbn zeta in Hsorted1, Hin1.
    set (acc1 := fold_left _ (transfers b) acc) in *.
    destruct (IH acc1 s Hbs) as (bs' & acc' & Hloop & Hsorted2 & Hin2).
    rewrite Hloop. eexists _, acc'. split; [reflexivity|].
    split; [auto|].
    intros p. rewrite Hin2, Hin1. split.
    + intros [[Hp|(t & Ht & Hpeer & Hbad)]|(b' & t & Hb' & Ht & Hrest)].
      * left. exact Hp.
      * right. exists b, t. apply bad_transfer_iff in Hbad. rewrite Hcur in Hbad.
        simpl. tauto.
      * right. exists b', t. simpl. tauto.
    + intros [Hp|(b' & t & [<-|Hb'] & Ht & Hpeer & Hset & Hne)].
      * left. left. exact Hp.
      * left. right. exists t. split; [exact Ht|]. split; [exact Hpeer|].
        apply bad_transfer_iff. rewrite Hcur. tauto.
      * right. exists b', t. tauto.
Qed.

Lemma with_calls_nil s : with_calls [] s = s.
Proof. destruct s. unfold with_calls. simpl. rewrite app_nil_r. reflexivity. Qed.

Lemma emit_each_spec f l :
  forall s, emit_each f l s = (Return tt, with_calls (map f l) s).
Proof.
  induction l as [|x l IH]; intros s; simpl.
  - rewrite with_calls_nil. reflexivity.
  - unfold bind. cbn [emit modify]. rewrite IH. unfold with_calls. simpl.
    rewrite <- app_assoc. reflexivity.
Qed.

(** The marking step of [hash_succeeded], with or without failures before. *)
Lemma marking_step pos s bl :
  nth_error (lists s) pos = Some bl ->
  (failed bl <> 0 -> Forall has_failed_list (blocks bl)) ->
  exists s1 bad,
    (if negb (failed bl =? 0) then mark_failed_peers pos else ret tt) s
      = (Return tt, s1) /\
    vector_erase pos (lists s1) = vector_erase pos (lists s) /\
    length (lists s1) = length (lists s) /\
    m_completedList s1 = m_completedList s /\
    m_succeededCount s1 = m_succeededCount s /\
    clock s1 = clock s /\ ticks s1 = ticks s /\
    calls s1 = calls s ++ map on_corrupt bad /\
    (failed bl = 0 -> bad = []) /\
    (failed bl <> 0 ->
     NoDup bad /\ forall p, In p bad <-> differs_from_found (chunk s) bl p).
Proof.
  intros Hbl Hlists.
  destruct (Z.eqb_spec (failed bl) 0) as [Hz|Hnz]; cbn [negb].
  - exists s, []. split; [reflexivity|]. simpl. rewrite app_nil_r.
    repeat split; try reflexivity. all: contradiction.
  - destruct (mark_failed_blocks_spec (blocks bl) [] s (Hlists Hnz))
      as (bs' & bad & Hloop & Hsorted & Hin).
    unfold mark_failed_peers, bind.
    rewrite (for_each_block_ok pos _ _ _ _ _ _ _ Hbl Hloop).
    rewrite emit_each_spec.
    eexists. exists bad. split; [reflexivity|].
    cbn [with_calls set_lists modify snd lists m_completedList m_succeededCount
         clock ticks calls].
    split; [apply vector_erase_update_nth|].
    split; [apply length_update_nth|].
    repeat split; try reflexivity.
    + intros Hz. contradiction.
    + apply sorted_NoDup, Hsorted. constructor.
    + intros Hp. apply Hin in Hp. destruct Hp as [[]|Hp]. exact Hp.
    + intros Hp. apply Hin. right. exact Hp.
Qed.

(** *** The completed list *)

(** The pruning scan reads the clock and changes nothing else; it stops at
    or before any entry that every later reading finds recent. *)
Lemma find_recent_spec l :
  forall s,
    exists n k,
      find_recent l s = (Return n, with_ticks k s) /\
      (n <= length l)%nat /\
      forall j v,
        nth_error l j = Some v ->
        (forall i, (ticks s <= i <= ticks s + j)%nat ->
                   clock s i - from_minutes 30 <= fst v) ->
        (n <= j)%nat.
Proof.
  induction l as [|x l IH]; intros s.
  - exists O, (ticks s). split; [destruct s; reflexivity|]. split; [simpl; lia|].
    intros [|j] v Hv; discriminate Hv.
  - cbn [find_recent]. unfold bind. cbn [timer_current].
    destruct (Z.leb_spec (clock s (ticks s) - from_minutes 30) (fst x)) as [Hrec|Hold].
    + exists O, (S (ticks s)). split; [reflexivity|]. split; [simpl; lia|]. intros; lia.
    + destruct (IH (with_ticks (S (ticks s)) s)) as (n & k & Hscan & Hn & Hstop).
      change {| lists := lists s; m_completedList := m_completedList s;
                m_succeededCount := m_succeededCount s;
                m_failedCount := m_failedCount s; chunk := chunk s;
                calls := calls s; clock := clock s; ticks := S (ticks s) |}
        with (with_ticks (S (ticks s)) s).
      rewrite Hscan. exists (S n), k. split; [reflexivity|]. split; [simpl; lia|].
      intros [|j] v Hv Hsteady; simpl in Hv.
      * inversion Hv. subst v. specialize (Hsteady (ticks s) ltac:(lia)). lia.
      * apply le_n_S. apply (Hstop j v Hv).
        intros i Hi. apply Hsteady. simpl in Hi. lia.
Qed.

Lemma skipn_app_last {A} (l : list A) (v : A) n :
  (n <= length l)%nat -> skipn n (l ++ [v]) = skipn n l ++ [v].
Proof.
  intros Hn. rewrite skipn_app.
  replace (n - length l)%nat with O by lia. reflexivity.
Qed.

(** [hash_succeeded] on a present, finished BlockList whose blocks have
    their FailedList when failures were counted. *)
Lemma hash_succeeded_spec s idx bl :
  nth_error (lists s) (find idx s) = Some bl ->
  Forall (fun b => is_finished b = true) (blocks bl) ->
  (failed bl <> 0 -> Forall has_failed_list (blocks bl)) ->
  exists s' bad,
    hash_succeeded idx s = (Return tt, s') /\
    lists s' = vector_erase (find idx s) (lists s) /\
    m_succeededCount s' = to_uint32 (m_succeededCount s + 1) /\
    calls s' = calls s ++ map on_corrupt bad /\
    (failed bl = 0 -> bad = []) /\
    (failed bl <> 0 ->
     NoDup bad /\ forall p, In p bad <-> differs_from_found (chunk s) bl p) /\
    (clock_steady s ->
     exists kept, m_completedList s' = kept ++ [(clock s (ticks s), idx)]).
Proof.
  intros Hbl Hfin Hlists.
  set (pos := find idx s) in *.
  destruct (marking_step pos s bl Hbl Hlists)
    as (s1 & bad & Hmark & Herase & Hlen & Hcl1 & Hsc1 & Hclock1 & Hticks1
        & Hcalls1 & Hnone & Hbad).
  assert (pos < length (lists s))%nat as Hpos
      by (apply nth_error_Some; rewrite Hbl; discriminate).
  unfold hash_succeeded, bind, get. fold pos.
  unfold deref at 1. rewrite Hbl.
  rewrite (count_finished_all bl Hfin), Nat.eqb_refl. cbn [negb].
  rewrite Hmark.
  cbn [timer_current set_completedList modify m_completedList lists
       m_succeededCount m_failedCount chunk calls clock ticks].
  set (stamp := (clock s1 (ticks s1), idx)).
  destruct (m_completedList s1 ++ [stamp]) as [|front rest] eqn:Hlist;
    [destruct (m_completedList s1); discriminate Hlist|].
  match goal with
  | |- context [(if _ then _ else _) ?st] =>
      destruct (find_recent_spec (front :: rest) st) as (n & k & Hscan & Hn & Hstop)
  end.
  cbn [ticks clock fst] in Hstop.
  assert (stamp = (clock s (ticks s), idx)) as Hstamp
      by (unfold stamp; rewrite Hclock1, Hticks1; reflexivity).
  destruct (fst front + from_minutes 60 <? clock s1 (S (ticks s1))).
  - (* the list is pruned *)
    rewrite Hscan.
    cbn [with_ticks set_completedList inc_succeededCount erase modify get bind
         m_completedList lists m_succeededCount m_failedCount chunk calls clock ticks].
    unfold erase, bind, get.
    cbn [set_lists inc_succeededCount modify lists].
    destruct (Nat.eqb_spec pos (length (lists s1))) as [|_]; [lia|].
    eexists. exists bad. split; [reflexivity|].
    cbn [lists m_succeededCount calls m_completedList].
    split; [exact Herase|]. split; [rewrite Hsc1; reflexivity|].
    split; [exact Hcalls1|]. split; [exact Hnone|]. split; [exact Hbad|].
    intros Hsteady. rewrite <- Hlist, Hstamp, Hcl1.
    assert (n <= length (m_completedList s))%nat as Hkeep.
    { apply (Hstop (length (m_completedList s)) (clock s (ticks s), idx)).
      - rewrite <- Hlist, Hstamp, Hcl1.
        rewrite nth_error_app2 by lia. rewrite Nat.sub_diag. reflexivity.
      - intros i Hi. cbn [fst]. rewrite Hclock1. apply Hsteady.
        rewrite Hticks1 in Hi. lia. }
    rewrite (skipn_app_last _ _ _ Hkeep). eexists. reflexivity.
  - (* the list is kept *)
    unfold erase, bind, get, ret.
    cbn [set_lists inc_succeededCount modify lists].
    destruct (Nat.eqb_spec pos (length (lists s1))) as [|_]; [lia|].
    eexists. exists bad. split; [reflexivity|].
    cbn [lists m_succeededCount calls m_completedList].
    split; [exact Herase|]. split; [rewrite Hsc1; reflexivity|].
    split; [exact Hcalls1|]. split; [exact Hnone|]. split; [exact Hbad|].
    intros _. rewrite <- Hlist, Hstamp, Hcl1. eexists. reflexivity.
Qed.

Lemma vector_erase_middle {A} (l1 l2 : list A) (a : A) :
  vector_erase (length l1) (l1 ++ a :: l2) = l1 ++ l2.
Proof.
  unfold vector_erase. induction l1 as [|x l1 IH]; simpl; [reflexivity|].
  f_equal. exact IH.
Qed.

(** With indices that are unique, no list with the erased index is left. *)
Lemma erased_index_gone (l : list BlockList) pos bl :
  nth_error l pos = Some bl ->
  NoDup (map index l) ->
  forall x, In x (vector_erase pos l) -> index x <> index bl.
Proof.
  intros Hbl Hnodup x Hx Heq.
  destruct (nth_error_split l pos Hbl) as (l1 & l2 & -> & <-).
  rewrite vector_erase_middle in Hx.
  rewrite map_app in Hnodup. simpl in Hnodup.
  apply NoDup_remove_2 in Hnodup. apply Hnodup.
  rewrite <- Heq, <- map_app. apply in_map. exact Hx.
Qed.

(** *** The entry that equals the chunk's bytes *)

Lemma bytes_eqb_eq a : forall b, bytes_eqb a b = true <-> a = b.
Proof.
  induction a as [|x a IH]; intros [|y b]; simpl; split; intros Heq;
    try reflexivity; try discriminate.
  - apply andb_true_iff in Heq. destruct Heq as [Hxy Hab].
    apply Z.eqb_eq in Hxy. apply IH in Hab. congruence.
  - inversion Heq. subst. rewrite Z.eqb_refl. apply IH. reflexivity.
Qed.

(** The comparison the code runs decides whether the buffer of the entry
    holds the chunk's bytes. *)
Lemma compare_data_holds c p e :
  transfer_list_compare_data c p e = true <-> holds_chunk_bytes c p e.
Proof.
  unfold transfer_list_compare_data, compare_buffer, holds_chunk_bytes.
  rewrite bytes_eqb_eq. split; intros Heq; symmetry; exact Heq.
Qed.

Lemma find_if_unique {A} (p : A -> bool) :
  forall (l : list A) k,
    (forall j x, (j < k)%nat -> nth_error l j = Some x -> p x = false) ->
    (k = length l \/ exists x, nth_error l k = Some x /\ p x = true) ->
    find_if p l = k.
Proof.
  induction l as [|y l IH]; intros k Hbefore Hat.
  - destruct Hat as [->|(x & Hx & _)]; [reflexivity|]. destruct k; discriminate Hx.
  - cbn [find_if]. destruct k as [|k].
    + destruct Hat as [Hk|(x & Hx & Hp)]; [discriminate Hk|].
      inversion Hx. subst. rewrite Hp. reflexivity.
    + rewrite (Hbefore O y ltac:(lia) eq_refl). f_equal. apply IH.
      * intros j x Hj Hx. apply (Hbefore (S j) x); [lia|exact Hx].
      * destruct Hat as [Hk|(x & Hx & Hp)]; [left; simpl in Hk; lia|].
        right. exists x. split; assumption.
Qed.

(** The position found is the position of the entry that equals the chunk's
    bytes. *)
Lemma found_entry_bytes c b k :
  has_failed_list b ->
  (entry_of_chunk_bytes c b k <-> found_entry c b = Z.of_nat k).
Proof.
  unfold has_failed_list, entry_of_chunk_bytes, found_entry. intros Hlist.
  destruct (failed_list b) as [bf|]; [clear Hlist|contradiction].
  set (p := transfer_list_compare_data c (piece b)).
  split.
  - intros (bf' & Hbf & Hbefore & Hat). inversion Hbf. subst bf'. f_equal.
    apply find_if_unique.
    + intros j e Hj He. destruct (p e) eqn:Hp; [|reflexivity].
      exfalso. apply (Hbefore j e Hj He). apply compare_data_holds. exact Hp.
    + destruct Hat as [Hk|(e & He & Hholds)]; [left; exact Hk|].
      right. exists e. split; [exact He|]. apply compare_data_holds. exact Hholds.
  - intros Hk. apply Nat2Z.inj in Hk. subst k.
    destruct (find_if_first p (bf_entries bf)) as (Hle & Hbefore & Hat).
    exists bf. split; [reflexivity|]. split.
    + intros j e Hj He Hholds. apply compare_data_holds in Hholds.
      fold p in Hholds. rewrite (Hbefore j e Hj He) in Hholds. discriminate.
    + destruct (nth_error (bf_entries bf) (find_if p (bf_entries bf))) as [e|] eqn:He.
      * right. exists e. split; [reflexivity|]. apply compare_data_holds. apply Hat.
        reflexivity.
      * left. apply nth_error_None in He. lia.
Qed.

Lemma sent_other_data_found c bl p :
  Forall has_failed_list (blocks bl) ->
  (differs_from_found c bl p <-> sent_other_data c bl p).
Proof.
  intros Hlists. rewrite Forall_forall in Hlists.
  unfold differs_from_found, sent_other_data. split.
  - intros (b & transfer & Hb & Ht & Hpeer & Hset & Hne).
    assert (0 <= found_entry c b) as Hpos
        by (unfold found_entry; destruct (failed_list b); lia).
    exists b, transfer, (Z.to_nat (found_entry c b)).
    repeat (split; [assumption|]). split.
    + apply (found_entry_bytes c b _ (Hlists b Hb)). lia.
    + rewrite Z2Nat.id by exact Hpos. exact Hne.
  - intros (b & transfer & k & Hb & Ht & Hpeer & Hset & Hk & Hne).
    exists b, transfer. repeat (split; [assumption|]).
    apply (found_entry_bytes c b k (Hlists b Hb)) in Hk. rewrite Hk. exact Hne.
Qed.

End TransferListFacts.

(** C10. For an index that no BlockList of the TransferList has,
    [hash_failed] raises internal_error and leaves the whole state as it
    was: the block lists and their FailedLists, [failedCount], the chunk and
    the calls made on the slots. *)
Theorem hash_failed_unknown_index (s : TransferList.t) (idx : Z) :
  (forall bl, In bl (TransferList.lists s) -> TransferList.index bl <> idx) ->
  TransferList.hash_failed idx s =
    (Throw (internal_error "TransferList::hash_failed(...) Could not find index."), s).
Proof.
  intros Habs. unfold TransferList.hash_failed, bind, get.
  rewrite (TransferListFacts.find_absent idx s Habs), Nat.eqb_refl. reflexivity.
Qed.

Lemma hash_failed_unknown_index_witness :
  (forall bl, In bl (TransferList.lists TransferList.first_verdict) ->
              TransferList.index bl <> 8) /\
  TransferList.hash_failed 8 TransferList.first_verdict =
    (Throw (internal_error "TransferList::hash_failed(...) Could not find index."),
     TransferList.first_verdict).
Proof.
  assert (forall bl, In bl (TransferList.lists TransferList.first_verdict) ->
                     TransferList.index bl <> 8) as Habs.
  { intros bl [<-|[]]. simpl. discriminate. }
  split; [exact Habs|].
  exact (hash_failed_unknown_index TransferList.first_verdict 8 Habs).
Defined.

(** C1. For a call of [hash_failed] on an index whose BlockList is present,
    is not empty, has all its blocks finished (each with its leader transfer)
    and has [attempt] 0: [update_failed] returns a [promoted] for which the
    condition [promoted > 0 || promoted < size] is true, and the call returns
    with [attempt] set to 1 and with exactly one more call recorded, the
    [on_completed(index)] of [retry_most_popular]: [do_all_failed], whose
    call would be recorded too, is not called. *)
Theorem hash_failed_first_attempt_retries
    (s : TransferList.t) (idx : Z) (bl : TransferList.BlockList) :
  nth_error (TransferList.lists s) (TransferList.find idx s) = Some bl ->
  TransferList.blocks bl <> [] ->
  Forall (fun b => TransferList.is_finished b = true) (TransferList.blocks bl) ->
  Forall TransferList.has_leader (TransferList.blocks bl) ->
  TransferList.attempt bl = 0 ->
  exists promoted s1 s',
    TransferList.update_failed (TransferList.find idx s)
      (snd (TransferList.inc_failedCount s)) = (Return promoted, s1) /\
    (0 <? promoted) || (promoted <? Z.of_nat (length (TransferList.blocks bl))) = true /\
    TransferList.hash_failed idx s = (Return tt, s') /\
    (exists bl',
       nth_error (TransferList.lists s') (TransferList.find idx s) = Some bl' /\
       TransferList.index bl' = idx /\ TransferList.attempt bl' = 1) /\
    TransferList.calls s' = TransferList.calls s ++ [TransferList.on_completed idx] /\
    TransferList.m_failedCount s' = to_uint32 (TransferList.m_failedCount s + 1).
Proof.
  intros Hbl Hne Hfin Hlead Hatt.
  destruct (TransferListFacts.hash_failed_first_attempt_spec s idx bl
              Hbl Hne Hfin Hlead Hatt)
    as (promoted & s1 & s' & bl' & Hupd & Hcond & Hrun & Hbl' & Hidx & Hatt'
        & _ & _ & Hcalls & Hfc).
  exists promoted, s1, s'.
  split; [exact Hupd|]. split; [exact Hcond|]. split; [exact Hrun|].
  split; [|split; [exact Hcalls|exact Hfc]].
  exists bl'. split; [exact Hbl'|]. split; [exact Hidx|exact Hatt'].
Qed.

Lemma hash_failed_first_attempt_retries_witness :
  nth_error (TransferList.lists TransferList.first_verdict)
    (TransferList.find 7 TransferList.first_verdict) = Some TransferList.first_verdict_piece /\
  Forall TransferList.has_leader (TransferList.blocks TransferList.first_verdict_piece) /\
  exists s' bl',
    TransferList.hash_failed 7 TransferList.first_verdict = (Return tt, s') /\
    nth_error (TransferList.lists s') 0 = Some bl' /\
    TransferList.attempt bl' = 1 /\
    TransferList.calls s' = [TransferList.on_completed 7].
Proof.
  assert (Forall TransferList.has_leader
            (TransferList.blocks TransferList.first_verdict_piece)) as Hlead.
  { repeat constructor; exists O; split; try reflexivity; simpl; lia. }
  split; [reflexivity|]. split; [exact Hlead|].
  destruct (hash_failed_first_attempt_retries TransferList.first_verdict 7
              TransferList.first_verdict_piece eq_refl
              ltac:(discriminate) ltac:(repeat constructor) Hlead eq_refl)
    as (promoted & s1 & s' & _ & _ & Hrun & (bl' & Hbl' & _ & Hatt) & Hcalls & _).
  exists s', bl'. split; [exact Hrun|]. split; [exact Hbl'|].
  split; [exact Hatt|exact Hcalls].
Defined.

(** Scenario 1 of the specification, first verdict: with [AA], [BB] in the
    chunk each block gets one new FailedList entry, [attempt] becomes 1 and
    the piece is handed back for hashing. *)
Example two_variant_first_failure :
  let s' := snd (TransferList.hash_failed 7 TransferList.first_verdict) in
  map (fun b => option_map TransferList.bf_entries (TransferList.failed_list b))
      (concat (map TransferList.blocks (TransferList.lists s')))
    = [Some [([TransferList.AA], 1)]; Some [([TransferList.BB], 1)]] /\
  map TransferList.attempt (TransferList.lists s') = [1] /\
  map TransferList.failed (TransferList.lists s') = [1] /\
  TransferList.m_failedCount s' = 1 /\
  TransferList.calls s' = [TransferList.on_completed 7].
Proof. vm_compute. repeat split. Qed.

(** C3. For a call of [hash_succeeded] on an index whose BlockList is
    present, has all its blocks finished, has a non-zero [failed] counter and
    a FailedList in every block: the calls it adds on the slots are one
    [on_corrupt(peer)] for each peer of a list without repetition, and a peer
    is in that list exactly when it has, in some block, a transfer whose
    [failed_index] is set and is not the position of the FailedList entry
    that equals the chunk's bytes: the first entry whose buffer is, byte for
    byte, what the chunk holds at the block's piece, or the end of the list
    when no entry is. *)
Theorem hash_succeeded_reports_corrupt_peers
    (s : TransferList.t) (idx : Z) (bl : TransferList.BlockList) :
  nth_error (TransferList.lists s) (TransferList.find idx s) = Some bl ->
  Forall (fun b => TransferList.is_finished b = true) (TransferList.blocks bl) ->
  TransferList.failed bl <> 0 ->
  Forall TransferList.has_failed_list (TransferList.blocks bl) ->
  exists s' bad,
    TransferList.hash_succeeded idx s = (Return tt, s') /\
    TransferList.calls s' = TransferList.calls s ++ map TransferList.on_corrupt bad /\
    NoDup bad /\
    forall p, In p bad <-> TransferList.sent_other_data (TransferList.chunk s) bl p.
Proof.
  intros Hbl Hfin Hfailed Hlists.
  destruct (TransferListFacts.hash_succeeded_spec s idx bl Hbl Hfin (fun _ => Hlists))
    as (s' & bad & Hrun & _ & _ & Hcalls & _ & Hbad & _).
  destruct (Hbad Hfailed) as [Hnodup Hin].
  exists s', bad. split; [exact Hrun|]. split; [exact Hcalls|]. split; [exact Hnodup|].
  intros p. rewrite Hin.
  apply TransferListFacts.sent_other_data_found. exact Hlists.
Qed.

Lemma hash_succeeded_reports_corrupt_peers_witness :
  nth_error (TransferList.lists TransferList.reconciled)
    (TransferList.find 7 TransferList.reconciled) = Some TransferList.reconciled_piece /\
  TransferList.failed TransferList.reconciled_piece <> 0 /\
  Forall TransferList.has_failed_list (TransferList.blocks TransferList.reconciled_piece) /\
  exists s' bad,
    TransferList.hash_succeeded 7 TransferList.reconciled = (Return tt, s') /\
    TransferList.calls s' =
      TransferList.calls TransferList.reconciled ++ map TransferList.on_corrupt bad /\
    NoDup bad /\
    forall p, In p bad <->
              TransferList.sent_other_data (TransferList.chunk TransferList.reconciled)
                TransferList.reconciled_piece p.
Proof.
  assert (Forall TransferList.has_failed_list
            (TransferList.blocks TransferList.reconciled_piece)) as Hlists
      by (repeat constructor; discriminate).
  split; [reflexivity|]. split; [discriminate|]. split; [exact Hlists|].
  exact (hash_succeeded_reports_corrupt_peers TransferList.reconciled 7
           TransferList.reconciled_piece eq_refl ltac:(repeat constructor)
           ltac:(discriminate) Hlists).
Defined.

(** Scenario 1, the verdict that succeeds: with [AA], [BB] in the chunk,
    peer C, whose second block matched the entry [CC], is reported, and peer A
    is not; the completion of piece 3, stamped months before, is pruned from
    the completed list. *)
Example two_variant_success_reports_peer_C :
  let s' := snd (TransferList.hash_succeeded 7 TransferList.reconciled) in
  fst (TransferList.hash_succeeded 7 TransferList.reconciled) = Return tt /\
  TransferList.calls s' =
    [TransferList.on_completed 7; TransferList.on_corrupt TransferList.peer_C] /\
  TransferList.lists s' = [] /\
  TransferList.m_succeededCount s' = 5 /\
  TransferList.m_completedList s' = [(1700000000000000, 7)].
Proof. vm_compute. repeat split. Qed.

(** C4 (as worded it does not hold). On a clock that is set forward by 90
    minutes between the reading that stamps the completion and the next one,
    [hash_succeeded] on a present BlockList with all its blocks finished
    returns, erases the BlockList and counts the success, and the completed
    list is empty: the entry just pushed is more than 60 minutes old at the
    next reading and is pruned with the rest, so the list has no last entry
    for the index. *)
Theorem hash_succeeded_clock_jump_drops_the_stamp :
  nth_error (TransferList.lists TransferList.late_clock)
    (TransferList.find 7 TransferList.late_clock) = Some TransferList.first_verdict_piece /\
  Forall (fun b => TransferList.is_finished b = true)
    (TransferList.blocks TransferList.first_verdict_piece) /\
  ~ TransferList.clock_steady TransferList.late_clock /\
  exists s',
    TransferList.hash_succeeded 7 TransferList.late_clock = (Return tt, s') /\
    TransferList.lists s' = [] /\
    TransferList.m_succeededCount s' = 1 /\
    TransferList.m_completedList s' = [].
Proof.
  split; [reflexivity|]. split; [repeat constructor|]. split.
  - intros Hsteady. specialize (Hsteady 1%nat).
    cbv [TransferList.late_clock TransferList.clock TransferList.ticks
         TransferList.m_completedList TransferList.from_minutes length] in Hsteady.
    lia.
  - eexists. split; [vm_compute; reflexivity|]. repeat split.
Qed.

(** C4. For a call of [hash_succeeded] on an index whose BlockList is
    present and has all its blocks finished (with a FailedList in every block
    when failures were counted): the call returns, the BlockList at the
    position found has been erased (no list with that index is left when
    indices are unique) and [succeededCount] has been incremented by one as a
    uint32_t. When no reading of the clock during the call is more than 30
    minutes ahead of the reading that stamps the completion, the last entry
    of the completed list is the pair of that reading and the index. *)
Theorem hash_succeeded_completes
    (s : TransferList.t) (idx : Z) (bl : TransferList.BlockList) :
  nth_error (TransferList.lists s) (TransferList.find idx s) = Some bl ->
  Forall (fun b => TransferList.is_finished b = true) (TransferList.blocks bl) ->
  (TransferList.failed bl <> 0 ->
   Forall TransferList.has_failed_list (TransferList.blocks bl)) ->
  exists s',
    TransferList.hash_succeeded idx s = (Return tt, s') /\
    TransferList.lists s' =
      Std.vector_erase (TransferList.find idx s) (TransferList.lists s) /\
    (NoDup (map TransferList.index (TransferList.lists s)) ->
     forall bl', In bl' (TransferList.lists s') -> TransferList.index bl' <> idx) /\
    TransferList.m_succeededCount s' = to_uint32 (TransferList.m_succeededCount s + 1) /\
    (TransferList.clock_steady s ->
     last (TransferList.m_completedList s') (0, 0) =
       (TransferList.clock s (TransferList.ticks s), idx)).
Proof.
  intros Hbl Hfin Hlists.
  destruct (TransferListFacts.hash_succeeded_spec s idx bl Hbl Hfin Hlists)
    as (s' & bad & Hrun & Herased & Hcount & _ & _ & _ & Hcompleted).
  exists s'. split; [exact Hrun|]. split; [exact Herased|].
  split; [|split; [exact Hcount|]].
  - intros Hnodup bl' Hin. rewrite Herased in Hin.
    rewrite <- (TransferListFacts.find_index idx s bl Hbl).
    exact (TransferListFacts.erased_index_gone _ _ _ Hbl Hnodup bl' Hin).
  - intros Hsteady. destruct (Hcompleted Hsteady) as (kept & ->). apply last_last.
Qed.

Lemma hash_succeeded_completes_witness :
  nth_error (TransferList.lists TransferList.reconciled)
    (TransferList.find 7 TransferList.reconciled) = Some TransferList.reconciled_piece /\
  TransferList.clock_steady TransferList.reconciled /\
  exists s',
    TransferList.hash_succeeded 7 TransferList.reconciled = (Return tt, s') /\
    TransferList.lists s' = [] /\
    TransferList.m_succeededCount s' = 5 /\
    last (TransferList.m_completedList s') (0, 0) = (1700000000000000, 7).
Proof.
  assert (TransferList.clock_steady TransferList.reconciled) as Hsteady.
  { intros k Hk.
    cbv [TransferList.reconciled TransferList.clock TransferList.ticks
         TransferList.m_completedList TransferList.from_minutes length] in *.
    lia. }
  split; [reflexivity|]. split; [exact Hsteady|].
  destruct (hash_succeeded_completes TransferList.reconciled 7
              TransferList.reconciled_piece eq_refl ltac:(repeat constructor)
              ltac:(intros _; repeat constructor; discriminate))
    as (s' & Hrun & Hlists & _ & Hcount & Hlast).
  exists s'. split; [exact Hrun|]. split; [exact Hlists|].
  split; [exact Hcount|exact (Hlast Hsteady)].
Defined.

(** ** TransferList: further member functions *)

Module TransferListOpsFacts.
Import Std StdFacts TransferList TransferListFacts.

Lemma find_if_found {A} (p : A -> bool) (l : list A) x :
  In x l -> p x = true -> (find_if p l < length l)%nat.
Proof.
  induction l as [|y l IH]; intros Hin Hp; [destruct Hin|]. simpl.
  destruct (p y) eqn:Hy; [lia|].
  destruct Hin as [->|Hin]; [congruence|]. specialize (IH Hin Hp). lia.
Qed.

Lemma find_if_app_last {A} (p : A -> bool) (l : list A) x :
  find_if p l = length l -> p x = true -> find_if p (l ++ [x]) = length l.
Proof.
  induction l as [|y l IH]; simpl; intros Hl Hx.
  - rewrite Hx. reflexivity.
  - destruct (p y); [discriminate|]. f_equal. apply IH; [lia|exact Hx].
Qed.

Lemma vector_insert_end {A} (l : list A) x : vector_insert (length l) x l = l ++ [x].
Proof. unfold vector_insert. rewrite firstn_all, skipn_all. reflexivity. Qed.

Lemma find_present idx s :
  In idx (map index (lists s)) -> (find idx s < length (lists s))%nat.
Proof.
  intros Hin. apply in_map_iff in Hin. destruct Hin as (bl & Hidx & Hin).
  unfold find. apply (find_if_found _ _ bl Hin). rewrite Hidx. apply Z.eqb_refl.
Qed.

Lemma insert_spec p blockSize s :
  ~ In (p_index p) (map index (lists s)) ->
  exists s',
    insert p blockSize s = (Return (length (lists s)), s') /\
    lists s' = lists s ++ [new_BlockList p blockSize] /\
    find (p_index p) s' = length (lists s) /\
    calls s' = calls s ++ [on_queued (p_index p)] /\
    (NoDup (map index (lists s)) -> NoDup (map index (lists s'))).
Proof.
  intros Habsent.
  assert (find (p_index p) s = length (lists s)) as Hfind.
  { apply find_absent. intros bl Hin Hidx. apply Habsent.
    apply in_map_iff. exists bl. split; assumption. }
  unfold insert, bind, get. rewrite Hfind, Nat.eqb_refl. cbn [negb].
  cbn [emit set_lists modify ret lists calls].
  rewrite vector_insert_end.
  eexists. split; [reflexivity|]. cbn [lists calls].
  split; [reflexivity|]. split; [|split; [reflexivity|]].
  - unfold find. cbn [lists]. apply find_if_app_last.
    + exact Hfind.
    + cbn [new_BlockList index]. apply Z.eqb_refl.
  - intros Hnd. rewrite map_app. cbn [map new_BlockList index].
    apply NoDup_app; [exact Hnd|repeat constructor; intros []|].
    intros x Hx [<-|[]]. exact (Habsent Hx).
Qed.

Lemma count_finished_lt bl b :
  In b (blocks bl) -> is_finished b = false ->
  (count_finished bl < length (blocks bl))%nat.
Proof.
  unfold count_finished. induction (blocks bl) as [|x l IH]; intros Hin Hb; [destruct Hin|].
  simpl. pose proof (filter_length_le is_finished l) as Hle.
  destruct Hin as [->|Hin].
  - rewrite Hb. lia.
  - specialize (IH Hin Hb). destruct (is_finished x); simpl; lia.
Qed.

Lemma insert_duplicate p blockSize s :
  In (p_index p) (map index (lists s)) ->
  insert p blockSize s =
    (Throw (internal_error
              "Delegator::new_chunk(...) received an index that is already delegated."),
     s).
Proof.
  intros Hin. apply find_present in Hin.
  unfold insert, bind, get.
  destruct (Nat.eqb_spec (find (p_index p) s) (length (lists s))) as [|_]; [lia|].
  reflexivity.
Qed.

Lemma unfinished_hash_failed idx s bl b :
  nth_error (lists s) (find idx s) = Some bl ->
  In b (blocks bl) -> is_finished b = false ->
  hash_failed idx s =
    (Throw (internal_error
              "TransferList::hash_failed(...) Finished blocks does not match size."), s).
Proof.
  intros Hbl Hin Hb.
  assert (find idx s < length (lists s))%nat as Hpos
      by (apply nth_error_Some; rewrite Hbl; discriminate).
  pose proof (count_finished_lt bl b Hin Hb) as Hlt.
  unfold hash_failed, bind, get.
  destruct (Nat.eqb_spec (find idx s) (length (lists s))) as [|_]; [lia|].
  unfold deref at 1. rewrite Hbl.
  destruct (Nat.eqb_spec (count_finished bl) (length (blocks bl))) as [|_]; [lia|].
  reflexivity.
Qed.

Lemma unfinished_hash_succeeded idx s bl b :
  nth_error (lists s) (find idx s) = Some bl ->
  In b (blocks bl) -> is_finished b = false ->
  hash_succeeded idx s =
    (Throw (internal_error
              "TransferList::hash_succeeded(...) Finished blocks does not match size."), s).
Proof.
  intros Hbl Hin Hb.
  pose proof (count_finished_lt bl b Hin Hb) as Hlt.
  unfold hash_succeeded, bind, get.
  unfold deref at 1. rewrite Hbl.
  destruct (Nat.eqb_spec (count_finished bl) (length (blocks bl))) as [|_]; [lia|].
  reflexivity.
Qed.

Lemma hash_failed_later_attempt_spec idx s bl :
  nth_error (lists s) (find idx s) = Some bl ->
  Forall (fun b => is_finished b = true) (blocks bl) ->
  attempt bl <> 0 ->
  exists s',
    hash_failed idx s = (Return tt, s') /\
    lists s' = update_nth (set_blocks (map clear_finished (blocks bl))) (find idx s)
                 (lists s) /\
    calls s' = calls s ++ [do_all_failed_call idx] /\
    m_failedCount s' = to_uint32 (m_failedCount s + 1) /\
    chunk s' = chunk s /\
    m_completedList s' = m_completedList s.
Proof.
  intros Hbl Hfin Hattempt.
  assert (find idx s < length (lists s))%nat as Hpos
      by (apply nth_error_Some; rewrite Hbl; discriminate).
  pose proof (find_index idx s bl Hbl) as Hidx.
  unfold hash_failed, bind, get.
  destruct (Nat.eqb_spec (find idx s) (length (lists s))) as [|_]; [lia|].
  unfold deref at 1. rewrite Hbl.
  rewrite (count_finished_all bl Hfin), Nat.eqb_refl. cbn [negb].
  cbn [inc_failedCount modify].
  unfold deref at 1. cbn [lists]. rewrite Hbl.
  destruct (Z.eqb_spec (attempt bl) 0) as [|_]; [contradiction|].
  unfold do_all_failed, bind, deref. cbn [lists]. rewrite Hbl.
  cbn [set_lists emit modify lists m_completedList m_succeededCount m_failedCount
       chunk calls clock ticks].
  eexists. split; [reflexivity|]. cbn [lists calls m_failedCount chunk m_completedList].
  rewrite Hidx. repeat split; reflexivity.
Qed.

(** *** What a failed verdict leaves alone *)

Lemma same_pieces_refl s : same_pieces s s.
Proof. repeat split. Qed.

Lemma same_pieces_trans s1 s2 s3 :
  same_pieces s1 s2 -> same_pieces s2 s3 -> same_pieces s1 s3.
Proof. intros (H1 & H2 & H3) (K1 & K2 & K3). repeat split; congruence. Qed.

Lemma untouched_refl s : untouched s s.
Proof. repeat split. Qed.

Lemma untouched_trans s1 s2 s3 : untouched s1 s2 -> untouched s2 s3 -> untouched s1 s3.
Proof. intros (H1 & H2 & H3) (K1 & K2 & K3). repeat split; congruence. Qed.

Lemma keeps_bind {A B} (m : M t A) (k : A -> M t B) :
  keeps m -> (forall a, keeps (k a)) -> keeps (bind m k).
Proof.
  intros Hm Hk s. unfold bind. specialize (Hm s).
  destruct (m s) as [[a|e] s1]; cbn [snd] in *; [|exact Hm].
  eapply same_pieces_trans; [exact Hm|apply Hk].
Qed.

Lemma keeps_ret {A} (a : A) : keeps (ret a).
Proof. intros s. apply same_pieces_refl. Qed.

Lemma keeps_throw {A} e : keeps (throw (A := A) e).
Proof. intros s. apply same_pieces_refl. Qed.

Lemma keeps_get : keeps get.
Proof. intros s. apply same_pieces_refl. Qed.

Lemma keeps_deref itr : keeps (deref itr).
Proof. intros s. unfold deref. destruct (nth_error _ _); apply same_pieces_refl. Qed.

Lemma keeps_inc_failedCount : keeps inc_failedCount.
Proof. intros s. repeat split. Qed.

Lemma keeps_emit e : keeps (emit e).
Proof. intros s. repeat split. Qed.

Lemma map_index_update_nth (f : BlockList -> BlockList) :
  (forall bl, index (f bl) = index bl) ->
  forall l i, map index (update_nth f i l) = map index l.
Proof.
  intros Hf. induction l as [|x l IH]; intros [|i]; simpl; try reflexivity.
  - now rewrite Hf.
  - now rewrite IH.
Qed.

Lemma keeps_update (f : BlockList -> BlockList) i :
  (forall bl, index (f bl) = index bl) -> keeps (set_lists (update_nth f i)).
Proof.
  intros Hf s. repeat split. cbn [set_lists modify snd lists].
  apply map_index_update_nth, Hf.
Qed.

(** A loop whose body leaves the vector alone leaves it alone, however it
    ends. *)
Lemma for_each_untouched {A Acc} (body : A -> Acc -> M t (A * Acc)) :
  (forall x acc s, untouched s (snd (body x acc s))) ->
  forall l acc s, untouched s (snd (for_each body l acc s)).
Proof.
  intros Hbody. induction l as [|x l IH]; intros acc s; cbn [for_each].
  - apply untouched_refl.
  - specialize (Hbody x acc s).
    destruct (body x acc s) as [[[x' acc']|e] s1]; cbn [snd] in *; [|exact Hbody].
    specialize (IH acc' s1).
    destruct (for_each body l acc' s1) as [[r rest'] s2]. cbn [snd] in *.
    eapply untouched_trans; eassumption.
Qed.

Lemma keeps_for_each_block {Acc} pos (body : Block -> Acc -> M t (Block * Acc)) acc :
  (forall x acc s, untouched s (snd (body x acc s))) ->
  keeps (for_each_block pos body acc).
Proof.
  intros Hbody s. unfold for_each_block.
  destruct (nth_error (lists s) pos) as [bl|]; [|apply same_pieces_refl].
  pose proof (for_each_untouched body Hbody (blocks bl) acc s) as Hloop.
  destruct (for_each body (blocks bl) acc s) as [[r bs] s1]. cbn [snd] in Hloop.
  destruct Hloop as (Hl & Hc & Hn).
  cbn [set_lists modify snd]. repeat split; cbn [lists m_completedList m_succeededCount];
    try assumption.
  rewrite map_index_update_nth by reflexivity. now rewrite Hl.
Qed.

Lemma update_failed_block_untouched b promoted s :
  untouched s (snd (update_failed_block b promoted s)).
Proof.
  unfold update_failed_block.
  destruct (_ =? _)%nat; destruct (leader b) as [ld|]; try apply untouched_refl;
    destruct (ld <? _)%nat; apply untouched_refl.
Qed.

Lemma retry_block_untouched b u s : untouched s (snd (retry_block b u s)).
Proof.
  unfold retry_block.
  destruct (failed_list b) as [bf|]; [|apply untouched_refl].
  destruct (reverse_max_element _) as [itr|]; [|apply untouched_refl].
  destruct (_ =? _); [apply untouched_refl|].
  repeat split.
Qed.

Lemma keeps_update_failed pos : keeps (update_failed pos).
Proof.
  unfold update_failed. apply keeps_bind.
  - apply keeps_update. reflexivity.
  - intros _. apply keeps_for_each_block, update_failed_block_untouched.
Qed.

Lemma keeps_retry_most_popular pos : keeps (retry_most_popular pos).
Proof.
  unfold retry_most_popular. apply keeps_bind.
  - apply keeps_for_each_block, retry_block_untouched.
  - intros _. apply keeps_bind; [apply keeps_deref|]. intros bl. apply keeps_emit.
Qed.

Lemma keeps_do_all_failed pos : keeps (do_all_failed pos).
Proof.
  unfold do_all_failed. apply keeps_bind; [apply keeps_deref|]. intros bl.
  apply keeps_bind; [apply keeps_update; reflexivity|]. intros _. apply keeps_emit.
Qed.

Lemma keeps_hash_failed idx : keeps (hash_failed idx).
Proof.
  unfold hash_failed. apply keeps_bind; [apply keeps_get|]. intros s0.
  destruct (_ =? _)%nat; [apply keeps_throw|].
  apply keeps_bind; [apply keeps_deref|]. intros bl.
  destruct (negb _); [apply keeps_throw|].
  apply keeps_bind; [apply keeps_inc_failedCount|]. intros _.
  apply keeps_bind; [apply keeps_deref|]. intros bl1.
  destruct (attempt bl1 =? 0); [|apply keeps_do_all_failed].
  apply keeps_bind; [apply keeps_update_failed|]. intros promoted.
  apply keeps_bind; [apply keeps_deref|]. intros bl2.
  destruct (_ || _); [|apply keeps_do_all_failed].
  apply keeps_bind; [apply keeps_update; reflexivity|]. intros _.
  apply keeps_retry_most_popular.
Qed.

(** *** What a failed verdict records *)

Lemma bytes_eqb_refl a : bytes_eqb a a = true.
Proof. induction a as [|x a IH]; simpl; [reflexivity|]. now rewrite Z.eqb_refl. Qed.

(** The bytes copied out of the chunk compare equal to the chunk. *)
Lemma compare_to_buffer c off len :
  compare_buffer c (to_buffer c off len) off len = true.
Proof.
  unfold compare_buffer, to_buffer, chunk_slice.
  rewrite firstn_firstn, Nat.min_id. apply bytes_eqb_refl.
Qed.

Lemma find_if_update_nth {A} (p : A -> bool) (f : A -> A) :
  (forall x, p (f x) = p x) ->
  forall l i, find_if p (update_nth f i l) = find_if p l.
Proof.
  intros Hf. induction l as [|x l IH]; intros [|i]; simpl; try reflexivity.
  - now rewrite Hf.
  - now rewrite IH.
Qed.

Lemma refcounts_app l1 l2 : refcounts (l1 ++ l2) = refcounts l1 + refcounts l2.
Proof. induction l1 as [|x l1 IH]; simpl; [reflexivity|]. rewrite IH. lia. Qed.

Lemma refcounts_update_nth l :
  forall i, (i < length l)%nat ->
    refcounts (update_nth (fun e => (fst e, snd e + 1)) i l) = refcounts l + 1.
Proof.
  induction l as [|x l IH]; intros [|i] Hi; simpl in *; try lia.
  rewrite IH by lia. lia.
Qed.

Lemma map_peer_info_update_nth v :
  forall l i,
    map peer_info (update_nth (set_failed_index v) i l) = map peer_info l.
Proof.
  induction l as [|x l IH]; intros [|i]; simpl; try reflexivity. now rewrite IH.
Qed.

Lemma update_failed_block_records b promoted s :
  has_leader b ->
  exists b' promoted',
    update_failed_block b promoted s = (Return (b', promoted'), s) /\
    records_found (chunk s) b b'.
Proof.
  intros (ld & Hld & Hlt).
  unfold update_failed_block. rewrite Hld.
  destruct (Nat.ltb_spec ld (length (transfers b))) as [_|]; [|lia].
  set (bf := match failed_list b with Some bf => bf | None => new_BlockFailed end).
  assert (refcounts (bf_entries bf) = total_refcount b) as Hsum.
  { unfold total_refcount, bf. destruct (failed_list b); reflexivity. }
  set (p := transfer_list_compare_data (chunk s) (piece b)).
  destruct (find_if_first p (bf_entries bf)) as (Hle & _ & Hat).
  destruct (nth_error (transfers b) ld) as [transfer|] eqn:Htr;
    [|apply nth_error_None in Htr; lia].
  destruct (Nat.eqb_spec (find_if p (bf_entries bf)) (length (bf_entries bf)))
    as [Hnone|Hsome].
  - (* the data was never met: a new entry *)
    eexists _, _. split; [reflexivity|].
    eexists _, ld, (set_failed_index (Z.of_nat (length (bf_entries bf))) transfer).
    split; [reflexivity|]. rewrite <- Hsum.
    unfold found_entry, total_refcount.
    cbn [set_transfers set_failed_list set_current failed_list bf_current bf_entries
         leader transfers piece].
    fold p.
    assert (find_if p (bf_entries bf ++
              [(to_buffer (chunk s) (p_offset (piece b)) (p_length (piece b)), 1)])
            = length (bf_entries bf)) as Hfind.
    { apply find_if_app_last; [exact Hnone|]. apply compare_to_buffer. }
    split; [now rewrite Hfind|].
    split; [rewrite length_app; simpl; lia|].
    split; [exact Hld|].
    split; [apply nth_error_update_nth_same; exact Htr|].
    split; [reflexivity|].
    split; [rewrite refcounts_app; simpl; lia|].
    split; [reflexivity|]. apply map_peer_info_update_nth.
  - (* the data was met before: one more reference *)
    eexists _, _. split; [reflexivity|].
    eexists _, ld, (set_failed_index (Z.of_nat (find_if p (bf_entries bf))) transfer).
    split; [reflexivity|]. rewrite <- Hsum.
    unfold found_entry, total_refcount.
    cbn [set_transfers set_failed_list set_current failed_list bf_current bf_entries
         leader transfers piece].
    fold p.
    split; [rewrite find_if_update_nth by reflexivity; reflexivity|].
    split; [rewrite length_update_nth; lia|].
    split; [exact Hld|].
    split; [apply nth_error_update_nth_same; exact Htr|].
    split; [reflexivity|].
    split; [rewrite refcounts_update_nth by lia; reflexivity|].
    split; [reflexivity|]. apply map_peer_info_update_nth.
Qed.

Lemma for_each_related {St A Acc} (body : A -> Acc -> M St (A * Acc))
    (P : A -> Prop) (R : A -> A -> Prop) s :
  (forall x acc, P x ->
     exists x' acc', body x acc s = (Return (x', acc'), s) /\ R x x') ->
  forall l acc, Forall P l ->
    exists l' acc',
      for_each body l acc s = (Return acc', l', s) /\ Forall2 R l l'.
Proof.
  intros Hbody. induction l as [|x l IH]; intros acc Hall; cbn [for_each].
  - eexists _, _. split; [reflexivity|constructor].
  - inversion Hall as [|? ? Hx Hl]. subst.
    destruct (Hbody x acc Hx) as (x' & acc' & Hrun & Hrel). rewrite Hrun.
    destruct (IH acc' Hl) as (l' & acc'' & Hloop & Hrels). rewrite Hloop.
    eexists _, _. split; [reflexivity|]. constructor; assumption.
Qed.

Lemma update_failed_records pos s bl :
  nth_error (lists s) pos = Some bl ->
  Forall has_leader (blocks bl) ->
  exists promoted s' bs,
    update_failed pos s = (Return promoted, s') /\
    nth_error (lists s') pos = Some (set_blocks bs (inc_failed bl)) /\
    Forall2 (records_found (chunk s)) (blocks bl) bs /\
    chunk s' = chunk s /\ calls s' = calls s.
Proof.
  intros Hbl Hleaders.
  unfold update_failed, bind. cbn [set_lists modify].
  set (s1 := {| lists := update_nth inc_failed pos (lists s);
                m_completedList := m_completedList s;
                m_succeededCount := m_succeededCount s;
                m_failedCount := m_failedCount s; chunk := chunk s;
                calls := calls s; clock := clock s; ticks := ticks s |}).
  assert (nth_error (lists s1) pos = Some (inc_failed bl)) as Hbl1
      by (apply nth_error_update_nth_same; exact Hbl).
  destruct (for_each_related update_failed_block has_leader
              (records_found (chunk s1)) s1
              (fun x acc Hx => update_failed_block_records x acc s1 Hx)
              (blocks (inc_failed bl)) 0 Hleaders)
    as (bs & promoted & Hloop & Hrel).
  rewrite (for_each_block_ok pos update_failed_block 0 s1 (inc_failed bl) _ _ _ Hbl1 Hloop).
  eexists _, _, bs. split; [reflexivity|].
  cbn [set_lists modify snd lists chunk calls].
  split; [|split; [exact Hrel|split; reflexivity]].
  rewrite (nth_error_update_nth_same _ _ _ _ Hbl1). reflexivity.
Qed.

(** *** Pruning the completed list *)

(** The pruning scan passes only entries that the reading taken for them
    finds more than 30 minutes old. *)
Lemma find_recent_passes_old l :
  forall s,
    exists n k,
      find_recent l s = (Return n, with_ticks k s) /\
      (n <= length l)%nat /\
      forall j v,
        (j < n)%nat -> nth_error l j = Some v ->
        fst v < clock s (ticks s + j) - from_minutes 30.
Proof.
  induction l as [|x l IH]; intros s.
  - exists O, (ticks s). split; [destruct s; reflexivity|]. split; [simpl; lia|].
    intros j v Hj. lia.
  - cbn [find_recent]. unfold bind. cbn [timer_current].
    destruct (Z.leb_spec (clock s (ticks s) - from_minutes 30) (fst x)) as [Hrec|Hold].
    + exists O, (S (ticks s)). split; [reflexivity|]. split; [simpl; lia|]. intros; lia.
    + destruct (IH (with_ticks (S (ticks s)) s)) as (n & k & Hscan & Hn & Hpassed).
      change {| lists := lists s; m_completedList := m_completedList s;
                m_succeededCount := m_succeededCount s;
                m_failedCount := m_failedCount s; chunk := chunk s;
                calls := calls s; clock := clock s; ticks := S (ticks s) |}
        with (with_ticks (S (ticks s)) s).
      rewrite Hscan. exists (S n), k. split; [reflexivity|]. split; [simpl; lia|].
      intros [|j] v Hj Hv; simpl in Hv.
      * inversion Hv. subst v. rewrite Nat.add_0_r. exact Hold.
      * specialize (Hpassed j v ltac:(lia) Hv). cbn [with_ticks clock ticks] in Hpassed.
        replace (ticks s + S j)%nat with (S (ticks s) + j)%nat by lia. exact Hpassed.
Qed.

Lemma hash_succeeded_pruning s idx bl :
  nth_error (lists s) (find idx s) = Some bl ->
  Forall (fun b => is_finished b = true) (blocks bl) ->
  (failed bl <> 0 -> Forall has_failed_list (blocks bl)) ->
  exists s' n,
    hash_succeeded idx s = (Return tt, s') /\
    m_completedList s' = skipn n (m_completedList s ++ [(clock s (ticks s), idx)]) /\
    (forall j v,
       (j < n)%nat ->
       nth_error (m_completedList s ++ [(clock s (ticks s), idx)]) j = Some v ->
       fst v < clock s (ticks s + 2 + j) - from_minutes 30) /\
    ((0 < n)%nat ->
     forall front,
       nth_error (m_completedList s ++ [(clock s (ticks s), idx)]) 0 = Some front ->
       fst front + from_minutes 60 < clock s (S (ticks s))).
Proof.
  intros Hbl Hfin Hlists.
  set (pos := find idx s) in *.
  destruct (marking_step pos s bl Hbl Hlists)
    as (s1 & bad & Hmark & Herase & Hlen & Hcl1 & Hsc1 & Hclock1 & Hticks1
        & Hcalls1 & Hnone & Hbad).
  assert (pos < length (lists s))%nat as Hpos
      by (apply nth_error_Some; rewrite Hbl; discriminate).
  unfold hash_succeeded, bind, get. fold pos.
  unfold deref at 1. rewrite Hbl.
  rewrite (count_finished_all bl Hfin), Nat.eqb_refl. cbn [negb].
  rewrite Hmark.
  cbn [timer_current set_completedList modify m_completedList lists
       m_succeededCount m_failedCount chunk calls clock ticks].
  rewrite Hcl1, Hclock1, Hticks1.
  set (stamped := m_completedList s ++ [(clock s (ticks s), idx)]).
  destruct stamped as [|front rest] eqn:Hlist;
    [destruct (m_completedList s); discriminate Hlist|].
  match goal with
  | |- context [(if _ then _ else _) ?st] =>
      destruct (find_recent_passes_old (front :: rest) st)
        as (n & k & Hscan & Hn & Hpassed)
  end.
  cbn [ticks clock fst] in Hpassed.
  destruct (Z.ltb_spec (fst front + from_minutes 60) (clock s (S (ticks s))))
    as [Hstale|Hfresh].
  - (* the list is pruned *)
    rewrite Hscan.
    cbn [with_ticks set_completedList inc_succeededCount erase modify get bind
         m_completedList lists m_succeededCount m_failedCount chunk calls clock ticks].
    unfold erase, bind, get.
    cbn [set_lists inc_succeededCount modify lists].
    destruct (Nat.eqb_spec pos (length (lists s1))) as [|_]; [lia|].
    eexists. exists n. split; [reflexivity|].
    cbn [m_completedList].
    split; [reflexivity|]. split.
    + intros j v Hj Hv. specialize (Hpassed j v Hj Hv).
      replace (ticks s + 2 + j)%nat with (S (S (ticks s)) + j)%nat by lia.
      exact Hpassed.
    + intros _ front' Hfront. inversion Hfront. subst front'. exact Hstale.
  - (* the list is kept *)
    unfold erase, bind, get, ret.
    cbn [set_lists inc_succeededCount modify lists].
    destruct (Nat.eqb_spec pos (length (lists s1))) as [|_]; [lia|].
    eexists. exists O. split; [reflexivity|].
    cbn [m_completedList].
    split; [reflexivity|]. split; intros; lia.
Qed.

(** *** The verdicts in the words of the byte comparison *)

Lemma records_found_chunk c b b' : records_found c b b' -> records_chunk c b b'.
Proof.
  intros (bf' & ld & transfer & Hbf & Hcur & Hrange & Hld & Htr & Hidx & Hsum & Hpiece
          & Hpeers).
  exists bf', (Z.to_nat (bf_current bf')), ld, transfer.
  rewrite Z2Nat.id by lia.
  split; [exact Hbf|]. split; [reflexivity|]. split; [lia|]. split.
  - apply found_entry_bytes; [unfold has_failed_list; rewrite Hbf; discriminate|].
    rewrite Z2Nat.id by lia. symmetry. exact Hcur.
  - repeat (split; [assumption|]). assumption.
Qed.

Lemma hash_failed_later_attempt_path idx s bl :
  nth_error (lists s) (find idx s) = Some bl ->
  Forall (fun b => is_finished b = true) (blocks bl) ->
  attempt bl <> 0 ->
  hash_failed idx s = do_all_failed (find idx s) (snd (inc_failedCount s)).
Proof.
  intros Hbl Hfin Hattempt.
  assert (find idx s < length (lists s))%nat as Hpos
      by (apply nth_error_Some; rewrite Hbl; discriminate).
  unfold hash_failed, bind, get.
  destruct (Nat.eqb_spec (find idx s) (length (lists s))) as [|_]; [lia|].
  unfold deref at 1. rewrite Hbl.
  rewrite (count_finished_all bl Hfin), Nat.eqb_refl. cbn [negb].
  cbn [inc_failedCount modify snd].
  unfold deref at 1. cbn [lists]. rewrite Hbl.
  destruct (Z.eqb_spec (attempt bl) 0) as [|_]; [contradiction|].
  reflexivity.
Qed.

End TransferListOpsFacts.

(** ** TransferList: queueing, failed verdicts and the completed list *)

(** X1. [insert] queues a piece once. For an index that a BlockList of the
    TransferList already has it raises internal_error and changes nothing.
    For a new index it returns the position at the end, where the new
    BlockList now is, [find] of the index returns that position, the queued
    slot is called once with the index, and indices that were distinct
    stay distinct. *)
Theorem insert_queues_an_index_once
    (p : TransferList.Piece) (blockSize : nat) (s : TransferList.t) :
  (In (TransferList.p_index p) (map TransferList.index (TransferList.lists s)) ->
   TransferList.insert p blockSize s =
     (Throw (internal_error
               "Delegator::new_chunk(...) received an index that is already delegated."),
      s)) /\
  (~ In (TransferList.p_index p) (map TransferList.index (TransferList.lists s)) ->
   exists s',
     TransferList.insert p blockSize s = (Return (length (TransferList.lists s)), s') /\
     TransferList.lists s' =
       TransferList.lists s ++ [TransferList.new_BlockList p blockSize] /\
     TransferList.find (TransferList.p_index p) s' = length (TransferList.lists s) /\
     TransferList.calls s' =
       TransferList.calls s ++ [TransferList.on_queued (TransferList.p_index p)] /\
     (NoDup (map TransferList.index (TransferList.lists s)) ->
      NoDup (map TransferList.index (TransferList.lists s')))).
Proof.
  split.
  - apply TransferListOpsFacts.insert_duplicate.
  - apply TransferListOpsFacts.insert_spec.
Qed.

Lemma insert_queues_an_index_once_witness :
  exists s',
    TransferList.insert
      {| TransferList.p_index := 9; TransferList.p_offset := 0;
         TransferList.p_length := 2 |} 1 TransferList.first_verdict
      = (Return 1%nat, s') /\
    TransferList.find 9 s' = 1%nat /\
    TransferList.calls s' = [TransferList.on_queued 9].
Proof.
  destruct (proj2 (insert_queues_an_index_once
                     {| TransferList.p_index := 9; TransferList.p_offset := 0;
                        TransferList.p_length := 2 |} 1 TransferList.first_verdict))
    as (s' & Hrun & _ & Hfind & Hcalls & _).
  - cbn. intros [H|[]]. discriminate H.
  - exists s'. repeat split; assumption.
Defined.

(** X2. [hash_failed] never removes, adds or renumbers a BlockList, whatever
    way it ends (return, internal_error, a null FailedList or leader): the
    sequence of indices in the TransferList, the completed list and the
    count of succeeded pieces are after the call what they were before. *)
Theorem hash_failed_keeps_the_pieces (idx : Z) (s : TransferList.t) :
  TransferList.same_pieces s (snd (TransferList.hash_failed idx s)).
Proof. apply TransferListOpsFacts.keeps_hash_failed. Qed.

(** X3. A verdict on a piece that has a block that is not finished is
    refused: [hash_failed] and [hash_succeeded] both raise internal_error,
    and the state is unchanged; in particular [hash_failed] has not counted
    a failure. *)
Theorem verdict_on_unfinished_piece
    (idx : Z) (s : TransferList.t) (bl : TransferList.BlockList) (b : TransferList.Block) :
  nth_error (TransferList.lists s) (TransferList.find idx s) = Some bl ->
  In b (TransferList.blocks bl) ->
  TransferList.is_finished b = false ->
  TransferList.hash_failed idx s =
    (Throw (internal_error
              "TransferList::hash_failed(...) Finished blocks does not match size."), s) /\
  TransferList.hash_succeeded idx s =
    (Throw (internal_error
              "TransferList::hash_succeeded(...) Finished blocks does not match size."), s).
Proof.
  intros Hbl Hin Hb. split.
  - exact (TransferListOpsFacts.unfinished_hash_failed idx s bl b Hbl Hin Hb).
  - exact (TransferListOpsFacts.unfinished_hash_succeeded idx s bl b Hbl Hin Hb).
Qed.

Lemma verdict_on_unfinished_piece_witness :
  TransferList.hash_failed 9 TransferList.queued_piece =
    (Throw (internal_error
              "TransferList::hash_failed(...) Finished blocks does not match size."),
     TransferList.queued_piece) /\
  TransferList.hash_succeeded 9 TransferList.queued_piece =
    (Throw (internal_error
              "TransferList::hash_succeeded(...) Finished blocks does not match size."),
     TransferList.queued_piece).
Proof.
  apply (verdict_on_unfinished_piece 9 TransferList.queued_piece
           (TransferList.new_BlockList
              {| TransferList.p_index := 9; TransferList.p_offset := 0;
                 TransferList.p_length := 2 |} 1)
           {| TransferList.piece :=
                {| TransferList.p_index := 9; TransferList.p_offset := 0;
                   TransferList.p_length := 1 |};
              TransferList.transfers := []; TransferList.leader := None;
              TransferList.failed_list := None; TransferList.is_finished := false |}).
  - reflexivity.
  - left. reflexivity.
  - reflexivity.
Defined.

(** X4. A failed verdict on a piece whose [attempt] is not 0 gives the piece
    up: [hash_failed] counts the failure and hands the BlockList, as the
    verdict found it, to [do_all_failed]; what the call returns and leaves
    is what [do_all_failed] returns and leaves on the state with the failure
    counted. [update_failed] and [retry_most_popular] are not run: the call
    returns with [do_all_failed] called once, the completed slot not called
    and the chunk unchanged. *)
Theorem hash_failed_later_attempt_gives_up
    (idx : Z) (s : TransferList.t) (bl : TransferList.BlockList) :
  nth_error (TransferList.lists s) (TransferList.find idx s) = Some bl ->
  Forall (fun b => TransferList.is_finished b = true) (TransferList.blocks bl) ->
  TransferList.attempt bl <> 0 ->
  TransferList.hash_failed idx s =
    TransferList.do_all_failed (TransferList.find idx s)
      (snd (TransferList.inc_failedCount s)) /\
  exists s',
    TransferList.hash_failed idx s = (Return tt, s') /\
    TransferList.chunk s' = TransferList.chunk s /\
    TransferList.calls s' =
      TransferList.calls s ++ [TransferList.do_all_failed_call idx] /\
    TransferList.m_failedCount s' = to_uint32 (TransferList.m_failedCount s + 1).
Proof.
  intros Hbl Hfin Hattempt.
  split; [apply (TransferListOpsFacts.hash_failed_later_attempt_path idx s bl);
          assumption|].
  destruct (TransferListOpsFacts.hash_failed_later_attempt_spec idx s bl Hbl Hfin Hattempt)
    as (s' & Hrun & _ & Hcalls & Hcount & Hchunk & _).
  exists s'. repeat split; assumption.
Qed.

Lemma hash_failed_later_attempt_gives_up_witness :
  TransferList.hash_failed 7 TransferList.reconciled =
    TransferList.do_all_failed 0 (snd (TransferList.inc_failedCount TransferList.reconciled)) /\
  exists s',
    TransferList.hash_failed 7 TransferList.reconciled = (Return tt, s') /\
    TransferList.chunk s' = [TransferList.AA; TransferList.BB] /\
    TransferList.calls s' =
      [TransferList.on_completed 7; TransferList.do_all_failed_call 7] /\
    TransferList.m_failedCount s' = 2.
Proof.
  destruct (hash_failed_later_attempt_gives_up 7 TransferList.reconciled
              TransferList.reconciled_piece eq_refl
              ltac:(repeat constructor) ltac:(discriminate))
    as (Hpath & s' & Hrun & Hchunk & Hcalls & Hcount).
  split; [exact Hpath|].
  exists s'. split; [exact Hrun|]. split; [exact Hchunk|]. split; [exact Hcalls|exact Hcount].
Defined.

(** X5. On a BlockList whose blocks all have their leader transfer,
    [update_failed] returns and leaves every block with a FailedList whose
    current entry exists and is the first entry whose buffer is, byte for
    byte, what the chunk holds at the block's piece, with the leader
    transfer's [failed_index] pointing to it; the reference counts of the
    block's FailedList have grown by one in total; the pieces and the peers
    of the transfers are as before, and the BlockList's [failed] counter is
    one higher. *)
Theorem update_failed_records_the_chunk
    (pos : nat) (s : TransferList.t) (bl : TransferList.BlockList) :
  nth_error (TransferList.lists s) pos = Some bl ->
  Forall TransferList.has_leader (TransferList.blocks bl) ->
  exists promoted s' bs,
    TransferList.update_failed pos s = (Return promoted, s') /\
    nth_error (TransferList.lists s') pos =
      Some (TransferList.set_blocks bs (TransferList.inc_failed bl)) /\
    Forall2 (TransferList.records_chunk (TransferList.chunk s))
      (TransferList.blocks bl) bs /\
    TransferList.chunk s' = TransferList.chunk s /\
    TransferList.calls s' = TransferList.calls s.
Proof.
  intros Hbl Hleaders.
  destruct (TransferListOpsFacts.update_failed_records pos s bl Hbl Hleaders)
    as (promoted & s' & bs & Hrun & Hat & Hrel & Hchunk & Hcalls).
  exists promoted, s', bs. split; [exact Hrun|]. split; [exact Hat|].
  split; [|split; assumption].
  clear - Hrel. induction Hrel as [|b b' l l' Hb _ IH]; constructor;
    [apply TransferListOpsFacts.records_found_chunk; exact Hb|exact IH].
Qed.

Lemma update_failed_records_the_chunk_witness :
  exists promoted s' bs,
    TransferList.update_failed 0 TransferList.reconciled = (Return promoted, s') /\
    Forall2 (TransferList.records_chunk [TransferList.AA; TransferList.BB])
      (TransferList.blocks TransferList.reconciled_piece) bs.
Proof.
  destruct (update_failed_records_the_chunk 0 TransferList.reconciled
              TransferList.reconciled_piece eq_refl)
    as (promoted & s' & bs & Hrun & _ & Hrel & _).
  - repeat constructor; exists O; split; try reflexivity; simpl; lia.
  - exists promoted, s', bs. split; [exact Hrun|exact Hrel].
Defined.

(** X6. On a successful verdict (piece present, all blocks finished, the
    FailedLists there when failures were counted) the completed list is the
    old list with the new stamp appended, less a prefix of [n] entries.
    Every entry of that prefix was more than 30 minutes older than the
    clock reading taken when it was examined, and a prefix is removed only
    when the oldest entry was more than 60 minutes older than the reading
    taken after the stamp. *)
Theorem hash_succeeded_prunes_an_old_prefix
    (s : TransferList.t) (idx : Z) (bl : TransferList.BlockList) :
  nth_error (TransferList.lists s) (TransferList.find idx s) = Some bl ->
  Forall (fun b => TransferList.is_finished b = true) (TransferList.blocks bl) ->
  (TransferList.failed bl <> 0 ->
   Forall TransferList.has_failed_list (TransferList.blocks bl)) ->
  exists s' n,
    TransferList.hash_succeeded idx s = (Return tt, s') /\
    TransferList.m_completedList s' =
      skipn n (TransferList.m_completedList s ++
               [(TransferList.clock s (TransferList.ticks s), idx)]) /\
    (forall j v,
       (j < n)%nat ->
       nth_error (TransferList.m_completedList s ++
                  [(TransferList.clock s (TransferList.ticks s), idx)]) j = Some v ->
       fst v < TransferList.clock s (TransferList.ticks s + 2 + j)
               - TransferList.from_minutes 30) /\
    ((0 < n)%nat ->
     forall front,
       nth_error (TransferList.m_completedList s ++
                  [(TransferList.clock s (TransferList.ticks s), idx)]) 0 = Some front ->
       fst front + TransferList.from_minutes 60
       < TransferList.clock s (S (TransferList.ticks s))).
Proof. apply TransferListOpsFacts.hash_succeeded_pruning. Qed.

Lemma hash_succeeded_prunes_an_old_prefix_witness :
  exists s' n,
    TransferList.hash_succeeded 7 TransferList.reconciled = (Return tt, s') /\
    TransferList.m_completedList s' =
      skipn n [(1690000000000000, 3); (1700000000000000, 7)].
Proof.
  destruct (hash_succeeded_prunes_an_old_prefix TransferList.reconciled 7
              TransferList.reconciled_piece eq_refl)
    as (s' & n & Hrun & Hlist & _).
  - repeat constructor.
  - intros _. repeat constructor; discriminate.
  - exists s', n. split; [exact Hrun|exact Hlist].
Defined.

(** ** ResourceManager: the layout of the entries, names, priorities and slots *)

Module ResourceManagerLayout.
Import Std StdFacts ResourceManager ResourceManagerFacts TransferListOpsFacts.

(** *** Counting entries *)

Lemma count_upto_cons g x l :
  count_upto g (x :: l) = ((if Z.leb (group x) g then 1 else 0) + count_upto g l)%nat.
Proof. unfold count_upto. simpl. destruct (group x <=? g); reflexivity. Qed.

Lemma count_upto_app g l1 l2 :
  count_upto g (l1 ++ l2) = (count_upto g l1 + count_upto g l2)%nat.
Proof. unfold count_upto. rewrite filter_app, length_app. reflexivity. Qed.

Lemma count_upto_le_length g l : (count_upto g l <= length l)%nat.
Proof. apply filter_length_le. Qed.

Lemma count_upto_mono g h l : g <= h -> (count_upto g l <= count_upto h l)%nat.
Proof.
  intros Hgh. induction l as [|x l IH]; [reflexivity|].
  rewrite !count_upto_cons.
  destruct (Z.leb_spec (group x) g); destruct (Z.leb_spec (group x) h); lia.
Qed.

Lemma count_upto_all g l :
  (forall e, In e l -> group e <= g) -> count_upto g l = length l.
Proof.
  induction l as [|x l IH]; intros Hall; [reflexivity|].
  rewrite count_upto_cons, IH by (intros e He; apply Hall; right; exact He).
  destruct (Z.leb_spec (group x) g) as [_|Hlt]; [reflexivity|].
  specialize (Hall x (or_introl eq_refl)). lia.
Qed.

Lemma count_upto_none g l :
  (forall e, In e l -> g < group e) -> count_upto g l = O.
Proof.
  induction l as [|x l IH]; intros Hall; [reflexivity|].
  rewrite count_upto_cons, IH by (intros e He; apply Hall; right; exact He).
  destruct (Z.leb_spec (group x) g) as [Hle|_]; [|reflexivity].
  specialize (Hall x (or_introl eq_refl)). lia.
Qed.

Lemma nth_error_split_at {A} (l : list A) i e :
  nth_error l i = Some e -> l = firstn i l ++ e :: skipn (S i) l.
Proof.
  revert i. induction l as [|x l IH]; intros [|i] He; simpl in *; try discriminate.
  - inversion He. reflexivity.
  - f_equal. apply IH. exact He.
Qed.

Lemma count_upto_erase g l i e :
  nth_error l i = Some e ->
  count_upto g l = (count_upto g (vector_erase i l) + (if Z.leb (group e) g then 1 else 0))%nat.
Proof.
  intros He. unfold vector_erase.
  rewrite (nth_error_split_at l i e He) at 1.
  rewrite !count_upto_app, count_upto_cons. lia.
Qed.

Lemma count_upto_split g l i :
  count_upto g l = (count_upto g (firstn i l) + count_upto g (skipn i l))%nat.
Proof. rewrite <- count_upto_app, firstn_skipn. reflexivity. Qed.

Lemma count_upto_insert g l i x :
  count_upto g (vector_insert i x l)
  = (count_upto g l + (if Z.leb (group x) g then 1 else 0))%nat.
Proof.
  unfold vector_insert. rewrite count_upto_app, count_upto_cons.
  rewrite (count_upto_split g l i). lia.
Qed.

(** *** Entries in the order of their groups *)

Lemma sorted_app l1 l2 :
  sorted_by_group (l1 ++ l2) <->
  sorted_by_group l1 /\ sorted_by_group l2 /\
  (forall a b, In a l1 -> In b l2 -> group a <= group b).
Proof.
  unfold sorted_by_group. induction l1 as [|x l1 IH]; simpl.
  - split.
    + intros H. split; [constructor|]. split; [exact H|]. intros a b [].
    + intros (_ & H & _). exact H.
  - split.
    + intros H. inversion H as [|? ? Hs Hall]. subst.
      apply IH in Hs. destruct Hs as (H1 & H2 & H12).
      rewrite Forall_app in Hall. destruct Hall as (Hall1 & Hall2).
      split; [constructor; assumption|]. split; [exact H2|].
      intros a b [<-|Ha] Hb.
      * rewrite Forall_forall in Hall2. apply Hall2. exact Hb.
      * apply H12; assumption.
    + intros (H1 & H2 & H12). inversion H1 as [|? ? Hs Hall]. subst.
      constructor.
      * apply IH. split; [exact Hs|]. split; [exact H2|].
        intros a b Ha Hb. apply H12; [right; exact Ha|exact Hb].
      * rewrite Forall_app. split; [exact Hall|].
        rewrite Forall_forall. intros b Hb. apply H12; [left; reflexivity|exact Hb].
Qed.

Lemma sorted_cons_inv x l :
  sorted_by_group (x :: l) ->
  sorted_by_group l /\ forall b, In b l -> group x <= group b.
Proof.
  intros H. inversion H as [|? ? Hs Hall]. subst. split; [exact Hs|].
  rewrite Forall_forall in Hall. exact Hall.
Qed.

Lemma sorted_skipn l i : sorted_by_group l -> sorted_by_group (skipn i l).
Proof.
  intros H. rewrite <- (firstn_skipn i l) in H. apply sorted_app in H. tauto.
Qed.

Lemma In_skipn_S {A} (l : list A) i x : In x (skipn (S i) l) -> In x (skipn i l).
Proof.
  revert l. induction i as [|i IH]; intros [|y l] Hx; simpl in *; try contradiction.
  - right. exact Hx.
  - apply (IH l). exact Hx.
Qed.

Lemma In_skipn {A} (l : list A) i x : In x (skipn i l) -> In x l.
Proof. intros Hx. rewrite <- (firstn_skipn i l). apply in_or_app. right. exact Hx. Qed.

Lemma In_firstn {A} (l : list A) i x : In x (firstn i l) -> In x l.
Proof. intros Hx. rewrite <- (firstn_skipn i l). apply in_or_app. left. exact Hx. Qed.

Lemma In_vector_erase {A} (l : list A) i x : In x (vector_erase i l) -> In x l.
Proof.
  unfold vector_erase. intros Hx. apply in_app_or in Hx. destruct Hx as [Hx|Hx].
  - eapply In_firstn. exact Hx.
  - eapply In_skipn. exact Hx.
Qed.

Lemma In_vector_insert {A} (l : list A) i y x :
  In x (vector_insert i y l) -> x = y \/ In x l.
Proof.
  unfold vector_insert. intros Hx. apply in_app_or in Hx.
  destruct Hx as [Hx|[Hx|Hx]].
  - right. eapply In_firstn. exact Hx.
  - left. symmetry. exact Hx.
  - right. eapply In_skipn. exact Hx.
Qed.

Lemma sorted_erase l i : sorted_by_group l -> sorted_by_group (vector_erase i l).
Proof.
  intros H. unfold vector_erase.
  rewrite <- (firstn_skipn i l) in H. apply sorted_app in H.
  destruct H as (H1 & H2 & H12). apply sorted_app.
  split; [exact H1|]. split.
  - replace (skipn (S i) l) with (skipn 1 (skipn i l))
      by (rewrite skipn_skipn; f_equal; lia).
    apply sorted_skipn. exact H2.
  - intros a b Ha Hb. apply H12; [exact Ha|]. apply In_skipn_S. exact Hb.
Qed.

(** In a sorted vector the entries of the groups up to [g] come first. *)
Lemma count_upto_position g l :
  sorted_by_group l ->
  forall i e, nth_error l i = Some e -> ((i < count_upto g l)%nat <-> group e <= g).
Proof.
  induction l as [|x l IH]; intros Hs i e He; [destruct i; discriminate|].
  apply sorted_cons_inv in Hs. destruct Hs as (Hs & Hx).
  rewrite count_upto_cons.
  destruct (Z.leb_spec (group x) g) as [Hle|Hgt].
  - destruct i as [|i]; simpl in He.
    + inversion He. subst. split; [intros _; exact Hle|lia].
    + specialize (IH Hs i e He). split; intros H; [apply IH; lia|apply IH in H; lia].
  - rewrite (count_upto_none g l)
      by (intros b Hb; specialize (Hx b Hb); lia).
    split; [lia|]. intros Hle.
    destruct i as [|i]; simpl in He.
    + inversion He. subst. lia.
    + apply nth_error_In in He. specialize (Hx e He). lia.
Qed.

(** [find_group_end] in a sorted vector. *)
Lemma find_group_end_count g l :
  sorted_by_group l -> find_group_end g l = count_upto g l.
Proof.
  unfold find_group_end. induction l as [|x l IH]; intros Hs; [reflexivity|].
  apply sorted_cons_inv in Hs. destruct Hs as (Hs & Hx).
  rewrite count_upto_cons. simpl.
  destruct (Z.ltb_spec g (group x)) as [Hgt|Hle].
  - destruct (Z.leb_spec (group x) g); [lia|].
    rewrite (count_upto_none g l) by (intros b Hb; specialize (Hx b Hb); lia).
    reflexivity.
  - destruct (Z.leb_spec (group x) g); [|lia]. rewrite (IH Hs). reflexivity.
Qed.

Lemma count_upto_firstn g l i :
  sorted_by_group l -> (i <= count_upto g l)%nat -> count_upto g (firstn i l) = i.
Proof.
  intros Hs Hi. pose proof (count_upto_le_length g l) as Hlen.
  rewrite count_upto_all.
  - apply firstn_length_le. lia.
  - intros e He. apply In_nth_error in He. destruct He as (j & Hj).
    assert (j < i)%nat as Hji.
    { assert (j < length (firstn i l))%nat
        by (apply nth_error_Some; rewrite Hj; discriminate).
      rewrite firstn_length_le in H by lia. exact H. }
    rewrite nth_error_firstn in Hj.
    destruct (Nat.ltb_spec j i) as [_|]; [|lia].
    apply (count_upto_position g l Hs j e Hj). lia.
Qed.

Lemma find_if_from_count g l i :
  sorted_by_group l -> (i <= count_upto g l)%nat ->
  find_if_from (fun v => g <? group v) l i = count_upto g l.
Proof.
  intros Hs Hi. unfold find_if_from.
  pose proof (find_group_end_count g (skipn i l) (sorted_skipn l i Hs)) as Hfind.
  unfold find_group_end in Hfind. rewrite Hfind.
  rewrite (count_upto_split g l i), (count_upto_firstn g l i Hs Hi). reflexivity.
Qed.

Lemma sorted_insert_at_group_end l x :
  sorted_by_group l ->
  sorted_by_group (vector_insert (find_group_end (group x) l) x l).
Proof.
  intros Hs. rewrite (find_group_end_count _ _ Hs).
  set (c := count_upto (group x) l).
  unfold vector_insert.
  pose proof Hs as Hsplit. rewrite <- (firstn_skipn c l) in Hsplit.
  apply sorted_app in Hsplit. destruct Hsplit as (H1 & H2 & H12).
  assert (forall a, In a (firstn c l) -> group a <= group x) as Hbefore.
  { intros a Ha. apply In_nth_error in Ha. destruct Ha as (j & Hj).
    assert (j < c)%nat as Hjc.
    { assert (j < length (firstn c l))%nat
        by (apply nth_error_Some; rewrite Hj; discriminate).
      rewrite firstn_length_le in H by apply count_upto_le_length. exact H. }
    rewrite nth_error_firstn in Hj.
    destruct (Nat.ltb_spec j c) as [_|]; [|lia].
    apply (count_upto_position (group x) l Hs j a Hj). exact Hjc. }
  assert (forall b, In b (skipn c l) -> group x <= group b) as Hafter.
  { intros b Hb. apply In_nth_error in Hb. destruct Hb as (j & Hj).
    rewrite nth_error_skipn in Hj.
    destruct (Z.le_gt_cases (group b) (group x)) as [Hle|Hgt]; [|lia].
    apply (count_upto_position (group x) l Hs _ b Hj) in Hle. fold c in Hle. lia. }
  apply sorted_app. split; [exact H1|]. split.
  - constructor; [exact H2|]. rewrite Forall_forall. exact Hafter.
  - intros a b Ha [<-|Hb]; [apply Hbefore; exact Ha|apply H12; assumption].
Qed.

(** *** The pointers of the groups *)

Lemma loop_counts es :
  sorted_by_group es ->
  forall gs group_itr k cg,
    nth_error (update_group_iterators_loop es
                 (count_upto (Z.of_nat group_itr - 1) es) group_itr gs) k = Some cg ->
    first cg = Some (Z.of_nat (count_upto (Z.of_nat (group_itr + k) - 1) es)) /\
    last cg = Some (Z.of_nat (count_upto (Z.of_nat (group_itr + k)) es)).
Proof.
  intros Hs. induction gs as [|g gs IH]; intros group_itr k cg Hk;
    [destruct k; discriminate|].
  cbn [update_group_iterators_loop] in Hk.
  rewrite (find_if_from_count (Z.of_nat group_itr) es _ Hs) in Hk
    by (apply count_upto_mono; lia).
  destruct k as [|k]; simpl in Hk.
  - inversion Hk. subst cg. cbn [first last]. rewrite Nat.add_0_r. split; reflexivity.
  - replace (count_upto (Z.of_nat group_itr) es)
      with (count_upto (Z.of_nat (S group_itr) - 1) es) in Hk by (f_equal; lia).
    apply IH in Hk. replace (group_itr + S k)%nat with (S group_itr + k)%nat by lia.
    exact Hk.
Qed.

Lemma validate_counts es :
  sorted_by_group es ->
  forall gs group_itr,
    (forall k cg,
       nth_error gs k = Some cg ->
       first cg = Some (Z.of_nat (count_upto (Z.of_nat (group_itr + k) - 1) es)) /\
       last cg = Some (Z.of_nat (count_upto (Z.of_nat (group_itr + k)) es))) ->
    validate_loop es (count_upto (Z.of_nat group_itr - 1) es) group_itr gs = None.
Proof.
  intros Hs. induction gs as [|g gs IH]; intros group_itr Hgs; [reflexivity|].
  cbn [validate_loop].
  destruct (Hgs O g eq_refl) as (Hfirst & Hlast).
  rewrite Nat.add_0_r in Hfirst, Hlast.
  rewrite Hfirst. cbn [ptr_eqb]. rewrite Z.eqb_refl. cbn [negb].
  rewrite (find_if_from_count (Z.of_nat group_itr) es _ Hs)
    by (apply count_upto_mono; lia).
  rewrite Hlast. cbn [ptr_eqb]. rewrite Z.eqb_refl. cbn [negb].
  replace (count_upto (Z.of_nat group_itr) es)
    with (count_upto (Z.of_nat (S group_itr) - 1) es) by (f_equal; lia).
  apply IH. intros k cg Hk.
  replace (S group_itr + k)%nat with (group_itr + S k)%nat by lia.
  apply Hgs. exact Hk.
Qed.

Lemma count_upto_below_zero rm :
  consistent rm -> count_upto (Z.of_nat 0 - 1) (entries rm) = O.
Proof.
  intros (_ & Hexist & _). apply count_upto_none.
  intros e He. specialize (Hexist e He). lia.
Qed.

Lemma consistent_validates rm :
  consistent rm -> entries rm <> [] ->
  validate_group_iterators rm = (Return tt, rm).
Proof.
  intros Hc Hne. pose proof (count_upto_below_zero rm Hc) as Hzero.
  destruct Hc as (Hs & Hexist & Hptr).
  pose proof (validate_counts (entries rm) Hs (groups rm) O (Hptr Hne)) as Hloop.
  rewrite Hzero in Hloop.
  unfold validate_group_iterators.
  destruct (entries rm) as [|e0 es] eqn:Hes; [contradiction|].
  rewrite Hloop. reflexivity.
Qed.

Lemma consistent_delimits rm :
  consistent rm -> entries rm <> [] -> group_invariant rm.
Proof.
  intros (Hs & Hexist & Hptr) Hne g cg Hg.
  destruct (Hptr Hne g cg Hg) as (Hfirst & Hlast).
  unfold delimits. destruct (entries rm) as [|e0 es] eqn:Hes; [contradiction|].
  exists (count_upto (Z.of_nat g - 1) (e0 :: es)), (count_upto (Z.of_nat g) (e0 :: es)).
  split; [exact Hfirst|]. split; [exact Hlast|]. split.
  - split; [apply count_upto_mono; lia|apply count_upto_le_length].
  - intros i e He.
    pose proof (count_upto_position (Z.of_nat g) _ Hs i e He) as Hhi.
    pose proof (count_upto_position (Z.of_nat g - 1) _ Hs i e He) as Hlo.
    split.
    + intros Hge. split.
      * destruct (Nat.le_gt_cases (count_upto (Z.of_nat g - 1) (e0 :: es)) i) as [H|H];
          [exact H|]. apply Hlo in H. lia.
      * apply Hhi. lia.
    + intros (Hlow & Hhigh). apply Hhi in Hhigh.
      destruct (Z.le_gt_cases (group e) (Z.of_nat g - 1)) as [H|H]; [|lia].
      apply Hlo in H. lia.
Qed.

(** *** The operations keep the layout *)

Lemma length_for_each_range {A} (f : A -> A) lo hi :
  forall l pos, length (for_each_range f lo hi pos l) = length l.
Proof. induction l as [|x l IH]; intros pos; simpl; [reflexivity|]. now rewrite IH. Qed.

Lemma length_update_at {A} (f : A -> A) i (l : list A) :
  length (update_at f i l) = length l.
Proof. apply length_for_each_range. Qed.

Lemma push_group_consistent nm rm rm' :
  consistent rm -> push_group nm rm = (Return tt, rm') -> consistent rm'.
Proof.
  intros (Hs & Hexist & Hptr) Hrun.
  unfold push_group, bind, get in Hrun.
  destruct (String.eqb nm EmptyString || existsb _ (groups rm))%bool; [discriminate|].
  cbn [set_groups modify groups entries] in Hrun.
  destruct (Nat.eqb_spec (length (entries rm)) 0) as [Hempty|Hne];
    cbn [negb ret set_groups modify bind groups entries] in Hrun;
    inversion Hrun; subst rm'; clear Hrun; unfold consistent; cbn [entries groups].
  - split; [exact Hs|]. split.
    + intros e He. destruct (entries rm); [destruct He|discriminate Hempty].
    + intros Hne. destruct (entries rm); [contradiction|discriminate Hempty].
  - split; [exact Hs|]. split.
    + intros e He. rewrite !length_update_at, length_app. simpl.
      specialize (Hexist e He). lia.
    + intros Hne' g cg Hg.
      rewrite !nth_error_update_at in Hg.
      destruct (Nat.eqb_spec g (length (groups rm))) as [->|Hg'].
      * rewrite nth_error_app2 in Hg by lia. rewrite Nat.sub_diag in Hg.
        simpl in Hg. inversion Hg. subst cg. cbn [first last set_last set_first set_name].
        rewrite !count_upto_all; [split; reflexivity| |];
          intros e He; specialize (Hexist e He); lia.
      * destruct (Nat.lt_ge_cases g (length (groups rm))) as [Hlt|Hge].
        -- rewrite nth_error_app1 in Hg by exact Hlt. apply (Hptr Hne' g cg Hg).
        -- rewrite nth_error_app2 in Hg by exact Hge.
           destruct (g - length (groups rm))%nat as [|k] eqn:Hk; [lia|].
           destruct k; discriminate Hg.
Qed.

Lemma insert_consistent entry rm itr rm' :
  consistent rm -> 0 <= group entry ->
  insert entry rm = (Return itr, rm') -> consistent rm'.
Proof.
  intros (Hs & Hexist & Hptr) Hgroup Hrun.
  unfold insert, bind, get, choke_base_at, group_at in Hrun.
  cbn [set_entries set_choke_group update_group_iterators move_connections set_groups
       modify bind get groups entries] in Hrun.
  destruct (Z.leb_spec (Z.of_nat (length (groups rm))) (group entry)) as [|Hlt];
    [discriminate|].
  unfold update_group_iterators, bind, get in Hrun.
  cbn [set_groups modify groups entries] in Hrun.
  rewrite length_map_groups in Hrun.
  destruct (Z.leb_spec (Z.of_nat (length (groups rm))) (group entry)) as [|_]; [lia|].
  cbn [move_connections modify groups] in Hrun.
  rewrite length_map_groups in Hrun.
  destruct (Z.leb_spec (Z.of_nat (length (groups rm))) (group entry)) as [|_]; [lia|].
  cbn [move_connections modify ret] in Hrun.
  inversion Hrun. subst. clear Hrun. unfold consistent. cbn [entries groups].
  set (es' := vector_insert (find_group_end (group entry) (entries rm)) entry (entries rm)).
  assert (sorted_by_group es') as Hs' by (apply sorted_insert_at_group_end; exact Hs).
  assert (forall e, In e es' -> 0 <= group e < Z.of_nat (length (groups rm))) as Hexist'.
  { intros e He. apply In_vector_insert in He. destruct He as [->|He]; [lia|].
    apply Hexist. exact He. }
  split; [exact Hs'|]. split.
  - intros e He. rewrite length_map_groups. apply Hexist'. exact He.
  - intros _ g cg Hg.
    assert (count_upto (Z.of_nat 0 - 1) es' = O) as Hzero.
    { apply count_upto_none. intros e He. specialize (Hexist' e He). lia. }
    rewrite <- Hzero in Hg at 1.
    apply (loop_counts es' Hs') in Hg. exact Hg.
Qed.

Lemma length_vector_erase {A} (l : list A) i e :
  nth_error l i = Some e -> length (vector_erase i l) = (length l - 1)%nat.
Proof.
  intros He. rewrite (nth_error_split_at l i e He) at 2.
  unfold vector_erase. rewrite !length_app. simpl. lia.
Qed.

Lemma erase_consistent d rm rm' :
  consistent rm -> erase d rm = (Return tt, rm') -> consistent rm'.
Proof.
  intros (Hs & Hexist & Hptr) Hrun.
  unfold erase, bind, get in Hrun.
  destruct (nth_error (entries rm) (find d rm)) as [e|] eqn:He; [|discriminate].
  assert (entries rm <> []) as Hne
      by (intros H; rewrite H in He; destruct (find d rm); discriminate).
  pose proof (Hexist e (nth_error_In _ _ He)) as Hgroup.
  pose proof (length_vector_erase _ _ _ He) as Hlen.
  unfold group_at in Hrun.
  destruct (Z.leb_spec (Z.of_nat (length (groups rm))) (group e)) as [|_]; [lia|].
  cbn [move_connections modify groups] in Hrun.
  destruct (Z.leb_spec (Z.of_nat (length (groups rm))) (group e)) as [|_]; [lia|].
  cbn [move_connections modify groups entries] in Hrun.
  assert (forall x, In x (vector_erase (find d rm) (entries rm)) ->
                    0 <= group x < Z.of_nat (length (groups rm))) as Hexist'
      by (intros x Hx; apply Hexist; eapply In_vector_erase; exact Hx).
  destruct (Nat.eqb_spec (length (entries rm)) 1) as [Hone|Hmore];
    cbn [set_groups set_entries modify groups entries] in Hrun;
    inversion Hrun; subst rm'; clear Hrun; unfold consistent; cbn [entries groups].
  - (* the last entry goes *)
    split; [apply sorted_erase; exact Hs|]. split.
    + intros x Hx. rewrite length_for_each_range. apply Hexist'. exact Hx.
    + intros Hne'. exfalso. apply Hne'. apply length_zero_iff_nil. lia.
  - split; [apply sorted_erase; exact Hs|]. split.
    + intros x Hx. rewrite length_for_each_range, length_update_at.
      apply Hexist'. exact Hx.
    + intros _ g cg Hg.
      rewrite nth_error_for_each_range, nth_error_update_at in Hg.
      destruct (nth_error (groups rm) g) as [cg0|] eqn:Hg0;
        [|destruct (g =? _)%nat; discriminate Hg].
      destruct (Hptr Hne g cg0 Hg0) as (Hfirst & Hlast).
      assert (g < length (groups rm))%nat as Hglt
          by (apply nth_error_Some; rewrite Hg0; discriminate).
      pose proof (count_upto_erase (Z.of_nat g) _ _ _ He) as Hhi.
      pose proof (count_upto_erase (Z.of_nat g - 1) _ _ _ He) as Hlo.
      destruct (Z.leb_spec (group e) (Z.of_nat g)) in Hhi;
        destruct (Z.leb_spec (group e) (Z.of_nat g - 1)) in Hlo;
        destruct (Nat.eqb_spec g (Z.to_nat (group e)));
        destruct (Nat.leb_spec (S (Z.to_nat (group e))) (0 + g));
        destruct (Nat.ltb_spec (0 + g) (length (groups rm)));
        try lia;
        simpl in Hg; inversion Hg; subst cg;
        cbn [first last dec_iterators set_last ptr_add];
        rewrite ?Hfirst, ?Hlast; cbn [ptr_add]; split; f_equal; lia.
Qed.

Lemma to_uint16_range v : 0 <= to_uint16 v < 2 ^ 16.
Proof. unfold to_uint16. apply Z.mod_pos_bound. lia. Qed.

Lemma set_group_consistent itr grp rm rm' :
  consistent rm -> set_group itr grp rm = (Return tt, rm') -> consistent rm'.
Proof.
  intros Hc Hrun. pose proof Hc as (Hs & Hexist & Hptr).
  unfold set_group, bind, get in Hrun.
  pose proof (to_uint16_range grp) as Hgrp. set (dest := to_uint16 grp) in *.
  destruct (nth_error (entries rm) itr) as [e|] eqn:He; [|discriminate].
  assert (entries rm <> []) as Hne
      by (intros H; rewrite H in He; destruct itr; discriminate).
  pose proof (Hexist e (nth_error_In _ _ He)) as Hgroup.
  destruct (Z.eqb_spec (group e) dest) as [Hsame|Hother].
  { inversion Hrun. subst rm'. exact Hc. }
  destruct (Z.leb_spec (Z.of_nat (length (groups rm))) dest) as [|Hdest]; [discriminate|].
  cbn [move_connections set_choke_group set_entries modify groups entries
       set_entry_group group download] in Hrun.
  set (es1 := vector_erase itr (entries rm)) in *.
  set (e' := {| download := download e; group := dest; priority := priority e |}) in *.
  set (es' := vector_insert (find_group_end dest es1) e' es1) in *.
  assert (sorted_by_group es') as Hs'.
  { apply (sorted_insert_at_group_end es1 e'). apply sorted_erase. exact Hs. }
  assert (forall x, In x es' -> 0 <= group x < Z.of_nat (length (groups rm))) as Hexist'.
  { intros x Hx. apply In_vector_insert in Hx. destruct Hx as [->|Hx]; [simpl; lia|].
    apply Hexist. eapply In_vector_erase. exact Hx. }
  assert (es' <> []) as Hne'.
  { unfold es', vector_insert. destruct (firstn _ es1); discriminate. }
  assert (forall x, (count_upto x (entries rm) + (if Z.leb dest x then 1 else 0)
                     = count_upto x es' + (if Z.leb (group e) x then 1 else 0))%nat)
    as Hcount.
  { intros x. unfold es'. rewrite count_upto_insert.
    rewrite (count_upto_erase x _ _ _ He). fold es1. cbn [group e']. lia. }
  destruct (Nat.ltb_spec (Z.to_nat dest) (Z.to_nat (group e))) as [Hdown|Hup];
    cbn [set_groups modify groups entries] in Hrun;
    inversion Hrun; subst rm'; clear Hrun; unfold consistent; cbn [entries groups];
    (split; [exact Hs'|]); (split;
      [intros x Hx; rewrite !length_update_at, length_for_each_range, length_update_at;
       apply Hexist'; exact Hx|]);
    intros _ g cg Hg;
    rewrite nth_error_update_at, nth_error_for_each_range, nth_error_update_at in Hg;
    (destruct (nth_error (groups rm) g) as [cg0|] eqn:Hg0;
      [|destruct (g =? _)%nat; destruct (g =? _)%nat; discriminate Hg]);
    destruct (Hptr Hne g cg0 Hg0) as (Hfirst & Hlast);
    pose proof (Hcount (Z.of_nat g)) as Hhi;
    pose proof (Hcount (Z.of_nat g - 1)) as Hlo;
    destruct (Z.leb_spec (group e) (Z.of_nat g)) in Hhi;
    destruct (Z.leb_spec dest (Z.of_nat g)) in Hhi;
    destruct (Z.leb_spec (group e) (Z.of_nat g - 1)) in Hlo;
    destruct (Z.leb_spec dest (Z.of_nat g - 1)) in Hlo;
    try lia;
    destruct (Nat.eqb_spec g (Z.to_nat (group e)));
    destruct (Nat.eqb_spec g (Z.to_nat dest));
    try lia;
    match type of Hg with
    | context [(?a <=? ?b)%nat && (?c <? ?d)%nat] =>
        destruct (Nat.leb_spec a b); destruct (Nat.ltb_spec c d)
    end;
    try lia;
    simpl in Hg; inversion Hg; subst cg;
    cbn [first last inc_iterators dec_iterators set_first set_last ptr_add];
    rewrite ?Hfirst, ?Hlast; cbn [ptr_add];
    change (vector_insert (find_group_end dest es1) (set_entry_group dest e) es1)
      with es';
    split; f_equal; lia.
Qed.

Lemma run_consistent op rm rm' :
  consistent rm -> uint16_groups op -> run op rm = (Return tt, rm') -> consistent rm'.
Proof.
  intros Hc Hop Hrun. destruct op as [nm|entry|d|itr grp]; cbn [run] in Hrun.
  - exact (push_group_consistent nm rm rm' Hc Hrun).
  - unfold bind in Hrun.
    destruct (insert entry rm) as [[itr|err] rm1] eqn:Hins; [|discriminate].
    inversion Hrun. subst rm1.
    apply (insert_consistent entry rm itr rm' Hc); [apply Hop|exact Hins].
  - exact (erase_consistent d rm rm' Hc Hrun).
  - exact (set_group_consistent itr grp rm rm' Hc Hrun).
Qed.

Lemma consistent_empty : consistent empty.
Proof.
  split; [constructor|]. split.
  - intros e [].
  - intros H. contradiction.
Qed.

Lemma run_all_consistent ops :
  forall rm rm',
    consistent rm -> Forall uint16_groups ops ->
    run_all ops rm = (Return tt, rm') -> consistent rm'.
Proof.
  induction ops as [|op ops IH]; intros rm rm' Hc Hops Hrun.
  - inversion Hrun. subst. exact Hc.
  - inversion Hops as [|? ? Hop Hrest]. subst.
    cbn [run_all] in Hrun. unfold bind in Hrun.
    destruct (run op rm) as [[[]|e] rm1] eqn:Hstep; [|discriminate].
    apply (IH rm1 rm'); [|exact Hrest|exact Hrun].
    exact (run_consistent op rm rm1 Hc Hop Hstep).
Qed.

(** *** The names of the groups *)

Lemma map_name_for_each_range (f : choke_group -> choke_group) lo hi :
  (forall g, name (f g) = name g) ->
  forall l pos, map name (for_each_range f lo hi pos l) = map name l.
Proof.
  intros Hf. induction l as [|x l IH]; intros pos; simpl; [reflexivity|].
  rewrite IH. destruct (_ && _); [rewrite Hf|]; reflexivity.
Qed.

Lemma map_name_update_at (f : choke_group -> choke_group) i l :
  (forall g, name (f g) = name g) -> map name (update_at f i l) = map name l.
Proof. intros Hf. apply map_name_for_each_range. exact Hf. Qed.

Lemma map_name_loop es :
  forall gs entry_itr group_itr,
    map name (update_group_iterators_loop es entry_itr group_itr gs) = map name gs.
Proof.
  induction gs as [|g gs IH]; intros; simpl; [reflexivity|]. now rewrite IH.
Qed.

Lemma for_each_range_last {A} (f : A -> A) (x : A) :
  forall l pos,
    for_each_range f (pos + length l) (S (pos + length l)) pos (l ++ [x])
    = l ++ [f x].
Proof.
  induction l as [|y l IH]; intros pos; simpl.
  - rewrite Nat.add_0_r.
    destruct (Nat.leb_spec pos pos); [|lia].
    destruct (Nat.ltb_spec pos (S pos)); [|lia]. reflexivity.
  - destruct (Nat.leb_spec (pos + S (length l)) pos); [lia|]. simpl.
    replace (pos + S (length l))%nat with (S pos + length l)%nat by lia.
    rewrite IH. reflexivity.
Qed.

Lemma update_at_last {A} (f : A -> A) (l : list A) x :
  update_at f (length l) (l ++ [x]) = l ++ [f x].
Proof. unfold update_at. apply (for_each_range_last f x l O). Qed.

Lemma find_if_map {A B} (f : A -> B) (p : B -> bool) (l : list A) :
  find_if (fun x => p (f x)) l = find_if p (map f l).
Proof. induction l as [|x l IH]; simpl; [reflexivity|]. now rewrite IH. Qed.

Lemma find_if_app_found {A} (p : A -> bool) (l1 l2 : list A) :
  (find_if p l1 < length l1)%nat -> find_if p (l1 ++ l2) = find_if p l1.
Proof.
  induction l1 as [|x l1 IH]; simpl; intros H; [lia|].
  destruct (p x); [reflexivity|]. f_equal. apply IH. lia.
Qed.

Lemma find_if_app_absent {A} (p : A -> bool) (l1 l2 : list A) :
  find_if p l1 = length l1 -> find_if p (l1 ++ l2) = (length l1 + find_if p l2)%nat.
Proof.
  induction l1 as [|x l1 IH]; simpl; intros H; [reflexivity|].
  destruct (p x); [discriminate|]. f_equal. apply IH. lia.
Qed.

(** What [push_group] leaves when it returns. *)
Lemma push_group_returns nm rm :
  nm <> EmptyString -> ~ In nm (map name (groups rm)) ->
  exists rm',
    push_group nm rm = (Return tt, rm') /\
    map name (groups rm') = map name (groups rm) ++ [nm] /\
    entries rm' = entries rm.
Proof.
  intros Hnm Hnew.
  unfold push_group, bind, get.
  destruct (String.eqb_spec nm EmptyString) as [|_]; [contradiction|].
  destruct (existsb (fun g => String.eqb nm (name g)) (groups rm)) eqn:Hex.
  { apply existsb_exists in Hex. destruct Hex as (g & Hg & Heq).
    apply String.eqb_eq in Heq. exfalso. apply Hnew. apply in_map_iff.
    exists g. split; [symmetry; exact Heq|exact Hg]. }
  cbn [orb set_groups modify groups entries].
  rewrite update_at_last.
  destruct (negb _); cbn [ret set_groups modify bind groups entries];
    eexists; (split; [reflexivity|]); cbn [groups entries]; (split; [|reflexivity]);
    rewrite ?map_name_update_at by reflexivity;
    rewrite map_app; reflexivity.
Qed.

Lemma push_group_refuses nm rm :
  nm = EmptyString \/ In nm (map name (groups rm)) ->
  push_group nm rm = (Throw (input_error "Duplicate name for choke group."), rm).
Proof.
  intros Hbad. unfold push_group, bind, get.
  assert ((String.eqb nm EmptyString
           || existsb (fun g => String.eqb nm (name g)) (groups rm))%bool = true) as ->;
    [|reflexivity].
  destruct Hbad as [->|Hin]; [reflexivity|].
  apply orb_true_iff. right. apply existsb_exists.
  apply in_map_iff in Hin. destruct Hin as (g & Hname & Hg).
  exists g. split; [exact Hg|]. rewrite Hname. apply String.eqb_refl.
Qed.

Lemma push_group_inv nm rm rm' :
  push_group nm rm = (Return tt, rm') ->
  nm <> EmptyString /\ ~ In nm (map name (groups rm)).
Proof.
  intros Hrun.
  destruct (String.eqb_spec nm EmptyString) as [Hempty|Hnm].
  { rewrite push_group_refuses in Hrun by (left; exact Hempty). discriminate. }
  split; [exact Hnm|]. intros Hin.
  rewrite push_group_refuses in Hrun by (right; exact Hin). discriminate.
Qed.

Lemma run_names op rm rm' :
  run op rm = (Return tt, rm') ->
  map name (groups rm') = map name (groups rm) \/
  exists nm, nm <> EmptyString /\ ~ In nm (map name (groups rm)) /\
             map name (groups rm') = map name (groups rm) ++ [nm].
Proof.
  intros Hrun. destruct op as [nm|entry|d|itr grp]; cbn [run] in Hrun.
  - right. exists nm. destruct (push_group_inv nm rm rm' Hrun) as (Hnm & Hnew).
    destruct (push_group_returns nm rm Hnm Hnew) as (rm1 & Hrun1 & Hnames & _).
    rewrite Hrun1 in Hrun. inversion Hrun. subst rm1.
    split; [exact Hnm|]. split; [exact Hnew|exact Hnames].
  - left. unfold bind in Hrun.
    destruct (insert entry rm) as [[itr|err] rm1] eqn:Hins; [|discriminate].
    inversion Hrun. subst rm1. clear Hrun.
    unfold insert, bind, get, choke_base_at, group_at in Hins.
    cbn [set_entries set_choke_group update_group_iterators move_connections set_groups
         modify bind get groups entries] in Hins.
    destruct (Z.leb_spec (Z.of_nat (length (groups rm))) (group entry)) as [|Hlt];
      [discriminate|].
    unfold update_group_iterators, bind, get in Hins.
    cbn [set_groups modify groups entries] in Hins.
    rewrite length_map_groups in Hins.
    destruct (Z.leb_spec (Z.of_nat (length (groups rm))) (group entry)) as [|_]; [lia|].
    cbn [move_connections modify groups] in Hins.
    rewrite length_map_groups in Hins.
    destruct (Z.leb_spec (Z.of_nat (length (groups rm))) (group entry)) as [|_]; [lia|].
    cbn [move_connections modify ret] in Hins.
    inversion Hins. cbn [groups]. apply map_name_loop.
  - left. unfold erase, bind, get in Hrun.
    destruct (nth_error (entries rm) (find d rm)) as [e|]; [|discriminate].
    unfold group_at in Hrun.
    destruct (Z.of_nat (length (groups rm)) <=? group e); [discriminate|].
    cbn [move_connections modify groups] in Hrun.
    destruct (Z.of_nat (length (groups rm)) <=? group e); [discriminate|].
    cbn [move_connections modify groups entries] in Hrun.
    destruct (length (entries rm) =? 1)%nat;
      cbn [set_groups set_entries modify groups entries] in Hrun;
      inversion Hrun; cbn [groups];
      rewrite ?map_name_for_each_range, ?map_name_update_at by reflexivity;
      reflexivity.
  - left. unfold set_group, bind, get in Hrun.
    destruct (nth_error (entries rm) itr) as [e|]; [|discriminate].
    destruct (group e =? to_uint16 grp).
    { inversion Hrun. reflexivity. }
    destruct (Z.of_nat (length (groups rm)) <=? to_uint16 grp); [discriminate|].
    cbn [move_connections set_choke_group set_entries modify groups entries
         set_entry_group group download] in Hrun.
    destruct (Z.to_nat (to_uint16 grp) <? Z.to_nat (group e))%nat;
      cbn [set_groups modify groups entries] in Hrun;
      inversion Hrun; cbn [groups];
      rewrite ?map_name_update_at, ?map_name_for_each_range, ?map_name_update_at
        by reflexivity;
      reflexivity.
Qed.

Lemma reachable_names rm :
  reachable rm ->
  NoDup (map name (groups rm)) /\ ~ In EmptyString (map name (groups rm)).
Proof.
  induction 1 as [|rm op rm' Hr (Hnd & Hne) Hrun].
  - split; [constructor|intros []].
  - destruct (run_names op rm rm' Hrun) as [->|(nm & Hnm & Hnew & ->)].
    + split; assumption.
    + split.
      * apply NoDup_app; [exact Hnd|repeat constructor; intros []|].
        intros x Hx [<-|[]]. exact (Hnew Hx).
      * intros Hin. apply in_app_or in Hin. destruct Hin as [Hin|[Hin|[]]];
          [exact (Hne Hin)|]. apply Hnm. exact Hin.
Qed.

Lemma group_index_of_pushed nm rm rm' :
  push_group nm rm = (Return tt, rm') ->
  group_index_of nm rm' = (Return (Z.of_nat (length (groups rm))), rm') /\
  forall nm', nm' <> nm ->
    fst (group_index_of nm' rm') = fst (group_index_of nm' rm).
Proof.
  intros Hrun. destruct (push_group_inv nm rm rm' Hrun) as (Hnm & Hnew).
  destruct (push_group_returns nm rm Hnm Hnew) as (rm1 & Hrun1 & Hnames & _).
  rewrite Hrun1 in Hrun. inversion Hrun. subst rm1. clear Hrun Hrun1.
  assert (length (groups rm') = S (length (groups rm))) as Hlen.
  { rewrite <- (length_map name (groups rm')), Hnames, length_app, length_map.
    simpl. lia. }
  assert (forall x, find_if (fun g => String.eqb x (name g)) (groups rm')
                    = find_if (String.eqb x) (map name (groups rm) ++ [nm])) as Hfind.
  { intros x. rewrite (find_if_map name (String.eqb x)), Hnames. reflexivity. }
  split.
  - assert (find_if (String.eqb nm) (map name (groups rm))
            = length (map name (groups rm))) as Habsent.
    { apply find_if_none. intros x Hx. apply String.eqb_neq. intros ->. exact (Hnew Hx). }
    unfold group_index_of. rewrite Hfind, Hlen.
    rewrite (find_if_app_last _ _ _ Habsent (String.eqb_refl nm)), length_map.
    destruct (Nat.eqb_spec (length (groups rm)) (S (length (groups rm)))); [lia|].
    reflexivity.
  - intros nm' Hother. unfold group_index_of. rewrite Hfind, Hlen.
    rewrite (find_if_map name (String.eqb nm')).
    destruct (find_if_first (String.eqb nm') (map name (groups rm))) as (Hle & _).
    rewrite length_map in Hle.
    destruct (Nat.eqb_spec (find_if (String.eqb nm') (map name (groups rm)))
                (length (groups rm))) as [Habsent|Hfound].
    + rewrite find_if_app_absent by (rewrite length_map; exact Habsent).
      rewrite length_map. simpl.
      destruct (String.eqb_spec nm' nm) as [|_]; [contradiction|].
      destruct (Nat.eqb_spec (length (groups rm) + 1) (S (length (groups rm)))); [|lia].
      reflexivity.
    + rewrite find_if_app_found by (rewrite length_map; lia).
      destruct (Nat.eqb_spec (find_if (String.eqb nm') (map name (groups rm)))
                  (S (length (groups rm)))); [lia|].
      reflexivity.
Qed.

(** *** Priorities *)

Lemma find_if_for_each_range {A} (p : A -> bool) (f : A -> A) lo hi :
  (forall x, p (f x) = p x) ->
  forall l pos, find_if p (for_each_range f lo hi pos l) = find_if p l.
Proof.
  intros Hf. induction l as [|x l IH]; intros pos; simpl; [reflexivity|].
  rewrite IH. destruct (_ && _); [rewrite Hf|]; reflexivity.
Qed.

Lemma map_for_each_range {A B} (h : A -> B) (f : A -> A) lo hi :
  (forall x, h (f x) = h x) ->
  forall l pos, map h (for_each_range f lo hi pos l) = map h l.
Proof.
  intros Hf. induction l as [|x l IH]; intros pos; simpl; [reflexivity|].
  rewrite IH. destruct (_ && _); [rewrite Hf|]; reflexivity.
Qed.

Lemma download_priority_round_trip d pri rm :
  In d (map download (entries rm)) -> 0 <= pri <= 1024 ->
  exists rm',
    download_set_priority d pri rm = (Return tt, rm') /\
    download_priority d rm' = (Return pri, rm') /\
    groups rm' = groups rm /\
    map download (entries rm') = map download (entries rm) /\
    map group (entries rm') = map group (entries rm) /\
    forall d', d' <> d ->
      fst (download_priority d' rm') = fst (download_priority d' rm).
Proof.
  intros Hin Hpri.
  assert (find d rm < length (entries rm))%nat as Hfound.
  { apply in_map_iff in Hin. destruct Hin as (e & He & Hin).
    unfold find. apply (find_if_found _ _ e Hin). rewrite He. apply Z.eqb_refl. }
  destruct (nth_error (entries rm) (find d rm)) as [e|] eqn:He;
    [|apply nth_error_None in He; lia].
  assert (to_uint32 pri = pri) as H32 by (unfold to_uint32; apply Z.mod_small; lia).
  assert (to_uint16 pri = pri) as H16 by (unfold to_uint16; apply Z.mod_small; lia).
  unfold download_set_priority, bind, get. rewrite H32.
  destruct (Nat.eqb_spec (find d rm) (length (entries rm))) as [|_]; [lia|].
  destruct (Z.ltb_spec 1024 pri) as [|_]; [lia|].
  unfold set_priority, bind, get. rewrite He, H16.
  cbn [set_entries modify].
  eexists. split; [reflexivity|].
  cbn [groups entries].
  assert (forall x, find x
            {| entries := update_at (set_entry_priority pri) (find d rm) (entries rm);
               groups := groups rm; choke_group_of := choke_group_of rm;
               moved := moved rm |} = find x rm) as Hfind.
  { intros x. unfold find. cbn [entries]. apply find_if_for_each_range. reflexivity. }
  split; [|split; [reflexivity|split; [|split]]].
  - unfold download_priority, bind, get. rewrite Hfind. cbn [entries].
    rewrite nth_error_update_at, Nat.eqb_refl, He. reflexivity.
  - apply map_for_each_range. reflexivity.
  - apply map_for_each_range. reflexivity.
  - intros d' Hother. unfold download_priority, bind, get. rewrite Hfind. cbn [entries].
    rewrite nth_error_update_at.
    destruct (Nat.eqb_spec (find d' rm) (find d rm)) as [Heq|_];
      [|destruct (nth_error (entries rm) (find d' rm)); reflexivity].
    exfalso. rewrite <- Heq in He.
    destruct (find_if_first (fun x => d' =? download x) (entries rm)) as (_ & _ & Hat').
    destruct (find_if_first (fun x => d =? download x) (entries rm)) as (_ & _ & Hat).
    unfold find in He, Heq. specialize (Hat' e He). rewrite Heq in He.
    specialize (Hat e He). lia.
Qed.

(** *** The counters of unchoked slots *)

Lemma to_int_small v : 0 <= v < 2 ^ 31 -> to_int v = v.
Proof. intros Hv. unfold to_int. rewrite Z.mod_small by lia. lia. Qed.

Lemma int_result_ok {St} v (s : St) :
  INT_MIN <= v <= INT_MAX -> int_result v s = (Return v, s).
Proof.
  intros Hv. unfold int_result.
  destruct (Z.leb_spec INT_MIN v); [|lia]. destruct (Z.leb_spec v INT_MAX); [|lia].
  reflexivity.
Qed.

Lemma upload_allowance s :
  within_limits s ->
  exists can,
    retrieve_upload_can_unchoke s = (Return can, s) /\ 0 <= can /\
    (forall num,
       - m_currentlyUploadUnchoked s <= num <= can ->
       m_currentlyUploadUnchoked s + num < 2 ^ 31 ->
       exists s',
         receive_upload_unchoke num s = (Return tt, s') /\
         m_currentlyUploadUnchoked s' = m_currentlyUploadUnchoked s + num /\
         within_limits s') /\
    (forall num,
       INT_MIN <= num < - m_currentlyUploadUnchoked s ->
       receive_upload_unchoke num s =
         (Throw (internal_error
            "ResourceManager::receive_upload_unchoke(...) received an invalid value."),
          s)).
Proof.
  intros (Hmu & Hmd & Hcu & Hcd & Hlu & Hld).
  assert (2 ^ 16 = 65536) as H16 by reflexivity.
  assert (2 ^ 31 = 2147483648) as H31 by reflexivity.
  assert (2 ^ 32 = 4294967296) as H32 by reflexivity.
  exists (if m_maxUploadUnchoked s =? 0 then INT_MAX
          else m_maxUploadUnchoked s - m_currentlyUploadUnchoked s).
  split; [|split; [|split]].
  - unfold retrieve_upload_can_unchoke, bind, get.
    destruct (Z.eqb_spec (m_maxUploadUnchoked s) 0) as [|Hne]; [reflexivity|].
    rewrite !to_int_small by lia. apply int_result_ok. unfold INT_MIN, INT_MAX. lia.
  - destruct (Z.eqb_spec (m_maxUploadUnchoked s) 0) as [|Hne];
      [unfold INT_MAX; lia|]. specialize (Hlu Hne). lia.
  - intros num Hnum Hfit.
    unfold receive_upload_unchoke, bind, get.
    rewrite to_int_small by lia.
    rewrite int_result_ok by (unfold INT_MIN, INT_MAX; lia).
    destruct (Z.ltb_spec (m_currentlyUploadUnchoked s + num) 0) as [|_]; [lia|].
    unfold put. eexists. split; [reflexivity|].
    cbn [m_currentlyUploadUnchoked].
    assert (to_uint32 (m_currentlyUploadUnchoked s + num)
            = m_currentlyUploadUnchoked s + num) as ->
        by (unfold to_uint32; apply Z.mod_small; lia).
    split; [reflexivity|].
    unfold within_limits.
    cbn [m_currentlyUploadUnchoked m_currentlyDownloadUnchoked m_maxUploadUnchoked
         m_maxDownloadUnchoked].
    repeat split; try lia; try (apply Hld; assumption).
    intros Hne. destruct (Z.eqb_spec (m_maxUploadUnchoked s) 0); [contradiction|]. lia.
  - intros num Hnum.
    unfold receive_upload_unchoke, bind, get.
    rewrite to_int_small by lia.
    rewrite int_result_ok by (unfold INT_MIN, INT_MAX in *; lia).
    destruct (Z.ltb_spec (m_currentlyUploadUnchoked s + num) 0) as [_|]; [|lia].
    reflexivity.
Qed.

Lemma download_allowance s :
  within_limits s ->
  exists can,
    retrieve_download_can_unchoke s = (Return can, s) /\ 0 <= can /\
    (forall num,
       - m_currentlyDownloadUnchoked s <= num <= can ->
       m_currentlyDownloadUnchoked s + num < 2 ^ 31 ->
       exists s',
         receive_download_unchoke num s = (Return tt, s') /\
         m_currentlyDownloadUnchoked s' = m_currentlyDownloadUnchoked s + num /\
         within_limits s') /\
    (forall num,
       INT_MIN <= num < - m_currentlyDownloadUnchoked s ->
       receive_download_unchoke num s =
         (Throw (internal_error
            "ResourceManager::receive_download_unchoke(...) received an invalid value."),
          s)).
Proof.
  intros (Hmu & Hmd & Hcu & Hcd & Hlu & Hld).
  assert (2 ^ 16 = 65536) as H16 by reflexivity.
  assert (2 ^ 31 = 2147483648) as H31 by reflexivity.
  assert (2 ^ 32 = 4294967296) as H32 by reflexivity.
  exists (if m_maxDownloadUnchoked s =? 0 then INT_MAX
          else m_maxDownloadUnchoked s - m_currentlyDownloadUnchoked s).
  split; [|split; [|split]].
  - unfold retrieve_download_can_unchoke, bind, get.
    destruct (Z.eqb_spec (m_maxDownloadUnchoked s) 0) as [|Hne]; [reflexivity|].
    rewrite !to_int_small by lia. apply int_result_ok. unfold INT_MIN, INT_MAX. lia.
  - destruct (Z.eqb_spec (m_maxDownloadUnchoked s) 0) as [|Hne];
      [unfold INT_MAX; lia|]. specialize (Hld Hne). lia.
  - intros num Hnum Hfit.
    unfold receive_download_unchoke, bind, get.
    rewrite to_int_small by lia.
    rewrite int_result_ok by (unfold INT_MIN, INT_MAX; lia).
    destruct (Z.ltb_spec (m_currentlyDownloadUnchoked s + num) 0) as [|_]; [lia|].
    unfold put. eexists. split; [reflexivity|].
    cbn [m_currentlyDownloadUnchoked].
    assert (to_uint32 (m_currentlyDownloadUnchoked s + num)
            = m_currentlyDownloadUnchoked s + num) as ->
        by (unfold to_uint32; apply Z.mod_small; lia).
    split; [reflexivity|].
    unfold within_limits.
    cbn [m_currentlyUploadUnchoked m_currentlyDownloadUnchoked m_maxUploadUnchoked
         m_maxDownloadUnchoked].
    repeat split; try lia; try (apply Hlu; assumption).
    intros Hne. destruct (Z.eqb_spec (m_maxDownloadUnchoked s) 0); [contradiction|]. lia.
  - intros num Hnum.
    unfold receive_download_unchoke, bind, get.
    rewrite to_int_small by lia.
    rewrite int_result_ok by (unfold INT_MIN, INT_MAX in *; lia).
    destruct (Z.ltb_spec (m_currentlyDownloadUnchoked s + num) 0) as [_|]; [|lia].
    reflexivity.
Qed.

End ResourceManagerLayout.

(** X7. Every operation on the ResourceManager that returns normally
    ([push_group], [insert] of an entry whose group is a 16-bit value,
    [erase], [set_group]) keeps the layout: the entries stay in the order of
    their groups, every entry is in a group that exists, and, while there is
    an entry, the [first] and [last] of each group are the addresses after
    the entries of the lower groups and after the entries of the groups up
    to it. *)
Theorem operations_keep_the_layout
    (op : ResourceManager.operation) (rm rm' : ResourceManager.t) :
  ResourceManager.consistent rm ->
  ResourceManager.uint16_groups op ->
  ResourceManager.run op rm = (Return tt, rm') ->
  ResourceManager.consistent rm'.
Proof. apply ResourceManagerLayout.run_consistent. Qed.

Lemma operations_keep_the_layout_witness :
  let rm := snd (ResourceManager.run_all (firstn 7 ResourceManager.busy_day)
                   ResourceManager.empty) in
  map ResourceManager.download (ResourceManager.entries rm) = [2; 1; 4; 3] /\
  ResourceManager.consistent rm /\
  ResourceManager.consistent (snd (ResourceManager.run (ResourceManager.op_set_group 1 2) rm)) /\
  ResourceManager.consistent (snd (ResourceManager.run (ResourceManager.op_erase 2) rm)).
Proof.
  intros rm.
  assert (ResourceManager.consistent rm) as Hrm.
  { split; [|split].
    - vm_compute. repeat constructor; discriminate.
    - intros e He. vm_compute in He.
      destruct He as [<-|[<-|[<-|[<-|[]]]]]; vm_compute; split; congruence.
    - intros _ g cg Hcg.
      destruct g as [|[|[|g]]]; vm_compute in Hcg;
        [inversion Hcg; subst cg; split; reflexivity ..|].
      destruct g; discriminate Hcg. }
  split; [reflexivity|]. split; [exact Hrm|]. split.
  - apply (operations_keep_the_layout (ResourceManager.op_set_group 1 2) rm).
    + exact Hrm.
    + exact I.
    + vm_compute. reflexivity.
  - apply (operations_keep_the_layout (ResourceManager.op_erase 2) rm).
    + exact Hrm.
    + exact I.
    + vm_compute. reflexivity.
Defined.

(** X8. After any sequence of these operations on a manager as constructed,
    each returning normally, if a download is left then
    [validate_group_iterators] passes and the [first] and [last] of every
    group delimit exactly the entries of that group. *)
Theorem layout_passes_validation
    (ops : list ResourceManager.operation) (rm : ResourceManager.t) :
  Forall ResourceManager.uint16_groups ops ->
  ResourceManager.run_all ops ResourceManager.empty = (Return tt, rm) ->
  ResourceManager.entries rm <> [] ->
  ResourceManager.validate_group_iterators rm = (Return tt, rm) /\
  ResourceManager.group_invariant rm.
Proof.
  intros Hops Hrun Hne.
  pose proof (ResourceManagerLayout.run_all_consistent ops ResourceManager.empty rm
                ResourceManagerLayout.consistent_empty Hops Hrun) as Hc.
  split.
  - apply ResourceManagerLayout.consistent_validates; assumption.
  - apply ResourceManagerLayout.consistent_delimits; assumption.
Qed.

Lemma layout_passes_validation_witness :
  let rm := snd (ResourceManager.run_all ResourceManager.busy_day ResourceManager.empty) in
  ResourceManager.validate_group_iterators rm = (Return tt, rm) /\
  ResourceManager.group_invariant rm.
Proof.
  apply (layout_passes_validation ResourceManager.busy_day).
  - repeat constructor; cbn; lia.
  - vm_compute. reflexivity.
  - vm_compute. discriminate.
Defined.

(** X9. In every state that operations returning normally lead to from the
    manager as constructed, the names of the choke groups are pairwise
    distinct and none is empty. *)
Theorem group_names_stay_distinct (rm : ResourceManager.t) :
  ResourceManager.reachable rm ->
  NoDup (map ResourceManager.name (ResourceManager.groups rm)) /\
  ~ In EmptyString (map ResourceManager.name (ResourceManager.groups rm)).
Proof. apply ResourceManagerLayout.reachable_names. Qed.

Lemma group_names_stay_distinct_witness :
  let rm := snd (ResourceManager.run_all ResourceManager.busy_day ResourceManager.empty) in
  map ResourceManager.name (ResourceManager.groups rm)
    = ["default"; "seeding"; "slow"; "fast"]%string /\
  NoDup (map ResourceManager.name (ResourceManager.groups rm)) /\
  ~ In EmptyString (map ResourceManager.name (ResourceManager.groups rm)).
Proof.
  intros rm. split; [reflexivity|].
  apply (group_names_stay_distinct rm).
  apply (ResourceManagerFacts.reachable_run_all ResourceManager.busy_day
           ResourceManager.empty rm ResourceManager.reachable_empty).
  vm_compute. reflexivity.
Defined.

(** X10. [push_group] refuses the empty name and a name a group already
    has, with input_error and the manager unchanged. With any other name it
    returns, the entries are untouched, [group_index_of] finds the new name
    at the position after the groups there were, and every other name is
    looked up as before. *)
Theorem push_group_names_a_new_group (nm : string) (rm : ResourceManager.t) :
  (nm = EmptyString \/ In nm (map ResourceManager.name (ResourceManager.groups rm)) ->
   ResourceManager.push_group nm rm =
     (Throw (input_error "Duplicate name for choke group."), rm)) /\
  (nm <> EmptyString ->
   ~ In nm (map ResourceManager.name (ResourceManager.groups rm)) ->
   exists rm',
     ResourceManager.push_group nm rm = (Return tt, rm') /\
     ResourceManager.entries rm' = ResourceManager.entries rm /\
     ResourceManager.group_index_of nm rm' =
       (Return (Z.of_nat (length (ResourceManager.groups rm))), rm') /\
     forall nm', nm' <> nm ->
       fst (ResourceManager.group_index_of nm' rm')
       = fst (ResourceManager.group_index_of nm' rm)).
Proof.
  split.
  - apply ResourceManagerLayout.push_group_refuses.
  - intros Hnm Hnew.
    destruct (ResourceManagerLayout.push_group_returns nm rm Hnm Hnew)
      as (rm' & Hrun & _ & Hentries).
    exists rm'. split; [exact Hrun|]. split; [exact Hentries|].
    apply ResourceManagerLayout.group_index_of_pushed. exact Hrun.
Qed.

Lemma push_group_names_a_new_group_witness :
  exists rm',
    ResourceManager.push_group "seeding" ResourceManager.one_download = (Return tt, rm') /\
    ResourceManager.group_index_of "seeding" rm' = (Return 1, rm').
Proof.
  destruct (proj2 (push_group_names_a_new_group "seeding" ResourceManager.one_download))
    as (rm' & Hrun & _ & Hindex & _).
  - discriminate.
  - cbn. intros [H|[]]. discriminate H.
  - exists rm'. split; [exact Hrun|exact Hindex].
Defined.

(** X11. A priority of at most 1024 set with torrent::download_set_priority
    on a download the manager has is the priority torrent::download_priority
    returns afterwards; the groups, the order and the groups of the entries
    and the priority of every other download are as before. *)
Theorem download_priority_reads_back (d pri : Z) (rm : ResourceManager.t) :
  In d (map ResourceManager.download (ResourceManager.entries rm)) ->
  0 <= pri <= 1024 ->
  exists rm',
    ResourceManager.download_set_priority d pri rm = (Return tt, rm') /\
    ResourceManager.download_priority d rm' = (Return pri, rm') /\
    ResourceManager.groups rm' = ResourceManager.groups rm /\
    map ResourceManager.download (ResourceManager.entries rm')
      = map ResourceManager.download (ResourceManager.entries rm) /\
    map ResourceManager.group (ResourceManager.entries rm')
      = map ResourceManager.group (ResourceManager.entries rm) /\
    forall d', d' <> d ->
      fst (ResourceManager.download_priority d' rm')
      = fst (ResourceManager.download_priority d' rm).
Proof. apply ResourceManagerLayout.download_priority_round_trip. Qed.

Lemma download_priority_reads_back_witness :
  exists rm',
    ResourceManager.download_set_priority 1 1024 ResourceManager.one_download
      = (Return tt, rm') /\
    ResourceManager.download_priority 1 rm' = (Return 1024, rm').
Proof.
  destruct (download_priority_reads_back 1 1024 ResourceManager.one_download)
    as (rm' & Hset & Hget & _).
  - left. reflexivity.
  - lia.
  - exists rm'. split; [exact Hset|exact Hget].
Defined.

(** X12. While the counts of unchoked peers are within the limits that are
    set, [retrieve_upload_can_unchoke] returns an allowance that is not
    negative; an adjustment [num] between minus the count and the allowance
    (and that keeps the count below 2^31 when there is no limit) is
    accepted by [receive_upload_unchoke], the count becomes the count plus
    [num], and the counts are again within the limits; an adjustment below
    minus the count raises internal_error and changes nothing. The same
    holds of the download counters. *)
Theorem unchoke_within_allowance (s : ResourceManager.slots) :
  ResourceManager.within_limits s ->
  (exists can,
     ResourceManager.retrieve_upload_can_unchoke s = (Return can, s) /\ 0 <= can /\
     (forall num,
        - ResourceManager.m_currentlyUploadUnchoked s <= num <= can ->
        ResourceManager.m_currentlyUploadUnchoked s + num < 2 ^ 31 ->
        exists s',
          ResourceManager.receive_upload_unchoke num s = (Return tt, s') /\
          ResourceManager.m_currentlyUploadUnchoked s'
            = ResourceManager.m_currentlyUploadUnchoked s + num /\
          ResourceManager.within_limits s') /\
     (forall num,
        ResourceManager.INT_MIN <= num < - ResourceManager.m_currentlyUploadUnchoked s ->
        ResourceManager.receive_upload_unchoke num s =
          (Throw (internal_error
             "ResourceManager::receive_upload_unchoke(...) received an invalid value."),
           s))) /\
  (exists can,
     ResourceManager.retrieve_download_can_unchoke s = (Return can, s) /\ 0 <= can /\
     (forall num,
        - ResourceManager.m_currentlyDownloadUnchoked s <= num <= can ->
        ResourceManager.m_currentlyDownloadUnchoked s + num < 2 ^ 31 ->
        exists s',
          ResourceManager.receive_download_unchoke num s = (Return tt, s') /\
          ResourceManager.m_currentlyDownloadUnchoked s'
            = ResourceManager.m_currentlyDownloadUnchoked s + num /\
          ResourceManager.within_limits s') /\
     (forall num,
        ResourceManager.INT_MIN <= num < - ResourceManager.m_currentlyDownloadUnchoked s ->
        ResourceManager.receive_download_unchoke num s =
          (Throw (internal_error
             "ResourceManager::receive_download_unchoke(...) received an invalid value."),
           s))).
Proof.
  intros Hs. split.
  - apply ResourceManagerLayout.upload_allowance. exact Hs.
  - apply ResourceManagerLayout.download_allowance. exact Hs.
Qed.

Lemma unchoke_within_allowance_witness :
  ResourceManager.retrieve_upload_can_unchoke ResourceManager.three_of_four
    = (Return 1, ResourceManager.three_of_four) /\
  exists s',
    ResourceManager.receive_upload_unchoke 1 ResourceManager.three_of_four
      = (Return tt, s') /\
    ResourceManager.m_currentlyUploadUnchoked s' = 4.
Proof.
  assert (ResourceManager.within_limits ResourceManager.three_of_four) as Hs
      by (unfold ResourceManager.within_limits; cbn; lia).
  destruct (unchoke_within_allowance ResourceManager.three_of_four Hs)
    as ((can & Hcan & _ & Hgrant & _) & _).
  assert (can = 1) as -> by (cbv in Hcan; congruence).
  split; [exact Hcan|].
  destruct (Hgrant 1) as (s' & Hrun & Hcount & _); [cbn; lia|cbn; lia|].
  exists s'. split; [exact Hrun|exact Hcount].
Defined.

(** ** TrackerList: the groups of the list *)

Module TrackerListGroups.
Import Std StdFacts TrackerList ResourceManagerLayout.

Lemma find_if_app_all_false {A} (p : A -> bool) (l1 l2 : list A) :
  Forall (fun x => p x = false) l1 ->
  find_if p (l1 ++ l2) = (length l1 + find_if p l2)%nat.
Proof.
  induction 1 as [|x l1 Hx _ IH]; simpl; [reflexivity|]. rewrite Hx, IH. reflexivity.
Qed.

Lemma skipn_after {A} (l1 : list A) x l2 : skipn (S (length l1)) (l1 ++ x :: l2) = l2.
Proof. induction l1 as [|y l1 IH]; [reflexivity|exact IH]. Qed.

Lemma firstn_exact {A} (l1 l2 : list A) : firstn (length l1) (l1 ++ l2) = l1.
Proof. rewrite firstn_app, firstn_all, Nat.sub_diag, firstn_O, app_nil_r. reflexivity. Qed.

Lemma skipn_exact {A} (l1 l2 : list A) : skipn (length l1) (l1 ++ l2) = l2.
Proof. rewrite skipn_app, skipn_all, Nat.sub_diag. reflexivity. Qed.

Lemma filter_none {A} (p : A -> bool) (l : list A) :
  Forall (fun x => p x = false) l -> filter p l = [].
Proof. induction 1 as [|x l Hx _ IH]; simpl; [reflexivity|]. now rewrite Hx. Qed.

Lemma filter_all {A} (p : A -> bool) (l : list A) :
  Forall (fun x => p x = true) l -> filter p l = l.
Proof. induction 1 as [|x l Hx _ IH]; simpl; [reflexivity|]. now rewrite Hx, IH. Qed.

(** A list in group order is the trackers of the lower groups, those of the
    group, and those of the higher groups. *)
Lemma group_order_split grp l :
  in_group_order l ->
  exists pre seg post,
    l = pre ++ seg ++ post /\
    Forall (fun t => group t < grp) pre /\
    Forall (fun t => group t = grp) seg /\
    Forall (fun t => grp < group t) post.
Proof.
  induction l as [|x l IH]; intros Hs.
  - exists [], [], []. repeat split; constructor.
  - inversion Hs as [|? ? Hs' Hall]. subst.
    destruct (IH Hs') as (pre & seg & post & -> & Hpre & Hseg & Hpost).
    rewrite Forall_forall in Hall.
    destruct (Z.lt_trichotomy (group x) grp) as [Hlt|[Heq|Hgt]].
    + exists (x :: pre), seg, post. repeat split; try assumption.
      constructor; assumption.
    + destruct pre as [|p pre].
      * exists [], (x :: seg), post. repeat split; try assumption.
        constructor; assumption.
      * exfalso. inversion Hpre as [|? ? Hp _]. subst.
        specialize (Hall p (or_introl eq_refl)). lia.
    + destruct pre as [|p pre].
      * destruct seg as [|y seg].
        -- exists [], [], (x :: post). repeat split; try constructor; assumption.
        -- exfalso. inversion Hseg as [|? ? Hy _]. subst.
           specialize (Hall y (or_introl eq_refl)). lia.
      * exfalso. inversion Hpre as [|? ? Hp _]. subst.
        specialize (Hall p (or_introl eq_refl)). lia.
Qed.

Lemma begin_group_split grp pre seg post
    (Hpre : Forall (fun t => group t < grp) pre)
    (Hseg : Forall (fun t => group t = grp) seg)
    (Hpost : Forall (fun t => grp < group t) post) :
  begin_group grp (pre ++ seg ++ post) = length pre.
Proof.
  unfold begin_group. rewrite find_if_app_all_false.
  - destruct seg as [|x seg'].
    + destruct post as [|y post']; simpl; [lia|].
      inversion Hpost as [|? ? Hy _]. subst.
      destruct (Z.leb_spec grp (group y)); lia.
    + simpl. inversion Hseg as [|? ? Hx _]. subst.
      destruct (Z.leb_spec (group x) (group x)); lia.
  - eapply Forall_impl; [|exact Hpre]. intros t Ht. simpl in Ht.
    destruct (Z.leb_spec grp (group t)); [lia|reflexivity].
Qed.

Lemma group_size_split grp pre seg post
    (Hpre : Forall (fun t => group t < grp) pre)
    (Hseg : Forall (fun t => group t = grp) seg)
    (Hpost : Forall (fun t => grp < group t) post) :
  group_size grp (pre ++ seg ++ post) = length seg.
Proof.
  unfold group_size. rewrite !filter_app, !length_app.
  rewrite (filter_none (fun t => group t =? grp) pre),
          (filter_none (fun t => group t =? grp) post),
          (filter_all (fun t => group t =? grp) seg).
  - simpl. lia.
  - eapply Forall_impl; [|exact Hseg]. intros t Ht. simpl in Ht. lia.
  - eapply Forall_impl; [|exact Hpost]. intros t Ht. simpl in Ht. lia.
  - eapply Forall_impl; [|exact Hpre]. intros t Ht. simpl in Ht. lia.
Qed.

Lemma cycle_loop_run grp post (Hpost : Forall (fun t => grp < group t) post) held :
  forall run,
    Forall (fun t => group t = grp) run ->
    cycle_loop grp held (run ++ post) = run ++ held :: post.
Proof.
  induction 1 as [|x run Hx _ IH]; simpl.
  - destruct post as [|y post']; [reflexivity|].
    inversion Hpost as [|? ? Hy _]. subst. simpl.
    destruct (Z.eqb_spec (group y) grp); [lia|reflexivity].
  - rewrite Hx, Z.eqb_refl, IH. reflexivity.
Qed.

Lemma cycle_group_split grp pre seg post
    (Hpre : Forall (fun t => group t < grp) pre)
    (Hseg : Forall (fun t => group t = grp) seg)
    (Hpost : Forall (fun t => grp < group t) post) :
  cycle_group grp (pre ++ seg ++ post) = pre ++ rotate_left seg ++ post.
Proof.
  unfold cycle_group. rewrite (begin_group_split grp pre seg post Hpre Hseg Hpost).
  rewrite nth_error_app2 by lia. rewrite Nat.sub_diag.
  destruct seg as [|x seg'].
  - destruct post as [|y post']; [reflexivity|].
    inversion Hpost as [|? ? Hy _]. subst. cbn [app nth_error].
    destruct (Z.eqb_spec (group y) grp); [lia|reflexivity].
  - inversion Hseg as [|? ? Hx Hseg']. subst. cbn [app nth_error rotate_left].
    rewrite Z.eqb_refl. cbn [negb].
    rewrite firstn_app, firstn_all, Nat.sub_diag, firstn_O, app_nil_r.
    rewrite (skipn_after pre x (seg' ++ post)).
    rewrite (cycle_loop_run (group x) post Hpost x seg' Hseg'). rewrite <- app_assoc. reflexivity.
Qed.

Lemma rotate_left_group grp seg :
  Forall (fun t => group t = grp) seg ->
  Forall (fun t => group t = grp) (rotate_left seg).
Proof.
  intros H. destruct seg as [|x seg']; [constructor|].
  apply Forall_cons_iff in H. destruct H as (Hx & Hrest).
  simpl. apply Forall_app. split; [exact Hrest|].
  constructor; [exact Hx|constructor].
Qed.

Lemma iter_cycle_group_split grp pre post :
  Forall (fun t => group t < grp) pre ->
  Forall (fun t => grp < group t) post ->
  forall k seg,
    Forall (fun t => group t = grp) seg ->
    Nat.iter k (cycle_group grp) (pre ++ seg ++ post)
    = pre ++ Nat.iter k rotate_left seg ++ post.
Proof.
  intros Hpre Hpost. induction k as [|k IH]; intros seg Hseg; [reflexivity|].
  rewrite !Nat.iter_succ_r.
  rewrite (cycle_group_split grp pre seg post Hpre Hseg Hpost).
  apply IH. apply rotate_left_group. exact Hseg.
Qed.

Lemma iter_rotate_left {A} :
  forall k (l1 l2 : list A),
    length l1 = k -> Nat.iter k rotate_left (l1 ++ l2) = l2 ++ l1.
Proof.
  induction k as [|k IH]; intros l1 l2 Hlen.
  - destruct l1; [|discriminate]. simpl. rewrite app_nil_r. reflexivity.
  - destruct l1 as [|a l1]; [discriminate|].
    rewrite Nat.iter_succ_r. simpl. rewrite <- app_assoc.
    rewrite IH by (simpl in Hlen; lia). rewrite <- app_assoc. reflexivity.
Qed.

Lemma cycle_group_rotates grp l :
  in_group_order l ->
  cycle_group grp l =
    firstn (begin_group grp l) l
    ++ rotate_left (firstn (group_size grp l) (skipn (begin_group grp l) l))
    ++ skipn (begin_group grp l + group_size grp l) l.
Proof.
  intros Hs. destruct (group_order_split grp l Hs)
    as (pre & seg & post & -> & Hpre & Hseg & Hpost).
  rewrite (cycle_group_split grp pre seg post Hpre Hseg Hpost).
  rewrite (begin_group_split grp pre seg post Hpre Hseg Hpost).
  rewrite (group_size_split grp pre seg post Hpre Hseg Hpost).
  rewrite (firstn_exact pre), (skipn_exact pre), (firstn_exact seg).
  rewrite <- length_app, (app_assoc pre seg post), (skipn_exact (pre ++ seg)).
  reflexivity.
Qed.

Lemma cycle_group_turns grp l :
  in_group_order l ->
  Nat.iter (group_size grp l) (cycle_group grp) l = l.
Proof.
  intros Hs. destruct (group_order_split grp l Hs)
    as (pre & seg & post & -> & Hpre & Hseg & Hpost).
  rewrite (group_size_split grp pre seg post Hpre Hseg Hpost).
  rewrite (iter_cycle_group_split grp pre post Hpre Hpost _ seg Hseg).
  rewrite <- (app_nil_r seg) at 2.
  rewrite (iter_rotate_left (length seg) seg [] eq_refl). reflexivity.
Qed.

(** *** Promotion *)

Lemma nth_error_assign {A} (l : list A) i x y :
  nth_error l i = Some y ->
  forall k, nth_error (assign i x l) k = if (k =? i)%nat then Some x else nth_error l k.
Proof.
  intros Hy k. unfold assign. rewrite Hy.
  assert (i < length l)%nat as Hi by (apply nth_error_Some; rewrite Hy; discriminate).
  assert (length (firstn i l) = i) as Hlen by (apply firstn_length_le; lia).
  destruct (Nat.eqb_spec k i) as [->|Hne].
  - rewrite nth_error_app2 by lia. rewrite Hlen, Nat.sub_diag. reflexivity.
  - destruct (Nat.lt_ge_cases k i) as [Hlt|Hge].
    + rewrite nth_error_app1 by lia. rewrite nth_error_firstn.
      destruct (Nat.ltb_spec k i); [reflexivity|lia].
    + rewrite nth_error_app2 by lia. rewrite Hlen.
      destruct (k - i)%nat as [|m] eqn:Hm; [lia|]. cbn [nth_error].
      rewrite StdFacts.nth_error_skipn. f_equal. lia.
Qed.

Lemma length_assign {A} (l : list A) i x : length (assign i x l) = length l.
Proof.
  unfold assign. destruct (nth_error l i) as [y|] eqn:Hy; [|reflexivity].
  assert (i < length l)%nat as Hi by (apply nth_error_Some; rewrite Hy; discriminate).
  rewrite length_app, firstn_length_le by lia. cbn [length].
  rewrite length_skipn. lia.
Qed.

Lemma group_order_positions l :
  in_group_order l ->
  forall i j a b,
    (i <= j)%nat -> nth_error l i = Some a -> nth_error l j = Some b ->
    group a <= group b.
Proof.
  induction 1 as [|x l Hs IH Hall]; intros i j a b Hij Ha Hb;
    [destruct i; discriminate|].
  rewrite Forall_forall in Hall.
  destruct i as [|i]; destruct j as [|j]; simpl in Ha, Hb; try lia.
  - inversion Ha. inversion Hb. subst. lia.
  - inversion Ha. subst. apply Hall. eapply nth_error_In. exact Hb.
  - apply (IH i j); [lia|assumption|assumption].
Qed.

Lemma in_group_order_groups l :
  in_group_order l ->
  forall l', map group l' = map group l -> in_group_order l'.
Proof.
  induction 1 as [|x l Hs IH Hall]; intros [|x' l'] Hmap; try discriminate.
  - constructor.
  - simpl in Hmap. inversion Hmap as [[Hx Hl]]. constructor.
    + apply IH. exact Hl.
    + rewrite Hx. apply Forall_map with (f := group) (P := fun g => group x <= g).
      rewrite Hl. apply Forall_map. exact Hall.
Qed.

Lemma promote_spec l itr t :
  in_group_order l -> nth_error l itr = Some t ->
  exists f l',
    promote itr l = (Return (begin_group (group t) l), l') /\
    (begin_group (group t) l <= itr)%nat /\
    nth_error l (begin_group (group t) l) = Some f /\
    group f = group t /\
    nth_error l' (begin_group (group t) l) = Some t /\
    (begin_group (group t) l <> itr -> nth_error l' itr = Some f) /\
    (forall k, k <> begin_group (group t) l -> k <> itr ->
               nth_error l' k = nth_error l k) /\
    map group l' = map group l /\
    in_group_order l'.
Proof.
  intros Hs Ht. set (first := begin_group (group t) l).
  destruct (find_if_first (fun x => group t <=? group x) l) as (_ & Hbefore & Hat).
  fold (begin_group (group t) l) in Hbefore, Hat. fold first in Hbefore, Hat.
  assert (first <= itr)%nat as Hle.
  { destruct (Nat.le_gt_cases first itr) as [H|H]; [exact H|].
    specialize (Hbefore itr t H Ht). simpl in Hbefore.
    destruct (Z.leb_spec (group t) (group t)); [discriminate|lia]. }
  assert (itr < length l)%nat as Hitr
      by (apply nth_error_Some; rewrite Ht; discriminate).
  destruct (nth_error l first) as [f|] eqn:Hf; [|apply nth_error_None in Hf; lia].
  assert (group f = group t) as Hgroup.
  { specialize (Hat f eq_refl). simpl in Hat. apply Z.leb_le in Hat.
    pose proof (group_order_positions l Hs first itr f t Hle Hf Ht). lia. }
  assert (nth_error (assign first t l) itr = Some (if (itr =? first)%nat then t else t))
    as Hmid.
  { rewrite (nth_error_assign l first t f Hf).
    destruct (Nat.eqb_spec itr first); [reflexivity|exact Ht]. }
  assert (forall k, nth_error (assign itr f (assign first t l)) k =
                    if (k =? itr)%nat then Some f
                    else if (k =? first)%nat then Some t else nth_error l k) as Hnth.
  { intros k. rewrite (nth_error_assign _ itr f _ Hmid).
    destruct (Nat.eqb_spec k itr); [reflexivity|].
    apply (nth_error_assign l first t f Hf). }
  assert (map group (assign itr f (assign first t l)) = map group l) as Hmap.
  { apply nth_error_ext. intros k. rewrite !nth_error_map, Hnth.
    destruct (Nat.eqb_spec k itr) as [->|_].
    - rewrite Ht. simpl. now rewrite Hgroup.
    - destruct (Nat.eqb_spec k first) as [->|_]; [|reflexivity].
      rewrite Hf. simpl. now rewrite Hgroup. }
  exists f, (assign itr f (assign first t l)).
  split.
  { unfold promote, bind, get. rewrite Ht. fold first. rewrite Hf. reflexivity. }
  split; [exact Hle|]. split; [reflexivity|]. split; [exact Hgroup|].
  split.
  { rewrite Hnth, Nat.eqb_refl.
    destruct (Nat.eqb_spec first itr) as [Heq|_]; [|reflexivity].
    rewrite Heq in Hf. congruence. }
  split.
  { intros _. rewrite Hnth, Nat.eqb_refl. reflexivity. }
  split.
  { intros k Hk1 Hk2. rewrite Hnth.
    destruct (Nat.eqb_spec k itr); [contradiction|].
    destruct (Nat.eqb_spec k first); [contradiction|reflexivity]. }
  split; [exact Hmap|].
  apply (in_group_order_groups l Hs). exact Hmap.
Qed.

End TrackerListGroups.

(** X13. On a list in group order, [promote] of a valid iterator returns
    the position of the first tracker of the tracker's group and never
    raises its internal_error: that position is at or before the iterator
    and holds a tracker of the same group. After the call the promoted
    tracker is there, the tracker that was there is at the iterator's
    position, every other position is unchanged, and the list is in group
    order with the same sequence of groups. *)
Theorem promote_moves_to_the_head_of_the_group
    (l : list TrackerList.Tracker) (itr : nat) (t : TrackerList.Tracker) :
  TrackerList.in_group_order l ->
  nth_error l itr = Some t ->
  exists f l',
    TrackerList.promote itr l
      = (Return (TrackerList.begin_group (TrackerList.group t) l), l') /\
    (TrackerList.begin_group (TrackerList.group t) l <= itr)%nat /\
    nth_error l (TrackerList.begin_group (TrackerList.group t) l) = Some f /\
    TrackerList.group f = TrackerList.group t /\
    nth_error l' (TrackerList.begin_group (TrackerList.group t) l) = Some t /\
    (TrackerList.begin_group (TrackerList.group t) l <> itr ->
     nth_error l' itr = Some f) /\
    (forall k, k <> TrackerList.begin_group (TrackerList.group t) l -> k <> itr ->
               nth_error l' k = nth_error l k) /\
    map TrackerList.group l' = map TrackerList.group l /\
    TrackerList.in_group_order l'.
Proof. apply TrackerListGroups.promote_spec. Qed.

Lemma promote_moves_to_the_head_of_the_group_witness :
  exists l',
    TrackerList.promote 3 TrackerList.tiers = (Return 1%nat, l') /\
    option_map TrackerList.url (nth_error l' 1) = Some "http://d/announce"%string.
Proof.
  assert (TrackerList.in_group_order TrackerList.tiers) as Hs
      by (repeat constructor; cbn; lia).
  destruct (promote_moves_to_the_head_of_the_group TrackerList.tiers 3 _ Hs eq_refl)
    as (f & l' & Hrun & _ & _ & _ & Hhead & _).
  exists l'. split; [exact Hrun|].
  change (TrackerList.begin_group _ TrackerList.tiers) with 1%nat in Hhead.
  rewrite Hhead. reflexivity.
Defined.

(** X14. On a list in group order, [cycle_group] moves the first tracker
    of the group behind the last tracker of the group and moves the others
    of the group one position forward; the trackers of the other groups
    stay where they are. *)
Theorem cycle_group_rotates_the_group (grp : Z) (l : list TrackerList.Tracker) :
  TrackerList.in_group_order l ->
  TrackerList.cycle_group grp l =
    firstn (TrackerList.begin_group grp l) l
    ++ TrackerList.rotate_left
         (firstn (TrackerList.group_size grp l)
                 (skipn (TrackerList.begin_group grp l) l))
    ++ skipn (TrackerList.begin_group grp l + TrackerList.group_size grp l) l.
Proof. apply TrackerListGroups.cycle_group_rotates. Qed.

Lemma cycle_group_rotates_the_group_witness :
  map TrackerList.url (TrackerList.cycle_group 1 TrackerList.tiers) =
    [ "http://a/announce"; "udp://c:6969"; "http://d/announce"; "http://b/announce";
      "http://e/announce" ]%string.
Proof.
  rewrite (cycle_group_rotates_the_group 1 TrackerList.tiers).
  - reflexivity.
  - repeat constructor; cbn; lia.
Defined.

(** X15. On a list in group order, [cycle_group] applied as many times as
    the group has trackers leaves the list as it was. *)
Theorem cycle_group_full_turn (grp : Z) (l : list TrackerList.Tracker) :
  TrackerList.in_group_order l ->
  Nat.iter (TrackerList.group_size grp l) (TrackerList.cycle_group grp) l = l.
Proof. apply TrackerListGroups.cycle_group_turns. Qed.

Lemma cycle_group_full_turn_witness :
  TrackerList.cycle_group 1
    (TrackerList.cycle_group 1 (TrackerList.cycle_group 1 TrackerList.tiers))
  = TrackerList.tiers.
Proof.
  apply (cycle_group_full_turn 1 TrackerList.tiers).
  repeat constructor; cbn; lia.
Defined.

(** ** TrackerUdp: replies and timeouts *)

Module TrackerUdpEventsFacts.
Import ProtocolBuffer TrackerUdp TrackerUdpEvents TrackerUdpFacts.
Import TrackerListGroups.

Lemma slice_middle (pre mid post : list Z) :
  slice (length pre) (length mid) (pre ++ mid ++ post) = mid.
Proof.
  unfold slice. rewrite skipn_app, skipn_all, Nat.sub_diag. simpl.
  rewrite firstn_app, firstn_all, Nat.sub_diag, firstn_O, app_nil_r. reflexivity.
Qed.

(** Reading back what was written most significant byte first. *)
Lemma read_written n v pre post pos :
  pos = length pre ->
  0 <= v < 2 ^ (8 * Z.of_nat n) ->
  read n {| rb_bytes := pre ++ be n v ++ post; rb_position := pos |}
  = (v, {| rb_bytes := pre ++ be n v ++ post; rb_position := (pos + n)%nat |}).
Proof.
  intros -> Hv. unfold read. cbn [rb_bytes rb_position].
  pose proof (slice_middle pre (be n v) post) as Hslice.
  rewrite length_be in Hslice. rewrite Hslice, be_value_be by exact Hv.
  reflexivity.
Qed.

Lemma prepare_announce_returns env rnd u :
  exists u',
    prepare_announce_input env rnd u = (Return tt, u') /\
    m_connectionId u' = m_connectionId u /\
    m_action u' = 1 /\
    m_transactionId u' = to_uint32 rnd /\
    m_sendState u' = m_sendState u /\
    length (m_writeBuffer u') = 98%nat /\
    slice 0 8 (m_writeBuffer u') = be 8 (to_uint64 (m_connectionId u)) /\
    slice 8 4 (m_writeBuffer u') = be 4 1 /\
    slice 12 4 (m_writeBuffer u') = be 4 (to_uint32 rnd).
Proof.
  destruct env as [[[hd hl] [ld ll] up comp left] key numwant addr port].
  destruct (list_of_length_20 hd hl)
    as (a0&a1&a2&a3&a4&a5&a6&a7&a8&a9&b0&b1&b2&b3&b4&b5&b6&b7&b8&b9&->).
  destruct (list_of_length_20 ld ll)
    as (c0&c1&c2&c3&c4&c5&c6&c7&c8&c9&d0&d1&d2&d3&d4&d5&d6&d7&d8&d9&->).
  eexists. split.
  - cbv [prepare_announce_input bind modify get ret throw
         set_writeBuffer set_action set_transactionId
         m_writeBuffer m_connectionId m_action m_transactionId m_sendState
         info hash local_id hs_data uploaded_adjusted completed_adjusted
         slot_left local_address TrackerUdp.key TrackerUdp.numwant listen_port
         reset write_16 write_32 write_32_n write_64 write_range
         size_end be app length].
    reflexivity.
  - cbv [m_writeBuffer m_connectionId m_action m_transactionId m_sendState
         size_end be slice firstn skipn app length].
    repeat split; try reflexivity.
    all: unfold to_uint32, to_uint64; rewrite ?Z.mod_mod by lia.
    all: reflexivity.
Qed.

(** The fields of a datagram, by their offsets. *)
Lemma slice_at0 n (f0 post : list Z) :
  length f0 = n -> slice 0 n (f0 ++ post) = f0.
Proof. intros <-. apply (slice_middle [] f0 post). Qed.

Lemma slice_at1 off n (f0 f1 post : list Z) :
  length f0 = off -> length f1 = n -> slice off n (f0 ++ f1 ++ post) = f1.
Proof. intros <- <-. apply slice_middle. Qed.

Lemma slice_at2 off n (f0 f1 f2 post : list Z) :
  (length f0 + length f1)%nat = off -> length f2 = n ->
  slice off n (f0 ++ f1 ++ f2 ++ post) = f2.
Proof.
  intros <- <-. rewrite <- length_app, (app_assoc f0 f1). apply slice_middle.
Qed.

Lemma slice_at3 off n (f0 f1 f2 f3 post : list Z) :
  (length f0 + length f1 + length f2)%nat = off -> length f3 = n ->
  slice off n (f0 ++ f1 ++ f2 ++ f3 ++ post) = f3.
Proof.
  intros <- <-. rewrite <- !length_app.
  rewrite (app_assoc f0 f1), (app_assoc (f0 ++ f1) f2). apply slice_middle.
Qed.

Lemma slice_at4 off n (f0 f1 f2 f3 f4 post : list Z) :
  (length f0 + length f1 + length f2 + length f3)%nat = off -> length f4 = n ->
  slice off n (f0 ++ f1 ++ f2 ++ f3 ++ f4 ++ post) = f4.
Proof.
  intros <- <-. rewrite <- !length_app.
  rewrite (app_assoc f0 f1), (app_assoc (f0 ++ f1) f2), (app_assoc ((f0 ++ f1) ++ f2) f3).
  apply slice_middle.
Qed.

(** [read_32] and [read_64] on a field written most significant byte
    first. *)
Lemma read_32_field bytes pos c v :
  0 <= v < 2 ^ 32 -> slice pos 4 bytes = be 4 v ->
  read_32 (at_position bytes pos c) = (Return v, at_position bytes (pos + 4) c).
Proof.
  intros Hv Hslice. unfold read_32, bind, get, read.
  cbn [at_position set_readBuffer m_readBuffer rb_bytes rb_position].
  rewrite Hslice, (be_value_be 4 v) by exact Hv. reflexivity.
Qed.

Lemma read_64_field bytes pos c v :
  0 <= v < 2 ^ 64 -> slice pos 8 bytes = be 8 v ->
  read_64 (at_position bytes pos c) = (Return v, at_position bytes (pos + 8) c).
Proof.
  intros Hv Hslice. unfold read_64, bind, get, read.
  cbn [at_position set_readBuffer m_readBuffer rb_bytes rb_position].
  rewrite Hslice, (be_value_be 8 v) by exact Hv. reflexivity.
Qed.

Lemma read_32_any bytes pos c :
  read_32 (at_position bytes pos c)
  = (Return (be_value (slice pos 4 bytes) 0), at_position bytes (pos + 4) c).
Proof. reflexivity. Qed.

Lemma connect_reply w c x cid rest :
  fd_valid c = true ->
  m_action (udp c) = 0 ->
  m_transactionId (udp c) = x -> 0 <= x < 2 ^ 32 ->
  0 <= cid < 2 ^ 64 ->
  exists c',
    event_read w (Some (be 4 0 ++ be 4 x ++ be 8 cid ++ rest)) c = (Return tt, c') /\
    m_connectionId (udp c') = cid /\
    m_action (udp c') = 1 /\
    m_transactionId (udp c') = to_uint32 (random w) /\
    length (m_writeBuffer (udp c')) = 98%nat /\
    slice 0 8 (m_writeBuffer (udp c')) = be 8 cid /\
    m_tries c' = udp_tries w /\
    m_taskTimeout c' = Some (deadline w) /\
    in_write c' = true /\
    fd_valid c' = true /\
    parent_calls c' = parent_calls c /\
    written c' = written c.
Proof.
  intros Hfd Haction Hid Hx Hcid.
  set (bytes := be 4 0 ++ be 4 x ++ be 8 cid ++ rest).
  assert (length bytes = (16 + length rest)%nat) as Hlen
      by (unfold bytes; rewrite !length_app, !length_be; lia).
  assert (read_32 (at_position bytes 0 c) = (Return 0, at_position bytes 4 c)) as Hr1.
  { apply read_32_field; [lia|]. apply slice_at0. reflexivity. }
  assert (read_32 (at_position bytes 4 c) = (Return x, at_position bytes 8 c)) as Hr2.
  { apply (read_32_field bytes 4 c x Hx). apply slice_at1; reflexivity. }
  assert (read_64 (at_position bytes 8 c) = (Return cid, at_position bytes 16 c)) as Hr3.
  { apply (read_64_field bytes 8 c cid Hcid). apply slice_at2; reflexivity. }
  assert (process_connect_output (at_position bytes 4 c)
          = (Return true, set_udp (set_connectionId cid) (at_position bytes 16 c)))
    as Hconnect.
  { unfold process_connect_output, bind, get.
    cbn [at_position set_readBuffer m_readBuffer rb_bytes].
    destruct (Z.ltb_spec (Z.of_nat (length bytes)) 16) as [|_]; [lia|].
    fold (at_position bytes 4 c). rewrite Hr2.
    change (udp (at_position bytes 4 c)) with (udp c).
    rewrite Hid, Z.eqb_refl. cbn [negb].
    rewrite Hr3. reflexivity. }
  destruct (prepare_announce_returns (environment w) (random w)
              (set_connectionId cid (udp c)))
    as (u' & Hprep & Hcid' & Haction' & Hid' & _ & Hsize & Hslice & _).
  unfold event_read, buffers, bind, get. rewrite Hfd.
  cbn [ret modify].
  fold bytes. fold (at_position bytes 0 c).
  destruct (Z.ltb_spec (Z.of_nat (length bytes)) 4) as [|_]; [lia|].
  rewrite Hr1. cbn [Z.eqb].
  change (udp (at_position bytes 4 c)) with (udp c).
  rewrite Haction. cbn [Z.eqb negb].
  rewrite Hconnect. cbn [negb].
  unfold on_udp.
  change (udp (set_udp (set_connectionId cid) (at_position bytes 16 c)))
    with (set_connectionId cid (udp c)).
  rewrite Hprep.
  eexists. split; [reflexivity|].
  cbn [set_in_write set_tries set_taskTimeout set_udp udp m_tries m_taskTimeout in_write
       fd_valid parent_calls written].
  cbn [set_connectionId m_connectionId] in Hcid', Hslice.
  rewrite Hslice. unfold to_uint64. rewrite Z.mod_small by lia.
  repeat split; assumption || reflexivity.
Qed.

(** *** Datagrams that are not the reply awaited *)

Lemma foreign_datagram w c bytes :
  fd_valid c = true ->
  (length bytes < 8)%nat \/ be_value (slice 4 4 bytes) 0 <> m_transactionId (udp c) ->
  exists pos, event_read w (Some bytes) c = (Return tt, at_position bytes pos c).
Proof.
  intros Hfd Hforeign.
  unfold event_read, buffers, bind, get. rewrite Hfd.
  cbn [ret modify]. fold (at_position bytes 0 c).
  destruct (Z.ltb_spec (Z.of_nat (length bytes)) 4) as [|Hlen4]; [exists O; reflexivity|].
  rewrite read_32_any.
  change (udp (at_position bytes (0 + 4) c)) with (udp c).
  destruct (be_value (slice 0 4 bytes) 0 =? 0).
  { destruct (negb (m_action (udp c) =? 0)); [eexists; reflexivity|].
    unfold process_connect_output, bind, get.
    cbn [at_position set_readBuffer m_readBuffer rb_bytes].
    destruct (Z.ltb_spec (Z.of_nat (length bytes)) 16) as [|Hlen];
      [eexists; reflexivity|].
    fold (at_position bytes (0 + 4) c). rewrite read_32_any.
    change (udp (at_position bytes (0 + 4) c)) with (udp c).
    destruct (Z.eqb_spec (be_value (slice (0 + 4) 4 bytes) 0) (m_transactionId (udp c)))
      as [Heq|_]; [|eexists; reflexivity].
    destruct Hforeign as [Hshort|Hother]; [lia|contradiction]. }
  destruct (be_value (slice 0 4 bytes) 0 =? 1).
  { destruct (negb (m_action (udp c) =? 1)); [eexists; reflexivity|].
    unfold process_announce_output, bind, get.
    cbn [at_position set_readBuffer m_readBuffer rb_bytes].
    destruct (Z.ltb_spec (Z.of_nat (length bytes)) 20) as [|Hlen];
      [eexists; reflexivity|].
    fold (at_position bytes (0 + 4) c). rewrite read_32_any.
    change (udp (at_position bytes (0 + 4) c)) with (udp c).
    destruct (Z.eqb_spec (be_value (slice (0 + 4) 4 bytes) 0) (m_transactionId (udp c)))
      as [Heq|_]; [|eexists; reflexivity].
    destruct Hforeign as [Hshort|Hother]; [lia|contradiction]. }
  destruct (be_value (slice 0 4 bytes) 0 =? 3); [|eexists; reflexivity].
  unfold process_error_output, bind, get.
  cbn [at_position set_readBuffer m_readBuffer rb_bytes].
  destruct (Z.ltb_spec (Z.of_nat (length bytes)) 8) as [|Hlen];
    [eexists; reflexivity|].
  fold (at_position bytes (0 + 4) c). rewrite read_32_any.
  change (udp (at_position bytes (0 + 4) c)) with (udp c).
  destruct (Z.eqb_spec (be_value (slice (0 + 4) 4 bytes) 0) (m_transactionId (udp c)))
    as [Heq|_]; [|eexists; reflexivity].
  destruct Hforeign as [Hshort|Hother]; [lia|contradiction].
Qed.

(** *** The replies that end the request *)

Lemma compact_addresses_spec :
  forall n bytes,
    (6 * n <= length bytes)%nat ->
    length (compact_addresses n bytes) = n /\
    Forall (fun a => length a = 6%nat) (compact_addresses n bytes) /\
    concat (compact_addresses n bytes) = firstn (6 * n) bytes.
Proof.
  induction n as [|n IH]; intros bytes Hlen.
  - repeat split. constructor.
  - cbn [compact_addresses].
    destruct (IH (skipn 6 bytes)) as (Hn & Hall & Hcat);
      [rewrite length_skipn; lia|].
    split; [cbn [length]; now rewrite Hn|]. split.
    + constructor; [apply firstn_length_le; lia|exact Hall].
    + cbn [concat]. rewrite Hcat.
      replace (6 * S n)%nat with (6 + 6 * n)%nat by lia.
      rewrite <- (firstn_skipn 6 bytes) at 3.
      rewrite firstn_app, firstn_firstn, firstn_length_le by lia.
      replace (Nat.min (6 + 6 * n) 6) with 6%nat by lia.
      replace (6 + 6 * n - 6)%nat with (6 * n)%nat by lia. reflexivity.
Qed.

Lemma whole_records r : ((r - r mod 6) / 6 = r / 6)%nat.
Proof.
  pose proof (Nat.div_mod_eq r 6) as Hr.
  replace (r - r mod 6)%nat with (r / 6 * 6)%nat by lia.
  apply Nat.div_mul. discriminate.
Qed.

Lemma announce_reply w c x interval leechers seeders peers :
  fd_valid c = true ->
  m_action (udp c) = 1 ->
  m_transactionId (udp c) = x -> 0 <= x < 2 ^ 32 ->
  0 <= interval < 2 ^ 32 -> 0 <= leechers < 2 ^ 32 -> 0 <= seeders < 2 ^ 32 ->
  event_read w
    (Some (be 4 1 ++ be 4 x ++ be 4 interval ++ be 4 leechers ++ be 4 seeders ++ peers))
    c
  = (Return tt,
     call_parent
       (receive_success_call (compact_addresses (length peers / 6) peers))
       (closed
          (set_scrape leechers seeders (now_seconds w)
             (set_min_interval (default_min_interval w)
                (set_normal_interval interval
                   (at_position
                      (be 4 1 ++ be 4 x ++ be 4 interval ++ be 4 leechers
                       ++ be 4 seeders ++ peers) 20 c)))))).
Proof.
  intros Hfd Haction Hid Hx Hinterval Hleechers Hseeders.
  set (bytes := be 4 1 ++ be 4 x ++ be 4 interval ++ be 4 leechers ++ be 4 seeders
                ++ peers).
  assert (length bytes = (20 + length peers)%nat) as Hlen
      by (unfold bytes; rewrite !length_app, !length_be; lia).
  assert (skipn 20 bytes = peers) as Hpeers.
  { unfold bytes. rewrite !app_assoc.
    apply (skipn_exact ((((be 4 1 ++ be 4 x) ++ be 4 interval) ++ be 4 leechers)
                        ++ be 4 seeders) peers). }
  assert (read_32 (at_position bytes 0 c) = (Return 1, at_position bytes 4 c)) as Hr1.
  { apply read_32_field; [lia|]. apply slice_at0. reflexivity. }
  assert (forall c0, read_32 (at_position bytes 4 c0) = (Return x, at_position bytes 8 c0))
    as Hr2.
  { intros c0. apply (read_32_field bytes 4 c0 x Hx). apply slice_at1; reflexivity. }
  assert (forall c0, read_32 (at_position bytes 8 c0)
                     = (Return interval, at_position bytes 12 c0)) as Hr3.
  { intros c0. apply (read_32_field bytes 8 c0 interval Hinterval).
    apply slice_at2; reflexivity. }
  assert (forall c0, read_32 (at_position bytes 12 c0)
                     = (Return leechers, at_position bytes 16 c0)) as Hr4.
  { intros c0. apply (read_32_field bytes 12 c0 leechers Hleechers).
    apply slice_at3; reflexivity. }
  assert (forall c0, read_32 (at_position bytes 16 c0)
                     = (Return seeders, at_position bytes 20 c0)) as Hr5.
  { intros c0. apply (read_32_field bytes 16 c0 seeders Hseeders).
    apply slice_at4; reflexivity. }
  assert (process_announce_output w (at_position bytes 4 c)
          = (Return true,
             call_parent
               (receive_success_call (compact_addresses (length peers / 6) peers))
               (closed
                  (set_scrape leechers seeders (now_seconds w)
                     (set_min_interval (default_min_interval w)
                        (set_normal_interval interval (at_position bytes 20 c)))))))
    as Hprocess.
  { unfold process_announce_output, bind, get.
    cbn [at_position set_readBuffer m_readBuffer rb_bytes].
    destruct (Z.ltb_spec (Z.of_nat (length bytes)) 20) as [|_]; [lia|].
    fold (at_position bytes 4 c). rewrite Hr2.
    change (udp (at_position bytes 4 c)) with (udp c).
    rewrite Hid, Z.eqb_refl. cbn [negb].
    rewrite Hr3. cbn [modify].
    change (set_min_interval (default_min_interval w)
              (set_normal_interval interval (at_position bytes 12 c)))
      with (at_position bytes 12
              (set_min_interval (default_min_interval w)
                 (set_normal_interval interval c))).
    rewrite Hr4, Hr5. cbn [modify].
    unfold close_directly, bind, get.
    cbn [set_scrape at_position set_readBuffer fd_valid set_min_interval
         set_normal_interval m_readBuffer].
    rewrite Hfd. cbn [negb put modify ret].
    unfold remaining. cbn [rb_bytes rb_position].
    rewrite Hlen, whole_records, Hpeers.
    replace (20 + length peers - 20)%nat with (length peers) by lia.
    reflexivity. }
  unfold event_read, buffers, bind, get. rewrite Hfd.
  cbn [ret modify]. fold (at_position bytes 0 c).
  destruct (Z.ltb_spec (Z.of_nat (length bytes)) 4) as [|_]; [lia|].
  rewrite Hr1. cbn [Z.eqb Pos.eqb].
  change (udp (at_position bytes 4 c)) with (udp c).
  rewrite Haction. cbn [Z.eqb Pos.eqb negb].
  rewrite Hprocess. reflexivity.
Qed.

Lemma error_reply w c x text :
  fd_valid c = true ->
  m_transactionId (udp c) = x -> 0 <= x < 2 ^ 32 ->
  event_read w (Some (be 4 3 ++ be 4 x ++ text)) c
  = (Return tt,
     call_parent
       (receive_failed_call ("received error message: " ++ string_of_bytes text))
       (closed (at_position (be 4 3 ++ be 4 x ++ text) 8 c))).
Proof.
  intros Hfd Hid Hx.
  set (bytes := be 4 3 ++ be 4 x ++ text).
  assert (length bytes = (8 + length text)%nat) as Hlen
      by (unfold bytes; rewrite !length_app, !length_be; lia).
  assert (skipn 8 bytes = text) as Htext.
  { unfold bytes. rewrite app_assoc. apply (skipn_exact (be 4 3 ++ be 4 x) text). }
  assert (read_32 (at_position bytes 0 c) = (Return 3, at_position bytes 4 c)) as Hr1.
  { apply read_32_field; [lia|]. apply slice_at0. reflexivity. }
  assert (read_32 (at_position bytes 4 c) = (Return x, at_position bytes 8 c)) as Hr2.
  { apply (read_32_field bytes 4 c x Hx). apply slice_at1; reflexivity. }
  assert (process_error_output (at_position bytes 4 c)
          = (Return true,
             call_parent
               (receive_failed_call ("received error message: " ++ string_of_bytes text))
               (closed (at_position bytes 8 c)))) as Hprocess.
  { unfold process_error_output, bind, get.
    cbn [at_position set_readBuffer m_readBuffer rb_bytes].
    destruct (Z.ltb_spec (Z.of_nat (length bytes)) 8) as [|_]; [lia|].
    fold (at_position bytes 4 c). rewrite Hr2.
    change (udp (at_position bytes 4 c)) with (udp c).
    rewrite Hid, Z.eqb_refl. cbn [negb].
    unfold receive_failed, close_directly, bind, get.
    cbn [at_position set_readBuffer fd_valid m_readBuffer rb_bytes rb_position].
    rewrite Hfd, Htext. reflexivity. }
  unfold event_read, buffers, bind, get. rewrite Hfd.
  cbn [ret modify]. fold (at_position bytes 0 c).
  destruct (Z.ltb_spec (Z.of_nat (length bytes)) 4) as [|_]; [lia|].
  rewrite Hr1. cbn [Z.eqb Pos.eqb].
  rewrite Hprocess. reflexivity.
Qed.

(** *** Timeouts *)

Lemma timeout_rearms w c :
  m_tries c <> 1 ->
  timeout_fires w c
  = (Return tt,
     set_in_write true
       (set_taskTimeout (Some (deadline w))
          (set_tries (m_tries c - 1) (set_taskTimeout None c)))).
Proof.
  intros Htries. unfold timeout_fires, receive_timeout, bind, get.
  cbn [modify set_taskTimeout m_taskTimeout m_tries].
  destruct (Z.eqb_spec (m_tries c - 1) 0) as [|_]; [lia|]. reflexivity.
Qed.

Lemma timeout_gives_up w c :
  fd_valid c = true -> m_tries c = 1 ->
  timeout_fires w c
  = (Return tt,
     call_parent (receive_failed_call "unable to connect to UDP tracker")
       (closed (set_tries 0 (set_taskTimeout None c)))).
Proof.
  intros Hfd Htries. unfold timeout_fires, receive_timeout, bind, get.
  cbn [modify set_taskTimeout m_taskTimeout m_tries].
  rewrite Htries. cbn [Z.sub Z.add Z.opp Z.pos_sub Z.eqb].
  unfold receive_failed, close_directly, bind, get.
  cbn [set_tries set_taskTimeout fd_valid]. rewrite Hfd. reflexivity.
Qed.

Lemma timeouts_count w :
  forall n c,
    fd_valid c = true -> m_tries c = Z.of_nat (S n) ->
    (forall k, (k <= n)%nat ->
       exists ck,
         timeouts w k c = (Return tt, ck) /\
         (k = O -> ck = c) /\
         fd_valid ck = true /\
         m_tries ck = Z.of_nat (S n - k) /\
         parent_calls ck = parent_calls c /\
         written ck = written c /\
         ((0 < k)%nat -> in_write ck = true /\ m_taskTimeout ck = Some (deadline w))) /\
    exists c',
      timeouts w (S n) c = (Return tt, c') /\
      fd_valid c' = false /\
      m_taskTimeout c' = None /\
      in_write c' = false /\
      written c' = written c /\
      parent_calls c'
      = parent_calls c ++ [receive_failed_call "unable to connect to UDP tracker"].
Proof.
  induction n as [|n IH]; intros c Hfd Htries.
  - split.
    + intros k Hk. assert (k = O) as -> by lia.
      exists c. repeat split; try assumption; try reflexivity; lia.
    + cbn [timeouts]. unfold bind.
      rewrite (timeout_gives_up w c Hfd Htries).
      eexists. split; [reflexivity|]. repeat split.
  - assert (m_tries c <> 1) as Hmore by lia.
    set (c1 := set_in_write true
                 (set_taskTimeout (Some (deadline w))
                    (set_tries (m_tries c - 1) (set_taskTimeout None c)))).
    assert (fd_valid c1 = true) as Hfd1 by exact Hfd.
    assert (m_tries c1 = Z.of_nat (S n)) as Htries1 by (cbn; lia).
    destruct (IH c1 Hfd1 Htries1) as (Hbefore & c' & Hrun & Hclosed & Htask & Hwrite
                                      & Hwritten & Hcalls).
    split.
    + intros [|k] Hk.
      * exists c. repeat split; try assumption; try reflexivity; lia.
      * destruct (Hbefore k ltac:(lia))
          as (ck & Hrunk & Hsame & Hfdk & Htriesk & Hcallsk & Hwrittenk & Harmed).
        exists ck. cbn [timeouts]. unfold bind.
        rewrite (timeout_rearms w c Hmore). fold c1.
        split; [exact Hrunk|]. split; [discriminate|]. split; [exact Hfdk|].
        split; [rewrite Htriesk; f_equal; lia|].
        split; [exact Hcallsk|]. split; [exact Hwrittenk|].
        intros _. destruct k as [|k].
        -- rewrite (Hsame eq_refl). split; reflexivity.
        -- apply Harmed. lia.
    + exists c'. cbn [timeouts]. unfold bind.
      rewrite (timeout_rearms w c Hmore). fold c1.
      cbn [timeouts] in Hrun. unfold bind in Hrun.
      split; [exact Hrun|]. repeat split; assumption.
Qed.

(** *** The handshake *)

Lemma prepare_connect_returns r u :
  exists u',
    prepare_connect_input r u = (Return tt, u') /\
    m_writeBuffer u' = be 8 magic_connection_id ++ be 4 0 ++ be 4 (to_uint32 r) /\
    m_action u' = 0 /\ m_transactionId u' = to_uint32 r /\
    m_connectionId u' = magic_connection_id /\ m_sendState u' = m_sendState u.
Proof.
  eexists. split; [reflexivity|].
  cbn [m_writeBuffer m_action m_transactionId m_connectionId m_sendState
       set_writeBuffer set_action set_transactionId set_connectionId].
  unfold reset, write_64, write_32. cbn [app].
  repeat split.
  replace (to_uint32 (to_uint32 r)) with (to_uint32 r)
    by (unfold to_uint32; rewrite Z.mod_mod by lia; reflexivity).
  rewrite <- app_assoc. reflexivity.
Qed.

Lemma event_write_sends c :
  fd_valid c = true -> m_writeBuffer (udp c) <> [] ->
  event_write c
  = (Return tt, set_in_write false (write_datagram (m_writeBuffer (udp c)) c)).
Proof.
  intros Hfd Hbuf. unfold event_write, buffers, bind, get. rewrite Hfd.
  cbn [ret]. unfold size_end.
  destruct (Z.eqb_spec (Z.of_nat (length (m_writeBuffer (udp c)))) 0) as [Hzero|_].
  - destruct (m_writeBuffer (udp c)); [contradiction|discriminate Hzero].
  - reflexivity.
Qed.

Lemma handshake w c0 r0 cid rest :
  fd_valid c0 = true ->
  0 <= cid < 2 ^ 64 ->
  exists c1 c2 c3 announce,
    on_udp (prepare_connect_input r0) c0 = (Return tt, c1) /\
    m_writeBuffer (udp c1)
      = be 8 magic_connection_id ++ be 4 0 ++ be 4 (to_uint32 r0) /\
    event_read w (Some (be 4 0 ++ be 4 (to_uint32 r0) ++ be 8 cid ++ rest)) c1
      = (Return tt, c2) /\
    m_connectionId (udp c2) = cid /\
    m_action (udp c2) = 1 /\
    m_tries c2 = udp_tries w /\
    m_taskTimeout c2 = Some (deadline w) /\
    in_write c2 = true /\
    parent_calls c2 = parent_calls c0 /\
    event_write c2 = (Return tt, c3) /\
    written c3 = written c0 ++ [announce] /\
    length announce = 98%nat /\
    slice 0 8 announce = be 8 cid /\
    in_write c3 = false.
Proof.
  intros Hfd Hcid.
  destruct (prepare_connect_returns r0 (udp c0))
    as (u1 & Hprep & Hbuf & Haction & Hid & _).
  set (c1 := set_udp (fun _ => u1) c0).
  assert (0 <= to_uint32 r0 < 2 ^ 32) as Hx
      by (unfold to_uint32; apply Z.mod_pos_bound; lia).
  destruct (connect_reply w c1 (to_uint32 r0) cid rest Hfd Haction Hid Hx Hcid)
    as (c2 & Hread & Hcid2 & Haction2 & _ & Hsize & Hslice & Htries & Htask & Hwrite
        & Hfd2 & Hcalls & Hwritten).
  exists c1, c2, (set_in_write false (write_datagram (m_writeBuffer (udp c2)) c2)),
    (m_writeBuffer (udp c2)).
  split; [unfold on_udp; rewrite Hprep; reflexivity|].
  split; [exact Hbuf|]. split; [exact Hread|].
  split; [exact Hcid2|]. split; [exact Haction2|]. split; [exact Htries|].
  split; [exact Htask|]. split; [exact Hwrite|]. split; [exact Hcalls|].
  split.
  { apply event_write_sends; [exact Hfd2|].
    intros Hnil. rewrite Hnil in Hsize. discriminate Hsize. }
  cbn [set_in_write write_datagram written in_write].
  rewrite Hwritten. repeat split; assumption.
Qed.

End TrackerUdpEventsFacts.

(** X16. The connect handshake. [prepare_connect_input] leaves the 16 bytes
    of the connect request: the magic connection id, action 0 and the
    transaction id. When a reply of at least 16 bytes with action 0 and
    that transaction id is read, [event_read] keeps the connection id of
    the reply, prepares the announce, queues the timeout again, resets the
    tries and asks to write, without calling the parent; [event_write] then
    sends a datagram of 98 bytes that begins with the connection id of the
    reply, and stops asking to write. *)
Theorem udp_connect_reply_starts_the_announce
    (w : TrackerUdpEvents.World) (c0 : TrackerUdpEvents.conn) (r0 cid : Z)
    (rest : list Z) :
  TrackerUdpEvents.fd_valid c0 = true ->
  0 <= cid < 2 ^ 64 ->
  exists c1 c2 c3 announce,
    TrackerUdpEvents.on_udp (TrackerUdp.prepare_connect_input r0) c0 = (Return tt, c1) /\
    TrackerUdp.m_writeBuffer (TrackerUdpEvents.udp c1)
      = ProtocolBuffer.be 8 TrackerUdp.magic_connection_id
        ++ ProtocolBuffer.be 4 0 ++ ProtocolBuffer.be 4 (to_uint32 r0) /\
    TrackerUdpEvents.event_read w
      (Some (ProtocolBuffer.be 4 0 ++ ProtocolBuffer.be 4 (to_uint32 r0)
             ++ ProtocolBuffer.be 8 cid ++ rest)) c1
      = (Return tt, c2) /\
    TrackerUdp.m_connectionId (TrackerUdpEvents.udp c2) = cid /\
    TrackerUdp.m_action (TrackerUdpEvents.udp c2) = 1 /\
    TrackerUdpEvents.m_tries c2 = TrackerUdpEvents.udp_tries w /\
    TrackerUdpEvents.m_taskTimeout c2 = Some (TrackerUdpEvents.deadline w) /\
    TrackerUdpEvents.in_write c2 = true /\
    TrackerUdpEvents.parent_calls c2 = TrackerUdpEvents.parent_calls c0 /\
    TrackerUdpEvents.event_write c2 = (Return tt, c3) /\
    TrackerUdpEvents.written c3 = TrackerUdpEvents.written c0 ++ [announce] /\
    length announce = 98%nat /\
    ProtocolBuffer.slice 0 8 announce = ProtocolBuffer.be 8 cid /\
    TrackerUdpEvents.in_write c3 = false.
Proof. apply TrackerUdpEventsFacts.handshake. Qed.

Lemma udp_connect_reply_starts_the_announce_witness :
  exists c2,
    TrackerUdpEvents.event_read TrackerUdpEvents.quiet_world
      (Some (ProtocolBuffer.be 4 0 ++ ProtocolBuffer.be 4 5
             ++ ProtocolBuffer.be 8 0x1122334455667788 ++ []))
      (TrackerUdpEvents.connecting TrackerUdpEvents.quiet_world 5)
      = (Return tt, c2) /\
    TrackerUdp.m_connectionId (TrackerUdpEvents.udp c2) = 0x1122334455667788.
Proof.
  destruct (udp_connect_reply_starts_the_announce TrackerUdpEvents.quiet_world
              (TrackerUdpEvents.connecting TrackerUdpEvents.quiet_world 5)
              5 0x1122334455667788 [] eq_refl ltac:(lia))
    as (c1 & c2 & _ & _ & Hprep & _ & Hread & Hcid & _).
  exists c2. split; [|exact Hcid].
  assert (c1 = TrackerUdpEvents.connecting TrackerUdpEvents.quiet_world 5) as <-
      by (inversion Hprep; reflexivity).
  exact Hread.
Defined.

(** X17. While the socket is open, a datagram that is shorter than 8 bytes
    or whose bytes 4 to 7 are not the transaction id of the request is
    ignored whatever its action: [event_read] returns and only the read
    buffer has changed; the parent is not called, nothing is closed and the
    timeout and the tries are as before. A failed read changes nothing. *)
Theorem udp_foreign_datagram_is_ignored
    (w : TrackerUdpEvents.World) (c : TrackerUdpEvents.conn) (bytes : list Z) :
  TrackerUdpEvents.fd_valid c = true ->
  (length bytes < 8)%nat \/
  ProtocolBuffer.be_value (ProtocolBuffer.slice 4 4 bytes) 0
    <> TrackerUdp.m_transactionId (TrackerUdpEvents.udp c) ->
  (exists pos,
     TrackerUdpEvents.event_read w (Some bytes) c
     = (Return tt, TrackerUdpEvents.at_position bytes pos c)) /\
  TrackerUdpEvents.event_read w None c = (Return tt, c).
Proof.
  intros Hfd Hforeign. split.
  - apply TrackerUdpEventsFacts.foreign_datagram; assumption.
  - unfold TrackerUdpEvents.event_read, TrackerUdpEvents.buffers, bind, get.
    rewrite Hfd. reflexivity.
Qed.

Lemma udp_foreign_datagram_is_ignored_witness :
  exists pos,
    TrackerUdpEvents.event_read TrackerUdpEvents.quiet_world
      (Some (ProtocolBuffer.be 4 0 ++ ProtocolBuffer.be 4 6 ++ ProtocolBuffer.be 8 99))
      (TrackerUdpEvents.connecting TrackerUdpEvents.quiet_world 5)
    = (Return tt,
       TrackerUdpEvents.at_position
         (ProtocolBuffer.be 4 0 ++ ProtocolBuffer.be 4 6 ++ ProtocolBuffer.be 8 99) pos
         (TrackerUdpEvents.connecting TrackerUdpEvents.quiet_world 5)).
Proof.
  apply (udp_foreign_datagram_is_ignored TrackerUdpEvents.quiet_world
           (TrackerUdpEvents.connecting TrackerUdpEvents.quiet_world 5)).
  - reflexivity.
  - right. vm_compute. discriminate.
Defined.

(** X18. While the announce is awaited, a reply with action 1 and the
    transaction id of the request sets the normal interval to the interval
    of the reply, the minimum interval to the default, the incomplete count
    to the leechers and the complete count to the seeders, closes the
    socket and calls [receive_success] of the parent once, with one address
    for every 6 whole bytes that follow the 20 bytes of the header, in
    order; bytes left over at the end are dropped. *)
Theorem udp_announce_reply_reports_the_peers
    (w : TrackerUdpEvents.World) (c : TrackerUdpEvents.conn)
    (x interval leechers seeders : Z) (peers : list Z) :
  TrackerUdpEvents.fd_valid c = true ->
  TrackerUdp.m_action (TrackerUdpEvents.udp c) = 1 ->
  TrackerUdp.m_transactionId (TrackerUdpEvents.udp c) = x ->
  0 <= x < 2 ^ 32 ->
  0 <= interval < 2 ^ 32 -> 0 <= leechers < 2 ^ 32 -> 0 <= seeders < 2 ^ 32 ->
  exists c' l,
    TrackerUdpEvents.event_read w
      (Some (ProtocolBuffer.be 4 1 ++ ProtocolBuffer.be 4 x
             ++ ProtocolBuffer.be 4 interval ++ ProtocolBuffer.be 4 leechers
             ++ ProtocolBuffer.be 4 seeders ++ peers)) c
      = (Return tt, c') /\
    TrackerUdpEvents.parent_calls c'
      = TrackerUdpEvents.parent_calls c ++ [TrackerUdpEvents.receive_success_call l] /\
    length l = (length peers / 6)%nat /\
    Forall (fun a => length a = 6%nat) l /\
    concat l = firstn (6 * (length peers / 6)) peers /\
    TrackerUdpEvents.m_normal_interval c' = interval /\
    TrackerUdpEvents.m_min_interval c' = TrackerUdpEvents.default_min_interval w /\
    TrackerUdpEvents.m_scrape_incomplete c' = leechers /\
    TrackerUdpEvents.m_scrape_complete c' = seeders /\
    TrackerUdpEvents.m_scrape_time_last c' = TrackerUdpEvents.now_seconds w /\
    TrackerUdpEvents.fd_valid c' = false /\
    TrackerUdpEvents.m_taskTimeout c' = None /\
    TrackerUdpEvents.in_read c' = false /\
    TrackerUdpEvents.in_write c' = false.
Proof.
  intros Hfd Haction Hid Hx Hinterval Hleechers Hseeders.
  destruct (TrackerUdpEventsFacts.compact_addresses_spec (length peers / 6) peers)
    as (Hn & Hall & Hcat).
  { pose proof (Nat.div_mod_eq (length peers) 6). lia. }
  eexists _, _. split.
  - apply (TrackerUdpEventsFacts.announce_reply w c x interval leechers seeders peers);
      assumption.
  - repeat split; assumption.
Qed.

Lemma udp_announce_reply_reports_the_peers_witness :
  exists c',
    TrackerUdpEvents.event_read TrackerUdpEvents.quiet_world
      (Some (ProtocolBuffer.be 4 1 ++ ProtocolBuffer.be 4 5
             ++ ProtocolBuffer.be 4 1800 ++ ProtocolBuffer.be 4 3
             ++ ProtocolBuffer.be 4 9 ++ [10; 0; 0; 1; 26; 225; 10; 0; 0; 2; 26; 226; 7]))
      (TrackerUdpEvents.set_udp (TrackerUdp.set_action 1)
         (TrackerUdpEvents.connecting TrackerUdpEvents.quiet_world 5))
      = (Return tt, c') /\
    TrackerUdpEvents.parent_calls c'
      = [TrackerUdpEvents.receive_success_call
           [[10; 0; 0; 1; 26; 225]; [10; 0; 0; 2; 26; 226]]].
Proof.
  destruct (udp_announce_reply_reports_the_peers TrackerUdpEvents.quiet_world
              (TrackerUdpEvents.set_udp (TrackerUdp.set_action 1)
                 (TrackerUdpEvents.connecting TrackerUdpEvents.quiet_world 5))
              5 1800 3 9 [10; 0; 0; 1; 26; 225; 10; 0; 0; 2; 26; 226; 7]
              eq_refl eq_refl eq_refl
              ltac:(lia) ltac:(lia) ltac:(lia) ltac:(lia))
    as (c' & l & Hread & Hcalls & _).
  exists c'. split; [exact Hread|].
  pose proof Hread as Hrun. vm_compute in Hrun.
  inversion Hrun as [Hc']. reflexivity.
Defined.

(** X19. While the socket is open, a reply with action 3 and the
    transaction id of the request closes the socket and calls
    [receive_failed] of the parent once, with the text of the reply after
    the words "received error message: ". *)
Theorem udp_error_reply_fails_the_request
    (w : TrackerUdpEvents.World) (c : TrackerUdpEvents.conn) (x : Z) (text : list Z) :
  TrackerUdpEvents.fd_valid c = true ->
  TrackerUdp.m_transactionId (TrackerUdpEvents.udp c) = x ->
  0 <= x < 2 ^ 32 ->
  exists c',
    TrackerUdpEvents.event_read w
      (Some (ProtocolBuffer.be 4 3 ++ ProtocolBuffer.be 4 x ++ text)) c
      = (Return tt, c') /\
    TrackerUdpEvents.parent_calls c'
      = TrackerUdpEvents.parent_calls c
        ++ [TrackerUdpEvents.receive_failed_call
              ("received error message: " ++ TrackerUdpEvents.string_of_bytes text)] /\
    TrackerUdpEvents.fd_valid c' = false /\
    TrackerUdpEvents.m_taskTimeout c' = None /\
    TrackerUdpEvents.in_read c' = false /\
    TrackerUdpEvents.in_write c' = false.
Proof.
  intros Hfd Hid Hx. eexists. split.
  - apply (TrackerUdpEventsFacts.error_reply w c x text); assumption.
  - repeat split.
Qed.

Lemma udp_error_reply_fails_the_request_witness :
  exists c',
    TrackerUdpEvents.event_read TrackerUdpEvents.quiet_world
      (Some (ProtocolBuffer.be 4 3 ++ ProtocolBuffer.be 4 5 ++ [110; 111]))
      (TrackerUdpEvents.connecting TrackerUdpEvents.quiet_world 5)
      = (Return tt, c') /\
    TrackerUdpEvents.parent_calls c'
      = [TrackerUdpEvents.receive_failed_call "received error message: no"].
Proof.
  destruct (udp_error_reply_fails_the_request TrackerUdpEvents.quiet_world
              (TrackerUdpEvents.connecting TrackerUdpEvents.quiet_world 5)
              5 [110; 111] eq_refl eq_refl ltac:(lia))
    as (c' & Hread & Hcalls & _).
  exists c'. split; [exact Hread|exact Hcalls].
Defined.

(** X20. With [n + 1] tries left and the socket open, the first [n]
    timeouts each queue the timeout again and ask to write, the parent is
    not called and the socket stays open; the timeout after them closes the
    socket and calls [receive_failed] of the parent once, with "unable to
    connect to UDP tracker". *)
Theorem udp_timeouts_give_up_after_the_tries
    (w : TrackerUdpEvents.World) (n : nat) (c : TrackerUdpEvents.conn) :
  TrackerUdpEvents.fd_valid c = true ->
  TrackerUdpEvents.m_tries c = Z.of_nat (S n) ->
  (forall k, (k <= n)%nat ->
     exists ck,
       TrackerUdpEvents.timeouts w k c = (Return tt, ck) /\
       TrackerUdpEvents.fd_valid ck = true /\
       TrackerUdpEvents.m_tries ck = Z.of_nat (S n - k) /\
       TrackerUdpEvents.parent_calls ck = TrackerUdpEvents.parent_calls c /\
       ((0 < k)%nat ->
        TrackerUdpEvents.in_write ck = true /\
        TrackerUdpEvents.m_taskTimeout ck = Some (TrackerUdpEvents.deadline w))) /\
  exists c',
    TrackerUdpEvents.timeouts w (S n) c = (Return tt, c') /\
    TrackerUdpEvents.fd_valid c' = false /\
    TrackerUdpEvents.m_taskTimeout c' = None /\
    TrackerUdpEvents.parent_calls c'
    = TrackerUdpEvents.parent_calls c
      ++ [TrackerUdpEvents.receive_failed_call "unable to connect to UDP tracker"].
Proof.
  intros Hfd Htries.
  destruct (TrackerUdpEventsFacts.timeouts_count w n c Hfd Htries)
    as (Hbefore & c' & Hrun & Hclosed & Htask & _ & _ & Hcalls).
  split.
  - intros k Hk.
    destruct (Hbefore k Hk) as (ck & Hrunk & _ & Hfdk & Htriesk & Hcallsk & _ & Harmed).
    exists ck. repeat split; try assumption; apply Harmed; assumption.
  - exists c'. repeat split; assumption.
Qed.

Lemma udp_timeouts_give_up_after_the_tries_witness :
  exists c',
    TrackerUdpEvents.timeouts TrackerUdpEvents.quiet_world 2
      (TrackerUdpEvents.connecting TrackerUdpEvents.quiet_world 5) = (Return tt, c') /\
    TrackerUdpEvents.parent_calls c'
    = [TrackerUdpEvents.receive_failed_call "unable to connect to UDP tracker"].
Proof.
  destruct (udp_timeouts_give_up_after_the_tries TrackerUdpEvents.quiet_world 1
              (TrackerUdpEvents.connecting TrackerUdpEvents.quiet_world 5)
              eq_refl eq_refl)
    as (_ & c' & Hrun & _ & _ & Hcalls).
  exists c'. split; [exact Hrun|exact Hcalls].
Defined.

(** ** TrackerHttp: the reply of the tracker *)

Module TrackerHttpReplyFacts.
Import TrackerHttp TrackerHttpReply.

Lemma quiet_ret : quiet (ret tt).
Proof. intros h. exists h. repeat split. Qed.

Lemma quiet_bind (m k : M TrackerHttp.t unit) :
  quiet m -> quiet k -> quiet (bind m (fun _ => k)).
Proof.
  intros Hm Hk h. destruct (Hm h) as (h1 & Hrun1 & Hc1 & Hd1 & He1).
  destruct (Hk h1) as (h2 & Hrun2 & Hc2 & Hd2 & He2).
  exists h2. unfold bind. rewrite Hrun1, Hrun2.
  repeat split; congruence.
Qed.

Lemma quiet_when c m : quiet m -> quiet (when c m).
Proof. intros Hm. destruct c; [exact Hm|apply quiet_ret]. Qed.

Lemma quiet_set_normal_interval v : quiet (set_normal_interval v).
Proof. intros h. eexists. repeat split. Qed.

Lemma quiet_set_min_interval v : quiet (set_min_interval v).
Proof. intros h. eexists. repeat split. Qed.

Lemma quiet_set_tracker_id v : quiet (set_tracker_id v).
Proof. intros h. eexists. repeat split. Qed.

Lemma quiet_set_scrape a b c : quiet (set_scrape a b c).
Proof. intros h. eexists. repeat split. Qed.

Lemma quiet_set_scrape_downloaded v : quiet (set_scrape_downloaded v).
Proof. intros h. eexists. repeat split. Qed.

Lemma quiet_set_scrape_complete v : quiet (set_scrape_complete v).
Proof. intros h. eexists. repeat split. Qed.

Lemma quiet_set_scrape_incomplete v : quiet (set_scrape_incomplete v).
Proof. intros h. eexists. repeat split. Qed.

Lemma quiet_process_failure ct object : quiet (process_failure ct object).
Proof.
  unfold process_failure.
  repeat (apply quiet_bind || apply quiet_when);
    first [apply quiet_set_normal_interval | apply quiet_set_min_interval
          | apply quiet_set_tracker_id | apply quiet_set_scrape
          | apply quiet_set_scrape_downloaded].
Qed.

Lemma quiet_reports (m k : M TrackerHttp.t unit) :
  quiet m -> reports k -> reports (bind m (fun _ => k)).
Proof.
  intros Hm Hk h. destruct (Hm h) as (h1 & Hrun1 & Hc1 & Hd1 & He1).
  destruct (Hk h1) as (h2 & call & Hrun2 & Hc2 & Hd2 & He2).
  exists h2, call. unfold bind. rewrite Hrun1, Hrun2.
  repeat split; congruence.
Qed.

Lemma reports_receive_failed msg : reports (receive_failed msg).
Proof.
  intros h. unfold receive_failed, bind, get. cbn [close_directly modify m_latest_event].
  destruct (m_latest_event h =? EVENT_SCRAPE); eexists _, _; repeat split.
Qed.

Lemma reports_process_success `{Defaults} ct object : reports (process_success ct object).
Proof.
  unfold process_success.
  apply quiet_reports.
  { destruct (has_key_value "interval" object); apply quiet_set_normal_interval. }
  apply quiet_reports.
  { destruct (has_key_value "min interval" object);
      [apply quiet_set_min_interval|apply quiet_set_normal_interval]. }
  apply quiet_reports; [apply quiet_when, quiet_set_tracker_id|].
  apply quiet_reports; [apply quiet_when, quiet_set_scrape|].
  apply quiet_reports; [apply quiet_when, quiet_set_scrape_downloaded|].
  destruct (negb (has_key "peers" object) && negb (has_key "peers6" object));
    [apply reports_receive_failed|].
  destruct (get_key "peers" object) as [[| | s | l | m]|];
    try destruct (bencode_error_of l);
    try apply reports_receive_failed;
    intros h; eexists _, _; repeat split.
Qed.

(** What [on_http] does with a quiet and with a reporting computation. *)
Lemma on_http_quiet m s :
  quiet m ->
  exists h',
    on_http m s = (Return tt, {| http := h';
                                 scrape_success_calls := scrape_success_calls s |}) /\
    parent_calls h' = parent_calls (http s) /\
    m_data h' = m_data (http s) /\
    m_latest_event h' = m_latest_event (http s).
Proof.
  intros Hm. destruct (Hm (http s)) as (h' & Hrun & Hrest).
  exists h'. unfold on_http. rewrite Hrun. split; [reflexivity|exact Hrest].
Qed.

Lemma on_http_reports m s :
  reports m ->
  exists s',
    on_http m s = (Return tt, s') /\
    m_data (http s') = false /\
    notifications s' = S (notifications s) /\
    m_latest_event (http s') = m_latest_event (http s).
Proof.
  intros Hm. destruct (Hm (http s)) as (h' & call & Hrun & Hcalls & Hdata & Hevent).
  eexists. unfold on_http. rewrite Hrun. split; [reflexivity|].
  unfold notifications. cbn [http scrape_success_calls].
  rewrite Hcalls, length_app. simpl. repeat split; try assumption. lia.
Qed.

Lemma process_scrape_notifies hash object s :
  exists s',
    process_scrape hash object s = (Return tt, s') /\
    m_data (http s') = false /\
    notifications s' = S (notifications s) /\
    m_latest_event (http s') = m_latest_event (http s).
Proof.
  unfold process_scrape.
  destruct (negb (has_key_map "files" object));
    [apply on_http_reports, reports_receive_failed|].
  destruct (negb (has_key_map hash _));
    [apply on_http_reports, reports_receive_failed|].
  set (stats := match get_key hash _ with Some o => o | None => o_none end).
  unfold bind.
  destruct (on_http_quiet
              (when (has_key_value "complete" stats)
                 (set_scrape_complete (Z.max (get_key_value "complete" stats) 0))) s)
    as (h1 & -> & Hc1 & Hd1 & He1);
    [apply quiet_when, quiet_set_scrape_complete|].
  match goal with
  | |- context [on_http ?m ?st] =>
      destruct (on_http_quiet m st) as (h2 & -> & Hc2 & Hd2 & He2);
        [apply quiet_when, quiet_set_scrape_incomplete|]
  end.
  match goal with
  | |- context [on_http ?m ?st] =>
      destruct (on_http_quiet m st) as (h3 & -> & Hc3 & Hd3 & He3);
        [apply quiet_when, quiet_set_scrape_downloaded|]
  end.
  cbn [http scrape_success_calls] in *.
  unfold on_http, receive_scrape_success.
  cbn [close_directly modify http scrape_success_calls].
  eexists. split; [reflexivity|].
  unfold notifications. cbn [http scrape_success_calls parent_calls m_data m_latest_event].
  repeat split; try congruence. rewrite Hc3, Hc2, Hc1. lia.
Qed.

Lemma receive_done_notifies `{Defaults} ct hash parsed dump s :
  m_data (http s) = true ->
  exists s',
    receive_done ct hash parsed dump s = (Return tt, s') /\
    m_data (http s') = false /\
    notifications s' = S (notifications s) /\
    m_latest_event (http s') = m_latest_event (http s).
Proof.
  intros Hdata. unfold receive_done, bind, get. rewrite Hdata. cbn [negb].
  destruct parsed as [b|]; [|apply on_http_reports, reports_receive_failed].
  destruct (negb (is_map b)); [apply on_http_reports, reports_receive_failed|].
  destruct (has_key "failure reason" b).
  - destruct (negb (m_latest_event (http s) =? EVENT_SCRAPE)); cbn [when ret].
    + destruct (on_http_quiet (process_failure ct b) s (quiet_process_failure ct b))
        as (h1 & -> & Hc1 & Hd1 & He1).
      match goal with
      | |- context [on_http ?m ?st] =>
          destruct (on_http_reports m st (reports_receive_failed _))
            as (s' & -> & Hd & Hn & He)
      end.
      exists s'. split; [reflexivity|]. split; [exact Hd|].
      unfold notifications in *. cbn [http scrape_success_calls] in *.
      split; [rewrite Hn, Hc1; reflexivity|congruence].
    + apply on_http_reports, reports_receive_failed.
  - destruct (m_latest_event (http s) =? EVENT_SCRAPE).
    + apply process_scrape_notifies.
    + apply on_http_reports, reports_process_success.
Qed.

Lemma receive_done_invalid `{Defaults} ct hash parsed dump s :
  m_data (http s) = false ->
  receive_done ct hash parsed dump s
  = (Throw (internal_error "TrackerHttp::receive_done() called on an invalid object"), s).
Proof. intros Hdata. unfold receive_done, bind, get. rewrite Hdata. reflexivity. Qed.

Lemma process_failure_intervals ct object h :
  exists h',
    process_failure ct object h = (Return tt, h') /\
    parent_calls h' = parent_calls h /\
    m_data h' = m_data h /\
    m_latest_event h' = m_latest_event h /\
    m_normal_interval h' =
      (if has_key_value "interval" object
       then get_key_value "interval" object else m_normal_interval h) /\
    m_min_interval h' =
      (if has_key_value "min interval" object
       then get_key_value "min interval" object else m_min_interval h).
Proof.
  unfold process_failure, when, bind.
  destruct (has_key_value "interval" object);
    destruct (has_key_value "min interval" object);
    destruct (has_key_string "tracker id" object);
    destruct (has_key_value "complete" object && has_key_value "incomplete" object);
    destruct (has_key_value "downloaded" object);
    eexists; repeat split.
Qed.

Lemma failure_reason_reply `{Defaults} ct hash b dump s :
  m_data (http s) = true ->
  is_map b = true ->
  has_key "failure reason" b = true ->
  exists s',
    receive_done ct hash (Some b) dump s = (Return tt, s') /\
    scrape_success_calls s' = scrape_success_calls s /\
    m_data (http s') = false /\
    (m_latest_event (http s) = EVENT_SCRAPE ->
     parent_calls (http s') =
       parent_calls (http s)
       ++ [receive_scrape_failed_call
             ("Failure reason " ++ double_quote
              ++ (if has_key_string "failure reason" b
                  then get_key_string "failure reason" b
                  else "failure reason not a string")
              ++ double_quote)] /\
     m_normal_interval (http s') = m_normal_interval (http s) /\
     m_min_interval (http s') = m_min_interval (http s) /\
     m_tracker_id (http s') = m_tracker_id (http s) /\
     m_scrape_complete (http s') = m_scrape_complete (http s) /\
     m_scrape_incomplete (http s') = m_scrape_incomplete (http s) /\
     m_scrape_downloaded (http s') = m_scrape_downloaded (http s)) /\
    (m_latest_event (http s) <> EVENT_SCRAPE ->
     parent_calls (http s') =
       parent_calls (http s)
       ++ [receive_failed_call
             ("Failure reason " ++ double_quote
              ++ (if has_key_string "failure reason" b
                  then get_key_string "failure reason" b
                  else "failure reason not a string")
              ++ double_quote)] /\
     m_normal_interval (http s') =
       (if has_key_value "interval" b
        then get_key_value "interval" b else m_normal_interval (http s)) /\
     m_min_interval (http s') =
       (if has_key_value "min interval" b
        then get_key_value "min interval" b else m_min_interval (http s))).
Proof.
  intros Hdata Hmap Hreason.
  unfold receive_done, bind, get. rewrite Hdata, Hmap, Hreason. cbn [negb].
  destruct (Z.eqb_spec (m_latest_event (http s)) EVENT_SCRAPE) as [Hscrape|Hannounce];
    cbn [negb when ret].
  - unfold on_http, receive_failed, bind, get.
    cbn [close_directly modify m_latest_event]. rewrite Hscrape. cbn [Z.eqb Pos.eqb EVENT_SCRAPE].
    eexists. split; [reflexivity|].
    cbn [http scrape_success_calls]. split; [reflexivity|]. split; [reflexivity|].
    split; [|intros Hne; exfalso; apply Hne; reflexivity].
    intros _. repeat split.
  - destruct (process_failure_intervals ct b (http s))
      as (h1 & Hrun & Hcalls & Hd1 & Hevent & Hnormal & Hmin).
    unfold on_http at 1. rewrite Hrun.
    unfold on_http, receive_failed, bind, get.
    cbn [close_directly modify m_latest_event http scrape_success_calls].
    rewrite Hevent.
    destruct (Z.eqb_spec (m_latest_event (http s)) EVENT_SCRAPE) as [|_]; [contradiction|].
    eexists. split; [reflexivity|].
    cbn [http scrape_success_calls call_parent modify parent_calls m_normal_interval
         m_min_interval m_data].
    split; [reflexivity|]. split; [reflexivity|].
    split; [intros Heq; contradiction|].
    intros _. rewrite Hcalls. repeat split; assumption.
Qed.

End TrackerHttpReplyFacts.

(** X21. [receive_done] on a tracker without a request in flight raises
    internal_error and changes nothing. With a request in flight it
    returns, whatever the reply (unparsable, not a map, a failure, a scrape
    or an announce response): the request is closed, the event is as
    before and exactly one call has been made on the parent
    ([receive_success], [receive_failed], [receive_scrape_failed] or
    [receive_scrape_success]). *)
Theorem receive_done_notifies_the_parent_once
    `{TrackerHttp.Defaults} (cachedTime : Z) (hash : string)
    (parsed : option TrackerHttp.Object) (dump : string) (s : TrackerHttpReply.t) :
  (TrackerHttp.m_data (TrackerHttpReply.http s) = false ->
   TrackerHttpReply.receive_done cachedTime hash parsed dump s
   = (Throw (internal_error "TrackerHttp::receive_done() called on an invalid object"),
      s)) /\
  (TrackerHttp.m_data (TrackerHttpReply.http s) = true ->
   exists s',
     TrackerHttpReply.receive_done cachedTime hash parsed dump s = (Return tt, s') /\
     TrackerHttp.m_data (TrackerHttpReply.http s') = false /\
     TrackerHttpReply.notifications s' = S (TrackerHttpReply.notifications s) /\
     TrackerHttp.m_latest_event (TrackerHttpReply.http s')
     = TrackerHttp.m_latest_event (TrackerHttpReply.http s)).
Proof.
  split.
  - apply TrackerHttpReplyFacts.receive_done_invalid.
  - apply TrackerHttpReplyFacts.receive_done_notifies.
Qed.

Lemma receive_done_notifies_the_parent_once_witness :
  exists s',
    TrackerHttpReply.receive_done (H := TrackerHttpReply.usual_defaults) 1700000000 "hash"
      (Some (TrackerHttp.o_map [("files"%string, TrackerHttp.o_map [])])) ""
      TrackerHttpReply.scraping
      = (Return tt, s') /\
    TrackerHttpReply.notifications s' = 1%nat.
Proof.
  destruct (proj2 (receive_done_notifies_the_parent_once
                     (H := TrackerHttpReply.usual_defaults) 1700000000 "hash"
                     (Some (TrackerHttp.o_map [("files"%string, TrackerHttp.o_map [])]))
                     "" TrackerHttpReply.scraping) eq_refl)
    as (s' & Hrun & _ & Hcount & _).
  exists s'. split; [exact Hrun|exact Hcount].
Defined.

(** X22. A reply that is a map with the key [failure reason] is reported as
    a failure, with the reason between double quotes after the words
    "Failure reason", and never as a success, whatever else the map holds.
    For an announce the call is [receive_failed], and the intervals of the
    reply are kept when the reply has them: an interval that is absent
    leaves the tracker's value, not the default. For a scrape the call is
    [receive_scrape_failed] and the intervals, the tracker id and the
    scrape counters are untouched. *)
Theorem failure_reason_is_reported
    `{TrackerHttp.Defaults} (cachedTime : Z) (hash : string)
    (b : TrackerHttp.Object) (dump : string) (s : TrackerHttpReply.t) :
  TrackerHttp.m_data (TrackerHttpReply.http s) = true ->
  TrackerHttpReply.is_map b = true ->
  TrackerHttp.has_key "failure reason" b = true ->
  exists s',
    TrackerHttpReply.receive_done cachedTime hash (Some b) dump s = (Return tt, s') /\
    TrackerHttpReply.scrape_success_calls s' = TrackerHttpReply.scrape_success_calls s /\
    TrackerHttp.m_data (TrackerHttpReply.http s') = false /\
    (TrackerHttp.m_latest_event (TrackerHttpReply.http s) = TrackerHttp.EVENT_SCRAPE ->
     TrackerHttp.parent_calls (TrackerHttpReply.http s') =
       TrackerHttp.parent_calls (TrackerHttpReply.http s)
       ++ [TrackerHttp.receive_scrape_failed_call
             ("Failure reason " ++ TrackerHttpReply.double_quote
              ++ (if TrackerHttp.has_key_string "failure reason" b
                  then TrackerHttp.get_key_string "failure reason" b
                  else "failure reason not a string")
              ++ TrackerHttpReply.double_quote)] /\
     TrackerHttp.m_normal_interval (TrackerHttpReply.http s')
       = TrackerHttp.m_normal_interval (TrackerHttpReply.http s) /\
     TrackerHttp.m_min_interval (TrackerHttpReply.http s')
       = TrackerHttp.m_min_interval (TrackerHttpReply.http s) /\
     TrackerHttp.m_tracker_id (TrackerHttpReply.http s')
       = TrackerHttp.m_tracker_id (TrackerHttpReply.http s) /\
     TrackerHttp.m_scrape_complete (TrackerHttpReply.http s')
       = TrackerHttp.m_scrape_complete (TrackerHttpReply.http s) /\
     TrackerHttp.m_scrape_incomplete (TrackerHttpReply.http s')
       = TrackerHttp.m_scrape_incomplete (TrackerHttpReply.http s) /\
     TrackerHttp.m_scrape_downloaded (TrackerHttpReply.http s')
       = TrackerHttp.m_scrape_downloaded (TrackerHttpReply.http s)) /\
    (TrackerHttp.m_latest_event (TrackerHttpReply.http s) <> TrackerHttp.EVENT_SCRAPE ->
     TrackerHttp.parent_calls (TrackerHttpReply.http s') =
       TrackerHttp.parent_calls (TrackerHttpReply.http s)
       ++ [TrackerHttp.receive_failed_call
             ("Failure reason " ++ TrackerHttpReply.double_quote
              ++ (if TrackerHttp.has_key_string "failure reason" b
                  then TrackerHttp.get_key_string "failure reason" b
                  else "failure reason not a string")
              ++ TrackerHttpReply.double_quote)] /\
     TrackerHttp.m_normal_interval (TrackerHttpReply.http s') =
       (if TrackerHttp.has_key_value "interval" b
        then TrackerHttp.get_key_value "interval" b
        else TrackerHttp.m_normal_interval (TrackerHttpReply.http s)) /\
     TrackerHttp.m_min_interval (TrackerHttpReply.http s') =
       (if TrackerHttp.has_key_value "min interval" b
        then TrackerHttp.get_key_value "min interval" b
        else TrackerHttp.m_min_interval (TrackerHttpReply.http s))).
Proof. apply TrackerHttpReplyFacts.failure_reason_reply. Qed.

Lemma failure_reason_is_reported_witness :
  exists s',
    TrackerHttpReply.receive_done (H := TrackerHttpReply.usual_defaults) 1700000000 "hash"
      (Some TrackerHttpReply.failure_response) "" TrackerHttpReply.announcing
      = (Return tt, s') /\
    TrackerHttp.m_normal_interval (TrackerHttpReply.http s') = 900 /\
    TrackerHttp.m_min_interval (TrackerHttpReply.http s') = 0.
Proof.
  destruct (failure_reason_is_reported (H := TrackerHttpReply.usual_defaults)
              1700000000 "hash" TrackerHttpReply.failure_response ""
              TrackerHttpReply.announcing eq_refl eq_refl eq_refl)
    as (s' & Hrun & _ & _ & _ & Hannounce).
  destruct Hannounce as (_ & Hnormal & Hmin); [discriminate|].
  exists s'. split; [exact Hrun|]. split; [exact Hnormal|exact Hmin].
Defined.

(** ** The library's entry points *)

Module TorrentFacts.
Import Torrent.

Lemma descriptors_split open_max :
  0 <= open_max < 2 ^ 32 ->
  let files := calculate_max_open_files open_max in
  let reserved := calculate_reserved open_max in
  4 <= files <= 256 /\ 16 <= reserved <= 256 /\
  (20 <= open_max -> files + reserved <= open_max) /\
  (open_max < 20 -> files + reserved = 20).
Proof.
  intros Hrange. unfold calculate_max_open_files, calculate_reserved.
  destruct (Z.leb_spec 8096 open_max); [lia|].
  destruct (Z.leb_spec 1024 open_max); [lia|].
  destruct (Z.leb_spec 512 open_max); [lia|].
  destruct (Z.leb_spec 128 open_max); lia.
Qed.

Lemma initialize_sets open_max :
  0 <= open_max < 2 ^ 32 ->
  exists m,
    initialize open_max None = (Return tt, Some m) /\
    max_open_files m = calculate_max_open_files open_max /\
    (20 <= open_max ->
     max_size m + max_open_files m + calculate_reserved open_max = open_max /\
     0 <= max_size m) /\
    (open_max < 20 -> max_size m = 2 ^ 32 - 20 + open_max).
Proof.
  intros Hrange.
  assert (2 ^ 32 = 4294967296) as H32 by reflexivity.
  destruct (descriptors_split open_max Hrange) as (Hfiles & Hreserved & Hfits & Hsmall).
  cbv zeta in Hfiles, Hreserved, Hfits, Hsmall.
  assert (to_uint32 open_max = open_max) as Hopen
      by (unfold to_uint32; apply Z.mod_small; lia).
  eexists. unfold initialize, bind, get, put. rewrite Hopen.
  split; [reflexivity|]. cbn [max_size max_open_files].
  split; [reflexivity|]. split.
  - intros Hbig. specialize (Hfits Hbig).
    unfold to_uint32. rewrite Z.mod_small by lia. lia.
  - intros Hlittle. specialize (Hsmall Hlittle). unfold to_uint32.
    replace (open_max - calculate_max_open_files open_max - calculate_reserved open_max)
      with (open_max - 20) by lia.
    rewrite <- (Z.mod_add _ 1) by lia. rewrite Z.mod_small by lia. lia.
Qed.

End TorrentFacts.

(** X23. [initialize] on a library that is not initialized creates the
    manager with the limit of open files that [calculate_max_open_files]
    gives for the number of descriptors. With 20 descriptors or more the
    descriptors are split exactly: the connection limit, the open files and
    the reserve add up to the number of descriptors, and the connection
    limit is not negative. With fewer than 20 the subtraction wraps around:
    the connection limit is 2^32 - 20 more than the number of descriptors.
    A second [initialize] raises internal_error and changes nothing, and
    so does [cleanup] on a library that is not initialized; after
    [cleanup] the library can be initialized again. *)
Theorem initialize_splits_the_descriptors (open_max : Z) :
  0 <= open_max < 2 ^ 32 ->
  exists m,
    Torrent.initialize open_max None = (Return tt, Some m) /\
    Torrent.max_open_files m = Torrent.calculate_max_open_files open_max /\
    (20 <= open_max ->
     Torrent.max_size m + Torrent.max_open_files m + Torrent.calculate_reserved open_max
     = open_max /\
     0 <= Torrent.max_size m) /\
    (open_max < 20 -> Torrent.max_size m = 2 ^ 32 - 20 + open_max) /\
    Torrent.initialize open_max (Some m) =
      (Throw (internal_error
         "torrent::initialize(...) called but the library has already been initialized"),
       Some m) /\
    Torrent.cleanup (Some m) = (Return tt, None) /\
    Torrent.cleanup None =
      (Throw (internal_error
         "torrent::cleanup() called but the library is not initialized."), None).
Proof.
  intros Hrange.
  destruct (TorrentFacts.initialize_sets open_max Hrange)
    as (m & Hrun & Hfiles & Hsplit & Hwrap).
  exists m. repeat split; try assumption; apply Hsplit; assumption.
Qed.

Lemma initialize_splits_the_descriptors_witness :
  exists m,
    Torrent.initialize 1024 None = (Return tt, Some m) /\
    Torrent.max_size m = 768 /\ Torrent.max_open_files m = 128.
Proof.
  destruct (initialize_splits_the_descriptors 1024 ltac:(lia))
    as (m & Hrun & Hfiles & Hsplit & _).
  exists m. split; [exact Hrun|].
  destruct (Hsplit ltac:(lia)) as (Hsum & _).
  rewrite Hfiles in *. cbn in Hsum. cbn. split; [lia|reflexivity].
Defined.

(** ** The tick of the ResourceManager *)

Module ResourceManagerTickFacts.
Import ResourceManagerTick.

Section Queues.
Context {Q : Type} `{ChokeQueue Q}.

Lemma queue_of_set_queue is_up q (g : @group Q) : queue_of is_up (set_queue is_up q g) = q.
Proof. destruct is_up; reflexivity. Qed.

Lemma other_queue_of_set_queue is_up q (g : @group Q) :
  queue_of (negb is_up) (set_queue is_up q g) = queue_of (negb is_up) g.
Proof. destruct is_up; reflexivity. Qed.

Lemma sum_at_agree is_up (gs1 gs2 : list (@group Q)) order :
  (forall i, In i order -> nth_error gs1 i = nth_error gs2 i) ->
  sum_at is_up gs1 order = sum_at is_up gs2 order.
Proof.
  induction order as [|i order IH]; intros Hagree; [reflexivity|].
  cbn [sum_at fold_right]. fold (sum_at is_up gs1 order). fold (sum_at is_up gs2 order).
  rewrite IH by (intros j Hj; apply Hagree; right; exact Hj).
  unfold unchoked_at. rewrite (Hagree i (or_introl eq_refl)). reflexivity.
Qed.

Lemma sum_at_permutation is_up (gs : list (@group Q)) o1 o2 :
  Permutation o1 o2 -> sum_at is_up gs o1 = sum_at is_up gs o2.
Proof.
  induction 1 as [|i o1 o2 _ IH|i j o|o1 o2 o3 _ IH1 _ IH2]; cbn [sum_at fold_right] in *.
  - reflexivity.
  - unfold sum_at in IH. rewrite IH. reflexivity.
  - lia.
  - congruence.
Qed.

Lemma sum_at_seq is_up :
  forall (l pre : list (@group Q)),
    sum_at is_up (pre ++ l) (seq (length pre) (length l)) = total_unchoked is_up l.
Proof.
  induction l as [|g l IH]; intros pre; [reflexivity|].
  cbn [length seq sum_at fold_right total_unchoked].
  unfold unchoked_at at 1. rewrite nth_error_app2 by lia. rewrite Nat.sub_diag.
  cbn [nth_error]. f_equal.
  specialize (IH (pre ++ [g])). rewrite <- app_assoc, length_app in IH. cbn in IH.
  replace (length pre + 1)%nat with (S (length pre)) in IH by lia. exact IH.
Qed.

Lemma sum_at_all is_up (gs : list (@group Q)) order :
  Permutation order (seq 0 (length gs)) ->
  sum_at is_up gs order = total_unchoked is_up gs.
Proof.
  intros Hperm. rewrite (sum_at_permutation is_up gs _ _ Hperm).
  apply (sum_at_seq is_up gs []).
Qed.

Lemma unchoked_at_nonneg_total is_up :
  forall (gs : list (@group Q)),
    (forall i, (i < length gs)%nat -> 0 <= unchoked_at is_up gs i) ->
    Forall (fun g => 0 <= size_unchoked (queue_of is_up g)) gs.
Proof.
  intros gs Hall. apply Forall_forall. intros g Hin.
  destruct (In_nth_error _ _ Hin) as [i Hi].
  assert (Hlt : (i < length gs)%nat) by (apply nth_error_Some; congruence).
  specialize (Hall i Hlt). unfold unchoked_at in Hall. rewrite Hi in Hall. exact Hall.
Qed.

Lemma total_unchoked_map is_up (gs : list (@group Q)) :
  total_unchoked is_up gs =
  fold_right (fun q acc => size_unchoked q + acc) 0 (map (queue_of is_up) gs).
Proof. induction gs as [|g gs IH]; cbn; [reflexivity|]. unfold total_unchoked in IH. now rewrite IH. Qed.

Lemma same_queues_total is_up (gs1 gs2 : list (@group Q)) :
  (forall j, option_map (queue_of is_up) (nth_error gs1 j)
             = option_map (queue_of is_up) (nth_error gs2 j)) ->
  total_unchoked is_up gs1 = total_unchoked is_up gs2.
Proof.
  intros Hsame. rewrite !total_unchoked_map. f_equal.
  apply nth_error_ext. intros j. rewrite !nth_error_map. apply Hsame.
Qed.

Lemma accumulate_from is_up :
  forall (gs : list (@group Q)) acc,
    Forall (fun g => 0 <= size_unchoked (queue_of is_up g)) gs ->
    0 <= acc -> acc + total_unchoked is_up gs < 2 ^ 32 ->
    fold_left (fun sum g => to_uint32 (sum + size_unchoked (queue_of is_up g))) gs acc
    = acc + total_unchoked is_up gs.
Proof.
  induction gs as [|g gs IH]; intros acc Hpos Hacc Hsum; cbn [fold_left total_unchoked fold_right].
  - lia.
  - apply Forall_cons_iff in Hpos. destruct Hpos as [Hg Hpos].
    fold (total_unchoked is_up gs) in *. cbn [total_unchoked fold_right] in Hsum.
    fold (total_unchoked is_up gs) in Hsum.
    assert (Htail : 0 <= total_unchoked is_up gs).
    { clear - Hpos. induction Hpos; cbn; [lia|]. fold (total_unchoked is_up l). lia. }
    assert (Hwrap : to_uint32 (acc + size_unchoked (queue_of is_up g))
                    = acc + size_unchoked (queue_of is_up g)).
    { unfold to_uint32. apply Z.mod_small. lia. }
    rewrite Hwrap. rewrite IH by (try assumption; lia). lia.
Qed.

Lemma accumulate_total is_up (gs : list (@group Q)) :
  Forall (fun g => 0 <= size_unchoked (queue_of is_up g)) gs ->
  total_unchoked is_up gs < 2 ^ 32 ->
  accumulate_unchoked is_up gs = total_unchoked is_up gs.
Proof.
  intros Hpos Hsum. unfold accumulate_unchoked.
  rewrite accumulate_from by (try assumption; lia). lia.
Qed.

Lemma order_positions (gs : list (@group Q)) order :
  Permutation order (seq 0 (length gs)) ->
  NoDup order /\ (forall i, In i order -> (i < length gs)%nat) /\
  length order = length gs.
Proof.
  intros Hperm. split; [|split].
  - apply (Permutation_NoDup (Permutation_sym Hperm)). apply seq_NoDup.
  - intros i Hi. apply (Permutation_in _ Hperm) in Hi. apply in_seq in Hi. lia.
  - rewrite (Permutation_length Hperm). apply length_seq.
Qed.

Lemma balance_loop_weight is_up :
  forall order quota weight change (gs : list (@group Q)),
    (forall i, In i order -> (i < length gs)%nat) ->
    exists change' gs',
      balance_loop is_up order quota weight change gs
        = (Return (to_uint32 (weight - Z.of_nat (length order)), change'), gs') \/
      order = [] /\ balance_loop is_up order quota weight change gs
        = (Return (weight, change'), gs').
Proof.
  induction order as [|i rest IH]; intros quota weight change gs Hrange.
  - exists change, gs. right. split; reflexivity.
  - assert (Hi : (i < length gs)%nat) by (apply Hrange; left; reflexivity).
    destruct (nth_error gs i) as [g|] eqn:Hg; [|apply nth_error_None in Hg; lia].
    cbn [balance_loop]. rewrite Hg.
    destruct (cycle _ (queue_of is_up g)) as [d q].
    set (gs1 := ResourceManager.update_at (fun _ => set_queue is_up q g) i gs).
    destruct (IH (to_uint32 (quota - size_unchoked q)) (to_uint32 (weight - 1))
                 (change + d) gs1) as (change' & gs' & [Hloop|[-> Hloop]]).
    { intros j Hj. unfold gs1. rewrite ResourceManagerLayout.length_update_at.
      apply Hrange. right. exact Hj. }
    + exists change', gs'. left. rewrite Hloop. f_equal. f_equal. f_equal.
      unfold to_uint32. rewrite Zminus_mod_idemp_l. f_equal.
      cbn [length]. lia.
    + exists change', gs'. left. rewrite Hloop. reflexivity.
Qed.

Lemma balance_unchoked_mismatch is_up weight max_unchoked order (gs : list (@group Q)) :
  Permutation order (seq 0 (length gs)) ->
  gs <> [] ->
  to_uint32 max_unchoked <> 0 ->
  Z.of_nat (length gs) < 2 ^ 32 ->
  to_uint32 weight <> Z.of_nat (length gs) ->
  exists gs',
    balance_unchoked weight max_unchoked is_up order gs
      = (Throw (internal_error
                  "ResourceManager::balance_unchoked(...) weight did not reach zero."),
         gs').
Proof.
  intros Hperm Hne Hmax Hlen Hweight.
  destruct (order_positions gs order Hperm) as (_ & Hrange & Hsize).
  unfold balance_unchoked.
  destruct (Z.eqb_spec (to_uint32 max_unchoked) 0) as [|_]; [contradiction|].
  destruct (balance_loop_weight is_up order (to_uint32 max_unchoked) (to_uint32 weight) 0
              gs Hrange) as (change' & gs' & [Hloop|[-> _]]).
  - rewrite Hloop, Hsize.
    assert (Hw : 0 <= to_uint32 weight < 2 ^ 32)
      by (unfold to_uint32; apply Z.mod_pos_bound; lia).
    assert (Hleft : to_uint32 (to_uint32 weight - Z.of_nat (length gs)) <> 0).
    { unfold to_uint32 at 1. intros Hzero.
      apply Z.mod_divide in Hzero; [|lia]. destruct Hzero as [k Hk]. nia. }
    destruct (Z.eqb_spec (to_uint32 (to_uint32 weight - Z.of_nat (length gs))) 0);
      [contradiction|].
    exists gs'. reflexivity.
  - destruct gs; [contradiction|discriminate].
Qed.

Section Balanced.
Hypothesis Hcycle : cycle_keeps_quota.

Lemma balance_loop_spec is_up :
  forall order quota change (gs : list (@group Q)),
    NoDup order ->
    (forall i, In i order -> (i < length gs)%nat) ->
    0 <= quota < 2 ^ 32 ->
    Z.of_nat (length order) < 2 ^ 32 ->
    exists left gs',
      balance_loop is_up order quota (Z.of_nat (length order)) change gs
        = (Return (0, change + sum_at is_up gs' order - sum_at is_up gs order), gs') /\
      0 <= left <= quota /\
      length gs' = length gs /\
      (forall j, ~ In j order -> nth_error gs' j = nth_error gs j) /\
      (forall j, option_map (queue_of (negb is_up)) (nth_error gs' j)
                 = option_map (queue_of (negb is_up)) (nth_error gs j)) /\
      sum_at is_up gs' order = quota - left /\
      (forall i, In i order -> 0 <= unchoked_at is_up gs' i).
Proof.
  induction order as [|i rest IH]; intros quota change gs Hnodup Hrange Hquota Hlen.
  - exists quota, gs. cbn [balance_loop length Z.of_nat sum_at fold_right].
    repeat split; try lia; try reflexivity.
    + f_equal. f_equal. f_equal. lia.
    + intros i [].
  - apply NoDup_cons_iff in Hnodup. destruct Hnodup as [Hfresh Hnodup].
    assert (Hi : (i < length gs)%nat) by (apply Hrange; left; reflexivity).
    destruct (nth_error gs i) as [g|] eqn:Hg; [|apply nth_error_None in Hg; lia].
    cbn [length] in Hlen |- *.
    set (weight := Z.of_nat (S (length rest))) in *.
    assert (Hweight : 1 <= weight) by (unfold weight; lia).
    cbn [balance_loop]. rewrite Hg.
    destruct (Z.eqb_spec weight 0) as [Hzero|_]; [lia|]. cbn [negb].
    assert (Halloc : 0 <= quota / weight <= quota).
    { split; [apply Z.div_pos; lia|].
      apply Z.div_le_upper_bound; [lia|]. nia. }
    destruct (Hcycle (quota / weight) (queue_of is_up g) (proj1 Halloc)) as [Hsize Hdelta].
    destruct (cycle (quota / weight) (queue_of is_up g)) as [d q] eqn:Hrun.
    cbn [fst snd] in Hsize, Hdelta.
    assert (Hq1 : to_uint32 (quota - size_unchoked q) = quota - size_unchoked q).
    { unfold to_uint32. apply Z.mod_small. lia. }
    assert (Hw1 : to_uint32 (weight - 1) = Z.of_nat (length rest)).
    { unfold to_uint32, weight. rewrite Z.mod_small; lia. }
    rewrite Hq1, Hw1.
    set (gs1 := ResourceManager.update_at (fun _ => set_queue is_up q g) i gs).
    assert (Hlen1 : length gs1 = length gs) by apply ResourceManagerLayout.length_update_at.
    destruct (IH (quota - size_unchoked q) (change + d) gs1 Hnodup) as
      (left & gs' & Hloop & Hleft & Hlen' & Hout & Hother & Hsum & Hpos).
    { intros j Hj. rewrite Hlen1. apply Hrange. right. exact Hj. }
    { lia. }
    { lia. }
    assert (Hat1 : forall j, nth_error gs1 j =
                     if (j =? i)%nat then Some (set_queue is_up q g) else nth_error gs j).
    { intros j. unfold gs1. rewrite ResourceManagerFacts.nth_error_update_at.
      destruct (Nat.eqb_spec j i) as [->|_]; [rewrite Hg|]; reflexivity. }
    assert (Hhere : nth_error gs' i = Some (set_queue is_up q g)).
    { rewrite (Hout i Hfresh), Hat1, Nat.eqb_refl. reflexivity. }
    assert (Hsize_here : unchoked_at is_up gs' i = size_unchoked q).
    { unfold unchoked_at. rewrite Hhere, queue_of_set_queue. reflexivity. }
    assert (Hold_here : unchoked_at is_up gs i = size_unchoked (queue_of is_up g)).
    { unfold unchoked_at. rewrite Hg. reflexivity. }
    assert (Hrest : sum_at is_up gs1 rest = sum_at is_up gs rest).
    { apply sum_at_agree. intros j Hj. rewrite Hat1.
      destruct (Nat.eqb_spec j i) as [->|_]; [contradiction|reflexivity]. }
    exists left, gs'. rewrite Hloop.
    cbn [sum_at fold_right]. fold (sum_at is_up gs' rest). fold (sum_at is_up gs rest).
    rewrite Hsize_here, Hold_here, Hrest in *.
    split; [f_equal; f_equal; f_equal; lia|].
    split; [lia|]. split; [lia|].
    split.
    { intros j Hj. rewrite Hout by (intros Hin; apply Hj; right; exact Hin).
      rewrite Hat1. destruct (Nat.eqb_spec j i) as [->|_]; [|reflexivity].
      exfalso. apply Hj. left. reflexivity. }
    split.
    { intros j. rewrite Hother, Hat1.
      destruct (Nat.eqb_spec j i) as [->|_]; [|reflexivity].
      rewrite Hg. cbn [option_map]. rewrite other_queue_of_set_queue. reflexivity. }
    split; [lia|].
    intros j [<-|Hj]; [rewrite Hsize_here; lia|apply Hpos; exact Hj].
Qed.

Lemma balance_unchoked_limit is_up max_unchoked order (gs : list (@group Q)) :
  Permutation order (seq 0 (length gs)) ->
  0 < max_unchoked < 2 ^ 32 ->
  Z.of_nat (length gs) < 2 ^ 32 ->
  exists gs',
    balance_unchoked (Z.of_nat (length gs)) max_unchoked is_up order gs
      = (Return (total_unchoked is_up gs' - total_unchoked is_up gs), gs') /\
    length gs' = length gs /\
    map (queue_of (negb is_up)) gs' = map (queue_of (negb is_up)) gs /\
    Forall (fun g => 0 <= size_unchoked (queue_of is_up g)) gs' /\
    0 <= total_unchoked is_up gs' <= max_unchoked.
Proof.
  intros Hperm Hmax Hlen.
  destruct (order_positions gs order Hperm) as (Hnodup & Hrange & Hsize).
  unfold balance_unchoked.
  assert (Hm : to_uint32 max_unchoked = max_unchoked)
    by (unfold to_uint32; apply Z.mod_small; lia).
  assert (Hw : to_uint32 (Z.of_nat (length gs)) = Z.of_nat (length order))
    by (unfold to_uint32; rewrite Hsize; apply Z.mod_small; lia).
  rewrite Hm, Hw.
  destruct (Z.eqb_spec max_unchoked 0) as [|_]; [lia|].
  destruct (balance_loop_spec is_up order max_unchoked 0 gs Hnodup Hrange) as
    (left & gs' & Hloop & Hleft & Hlen' & _ & Hother & Hsum & Hpos).
  { lia. }
  { rewrite Hsize. exact Hlen. }
  assert (Hperm' : Permutation order (seq 0 (length gs'))) by (rewrite Hlen'; exact Hperm).
  rewrite Hloop. cbn [Z.eqb negb].
  rewrite (sum_at_all is_up gs' order Hperm') in *.
  rewrite (sum_at_all is_up gs order Hperm) in *.
  exists gs'. split; [reflexivity|]. split; [exact Hlen'|].
  split.
  { apply nth_error_ext. intros j. rewrite !nth_error_map. apply Hother. }
  assert (Hall : Forall (fun g => 0 <= size_unchoked (queue_of is_up g)) gs').
  { apply unchoked_at_nonneg_total. intros i Hi. apply Hpos.
    apply (Permutation_in _ (Permutation_sym Hperm')). apply in_seq. lia. }
  split; [exact Hall|].
  split; [|lia].
  clear - Hall. induction Hall; cbn; [lia|]. fold (total_unchoked is_up l). lia.
Qed.

Lemma same_queues_nonneg is_up (gs1 gs2 : list (@group Q)) :
  map (queue_of is_up) gs1 = map (queue_of is_up) gs2 ->
  Forall (fun g => 0 <= size_unchoked (queue_of is_up g)) gs2 ->
  Forall (fun g => 0 <= size_unchoked (queue_of is_up g)) gs1.
Proof.
  intros Hmap Hall.
  apply (Forall_map (queue_of is_up) (fun q => 0 <= size_unchoked q)).
  rewrite Hmap. apply Forall_map. exact Hall.
Qed.

Lemma same_queues_sum is_up (gs1 gs2 : list (@group Q)) :
  map (queue_of is_up) gs1 = map (queue_of is_up) gs2 ->
  total_unchoked is_up gs1 = total_unchoked is_up gs2.
Proof. intros Hmap. rewrite !total_unchoked_map, Hmap. reflexivity. Qed.

Lemma receive_tick_reconciles order_up order_down (s : @t Q) :
  ResourceManager.validate_group_iterators (manager s) = (Return tt, manager s) ->
  Permutation order_up (seq 0 (length (choke_groups s))) ->
  Permutation order_down (seq 0 (length (choke_groups s))) ->
  Z.of_nat (length (choke_groups s)) < 2 ^ 32 ->
  0 < ResourceManager.m_maxUploadUnchoked (counters s) < 2 ^ 32 ->
  0 < ResourceManager.m_maxDownloadUnchoked (counters s) < 2 ^ 32 ->
  reconciled s ->
  exists s',
    receive_tick order_up order_down s = (Return tt, s') /\
    reconciled s' /\
    manager s' = manager s /\
    length (choke_groups s') = length (choke_groups s) /\
    ResourceManager.m_maxUploadUnchoked (counters s')
      = ResourceManager.m_maxUploadUnchoked (counters s) /\
    ResourceManager.m_maxDownloadUnchoked (counters s')
      = ResourceManager.m_maxDownloadUnchoked (counters s) /\
    0 <= ResourceManager.m_currentlyUploadUnchoked (counters s')
      <= ResourceManager.m_maxUploadUnchoked (counters s) /\
    0 <= ResourceManager.m_currentlyDownloadUnchoked (counters s')
      <= ResourceManager.m_maxDownloadUnchoked (counters s).
Proof.
  intros Hval Hup Hdown Hlen Hmax_up Hmax_down [Hcur_up Hcur_down].
  destruct s as [m c gs]. cbn [manager counters choke_groups] in *.
  destruct (balance_unchoked_limit true _ order_up gs Hup Hmax_up Hlen) as
    (gs1 & Hrun1 & Hlen1 & Hmap1 & Hpos1 & Htotal1).
  assert (Hdown1 : Permutation order_down (seq 0 (length gs1)))
    by (rewrite Hlen1; exact Hdown).
  assert (Hlen1' : Z.of_nat (length gs1) < 2 ^ 32) by (rewrite Hlen1; exact Hlen).
  destruct (balance_unchoked_limit false _ order_down gs1 Hdown1 Hmax_down Hlen1') as
    (gs2 & Hrun2 & Hlen2 & Hmap2 & Hpos2 & Htotal2).
  rewrite Hlen1 in Hrun2. cbn [negb] in Hmap1, Hmap2.
  unfold receive_tick. cbn [manager counters choke_groups].
  rewrite Hval, Hrun1, Hrun2.
  pose proof (same_queues_sum false gs1 gs Hmap1) as Hsame_down.
  pose proof (same_queues_sum true gs2 gs1 Hmap2) as Hsame_up.
  pose proof (same_queues_nonneg true gs2 gs1 Hmap2 Hpos1) as Hpos_up.
  assert (Hnew_up : to_uint32 (ResourceManager.m_currentlyUploadUnchoked c
                               + (total_unchoked true gs1 - total_unchoked true gs))
                    = total_unchoked true gs2).
  { rewrite Hcur_up, Hsame_up.
    replace (total_unchoked true gs + (total_unchoked true gs1 - total_unchoked true gs))
      with (total_unchoked true gs1) by lia.
    unfold to_uint32. apply Z.mod_small. lia. }
  assert (Hnew_down : to_uint32 (ResourceManager.m_currentlyDownloadUnchoked c
                                 + (total_unchoked false gs2 - total_unchoked false gs1))
                      = total_unchoked false gs2).
  { rewrite Hcur_down, Hsame_down.
    replace (total_unchoked false gs + (total_unchoked false gs2 - total_unchoked false gs))
      with (total_unchoked false gs2) by lia.
    unfold to_uint32. apply Z.mod_small. lia. }
  rewrite Hnew_up, Hnew_down.
  rewrite (accumulate_total true gs2 Hpos_up) by lia.
  rewrite (accumulate_total false gs2 Hpos2) by lia.
  rewrite !Z.eqb_refl. cbn [negb].
  eexists. split; [reflexivity|].
  unfold reconciled. cbn [manager counters choke_groups
    ResourceManager.m_currentlyUploadUnchoked ResourceManager.m_currentlyDownloadUnchoked
    ResourceManager.m_maxUploadUnchoked ResourceManager.m_maxDownloadUnchoked].
  repeat split; try reflexivity; try lia.
Qed.

End Balanced.

End Queues.

Lemma interest_keeps_quota : @cycle_keeps_quota interest interest_queue.
Proof.
  intros quota q Hquota. cbn [cycle size_unchoked interest_queue].
  unfold interest_cycle. cbn [fst snd unchoked]. lia.
Qed.

End ResourceManagerTickFacts.

(** X24. With a limit that is not zero and the number of groups as weight,
    [balance_unchoked] returns, whatever order std::sort leaves the groups
    in: the weight reaches zero, the queues of the other direction are as
    before, the groups together have at most the limit unchoked, and the
    value returned is the change of that number. *)
Theorem balance_unchoked_shares_the_limit {Q : Type} `{ResourceManagerTick.ChokeQueue Q}
    (is_up : bool) (max_unchoked : Z) (order : list nat)
    (gs : list (@ResourceManagerTick.group Q)) :
  ResourceManagerTick.cycle_keeps_quota ->
  Permutation order (seq 0 (length gs)) ->
  0 < max_unchoked < 2 ^ 32 ->
  Z.of_nat (length gs) < 2 ^ 32 ->
  exists gs',
    ResourceManagerTick.balance_unchoked (Z.of_nat (length gs)) max_unchoked is_up order gs
      = (Return (ResourceManagerTick.total_unchoked is_up gs'
                 - ResourceManagerTick.total_unchoked is_up gs), gs') /\
    length gs' = length gs /\
    map (ResourceManagerTick.queue_of (negb is_up)) gs'
      = map (ResourceManagerTick.queue_of (negb is_up)) gs /\
    0 <= ResourceManagerTick.total_unchoked is_up gs' <= max_unchoked.
Proof.
  intros Hcycle Hperm Hmax Hlen.
  destruct (ResourceManagerTickFacts.balance_unchoked_limit Hcycle is_up max_unchoked
              order gs Hperm Hmax Hlen) as (gs' & Hrun & Hlen' & Hmap & _ & Htotal).
  exists gs'. repeat split; try assumption; lia.
Qed.

Lemma balance_unchoked_shares_the_limit_witness :
  exists gs',
    ResourceManagerTick.balance_unchoked 3 9 true [0; 1; 2]%nat
      ResourceManagerTick.three_groups
      = (Return (ResourceManagerTick.total_unchoked true gs' - 0), gs') /\
    length gs' = 3%nat /\
    map (ResourceManagerTick.queue_of false) gs'
      = map (ResourceManagerTick.queue_of false) ResourceManagerTick.three_groups /\
    0 <= ResourceManagerTick.total_unchoked true gs' <= 9.
Proof.
  destruct (balance_unchoked_shares_the_limit true 9 [0; 1; 2]%nat
              ResourceManagerTick.three_groups) as (gs' & Hrun & Hlen & Hmap & Htotal).
  - exact ResourceManagerTickFacts.interest_keeps_quota.
  - apply Permutation_refl.
  - lia.
  - cbn. lia.
  - exists gs'. split; [exact Hrun|]. split; [exact Hlen|]. split; [exact Hmap|exact Htotal].
Defined.

(** X25. With a limit that is not zero and a weight that is not the number
    of groups, [balance_unchoked] throws internal_error after the loop over
    the groups. *)
Theorem balance_unchoked_weight_mismatch {Q : Type} `{ResourceManagerTick.ChokeQueue Q}
    (is_up : bool) (weight max_unchoked : Z) (order : list nat)
    (gs : list (@ResourceManagerTick.group Q)) :
  Permutation order (seq 0 (length gs)) ->
  gs <> [] ->
  to_uint32 max_unchoked <> 0 ->
  Z.of_nat (length gs) < 2 ^ 32 ->
  to_uint32 weight <> Z.of_nat (length gs) ->
  exists gs',
    ResourceManagerTick.balance_unchoked weight max_unchoked is_up order gs
      = (Throw (internal_error
                  "ResourceManager::balance_unchoked(...) weight did not reach zero."),
         gs').
Proof. apply ResourceManagerTickFacts.balance_unchoked_mismatch. Qed.

Lemma balance_unchoked_weight_mismatch_witness :
  exists gs',
    ResourceManagerTick.balance_unchoked 2 9 true [0; 1; 2]%nat
      ResourceManagerTick.three_groups
      = (Throw (internal_error
                  "ResourceManager::balance_unchoked(...) weight did not reach zero."),
         gs').
Proof.
  apply (balance_unchoked_weight_mismatch true 2 9 [0; 1; 2]%nat
           ResourceManagerTick.three_groups).
  - apply Permutation_refl.
  - discriminate.
  - vm_compute. discriminate.
  - cbn. lia.
  - vm_compute. discriminate.
Defined.

(** X26. When the iterators of the groups validate, both limits are set and
    the two counters equal the numbers the queues have unchoked,
    [receive_tick] returns: neither of its two final checks throws, the
    counters again equal those numbers, and each is within its limit. The
    entries, the groups and the limits are as before. *)
Theorem receive_tick_reconciles_the_counters {Q : Type} `{ResourceManagerTick.ChokeQueue Q}
    (order_up order_down : list nat) (s : @ResourceManagerTick.t Q) :
  ResourceManagerTick.cycle_keeps_quota ->
  ResourceManager.validate_group_iterators (ResourceManagerTick.manager s)
    = (Return tt, ResourceManagerTick.manager s) ->
  Permutation order_up (seq 0 (length (ResourceManagerTick.choke_groups s))) ->
  Permutation order_down (seq 0 (length (ResourceManagerTick.choke_groups s))) ->
  Z.of_nat (length (ResourceManagerTick.choke_groups s)) < 2 ^ 32 ->
  0 < ResourceManager.m_maxUploadUnchoked (ResourceManagerTick.counters s) < 2 ^ 32 ->
  0 < ResourceManager.m_maxDownloadUnchoked (ResourceManagerTick.counters s) < 2 ^ 32 ->
  ResourceManagerTick.reconciled s ->
  exists s',
    ResourceManagerTick.receive_tick order_up order_down s = (Return tt, s') /\
    ResourceManagerTick.reconciled s' /\
    ResourceManagerTick.manager s' = ResourceManagerTick.manager s /\
    length (ResourceManagerTick.choke_groups s')
      = length (ResourceManagerTick.choke_groups s) /\
    ResourceManager.m_maxUploadUnchoked (ResourceManagerTick.counters s')
      = ResourceManager.m_maxUploadUnchoked (ResourceManagerTick.counters s) /\
    ResourceManager.m_maxDownloadUnchoked (ResourceManagerTick.counters s')
      = ResourceManager.m_maxDownloadUnchoked (ResourceManagerTick.counters s) /\
    0 <= ResourceManager.m_currentlyUploadUnchoked (ResourceManagerTick.counters s')
      <= ResourceManager.m_maxUploadUnchoked (ResourceManagerTick.counters s) /\
    0 <= ResourceManager.m_currentlyDownloadUnchoked (ResourceManagerTick.counters s')
      <= ResourceManager.m_maxDownloadUnchoked (ResourceManagerTick.counters s).
Proof.
  intros Hcycle. apply ResourceManagerTickFacts.receive_tick_reconciles. exact Hcycle.
Qed.

Lemma receive_tick_reconciles_the_counters_witness :
  exists s',
    ResourceManagerTick.receive_tick [0; 1; 2]%nat [1; 2; 0]%nat ResourceManagerTick.evening
      = (Return tt, s') /\
    ResourceManagerTick.reconciled s' /\
    0 <= ResourceManager.m_currentlyUploadUnchoked (ResourceManagerTick.counters s') <= 9 /\
    0 <= ResourceManager.m_currentlyDownloadUnchoked (ResourceManagerTick.counters s') <= 4.
Proof.
  destruct (receive_tick_reconciles_the_counters [0; 1; 2]%nat [1; 2; 0]%nat
              ResourceManagerTick.evening) as (s' & Hrun & Hrec & _ & _ & _ & _ & Hup & Hdown).
  - exact ResourceManagerTickFacts.interest_keeps_quota.
  - vm_compute. reflexivity.
  - apply Permutation_refl.
  - apply (Permutation_cons_app [0%nat] [2%nat] 1%nat).
    apply (Permutation_cons_app [0%nat] [] 2%nat). apply Permutation_refl.
  - cbn. lia.
  - cbn. lia.
  - cbn. lia.
  - split; reflexivity.
  - exists s'. split; [exact Hrun|]. split; [exact Hrec|]. split; [exact Hup|exact Hdown].
Defined.
